(** * Verification of the bsdiff codec and of the patch-stream consumers

    Shallow embedding of the Go sources of the [pwr] bsdiff codec
    (suffix sorting, match search, [BSDiff], [BSPatch]) and of the
    [probe] command that walks a patch stream, followed by the theorems
    that settle the claims of the specification. *)

From Stdlib Require Import String ZArith List Lia Bool Permutation.
From Stdlib.Strings Require Import Byte.
Import ListNotations.
Local Open Scope Z_scope.

(* ================================================================== *)
(** * The Go runtime, as far as the sources use it *)
(* ================================================================== *)

(** A Go computation either completes, panics (index or slice bounds
    out of range, a [make] size that is negative or too large), or, in
    the model only, runs out of the fuel given to an unbounded loop. *)
Inductive run (A : Type) : Type :=
| Done (a : A)
| Panic
| Timeout.
Arguments Done {A} a.
Arguments Panic {A}.
Arguments Timeout {A}.

Definition bind {A B} (c : run A) (k : A -> run B) : run B :=
  match c with
  | Done a => k a
  | Panic => Panic
  | Timeout => Timeout
  end.

Declare Scope run_scope.
Delimit Scope run_scope with run.
Notation "x <- c ;; k" := (bind c (fun x => k))
  (at level 100, c at next level, right associativity) : run_scope.
Notation "' p <- c ;; k" := (bind c (fun p => k))
  (at level 100, p pattern, c at next level, right associativity) : run_scope.
Local Open Scope run_scope.

(** Go's [int] is 64 bits wide on the targets of the program.  Inside
    the suffix sort and the diff every integer is an index into, or a
    small multiple of the length of, a slice held in memory, so they
    are modelled by [Z].  The [int64] fields that [BSPatch] and the
    probe read from a patch are arbitrary, hence their arithmetic wraps
    (see [add64]). *)

(** [a[i]] *)
Definition ld {A} (a : list A) (i : Z) : run A :=
  if i <? 0 then Panic
  else match nth_error a (Z.to_nat i) with
       | Some x => Done x
       | None => Panic
       end.

Fixpoint set_nth {A} (n : nat) (a : list A) (x : A) : list A :=
  match a, n with
  | [], _ => []
  | _ :: t, O => x :: t
  | y :: t, S m => y :: set_nth m t x
  end.

(** [a[i] = x] *)
Definition st {A} (a : list A) (i : Z) (x : A) : run (list A) :=
  if (0 <=? i) && (i <? Z.of_nat (length a))
  then Done (set_nth (Z.to_nat i) a x)
  else Panic.

(** [a[lo:]] for a slice whose capacity is its length *)
Definition slice_from {A} (a : list A) (lo : Z) : run (list A) :=
  if (0 <=? lo) && (lo <=? Z.of_nat (length a))
  then Done (skipn (Z.to_nat lo) a)
  else Panic.

(** [a[lo:hi]] for a slice whose capacity is its length *)
Definition slice {A} (a : list A) (lo hi : Z) : run (list A) :=
  if (0 <=? lo) && (lo <=? hi) && (hi <=? Z.of_nat (length a))
  then Done (firstn (Z.to_nat (hi - lo)) (skipn (Z.to_nat lo) a))
  else Panic.

(** [for i := lo; i < hi; i++ { body }], where the body changes neither
    [i] nor the bounds *)
Fixpoint for_up {St} (n : nat) (i : Z) (body : Z -> St -> run St) (s : St) : run St :=
  match n with
  | O => Done s
  | S n' => s' <- body i s ;; for_up n' (i + 1) body s'
  end.

Definition for_range {St} (lo hi : Z) (body : Z -> St -> run St) (s : St) : run St :=
  for_up (Z.to_nat (hi - lo)) lo body s.

(** [for cond { body }]; [fuel] bounds the number of times the body runs *)
Fixpoint while {St} (fuel : nat) (cond : St -> run bool) (body : St -> run St)
  (s : St) : run St :=
  c <- cond s ;;
  if c : bool then
    match fuel with
    | O => Timeout
    | S f => s' <- body s ;; while f cond body s'
    end
  else Done s.

(** [for i, c := range l { body }] *)
Fixpoint for_each {A St} (l : list A) (i : Z) (body : Z -> A -> St -> run St)
  (s : St) : run St :=
  match l with
  | [] => Done s
  | c :: l' => s' <- body i c s ;; for_each l' (i + 1) body s'
  end.

Definition len {A} (a : list A) : Z := Z.of_nat (length a).

(** [make([]byte, n)].  The runtime panics when [n] is negative and
    when [n] is more than it grants to one allocation ("makeslice: len
    out of range"); [maxAlloc] stands for that limit, which depends on
    the platform and is never more than the memory at hand. *)
Definition make_bytes (maxAlloc n : Z) : run (list byte) :=
  if (n <? 0) || (maxAlloc <? n) then Panic
  else Done (repeat x00 (Z.to_nat n)).

(** The value of a byte as an index or an operand *)
Definition b2z (c : byte) : Z := Z.of_N (Byte.to_N c).

(** Conversion of an integer to [byte] keeps the low eight bits. *)
Definition z2b (z : Z) : byte :=
  match Byte.of_N (Z.to_N (z mod 256)) with
  | Some c => c
  | None => x00
  end.

(* ================================================================== *)
(** * Messages and the message-framed stream *)
(* ================================================================== *)

(** The error values the sources return.  [errors.Wrap(err, 0)] only
    attaches a stack trace and is modelled as the error it wraps.  The
    errors of the io.Reader, io.Writer and wire collaborators are kept
    apart from the errors the sources create themselves. *)
Inductive SyncHeader_Type :=
| SyncHeader_RSYNC
| SyncHeader_BSDIFF
| SyncHeader_unknown (n : Z).

Inductive SyncOp_Type :=
| SyncOp_BLOCK_RANGE
| SyncOp_DATA
| SyncOp_HEY_YOU_DID_IT
| SyncOp_unknown (n : Z).

Inductive error :=
| ErrCorrupt                                   (* pwr.ErrCorrupt *)
| ErrEOF                                       (* the stream has ended *)
| ErrDecode                                    (* not a message of the kind asked for *)
| ErrReader (code : Z)                         (* failure of an io.Reader *)
| ErrWriter (code : Z)                         (* failure of an io.Writer *)
| ErrExpectedFile (expected got : Z)           (* "malformed patch: expected file %d, got %d" *)
| ErrExpectedHeyYouDidIt (got : SyncOp_Type)   (* "expected HEY_YOU_DID_IT, got %s" *)
| ErrMissingHeyYouDidIt                        (* "missing HEY_YOU_DID_IT after bsdiff series" *)
| ErrAnalyzeSeries (t : SyncHeader_Type)       (* "don't know how to analyze series of type %d" *)
| ErrSkipSeries (t : SyncHeader_Type).         (* "dunno how to skip series of type %d" *)

Record SyncHeader := { sh_Type : SyncHeader_Type; sh_FileIndex : Z }.

Record SyncOp := {
  op_Type : SyncOp_Type;
  op_FileIndex : Z;
  op_BlockIndex : Z;
  op_BlockSpan : Z;
  op_Data : list byte }.

Record BsdiffHeader := { bh_TargetIndex : Z }.

(** [bsdiff.Control] of the streaming codec, as the probe reads it *)
Record Control := {
  c_Add : list byte;
  c_Copy : list byte;
  c_Seek : Z;
  c_Eof : bool }.

(** [BsdiffControl] of the codec of this package: the control triple *)
Record BsdiffControl := { Add : Z; Copy : Z; Seek : Z }.

Inductive message :=
| MSyncHeader (m : SyncHeader)
| MSyncOp (m : SyncOp)
| MBsdiffHeader (m : BsdiffHeader)
| MControl (m : Control)
| MBsdiffControl (m : BsdiffControl)
| MBsdiffDiff (Data : list byte)
| MBsdiffExtra (Data : list byte).

(** Modelled from the spec: the message-framed reader and writer
    ([wire.ReadContext], [wire.WriteContext]) are collaborators outside
    the repository.  A read context is the sequence of messages still
    to be read; [ReadMessage] takes exactly one message off it and
    fails at the end of the stream or when the message is not of the
    kind asked for.  A write context records the messages written and
    how many more the underlying writer accepts ([None]: no limit). *)
Definition ReadContext := list message.

Definition ReadMessage {A} (decode : message -> option A) (r : ReadContext)
  : ReadContext * (error + A) :=
  match r with
  | [] => ([], inl ErrEOF)
  | m :: r' =>
      match decode m with
      | Some a => (r', inr a)
      | None => (r', inl ErrDecode)
      end
  end.

Definition asSyncHeader m := match m with MSyncHeader x => Some x | _ => None end.
Definition asSyncOp m := match m with MSyncOp x => Some x | _ => None end.
Definition asBsdiffHeader m := match m with MBsdiffHeader x => Some x | _ => None end.
Definition asControl m := match m with MControl x => Some x | _ => None end.
Definition asBsdiffControl m := match m with MBsdiffControl x => Some x | _ => None end.
Definition asBsdiffDiff m := match m with MBsdiffDiff x => Some x | _ => None end.
Definition asBsdiffExtra m := match m with MBsdiffExtra x => Some x | _ => None end.

Record WriteContext := { sent : list message; quota : option nat }.

Definition WriteMessage (w : WriteContext) (m : message)
  : WriteContext * option error :=
  match quota w with
  | Some O => (w, Some (ErrWriter 0))
  | Some (S q) => ({| sent := sent w ++ [m]; quota := Some q |}, None)
  | None => ({| sent := sent w ++ [m]; quota := None |}, None)
  end.

(** An [io.Reader] handed to [ioutil.ReadAll]: the bytes it yields and
    the error, if any, that ends the reading. *)
Record Reader := { r_data : list byte; r_err : option error }.

Definition ReadAll (r : Reader) : error + list byte :=
  match r_err r with
  | Some e => inl e
  | None => inr (r_data r)
  end.

(* ================================================================== *)
(** * Suffix sorting: [split] and [qsufsort] *)
(* ================================================================== *)

Module Bsdiff.

(** [func swap(a []int, i, j int) { a[i], a[j] = a[j], a[i] }] *)
Definition swap (a : list Z) (i j : Z) : run (list Z) :=
  y <- ld a j ;;
  x <- ld a i ;;
  a' <- st a i y ;;
  st a' j x.

(** [V[I[k]+h]] *)
Definition key (I_ V : list Z) (h k : Z) : run Z :=
  p <- ld I_ k ;; ld V (p + h).

(** The branch [length < 16] of [split]: selection sort by groups. *)
Definition split_small (I_ V : list Z) (start length h : Z)
  : run (list Z * list Z) :=
  '(I_, V, _) <-
    while (Z.to_nat length)
      (fun '(_, _, k) => Done (k <? start + length))
      (fun '(I_, V, k) =>
         x <- key I_ V h k ;;
         '(I_, x, j) <-
           for_range 1 (start + length - k)
             (fun i '(I_, x, j) =>
                v <- key I_ V h (k + i) ;;
                let '(x, j) := if v <? x then (v, 0) else (x, j) in
                if v =? x then
                  I_ <- swap I_ (k + i) (k + j) ;; Done (I_, x, j + 1)
                else Done (I_, x, j))
             (I_, x, 1) ;;
         V <- for_range 0 j
                (fun i V => p <- ld I_ (k + i) ;; st V p (k + j - 1)) V ;;
         I_ <- (if j =? 1 then st I_ k (-1) else Done I_) ;;
         Done (I_, V, k + j))
      (I_, V, start) ;;
  Done (I_, V).

(** The counting pass of [split]: [jj] keys below the pivot, [kk] equal. *)
Definition split_count (I_ V : list Z) (start length h x : Z) : run (Z * Z) :=
  for_range start (start + length)
    (fun i '(jj, kk) =>
       v <- key I_ V h i ;;
       let jj := if v <? x then jj + 1 else jj in
       let kk := if v =? x then kk + 1 else kk in
       Done (jj, kk))
    (0, 0).

(** The two partitioning loops of [split]. *)
Definition split_partition (I_ V : list Z) (start length h x jj kk : Z)
  : run (list Z) :=
  '(I_, _, j, k) <-
    while (Z.to_nat length)
      (fun '(_, i, _, _) => Done (i <? jj))
      (fun '(I_, i, j, k) =>
         v <- key I_ V h i ;;
         if v <? x then Done (I_, i + 1, j, k)
         else if v =? x then I_ <- swap I_ i (jj + j) ;; Done (I_, i, j + 1, k)
         else I_ <- swap I_ i (kk + k) ;; Done (I_, i, j, k + 1))
      (I_, start, 0, 0) ;;
  '(I_, _, _) <-
    while (Z.to_nat length)
      (fun '(_, j, _) => Done (jj + j <? kk))
      (fun '(I_, j, k) =>
         v <- key I_ V h (jj + j) ;;
         if v =? x then Done (I_, j + 1, k)
         else I_ <- swap I_ (jj + j) (kk + k) ;; Done (I_, j, k + 1))
      (I_, j, k) ;;
  Done I_.

(** [split]: ternary-split quicksort of [I[start : start+length]] on the
    keys [V[I[i]+h]].  The recursion is on strictly shorter ranges;
    [fuel] bounds its depth. *)
Fixpoint split_rec (fuel : nat) (I_ V : list Z) (start length h : Z)
  : run (list Z * list Z) :=
  if length <? 16 then split_small I_ V start length h
  else
    match fuel with
    | O => Timeout
    | S fuel =>
        x <- key I_ V h (start + length / 2) ;;
        '(jj, kk) <- split_count I_ V start length h x ;;
        let jj := jj + start in
        let kk := kk + jj in
        I_ <- split_partition I_ V start length h x jj kk ;;
        '(I_, V) <- (if jj >? start then split_rec fuel I_ V start (jj - start) h
                    else Done (I_, V)) ;;
        V <- for_range 0 (kk - jj)
               (fun i V => p <- ld I_ (jj + i) ;; st V p (kk - 1)) V ;;
        I_ <- (if jj =? kk - 1 then st I_ jj (-1) else Done I_) ;;
        if start + length >? kk
        then split_rec fuel I_ V kk (start + length - kk) h
        else Done (I_, V)
    end.

Definition split (I_ V : list Z) (start length h : Z) : run (list Z * list Z) :=
  split_rec (Z.to_nat length) I_ V start length h.

(** [copy(dst, src)] *)
Definition copy {A} (dst src : list A) : list A :=
  let n := Nat.min (length dst) (length src) in
  firstn n src ++ skipn n dst.

(** The bucket phase of [qsufsort], up to and including [I[0] = -1]. *)
Definition qsufsort_init (obuf : list byte) : run (list Z * list Z) :=
  let buckets := repeat 0 256 in
  let I_ := repeat 0 (S (length obuf)) in
  let V := repeat 0 (S (length obuf)) in
  buckets <- for_each obuf 0
               (fun _ c b => n <- ld b (b2z c) ;; st b (b2z c) (n + 1)) buckets ;;
  buckets <- for_range 1 256
               (fun i b => n <- ld b i ;; m <- ld b (i - 1) ;; st b i (n + m))
               buckets ;;
  let buckets := firstn 1 buckets ++ copy (skipn 1 buckets) buckets in
  buckets <- st buckets 0 0 ;;
  '(buckets, I_) <-
    for_each obuf 0
      (fun i c '(b, I_) =>
         n <- ld b (b2z c) ;;
         b <- st b (b2z c) (n + 1) ;;
         p <- ld b (b2z c) ;;
         I_ <- st I_ p i ;;
         Done (b, I_))
      (buckets, I_) ;;
  I_ <- st I_ 0 (len obuf) ;;
  V <- for_each obuf 0
         (fun i c V => p <- ld buckets (b2z c) ;; st V i p) V ;;
  V <- st V (len obuf) 0 ;;
  I_ <- for_range 1 256
         (fun i I_ =>
            n <- ld buckets i ;;
            m <- ld buckets (i - 1) ;;
            if n =? m + 1 then st I_ n (-1) else Done I_)
         I_ ;;
  I_ <- st I_ 0 (-1) ;;
  Done (I_, V).

(** One pass of the doubling loop of [qsufsort], at depth [h]. *)
Definition qsufsort_pass (obuf : list byte) (I_ V : list Z) (h : Z)
  : run (list Z * list Z) :=
  '(I_, V, i, n) <-
    while (S (length obuf))
      (fun '(_, _, i, _) => Done (i <? len obuf + 1))
      (fun '(I_, V, i, n) =>
         e <- ld I_ i ;;
         if e <? 0 then Done (I_, V, i - e, n - e)
         else
           I_ <- (if negb (n =? 0) then st I_ (i - n) (- n) else Done I_) ;;
           p <- ld I_ i ;;
           v <- ld V p ;;
           let n := v + 1 - i in
           '(I_, V) <- split I_ V i n h ;;
           Done (I_, V, i + n, 0))
      (I_, V, 0, 0) ;;
  I_ <- (if negb (n =? 0) then st I_ (i - n) (- n) else Done I_) ;;
  Done (I_, V).

(** [qsufsort]: the doubling loop runs while [I[0] != -(len(obuf)+1)];
    [fuel] bounds the number of passes. *)
Definition qsufsort_fuel (fuel : nat) (obuf : list byte) : run (list Z) :=
  '(I_, V) <- qsufsort_init obuf ;;
  '(I_, V, _) <-
    while fuel
      (fun '(I_, _, _) => e <- ld I_ 0 ;; Done (negb (e =? - (len obuf + 1))))
      (fun '(I_, V, h) =>
         '(I_, V) <- qsufsort_pass obuf I_ V h ;; Done (I_, V, h + h))
      (I_, V, 1) ;;
  for_range 0 (len obuf + 1)
    (fun i I_ => p <- ld V i ;; st I_ p i) I_.

Definition qsufsort (obuf : list byte) : run (list Z) :=
  qsufsort_fuel (length obuf + 2) obuf.

(** [matchlen]: the number of leading bytes common to [a] and [b] *)
Fixpoint matchlen (a b : list byte) : Z :=
  match a, b with
  | x :: a', y :: b' => if Byte.eqb x y then 1 + matchlen a' b' else 0
  | _, _ => 0
  end.

(** [bytes.Compare]: lexicographic comparison of byte strings *)
Fixpoint bytes_compare (a b : list byte) : comparison :=
  match a, b with
  | [], [] => Eq
  | [], _ :: _ => Lt
  | _ :: _, [] => Gt
  | x :: a', y :: b' =>
      match b2z x ?= b2z y with
      | Eq => bytes_compare a' b'
      | c => c
      end
  end.

(** [search]: binary search of [nbuf] among the suffixes listed in [I] *)
Fixpoint search_rec (fuel : nat) (I_ : list Z) (obuf nbuf : list byte)
  (st_ en : Z) : run (Z * Z) :=
  if en - st_ <? 2 then
    a <- ld I_ st_ ;;
    sa <- slice_from obuf a ;;
    let x := matchlen sa nbuf in
    b <- ld I_ en ;;
    sb <- slice_from obuf b ;;
    let y := matchlen sb nbuf in
    if x >? y then Done (a, x) else Done (b, y)
  else
    match fuel with
    | O => Timeout
    | S fuel =>
        let x := st_ + (en - st_) / 2 in
        a <- ld I_ x ;;
        sa <- slice_from obuf a ;;
        match bytes_compare sa nbuf with
        | Lt => search_rec fuel I_ obuf nbuf x en
        | _ => search_rec fuel I_ obuf nbuf st_ x
        end
    end.

Definition search (I_ : list Z) (obuf nbuf : list byte) (st_ en : Z)
  : run (Z * Z) :=
  search_rec (Z.to_nat (en - st_)) I_ obuf nbuf st_ en.

(* ------------------------------------------------------------------ *)
(** ** [BSDiff] *)

(** The scan loop of [BSDiff]
    ([for scsc := scan; scan < len(nbuf); scan++]), left by [break] or
    at the end of [nbuf]; yields [scan], [pos], [length], [oldscore]. *)
Fixpoint scan_loop (fuel : nat) (I_ : list Z) (obuf nbuf : list byte)
  (lastoffset scan scsc pos length oldscore : Z) : run (Z * Z * Z * Z) :=
  if scan <? len nbuf then
    match fuel with
    | O => Timeout
    | S fuel =>
        nb <- slice_from nbuf scan ;;
        '(pos, length) <- search I_ obuf nb 0 (len obuf) ;;
        oldscore <-
          for_range scsc (scan + length)
            (fun scsc oldscore =>
               if scsc + lastoffset <? len obuf then
                 o <- ld obuf (scsc + lastoffset) ;;
                 n <- ld nbuf scsc ;;
                 Done (if Byte.eqb o n then oldscore + 1 else oldscore)
               else Done oldscore)
            oldscore ;;
        let scsc := Z.max scsc (scan + length) in
        if ((length =? oldscore) && negb (length =? 0))
           || (length >? oldscore + 8)
        then Done (scan, pos, length, oldscore)
        else
          oldscore <-
            (if scan + lastoffset <? len obuf then
               o <- ld obuf (scan + lastoffset) ;;
               n <- ld nbuf scan ;;
               Done (if Byte.eqb o n then oldscore - 1 else oldscore)
             else Done oldscore) ;;
          scan_loop fuel I_ obuf nbuf lastoffset (scan + 1) scsc pos length
            oldscore
    end
  else Done (scan, pos, length, oldscore).

(** The forward extension: [lenf] maximising [2*matches - length]. *)
Definition extend_forward (obuf nbuf : list byte) (scan lastscan lastpos : Z)
  : run Z :=
  '(_, _, _, lenf) <-
    while (Z.to_nat (scan - lastscan))
      (fun '(i, _, _, _) =>
         Done ((lastscan + i <? scan) && (lastpos + i <? len obuf)))
      (fun '(i, s, Sf, lenf) =>
         o <- ld obuf (lastpos + i) ;;
         n <- ld nbuf (lastscan + i) ;;
         let s := if Byte.eqb o n then s + 1 else s in
         let i := i + 1 in
         if s * 2 - i >? Sf * 2 - lenf then Done (i, s, s, i)
         else Done (i, s, Sf, lenf))
      (0, 0, 0, 0) ;;
  Done lenf.

(** The backward extension from the next match: [lenb]. *)
Definition extend_backward (obuf nbuf : list byte) (scan lastscan pos : Z)
  : run Z :=
  if scan <? len nbuf then
    '(_, _, _, lenb) <-
      while (Z.to_nat (scan - lastscan))
        (fun '(i, _, _, _) => Done ((scan >=? lastscan + i) && (pos >=? i)))
        (fun '(i, s, Sb, lenb) =>
           o <- ld obuf (pos - i) ;;
           n <- ld nbuf (scan - i) ;;
           let s := if Byte.eqb o n then s + 1 else s in
           if s * 2 - i >? Sb * 2 - lenb then Done (i + 1, s, s, i)
           else Done (i + 1, s, Sb, lenb))
        (1, 0, 0, 0) ;;
    Done lenb
  else Done 0.

(** The resolution of an overlap of the two extensions: the new
    [lenf] and [lenb]. *)
Definition resolve_overlap (obuf nbuf : list byte)
  (scan pos lastscan lastpos lenf lenb : Z) : run (Z * Z) :=
  if lastscan + lenf >? scan - lenb then
    let overlap := (lastscan + lenf) - (scan - lenb) in
    '(_, _, lens) <-
      for_range 0 overlap
        (fun i '(s, Ss, lens) =>
           n1 <- ld nbuf (lastscan + lenf - overlap + i) ;;
           o1 <- ld obuf (lastpos + lenf - overlap + i) ;;
           let s := if Byte.eqb n1 o1 then s + 1 else s in
           n2 <- ld nbuf (scan - lenb + i) ;;
           o2 <- ld obuf (pos - lenb + i) ;;
           let s := if Byte.eqb n2 o2 then s - 1 else s in
           if s >? Ss then Done (s, s, i + 1) else Done (s, Ss, lens))
        (0, 0, 0) ;;
    Done (lenf + (lens - overlap), lenb - lens)
  else Done (lenf, lenb).

Record dstate := {
  scan : Z; pos : Z; length_ : Z;
  lastscan : Z; lastpos : Z; lastoffset : Z;
  db : list byte; eb : list byte; dblen : Z; eblen : Z;
  patch : WriteContext;
  err : option error }.

(** The body of [if length != oldscore || scan == len(nbuf)]: one
    control triple is computed and written. *)
Definition emit (obuf nbuf : list byte) (d : dstate) (scan pos length : Z)
  : run dstate :=
  lenf <- extend_forward obuf nbuf scan (lastscan d) (lastpos d) ;;
  lenb <- extend_backward obuf nbuf scan (lastscan d) pos ;;
  '(lenf, lenb) <-
    resolve_overlap obuf nbuf scan pos (lastscan d) (lastpos d) lenf lenb ;;
  db' <- for_range 0 lenf
           (fun i db =>
              n <- ld nbuf (lastscan d + i) ;;
              o <- ld obuf (lastpos d + i) ;;
              st db (dblen d + i) (z2b (b2z n - b2z o)))
           (db d) ;;
  eb' <- for_range 0 ((scan - lenb) - (lastscan d + lenf))
           (fun i eb =>
              n <- ld nbuf (lastscan d + lenf + i) ;;
              st eb (eblen d + i) n)
           (eb d) ;;
  let bsdc := {| Add := lenf;
                 Copy := (scan - lenb) - (lastscan d + lenf);
                 Seek := (pos - lenb) - (lastpos d + lenf) |} in
  let '(patch', e) := WriteMessage (patch d) (MBsdiffControl bsdc) in
  Done {| scan := scan; pos := pos; length_ := length;
          lastscan := match e with None => scan - lenb | Some _ => lastscan d end;
          lastpos := match e with None => pos - lenb | Some _ => lastpos d end;
          lastoffset := match e with None => pos - scan | Some _ => lastoffset d end;
          db := db'; eb := eb';
          dblen := dblen d + lenf;
          eblen := eblen d + ((scan - lenb) - (lastscan d + lenf));
          patch := patch'; err := e |}.

(** The main loop [for scan < len(nbuf)]; it also stops when writing a
    control message fails, which makes [BSDiff] return that error. *)
Definition diff_loop (I_ : list Z) (obuf nbuf : list byte) (d : dstate)
  : run dstate :=
  while (2 * length nbuf + 2)
    (fun d => Done (match err d with
                    | None => scan d <? len nbuf
                    | Some _ => false
                    end))
    (fun d =>
       '(scan, pos, length, oldscore) <-
         scan_loop (S (List.length nbuf)) I_ obuf nbuf (lastoffset d)
           (scan d + length_ d) (scan d + length_ d) (pos d) (length_ d) 0 ;;
       if negb (length =? oldscore) || (scan =? len nbuf)
       then emit obuf nbuf d scan pos length
       else Done {| scan := scan; pos := pos; length_ := length;
                    lastscan := lastscan d; lastpos := lastpos d;
                    lastoffset := lastoffset d;
                    db := db d; eb := eb d; dblen := dblen d; eblen := eblen d;
                    patch := patch d; err := None |})
    d.

(** [BSDiff]: the patch for [new] against [old], written to [patch]. *)
Definition BSDiff (old new : Reader) (patch : WriteContext)
  : run (WriteContext * option error) :=
  match ReadAll old with
  | inl e => Done (patch, Some e)
  | inr obuf =>
      match ReadAll new with
      | inl e => Done (patch, Some e)
      | inr nbuf =>
          I_ <- qsufsort obuf ;;
          let db := repeat x00 (List.length nbuf) in
          let eb := repeat x00 (List.length nbuf) in
          d <- diff_loop I_ obuf nbuf
                 {| scan := 0; pos := 0; length_ := 0;
                    lastscan := 0; lastpos := 0; lastoffset := 0;
                    db := db; eb := eb; dblen := 0; eblen := 0;
                    patch := patch; err := None |} ;;
          match err d with
          | Some e => Done (Bsdiff.patch d, Some e)
          | None =>
              let bsdc := {| Add := -1; Copy := 0; Seek := 0 |} in
              let '(patch, e) := WriteMessage (Bsdiff.patch d) (MBsdiffControl bsdc) in
              match e with
              | Some e => Done (patch, Some e)
              | None =>
                  Data <- slice (Bsdiff.db d) 0 (dblen d) ;;
                  let '(patch, e) := WriteMessage patch (MBsdiffDiff Data) in
                  match e with
                  | Some e => Done (patch, Some e)
                  | None =>
                      Data <- slice (Bsdiff.eb d) 0 (eblen d) ;;
                      let '(patch, e) := WriteMessage patch (MBsdiffExtra Data) in
                      Done (patch, e)
                  end
              end
          end
      end
  end.

(* ------------------------------------------------------------------ *)
(** ** [BSPatch] *)

(** [int64] addition wraps around. *)
Definition wrap64 (z : Z) : Z := (z + 2 ^ 63) mod 2 ^ 64 - 2 ^ 63.
Definition add64 (a b : Z) : Z := wrap64 (a + b).

(** [copy(a[lo:hi], src)]: the bytes copied land in [a] itself. *)
Definition copy_into (a : list byte) (lo hi : Z) (src : list byte)
  : run (list byte) :=
  dst <- slice a lo hi ;;
  Done (firstn (Z.to_nat lo) a ++ copy dst src ++ skipn (Z.to_nat hi) a).

(** The first loop of [BSPatch]: control messages are read and kept
    until the one with [Add == -1]. *)
Fixpoint read_controls (patch : ReadContext) (ctrlOps : list BsdiffControl)
  : ReadContext * (error + list BsdiffControl) :=
  match patch with
  | [] => ([], inl ErrEOF)
  | m :: patch' =>
      match asBsdiffControl m with
      | None => (patch', inl ErrDecode)
      | Some ctrlOp =>
          if Add ctrlOp =? -1 then (patch', inr ctrlOps)
          else read_controls patch'
                 (ctrlOps ++ [{| Add := Add ctrlOp; Copy := Copy ctrlOp;
                                 Seek := Seek ctrlOp |}])
      end
  end.

Record pstate := {
  nbuf : list byte;
  oldpos : Z; newpos : Z;
  diffOffset : Z; extraOffset : Z }.

(** One round of [for _, ctrl := range ctrlOps]; [inl] is the error the
    round returns. *)
Definition apply_control (newSize : Z) (obuf diff extra : list byte)
  (s : pstate) (ctrl : BsdiffControl) : run (error + pstate) :=
  if add64 (newpos s) (Add ctrl) >? newSize then Done (inl ErrCorrupt)
  else
    src <- slice diff (diffOffset s) (add64 (diffOffset s) (Add ctrl)) ;;
    nbuf <- copy_into (nbuf s) (newpos s) (add64 (newpos s) (Add ctrl)) src ;;
    let diffOffset := add64 (diffOffset s) (Add ctrl) in
    nbuf <- for_range 0 (Add ctrl)
              (fun i nbuf =>
                 n <- ld nbuf (add64 (newpos s) i) ;;
                 o <- ld obuf (add64 (oldpos s) i) ;;
                 st nbuf (add64 (newpos s) i) (z2b (b2z n + b2z o)))
              nbuf ;;
    let newpos := add64 (newpos s) (Add ctrl) in
    let oldpos := add64 (oldpos s) (Add ctrl) in
    if add64 newpos (Copy ctrl) >? newSize then Done (inl ErrCorrupt)
    else
      src <- slice extra (extraOffset s) (add64 (extraOffset s) (Copy ctrl)) ;;
      nbuf <- copy_into nbuf newpos (add64 newpos (Copy ctrl)) src ;;
      Done (inr {| nbuf := nbuf;
                   oldpos := add64 oldpos (Seek ctrl);
                   newpos := add64 newpos (Copy ctrl);
                   diffOffset := diffOffset;
                   extraOffset := add64 (extraOffset s) (Copy ctrl) |}).

Fixpoint apply_controls (newSize : Z) (obuf diff extra : list byte)
  (ctrlOps : list BsdiffControl) (s : pstate) : run (error + pstate) :=
  match ctrlOps with
  | [] => Done (inr s)
  | ctrl :: rest =>
      r <- apply_control newSize obuf diff extra s ctrl ;;
      match r with
      | inl e => Done (inl e)
      | inr s' => apply_controls newSize obuf diff extra rest s'
      end
  end.

Section Writer.

(** An [io.Writer]: its state and its [Write], which yields the new
    state, the count [n] and the error. *)
Variable W : Type.
Variable Write : W -> list byte -> W * Z * option error.

(** [for len(nbuf) > 0 { n, err := new.Write(nbuf); ...; nbuf = nbuf[n:] }] *)
Fixpoint write_all (fuel : nat) (w : W) (nbuf : list byte)
  : W * run (option error) :=
  if len nbuf >? 0 then
    match fuel with
    | O => (w, Timeout)
    | S fuel =>
        let '(w, n, e) := Write w nbuf in
        match e with
        | Some e => (w, Done (Some e))
        | None =>
            match slice_from nbuf n with
            | Done nbuf => write_all fuel w nbuf
            | Panic => (w, Panic)
            | Timeout => (w, Timeout)
            end
        end
    end
  else (w, Done None).

(** [BSPatch]: yields the read context and the writer as it leaves
    them, and what it returns.  [fuel] bounds the calls of [Write].
    Here [make([]byte, newSize)] is granted for every [newSize] that is
    not negative; [BSPatch_alloc] below has the limit of the
    allocator. *)
Definition BSPatch (fuel : nat) (old : Reader) (new : W) (newSize : Z)
  (patch : ReadContext) : ReadContext * W * run (option error) :=
  match read_controls patch [] with
  | (patch, inl e) => (patch, new, Done (Some e))
  | (patch, inr ctrlOps) =>
      match ReadMessage asBsdiffDiff patch with
      | (patch, inl e) => (patch, new, Done (Some e))
      | (patch, inr diff) =>
          match ReadMessage asBsdiffExtra patch with
          | (patch, inl e) => (patch, new, Done (Some e))
          | (patch, inr extra) =>
              match ReadAll old with
              | inl e => (patch, new, Done (Some e))
              | inr obuf =>
                  if newSize <? 0 then (patch, new, Panic)
                  else
                    let nbuf := repeat x00 (Z.to_nat newSize) in
                    match apply_controls newSize obuf diff extra ctrlOps
                            {| nbuf := nbuf; oldpos := 0; newpos := 0;
                               diffOffset := 0; extraOffset := 0 |} with
                    | Done (inl e) => (patch, new, Done (Some e))
                    | Done (inr s) =>
                        let '(new, r) := write_all fuel new (Bsdiff.nbuf s) in
                        (patch, new, r)
                    | Panic => (patch, new, Panic)
                    | Timeout => (patch, new, Timeout)
                    end
              end
          end
      end
  end.

(** [BSPatch] on a runtime that grants an allocation of at most
    [maxAlloc] bytes: [nbuf := make([]byte, newSize)] panics above it,
    after the patch and old have been read and before the loop over
    the control triples. *)
Definition BSPatch_alloc (maxAlloc : Z) (fuel : nat) (old : Reader) (new : W)
  (newSize : Z) (patch : ReadContext) : ReadContext * W * run (option error) :=
  match read_controls patch [] with
  | (patch, inl e) => (patch, new, Done (Some e))
  | (patch, inr ctrlOps) =>
      match ReadMessage asBsdiffDiff patch with
      | (patch, inl e) => (patch, new, Done (Some e))
      | (patch, inr diff) =>
          match ReadMessage asBsdiffExtra patch with
          | (patch, inl e) => (patch, new, Done (Some e))
          | (patch, inr extra) =>
              match ReadAll old with
              | inl e => (patch, new, Done (Some e))
              | inr obuf =>
                  match make_bytes maxAlloc newSize with
                  | Done nbuf =>
                      match apply_controls newSize obuf diff extra ctrlOps
                              {| nbuf := nbuf; oldpos := 0; newpos := 0;
                                 diffOffset := 0; extraOffset := 0 |} with
                      | Done (inl e) => (patch, new, Done (Some e))
                      | Done (inr s) =>
                          let '(new, r) := write_all fuel new (Bsdiff.nbuf s) in
                          (patch, new, r)
                      | Panic => (patch, new, Panic)
                      | Timeout => (patch, new, Timeout)
                      end
                  | Panic => (patch, new, Panic)
                  | Timeout => (patch, new, Timeout)
                  end
              end
          end
      end
  end.

End Writer.

(** A writer that keeps everything it is given, as [bytes.Buffer]. *)
Definition buffer_Write (w : list byte) (p : list byte)
  : list byte * Z * option error := (w ++ p, len p, None).

End Bsdiff.

(* ================================================================== *)
(** * The probe: walking the series of a patch stream *)
(* ================================================================== *)

Module Probe.

(** [tlc.File] and [tlc.Container], as far as the probe reads them *)
Record File := { Path : string; Size : Z }.
Record Container := { Files : list File }.

Record patchStat := {
  fileIndex : Z;
  freshData : Z;
  algo : SyncHeader_Type }.

Record deepDiveContext := {
  target : Container;
  source : Container;
  rctx : ReadContext }.

(** The sizes, positions and counters of the probe are [int64]; they
    are fed from fields of the patch, so their arithmetic wraps around,
    as that of [BSPatch] does. *)
Definition add64 (a b : Z) : Z := Bsdiff.wrap64 (a + b).
Definition sub64 (a b : Z) : Z := Bsdiff.wrap64 (a - b).
Definition mul64 (a b : Z) : Z := Bsdiff.wrap64 (a * b).

Section Blocks.

(** [pwr.BlockSize] and [pwr.ComputeBlockSize] belong to the wharf
    library; the probe is modelled for any values of them. *)
Variable BlockSize : Z.
Variable ComputeBlockSize : Z -> Z -> Z.

(** [doPrimaryAnalysis], case [SyncHeader_RSYNC]: the loop
    [for readingOps]; yields [stat.freshData]. *)
Fixpoint primary_rsync (f : File) (rctx : ReadContext) (freshData pos : Z)
  : ReadContext * (error + Z) :=
  match rctx with
  | [] => ([], inl ErrEOF)
  | m :: rctx =>
      match asSyncOp m with
      | None => (rctx, inl ErrDecode)
      | Some rop =>
          match op_Type rop with
          | SyncOp_BLOCK_RANGE =>
              let fixedSize := mul64 (sub64 (op_BlockSpan rop) 1) BlockSize in
              let lastIndex :=
                add64 (op_BlockIndex rop) (sub64 (op_BlockSpan rop) 1) in
              let lastSize := ComputeBlockSize (Size f) lastIndex in
              let totalSize := add64 fixedSize lastSize in
              primary_rsync f rctx (sub64 freshData totalSize)
                (add64 pos totalSize)
          | SyncOp_DATA =>
              let totalSize := len (op_Data rop) in
              primary_rsync f rctx freshData (add64 pos totalSize)
          | SyncOp_HEY_YOU_DID_IT => (rctx, inr freshData)
          | SyncOp_unknown _ => primary_rsync f rctx freshData pos
          end
      end
  end.

(** [for _, b := range bc.Add { if b == 0 { stat.freshData-- } }] *)
Definition count_zero_adds (add : list byte) (freshData : Z) : Z :=
  fold_left (fun fd b => if Byte.eqb b x00 then sub64 fd 1 else fd) add freshData.

(** [doPrimaryAnalysis], case [SyncHeader_BSDIFF]: the loop over the
    control messages, up to the one with [Eof]. *)
Fixpoint primary_controls (rctx : ReadContext) (freshData : Z)
  : ReadContext * (error + Z) :=
  match rctx with
  | [] => ([], inl ErrEOF)
  | m :: rctx =>
      match asControl m with
      | None => (rctx, inl ErrDecode)
      | Some bc =>
          let freshData := count_zero_adds (c_Add bc) freshData in
          if c_Eof bc then (rctx, inr freshData)
          else primary_controls rctx freshData
      end
  end.

(** [doPrimaryAnalysis], case [SyncHeader_BSDIFF] *)
Definition primary_bsdiff (rctx : ReadContext) (freshData : Z)
  : ReadContext * (error + Z) :=
  match ReadMessage asBsdiffHeader rctx with
  | (rctx, inl e) => (rctx, inl e)
  | (rctx, inr bh) =>
      match primary_controls rctx freshData with
      | (rctx, inl e) => (rctx, inl e)
      | (rctx, inr freshData) =>
          match ReadMessage asSyncOp rctx with
          | (rctx, inl e) => (rctx, inl e)
          | (rctx, inr rop) =>
              match op_Type rop with
              | SyncOp_HEY_YOU_DID_IT => (rctx, inr freshData)
              | t => (rctx, inl (ErrExpectedHeyYouDidIt t))
              end
          end
      end
  end.

(** [doPrimaryAnalysis]: one round of [for fileIndex, f := range
    source.Files]. *)
Definition primary_file (fileIndex : Z) (f : File) (rctx : ReadContext)
  : ReadContext * (error + patchStat) :=
  match ReadMessage asSyncHeader rctx with
  | (rctx, inl e) => (rctx, inl e)
  | (rctx, inr sh) =>
      if negb (sh_FileIndex sh =? fileIndex)
      then (rctx, inl (ErrExpectedFile fileIndex (sh_FileIndex sh)))
      else
        let mk fd := {| fileIndex := fileIndex; freshData := fd;
                        algo := sh_Type sh |} in
        match sh_Type sh with
        | SyncHeader_RSYNC =>
            match primary_rsync f rctx (Size f) 0 with
            | (rctx, inl e) => (rctx, inl e)
            | (rctx, inr fd) => (rctx, inr (mk fd))
            end
        | SyncHeader_BSDIFF =>
            match primary_bsdiff rctx (Size f) with
            | (rctx, inl e) => (rctx, inl e)
            | (rctx, inr fd) => (rctx, inr (mk fd))
            end
        | SyncHeader_unknown _ => (rctx, inr (mk (Size f)))
        end
  end.

(** [doPrimaryAnalysis]: the loop over [source.Files], from the read
    context positioned after the two containers; yields [patchStats]
    before they are sorted. *)
Fixpoint primary_files (fileIndex : Z) (files : list File) (rctx : ReadContext)
  (patchStats : list patchStat) : ReadContext * (error + list patchStat) :=
  match files with
  | [] => (rctx, inr patchStats)
  | f :: files =>
      match primary_file fileIndex f rctx with
      | (rctx, inl e) => (rctx, inl e)
      | (rctx, inr stat) =>
          primary_files (fileIndex + 1) files rctx (patchStats ++ [stat])
      end
  end.

End Blocks.

(** [targetBlocks[i] = targetBlocks[i] + span] on a map kept as an
    association list *)
Fixpoint add_blocks (targetBlocks : list (Z * Z)) (i span : Z) : list (Z * Z) :=
  match targetBlocks with
  | [] => [(i, add64 0 span)]
  | (k, v) :: rest =>
      if k =? i then (k, add64 v span) :: rest
      else (k, v) :: add_blocks rest i span
  end.

(** [analyzeRsync]: the loop [for readingOps]; yields [targetBlocks]. *)
Fixpoint analyzeRsync_ops (rctx : ReadContext) (targetBlocks : list (Z * Z))
  : ReadContext * (error + list (Z * Z)) :=
  match rctx with
  | [] => ([], inl ErrEOF)
  | m :: rctx =>
      match asSyncOp m with
      | None => (rctx, inl ErrDecode)
      | Some rop =>
          match op_Type rop with
          | SyncOp_BLOCK_RANGE =>
              analyzeRsync_ops rctx
                (add_blocks targetBlocks (op_FileIndex rop) (op_BlockSpan rop))
          | SyncOp_DATA => analyzeRsync_ops rctx targetBlocks
          | SyncOp_HEY_YOU_DID_IT => (rctx, inr targetBlocks)
          | SyncOp_unknown _ => analyzeRsync_ops rctx targetBlocks
          end
      end
  end.

(** [for i, numBlocks := range targetBlocks { tf := ddc.target.Files[i] ... }] *)
Fixpoint report_blocks (target : Container) (targetBlocks : list (Z * Z))
  : run unit :=
  match targetBlocks with
  | [] => Done tt
  | (i, _) :: rest => _ <- ld (Files target) i ;; report_blocks target rest
  end.

(** [analyzeRsync] *)
Definition analyzeRsync (ddc : deepDiveContext) (sh : SyncHeader)
  : ReadContext * run (option error) :=
  match ld (Files (source ddc)) (sh_FileIndex sh) with
  | Done f =>
      match analyzeRsync_ops (rctx ddc) [] with
      | (rctx, inl e) => (rctx, Done (Some e))
      | (rctx, inr targetBlocks) =>
          (rctx, _ <- report_blocks (target ddc) targetBlocks ;; Done None)
      end
  | Panic => (rctx ddc, Panic)
  | Timeout => (rctx ddc, Timeout)
  end.

Record bsdiffScan := {
  oldpos : Z; newpos : Z; pristine : Z; bestUnchanged : Z }.

(** [for _, b := range bc.Add] of [analyzeBsdiff], when
    [oldpos == newpos]; the third component is [unchanged]. *)
Definition scan_add (add : list byte) (s : bsdiffScan) : bsdiffScan :=
  let '(s, unchanged) :=
    fold_left
      (fun '(s, unchanged) b =>
         if Byte.eqb b x00 then
           ({| oldpos := add64 (oldpos s) 1; newpos := add64 (newpos s) 1;
               pristine := pristine s;
               bestUnchanged := add64 (bestUnchanged s) 1 |},
            add64 unchanged 1)
         else
           ({| oldpos := add64 (oldpos s) 1; newpos := add64 (newpos s) 1;
               pristine := pristine s; bestUnchanged := 0 |}, unchanged))
      add (s, 0) in
  {| oldpos := oldpos s; newpos := newpos s;
     pristine := add64 (pristine s) unchanged;
     bestUnchanged := bestUnchanged s |}.

(** The body of the loop of [analyzeBsdiff] for a message without [Eof] *)
Definition scan_control (bc : Control) (s : bsdiffScan) : bsdiffScan :=
  let s :=
    if len (c_Add bc) >? 0 then
      if oldpos s =? newpos s then scan_add (c_Add bc) s
      else {| oldpos := add64 (oldpos s) (len (c_Add bc));
              newpos := add64 (newpos s) (len (c_Add bc));
              pristine := pristine s; bestUnchanged := bestUnchanged s |}
    else s in
  let s :=
    if len (c_Copy bc) >? 0 then
      {| oldpos := oldpos s; newpos := add64 (newpos s) (len (c_Copy bc));
         pristine := pristine s; bestUnchanged := 0 |}
    else s in
  {| oldpos := add64 (oldpos s) (c_Seek bc); newpos := newpos s;
     pristine := pristine s; bestUnchanged := bestUnchanged s |}.

(** [analyzeBsdiff]: the loop [for readingOps] *)
Fixpoint analyzeBsdiff_controls (rctx : ReadContext) (s : bsdiffScan)
  : ReadContext * (error + bsdiffScan) :=
  match rctx with
  | [] => ([], inl ErrEOF)
  | m :: rctx =>
      match asControl m with
      | None => (rctx, inl ErrDecode)
      | Some bc =>
          if c_Eof bc then (rctx, inr s)
          else analyzeBsdiff_controls rctx (scan_control bc s)
      end
  end.

(** [analyzeBsdiff] *)
Definition analyzeBsdiff (ddc : deepDiveContext) (sh : SyncHeader)
  : ReadContext * run (option error) :=
  match ld (Files (source ddc)) (sh_FileIndex sh) with
  | Done f =>
      match ReadMessage asBsdiffHeader (rctx ddc) with
      | (rctx, inl e) => (rctx, Done (Some e))
      | (rctx, inr bh) =>
          match ld (Files (target ddc)) (bh_TargetIndex bh) with
          | Done tf =>
              match analyzeBsdiff_controls rctx
                      {| oldpos := 0; newpos := 0; pristine := 0;
                         bestUnchanged := 0 |} with
              | (rctx, inl e) => (rctx, Done (Some e))
              | (rctx, inr _) =>
                  match ReadMessage asSyncOp rctx with
                  | (rctx, inl e) => (rctx, Done (Some e))
                  | (rctx, inr rop) =>
                      match op_Type rop with
                      | SyncOp_HEY_YOU_DID_IT => (rctx, Done None)
                      | t => (rctx, Done (Some (ErrExpectedHeyYouDidIt t)))
                      end
                  end
              end
          | Panic => (rctx, Panic)
          | Timeout => (rctx, Timeout)
          end
      end
  | Panic => (rctx ddc, Panic)
  | Timeout => (rctx ddc, Timeout)
  end.

(** [analyzeSeries] *)
Definition analyzeSeries (ddc : deepDiveContext) (sh : SyncHeader)
  : ReadContext * run (option error) :=
  match sh_Type sh with
  | SyncHeader_RSYNC => analyzeRsync ddc sh
  | SyncHeader_BSDIFF => analyzeBsdiff ddc sh
  | t => (rctx ddc, Done (Some (ErrAnalyzeSeries t)))
  end.

(** [skipSeries], case [SyncHeader_RSYNC]: the loop [for readingOps] *)
Fixpoint skip_ops (rctx : ReadContext) : ReadContext * option error :=
  match rctx with
  | [] => ([], Some ErrEOF)
  | m :: rctx =>
      match asSyncOp m with
      | None => (rctx, Some ErrDecode)
      | Some rop =>
          match op_Type rop with
          | SyncOp_HEY_YOU_DID_IT => (rctx, None)
          | _ => skip_ops rctx
          end
      end
  end.

(** [skipSeries], case [SyncHeader_BSDIFF]: the loop [for readingOps] *)
Fixpoint skip_controls (rctx : ReadContext) : ReadContext * option error :=
  match rctx with
  | [] => ([], Some ErrEOF)
  | m :: rctx =>
      match asControl m with
      | None => (rctx, Some ErrDecode)
      | Some bc => if c_Eof bc then (rctx, None) else skip_controls rctx
      end
  end.

(** [skipSeries] *)
Definition skipSeries (ddc : deepDiveContext) (sh : SyncHeader)
  : ReadContext * option error :=
  match sh_Type sh with
  | SyncHeader_RSYNC => skip_ops (rctx ddc)
  | SyncHeader_BSDIFF =>
      match ReadMessage asBsdiffHeader (rctx ddc) with
      | (rctx, inl e) => (rctx, Some e)
      | (rctx, inr bh) =>
          match skip_controls rctx with
          | (rctx, Some e) => (rctx, Some e)
          | (rctx, None) =>
              match ReadMessage asSyncOp rctx with
              | (rctx, inl e) => (rctx, Some e)
              | (rctx, inr rop) =>
                  match op_Type rop with
                  | SyncOp_HEY_YOU_DID_IT => (rctx, None)
                  | _ => (rctx, Some ErrMissingHeyYouDidIt)
                  end
              end
          end
      end
  | t => (rctx ddc, Some (ErrSkipSeries t))
  end.

(** [doDeepAnalysis]: the loop [for fileIndex := range source.Files],
    from the read context positioned after the two containers.  The
    error of [analyzeSeries] is assigned to [err] and not looked at. *)
Fixpoint deep_files (topIndexMap : Z -> bool) (target source : Container)
  (fileIndex : Z) (files : list File) (rctx : ReadContext)
  : ReadContext * run (option error) :=
  match files with
  | [] => (rctx, Done None)
  | _ :: files =>
      match ReadMessage asSyncHeader rctx with
      | (rctx, inl e) => (rctx, Done (Some e))
      | (rctx, inr sh) =>
          if negb (sh_FileIndex sh =? fileIndex)
          then (rctx, Done (Some (ErrExpectedFile fileIndex (sh_FileIndex sh))))
          else
            let ddc := {| target := target; source := source; rctx := rctx |} in
            if topIndexMap (sh_FileIndex sh) then
              match analyzeSeries ddc sh with
              | (rctx, Done _) =>
                  deep_files topIndexMap target source (fileIndex + 1) files rctx
              | (rctx, Panic) => (rctx, Panic)
              | (rctx, Timeout) => (rctx, Timeout)
              end
            else
              match skipSeries ddc sh with
              | (rctx, Some e) => (rctx, Done (Some e))
              | (rctx, None) =>
                  deep_files topIndexMap target source (fileIndex + 1) files rctx
              end
      end
  end.

End Probe.

(* ================================================================== *)
(** * Theorems *)
(* ================================================================== *)

Definition bytes_of (s : string) : list byte := list_byte_of_string s.

(** A reader that yields a string and never fails, and a write context
    without limit. *)
Definition reader_of (s : string) : Reader :=
  {| r_data := bytes_of s; r_err := None |}.
Definition unlimited : WriteContext := {| sent := []; quota := None |}.

(* ------------------------------------------------------------------ *)
(** ** Facts about the runtime *)

Lemma bind_Done_inv {A B} (c : run A) (k : A -> run B) b :
  bind c k = Done b -> exists a, c = Done a /\ k a = Done b.
Proof. destruct c; simpl; intros H; try discriminate; eauto. Qed.

Definition no_timeout {A} (c : run A) : Prop := c <> Timeout.

Lemma no_timeout_bind {A B} (c : run A) (k : A -> run B) :
  no_timeout c -> (forall a, no_timeout (k a)) -> no_timeout (bind c k).
Proof.
  unfold no_timeout. destruct c; simpl; intros Hc Hk; auto; discriminate.
Qed.

Lemma no_timeout_Done {A} (a : A) : no_timeout (Done a).
Proof. discriminate. Qed.

Lemma no_timeout_Panic {A} : no_timeout (@Panic A).
Proof. discriminate. Qed.

Lemma no_timeout_ld {A} (a : list A) i : no_timeout (ld a i).
Proof.
  unfold ld. destruct (i <? 0); [discriminate |].
  destruct (nth_error a (Z.to_nat i)); discriminate.
Qed.

Lemma no_timeout_st {A} (a : list A) i x : no_timeout (st a i x).
Proof. unfold st. destruct (_ && _); discriminate. Qed.

Lemma no_timeout_slice {A} (a : list A) lo hi : no_timeout (slice a lo hi).
Proof. unfold slice. destruct (_ && _); discriminate. Qed.

Lemma no_timeout_for_up {St} n i (body : Z -> St -> run St) s :
  (forall i s, no_timeout (body i s)) -> no_timeout (for_up n i body s).
Proof.
  intros Hb. revert i s. induction n; intros i s; simpl.
  - discriminate.
  - apply no_timeout_bind; auto.
Qed.

Lemma no_timeout_for_range {St} lo hi (body : Z -> St -> run St) s :
  (forall i s, no_timeout (body i s)) -> no_timeout (for_range lo hi body s).
Proof. intros. now apply no_timeout_for_up. Qed.

Lemma len_nonneg {A} (a : list A) : 0 <= len a.
Proof. unfold len. lia. Qed.

Lemma ld_Done_inv {A} (a : list A) i x :
  ld a i = Done x -> 0 <= i < len a /\ nth_error a (Z.to_nat i) = Some x.
Proof.
  unfold ld, len. destruct (i <? 0) eqn:E; [discriminate |].
  apply Z.ltb_ge in E.
  destruct (nth_error a (Z.to_nat i)) eqn:N; [| discriminate].
  intros H; inversion H; subst. split; [| reflexivity].
  assert (Z.to_nat i < length a)%nat by (apply nth_error_Some; congruence).
  lia.
Qed.

Lemma ld_ok {A} (a : list A) i :
  0 <= i < len a -> exists x, ld a i = Done x.
Proof.
  unfold ld, len. intros H.
  destruct (i <? 0) eqn:E; [apply Z.ltb_lt in E; lia |].
  destruct (nth_error a (Z.to_nat i)) eqn:N; [eauto |].
  apply nth_error_None in N. lia.
Qed.

Lemma length_set_nth {A} n (a : list A) x : length (set_nth n a x) = length a.
Proof.
  revert n; induction a; intros [|n]; simpl; auto.
Qed.

Lemma st_Done_inv {A} (a : list A) i x a' :
  st a i x = Done a' ->
  0 <= i < len a /\ a' = set_nth (Z.to_nat i) a x.
Proof.
  unfold st, len. destruct (0 <=? i) eqn:E1; simpl; [| discriminate].
  destruct (i <? Z.of_nat (length a)) eqn:E2; [| discriminate].
  apply Z.leb_le in E1. apply Z.ltb_lt in E2.
  intros H; inversion H; subst. split; [lia | reflexivity].
Qed.

Lemma st_ok {A} (a : list A) i x :
  0 <= i < len a -> st a i x = Done (set_nth (Z.to_nat i) a x).
Proof.
  unfold st, len. intros H.
  destruct (0 <=? i) eqn:E1; [| apply Z.leb_gt in E1; lia].
  destruct (i <? Z.of_nat (length a)) eqn:E2; [| apply Z.ltb_ge in E2; lia].
  reflexivity.
Qed.

Lemma len_set_nth {A} n (a : list A) x : len (set_nth n a x) = len a.
Proof. unfold len. now rewrite length_set_nth. Qed.

Lemma slice_Done_inv {A} (a : list A) lo hi r :
  slice a lo hi = Done r ->
  0 <= lo <= hi /\ hi <= len a
  /\ r = firstn (Z.to_nat (hi - lo)) (skipn (Z.to_nat lo) a).
Proof.
  unfold slice, len.
  destruct (0 <=? lo) eqn:E1; simpl; [| discriminate].
  destruct (lo <=? hi) eqn:E2; simpl; [| discriminate].
  destruct (hi <=? Z.of_nat (length a)) eqn:E3; [| discriminate].
  apply Z.leb_le in E1, E2, E3. intros H; inversion H. repeat split; lia.
Qed.

Lemma slice_ok {A} (a : list A) lo hi :
  0 <= lo <= hi -> hi <= len a ->
  slice a lo hi = Done (firstn (Z.to_nat (hi - lo)) (skipn (Z.to_nat lo) a)).
Proof.
  unfold slice, len. intros H1 H2.
  destruct (0 <=? lo) eqn:E1; [| apply Z.leb_gt in E1; lia].
  destruct (lo <=? hi) eqn:E2; [| apply Z.leb_gt in E2; lia].
  destruct (hi <=? Z.of_nat (length a)) eqn:E3; [| apply Z.leb_gt in E3; lia].
  reflexivity.
Qed.

Lemma len_slice {A} (a : list A) lo hi r :
  slice a lo hi = Done r -> len r = hi - lo.
Proof.
  intros H. apply slice_Done_inv in H. destruct H as (H1 & H2 & ->).
  unfold len in *. rewrite length_firstn, length_skipn. lia.
Qed.

(** The invariant rule of [for_range]. *)
Lemma for_up_inv {St} (P : Z -> St -> Prop) (body : Z -> St -> run St) n lo s :
  P lo s ->
  (forall i s, lo <= i < lo + Z.of_nat n -> P i s ->
               exists s', body i s = Done s' /\ P (i + 1) s') ->
  exists s', for_up n lo body s = Done s' /\ P (lo + Z.of_nat n) s'.
Proof.
  revert lo s. induction n; intros lo s H0 Hstep.
  - simpl. exists s. split; [reflexivity |]. now replace (lo + 0) with lo by lia.
  - destruct (Hstep lo s) as (s1 & Hb & H1); [lia | assumption |].
    destruct (IHn (lo + 1) s1) as (s2 & Hr & H2); [assumption | |].
    + intros i s' Hi. apply Hstep. lia.
    + exists s2. split.
      * simpl. rewrite Hb. simpl. assumption.
      * replace (lo + Z.of_nat (S n)) with (lo + 1 + Z.of_nat n) by lia.
        assumption.
Qed.

Lemma for_range_inv {St} (P : Z -> St -> Prop) (body : Z -> St -> run St) lo hi s :
  lo <= hi ->
  P lo s ->
  (forall i s, lo <= i < hi -> P i s ->
               exists s', body i s = Done s' /\ P (i + 1) s') ->
  exists s', for_range lo hi body s = Done s' /\ P hi s'.
Proof.
  intros Hle H0 Hstep. unfold for_range.
  destruct (for_up_inv P body (Z.to_nat (hi - lo)) lo s H0) as (s' & Hr & Hp).
  - intros i s1 Hi. apply Hstep. lia.
  - exists s'. split; [assumption |].
    now replace hi with (lo + Z.of_nat (Z.to_nat (hi - lo))) by lia.
Qed.

Lemma for_range_empty {St} (body : Z -> St -> run St) lo hi s :
  hi <= lo -> for_range lo hi body s = Done s.
Proof.
  intros H. unfold for_range. replace (Z.to_nat (hi - lo)) with O by lia.
  reflexivity.
Qed.

(* ------------------------------------------------------------------ *)
(** ** The base case of [search] *)

Section SearchBase.
Import Bsdiff.

Lemma search_rec_base fuel I_ obuf nbuf st_ en :
  en - st_ < 2 ->
  search_rec fuel I_ obuf nbuf st_ en =
  (a <- ld I_ st_ ;;
   sa <- slice_from obuf a ;;
   b <- ld I_ en ;;
   sb <- slice_from obuf b ;;
   if matchlen sa nbuf >? matchlen sb nbuf
   then Done (a, matchlen sa nbuf) else Done (b, matchlen sb nbuf)).
Proof.
  intros H. destruct fuel; simpl;
    (destruct (en - st_ <? 2) eqn:E; [reflexivity | apply Z.ltb_ge in E; lia]).
Qed.

Lemma slice_from_ok {A} (a : list A) lo :
  0 <= lo <= len a -> slice_from a lo = Done (skipn (Z.to_nat lo) a).
Proof.
  intros H. unfold slice_from, len in *.
  destruct (0 <=? lo) eqn:E1; [| apply Z.leb_gt in E1; lia].
  destruct (lo <=? Z.of_nat (length a)) eqn:E2; [| apply Z.leb_gt in E2; lia].
  reflexivity.
Qed.

(** C4, as the code has it: in the base case (en - st < 2) [search]
    measures the common prefix of both endpoint suffixes with the new
    suffix and returns the endpoint with the longer one together with
    that length; when the two lengths are equal it returns the endpoint
    [en], the one of the higher index. *)
Theorem search_base_case I_ obuf nbuf st_ en a b :
  en - st_ < 2 ->
  ld I_ st_ = Done a -> ld I_ en = Done b ->
  0 <= a <= len obuf -> 0 <= b <= len obuf ->
  let x := matchlen (skipn (Z.to_nat a) obuf) nbuf in
  let y := matchlen (skipn (Z.to_nat b) obuf) nbuf in
  search I_ obuf nbuf st_ en = Done (if x >? y then (a, x) else (b, y))
  /\ (forall p n, search I_ obuf nbuf st_ en = Done (p, n) -> n = Z.max x y)
  /\ (x = y -> search I_ obuf nbuf st_ en = Done (b, y)).
Proof.
  intros Hlt Ha Hb Hra Hrb x y.
  assert (E : search I_ obuf nbuf st_ en = Done (if x >? y then (a, x) else (b, y))).
  { unfold search. rewrite search_rec_base by assumption.
    rewrite Ha. simpl. rewrite (slice_from_ok obuf a Hra). simpl.
    rewrite Hb. simpl. rewrite (slice_from_ok obuf b Hrb). simpl.
    fold x y. destruct (x >? y); reflexivity. }
  split; [exact E |]. split.
  - intros p n. rewrite E. destruct (x >? y) eqn:C; intros Q; inversion Q; subst.
    + apply Z.gtb_lt in C. lia.
    + rewrite Z.gtb_ltb in C. apply Z.ltb_ge in C. lia.
  - intros Heq. rewrite E. rewrite Heq.
    rewrite Z.gtb_ltb, Z.ltb_irrefl. reflexivity.
Qed.

Lemma search_base_case_witness :
  search [2; 0; 1] (bytes_of "ab") (bytes_of "c") 0 1 = Done (0, 0).
Proof.
  pose proof (search_base_case [2; 0; 1] (bytes_of "ab") (bytes_of "c") 0 1 2 0)
    as H.
  destruct H as [H _]; [lia | reflexivity | reflexivity | | | exact H].
  - unfold len; simpl; lia.
  - unfold len; simpl; lia.
Defined.

(** C4 as the specification words it, with the tie going to the lower
    index, fails: over "ab" with the suffix array [2; 0; 1], the range
    [0, 1] and the new suffix "c", both endpoints share no byte with
    the new suffix and [search] returns suffix 0, found at index 1. *)
Lemma search_tie_not_lower :
  ~ (forall I_ obuf nbuf st_ en a b,
        en - st_ < 2 ->
        ld I_ st_ = Done a -> ld I_ en = Done b ->
        0 <= a <= len obuf -> 0 <= b <= len obuf ->
        matchlen (skipn (Z.to_nat a) obuf) nbuf
        = matchlen (skipn (Z.to_nat b) obuf) nbuf ->
        exists n, search I_ obuf nbuf st_ en = Done (a, n)).
Proof.
  intros H.
  destruct (H [2; 0; 1] (bytes_of "ab") (bytes_of "c") 0 1 2 0) as [n Hn];
    try reflexivity; try (unfold len; simpl; lia).
  vm_compute in Hn. discriminate Hn.
Qed.

End SearchBase.

(* ------------------------------------------------------------------ *)
(** ** The empty old buffer *)

(** C6: for the empty old buffer the doubling loop of [qsufsort] runs
    no pass at all (whatever bound is put on the number of passes) and
    the suffix array returned is [0], the sentinel position alone. *)
Theorem qsufsort_empty :
  (forall fuel, Bsdiff.qsufsort_fuel fuel [] = Done [0])
  /\ Bsdiff.qsufsort [] = Done [0].
Proof.
  split; [intros fuel; destruct fuel |]; reflexivity.
Qed.

(* ------------------------------------------------------------------ *)
(** ** The scenario "abcdefgh" / "abcXefgh" *)

Definition scenario_patch : list message :=
  [ MBsdiffControl {| Add := 8; Copy := 0; Seek := -4 |};
    MBsdiffControl {| Add := -1; Copy := 0; Seek := 0 |};
    MBsdiffDiff [x00; x00; x00; z2b (b2z "X" - b2z "d"); x00; x00; x00; x00];
    MBsdiffExtra [] ].

(** C8, as the code has it: for old = "abcdefgh" and new = "abcXefgh",
    [BSDiff] writes exactly one control triple before the sentinel,
    with Add = 8, Copy = 0 and Seek = -4 (the old cursor is left at the
    start of the last match, "efgh"); the add-data block is 8 bytes,
    all zero but position 3, which holds 'X' - 'd' modulo 256 (244);
    the extra block is empty; and applying the patch to old with
    declared size 8 writes new. *)
Theorem scenario_abcXefgh :
  Bsdiff.BSDiff (reader_of "abcdefgh") (reader_of "abcXefgh") unlimited
  = Done ({| sent := scenario_patch; quota := None |}, None)
  /\ b2z (z2b (b2z "X" - b2z "d")) = (b2z "X" - b2z "d") mod 256
  /\ forall fuel,
       Bsdiff.BSPatch (list byte) Bsdiff.buffer_Write (S fuel)
         (reader_of "abcdefgh") [] 8 scenario_patch
       = ([], bytes_of "abcXefgh", Done None).
Proof.
  split; [vm_compute; reflexivity |].
  split; [vm_compute; reflexivity |].
  intros fuel. unfold Bsdiff.BSPatch.
  replace (Bsdiff.read_controls scenario_patch [])
    with ([MBsdiffDiff [x00; x00; x00; z2b (b2z "X" - b2z "d"); x00; x00; x00; x00];
           MBsdiffExtra []],
          @inr error _ [{| Add := 8; Copy := 0; Seek := -4 |}]) by reflexivity.
  cbn [ReadMessage asBsdiffDiff asBsdiffExtra ReadAll reader_of r_err r_data].
  replace (8 <? 0) with false by reflexivity.
  match goal with
  | |- context [Bsdiff.apply_controls ?a ?b ?c ?d ?e ?f] =>
      replace (Bsdiff.apply_controls a b c d e f)
        with (Done (@inr error _
                {| Bsdiff.nbuf := bytes_of "abcXefgh"; Bsdiff.oldpos := 4;
                   Bsdiff.newpos := 8; Bsdiff.diffOffset := 8;
                   Bsdiff.extraOffset := 0 |})) by (vm_compute; reflexivity)
  end.
  cbn [Bsdiff.nbuf]. cbn. destruct fuel; reflexivity.
Qed.

(** C8 as the specification words it, with Seek = 0, fails: the triple
    written has Seek = -4. *)
Lemma scenario_seek_not_zero :
  ~ (exists w d e,
        Bsdiff.BSDiff (reader_of "abcdefgh") (reader_of "abcXefgh") unlimited
        = Done (w, None)
        /\ sent w = [ MBsdiffControl {| Add := 8; Copy := 0; Seek := 0 |};
                      MBsdiffControl {| Add := -1; Copy := 0; Seek := 0 |};
                      MBsdiffDiff d; MBsdiffExtra e ]).
Proof.
  intros (w & d & e & H & Hs).
  vm_compute in H. inversion H; subst w. simpl in Hs. discriminate Hs.
Qed.

(* ------------------------------------------------------------------ *)
(** ** [BSPatch] on patches that declare too much *)

Section PatchFacts.
Import Bsdiff.

Definition int64 (z : Z) : Prop := - 2 ^ 63 <= z < 2 ^ 63.

Definition int64_fields (c : BsdiffControl) : Prop :=
  int64 (Add c) /\ int64 (Copy c) /\ int64 (Seek c).

(** The number of bytes a list of control triples declares. *)
Fixpoint declared_total (cs : list BsdiffControl) : Z :=
  match cs with
  | [] => 0
  | c :: cs => Add c + Copy c + declared_total cs
  end.

(** The reads that the triples make of old ([lo] bytes), of the add-data
    ([ld] bytes) and of the extra-data ([le] bytes) stay in bounds up to
    the first triple at which [newpos + add] or [newpos + copy] exceeds
    [newSize], and that sum is itself an [int64]. *)
Fixpoint reads_in_bounds (newSize lo ld le : Z) (cs : list BsdiffControl)
  (newpos oldpos diffOffset extraOffset : Z) : Prop :=
  match cs with
  | [] => True
  | c :: cs =>
      (newSize < newpos + Add c /\ newpos + Add c < 2 ^ 63)
      \/ (0 <= Add c /\ newpos + Add c <= newSize
          /\ diffOffset + Add c <= ld
          /\ (0 < Add c -> 0 <= oldpos /\ oldpos + Add c <= lo)
          /\ ((newSize < newpos + Add c + Copy c
               /\ newpos + Add c + Copy c < 2 ^ 63)
              \/ (0 <= Copy c /\ newpos + Add c + Copy c <= newSize
                  /\ extraOffset + Copy c <= le
                  /\ reads_in_bounds newSize lo ld le cs
                       (newpos + Add c + Copy c) (oldpos + Add c + Seek c)
                       (diffOffset + Add c) (extraOffset + Copy c))))
  end.

Ltac wrap_lia :=
  unfold add64, wrap64, int64 in *;
  change (2 ^ 64) with 18446744073709551616 in *;
  change (2 ^ 63) with 9223372036854775808 in *;
  Z.div_mod_to_equations; lia.

Lemma wrap64_small z : int64 z -> wrap64 z = z.
Proof. intros H. wrap_lia. Qed.

Lemma add64_small a b : int64 (a + b) -> add64 a b = a + b.
Proof. intros H. wrap_lia. Qed.

Lemma add64_above a b :
  0 <= a < 2 ^ 63 -> int64 b -> a <= add64 a b ->
  add64 a b = a + b /\ 0 <= b.
Proof. intros Ha Hb H. wrap_lia. Qed.

Lemma add64_wrap64_l a b : add64 (wrap64 a) b = wrap64 (a + b).
Proof. wrap_lia. Qed.

Ltac bind_inv H :=
  repeat match type of H with
         | bind _ _ = Done _ =>
             let a := fresh "a" in
             let E := fresh "E" in
             apply bind_Done_inv in H; destruct H as (a & E & H)
         end.

Lemma copy_into_Done_inv a lo hi src a' :
  copy_into a lo hi src = Done a' ->
  0 <= lo <= hi /\ hi <= len a
  /\ (len src = hi - lo -> len a' = len a).
Proof.
  unfold copy_into. intros H. bind_inv H. inversion H; subst a'.
  pose proof (len_slice _ _ _ _ E) as Hl.
  apply slice_Done_inv in E. destruct E as (H1 & H2 & _).
  repeat split; try lia.
  intros Hs. unfold len, copy in *.
  rewrite !length_app, length_firstn, length_firstn, !length_skipn. lia.
Qed.

Lemma copy_into_ok a lo hi src :
  0 <= lo <= hi -> hi <= len a ->
  exists a', copy_into a lo hi src = Done a'.
Proof.
  intros H1 H2. unfold copy_into. rewrite slice_ok by assumption. simpl. eauto.
Qed.

Lemma apply_control_inr newSize obuf diff extra s c s' :
  int64 newSize -> 0 <= newpos s <= newSize ->
  int64 (Add c) -> int64 (Copy c) ->
  apply_control newSize obuf diff extra s c = Done (inr s') ->
  0 <= Add c /\ 0 <= Copy c
  /\ newpos s' = newpos s + Add c + Copy c /\ newpos s' <= newSize.
Proof.
  intros HS Hn HA HC H. unfold apply_control in H.
  destruct (add64 (newpos s) (Add c) >? newSize) eqn:E1; [discriminate |].
  bind_inv H.
  apply copy_into_Done_inv in E0. destruct E0 as (B1 & B2 & _).
  destruct (add64 (add64 (newpos s) (Add c)) (Copy c) >? newSize) eqn:E3;
    [discriminate |].
  bind_inv H.
  apply copy_into_Done_inv in E4. destruct E4 as (B3 & B4 & _).
  inversion H; subst s'; simpl.
  rewrite Z.gtb_ltb in E1, E3. apply Z.ltb_ge in E1, E3.
  destruct (add64_above (newpos s) (Add c)) as [Q1 Q2];
    [unfold int64 in *; lia | assumption | lia |].
  rewrite Q1 in *.
  destruct (add64_above (newpos s + Add c) (Copy c)) as [Q3 Q4];
    [unfold int64 in *; lia | assumption | lia |].
  rewrite Q3 in *. lia.
Qed.

Lemma apply_control_inl newSize obuf diff extra s c e :
  apply_control newSize obuf diff extra s c = Done (inl e) -> e = ErrCorrupt.
Proof.
  intros H. unfold apply_control in H.
  destruct (add64 (newpos s) (Add c) >? newSize); [now inversion H |].
  bind_inv H.
  destruct (add64 (add64 (newpos s) (Add c)) (Copy c) >? newSize);
    [now inversion H |].
  bind_inv H. discriminate H.
Qed.

Lemma no_timeout_copy_into a lo hi src : no_timeout (copy_into a lo hi src).
Proof.
  unfold copy_into. apply no_timeout_bind; [apply no_timeout_slice |].
  intros; apply no_timeout_Done.
Qed.

Lemma no_timeout_apply_control newSize obuf diff extra s c :
  no_timeout (apply_control newSize obuf diff extra s c).
Proof.
  unfold apply_control.
  destruct (_ >? newSize); [apply no_timeout_Done |].
  apply no_timeout_bind; [apply no_timeout_slice | intros src].
  apply no_timeout_bind; [apply no_timeout_copy_into | intros nb].
  apply no_timeout_bind.
  { apply no_timeout_for_range. intros i nb'.
    apply no_timeout_bind; [apply no_timeout_ld | intros n].
    apply no_timeout_bind; [apply no_timeout_ld | intros o].
    apply no_timeout_st. }
  intros nb2. destruct (_ >? newSize); [apply no_timeout_Done |].
  apply no_timeout_bind; [apply no_timeout_slice | intros src2].
  apply no_timeout_bind; [apply no_timeout_copy_into | intros nb3].
  apply no_timeout_Done.
Qed.

(** [apply_controls] ends in success, in [ErrCorrupt], or in a panic. *)
Lemma apply_controls_outcome newSize obuf diff extra cs s :
  (exists s', apply_controls newSize obuf diff extra cs s = Done (inr s'))
  \/ apply_controls newSize obuf diff extra cs s = Done (inl ErrCorrupt)
  \/ apply_controls newSize obuf diff extra cs s = Panic.
Proof.
  revert s. induction cs as [| c cs IH]; intros s; simpl.
  - left. eauto.
  - destruct (apply_control newSize obuf diff extra s c) as [[e | s1] | |] eqn:E;
      simpl.
    + right. left. apply apply_control_inl in E. now subst e.
    + apply IH.
    + right. right. reflexivity.
    + exfalso. now apply (no_timeout_apply_control newSize obuf diff extra s c).
Qed.

Lemma apply_controls_inr newSize obuf diff extra cs :
  forall s s',
    int64 newSize -> 0 <= newpos s <= newSize ->
    Forall int64_fields cs ->
    apply_controls newSize obuf diff extra cs s = Done (inr s') ->
    newpos s' = newpos s + declared_total cs /\ newpos s' <= newSize.
Proof.
  induction cs as [| c cs IH]; intros s s' HS Hn HF H; simpl in *.
  - inversion H; subst. lia.
  - inversion HF as [| ? ? (HA & HC & _) HF']; subst.
    bind_inv H. destruct a as [e | s1]; [discriminate |].
    destruct (apply_control_inr _ _ _ _ _ _ _ HS Hn HA HC E) as (P1 & P2 & P3 & P4).
    destruct (IH s1 s' HS) as [Q1 Q2]; [lia | assumption | assumption |].
    lia.
Qed.


Lemma apply_control_add_phase newSize obuf diff extra s c spec_old :
  int64 newSize ->
  len obuf < 2 ^ 63 -> len diff < 2 ^ 63 ->
  int64 (Add c) ->
  len (nbuf s) = newSize -> 0 <= newpos s <= newSize ->
  oldpos s = wrap64 spec_old ->
  0 <= diffOffset s <= len diff ->
  0 <= Add c -> newpos s + Add c <= newSize ->
  diffOffset s + Add c <= len diff ->
  (0 < Add c -> 0 <= spec_old /\ spec_old + Add c <= len obuf) ->
  exists nb2,
    len nb2 = newSize /\
    apply_control newSize obuf diff extra s c =
    (if add64 (newpos s + Add c) (Copy c) >? newSize then Done (inl ErrCorrupt)
     else
       src <- slice extra (extraOffset s) (add64 (extraOffset s) (Copy c)) ;;
       nbuf <- copy_into nb2 (newpos s + Add c)
                 (add64 (newpos s + Add c) (Copy c)) src ;;
       Done (inr {| nbuf := nbuf;
                    oldpos := wrap64 (spec_old + Add c + Seek c);
                    newpos := add64 (newpos s + Add c) (Copy c);
                    diffOffset := diffOffset s + Add c;
                    extraOffset := add64 (extraOffset s) (Copy c) |})).
Proof.
  intros HS Ho Hd HA Hlen Hn Hold Hdo A1 A2 A3 A4.
  assert (Q1 : add64 (newpos s) (Add c) = newpos s + Add c)
    by (apply add64_small; unfold int64 in *; lia).
  assert (Q2 : add64 (diffOffset s) (Add c) = diffOffset s + Add c)
    by (apply add64_small; unfold int64 in *; lia).
  unfold apply_control. rewrite Q1, Q2.
  destruct (newpos s + Add c >? newSize) eqn:E1;
    [rewrite Z.gtb_ltb in E1; apply Z.ltb_lt in E1; lia |].
  rewrite (slice_ok diff) by lia. simpl.
  destruct (copy_into_ok (nbuf s) (newpos s) (newpos s + Add c)
              (firstn (Z.to_nat (diffOffset s + Add c - diffOffset s))
                 (skipn (Z.to_nat (diffOffset s)) diff))) as (nb1 & Hc1);
    [lia | lia |].
  rewrite Hc1. simpl.
  assert (L1 : len nb1 = newSize).
  { apply copy_into_Done_inv in Hc1. destruct Hc1 as (_ & _ & Hl).
    rewrite Hl; [assumption |].
    unfold len in *. rewrite length_firstn, length_skipn. lia. }
  destruct (for_range_inv (fun _ nb => len nb = newSize)
              (fun i nb =>
                 n <- ld nb (add64 (newpos s) i) ;;
                 o <- ld obuf (add64 (oldpos s) i) ;;
                 st nb (add64 (newpos s) i) (z2b (b2z n + b2z o)))
              0 (Add c) nb1) as (nb2 & Hf & L2); [lia | assumption | |].
  { intros i nb Hi Hl.
    assert (R1 : add64 (newpos s) i = newpos s + i)
      by (apply add64_small; unfold int64 in *; lia).
    assert (R2 : add64 (oldpos s) i = spec_old + i).
    { rewrite Hold, add64_wrap64_l. apply wrap64_small.
      unfold int64 in *. lia. }
    rewrite R1, R2.
    destruct (ld_ok nb (newpos s + i)) as (n & Hn'); [lia |].
    destruct (ld_ok obuf (spec_old + i)) as (o & Ho'); [lia |].
    rewrite Hn'. simpl. rewrite Ho'. simpl.
    rewrite st_ok by lia. eexists. split; [reflexivity |].
    now rewrite len_set_nth. }
  exists nb2. split; [assumption |].
  rewrite Hf. simpl.
  rewrite Hold, !add64_wrap64_l. reflexivity.
Qed.

Lemma apply_controls_corrupt newSize obuf diff extra cs :
  forall s spec_old,
    int64 newSize ->
    len obuf < 2 ^ 63 -> len diff < 2 ^ 63 -> len extra < 2 ^ 63 ->
    Forall int64_fields cs ->
    len (nbuf s) = newSize -> 0 <= newpos s <= newSize ->
    oldpos s = wrap64 spec_old ->
    0 <= diffOffset s <= len diff -> 0 <= extraOffset s <= len extra ->
    reads_in_bounds newSize (len obuf) (len diff) (len extra) cs
      (newpos s) spec_old (diffOffset s) (extraOffset s) ->
    newpos s + declared_total cs > newSize ->
    apply_controls newSize obuf diff extra cs s = Done (inl ErrCorrupt).
Proof.
  induction cs as [| c cs IH];
    intros s spec_old HS Ho Hd He HF Hlen Hn Hold Hdo Heo HB Htot; simpl in *.
  - lia.
  - inversion HF as [| ? ? Hc HF']; subst.
    destruct Hc as (HA & HC & HK).
    destruct HB as [[B1 B2] | (B1 & B2 & B3 & B4 & HB)].
    + (* the add does not fit *)
      unfold apply_control.
      rewrite (add64_small (newpos s) (Add c)) by (unfold int64 in *; lia).
      destruct (newpos s + Add c >? len (nbuf s)) eqn:E1; [reflexivity |].
      rewrite Z.gtb_ltb in E1. apply Z.ltb_ge in E1. lia.
    + destruct (apply_control_add_phase (len (nbuf s)) obuf diff extra s c spec_old)
        as (nb2 & L2 & Hr); try assumption; try reflexivity.
      rewrite Hr. clear Hr.
      rewrite (add64_small (newpos s + Add c) (Copy c))
        by (unfold int64 in *; lia).
      destruct HB as [[C1 C2] | (C1 & C2 & C3 & HB)].
      * (* the copy does not fit *)
        destruct (newpos s + Add c + Copy c >? len (nbuf s)) eqn:E2;
          [reflexivity |].
        rewrite Z.gtb_ltb in E2. apply Z.ltb_ge in E2. lia.
      * destruct (newpos s + Add c + Copy c >? len (nbuf s)) eqn:E2;
          [rewrite Z.gtb_ltb in E2; apply Z.ltb_lt in E2; lia |].
        rewrite (add64_small (extraOffset s) (Copy c))
          by (unfold int64 in *; lia).
        rewrite (slice_ok extra) by lia. cbn [bind].
        destruct (copy_into_ok nb2 (newpos s + Add c) (newpos s + Add c + Copy c)
                    (firstn (Z.to_nat (extraOffset s + Copy c - extraOffset s))
                       (skipn (Z.to_nat (extraOffset s)) extra))) as (nb3 & Hc3);
          [lia | lia |].
        rewrite Hc3. cbn [bind].
        assert (L3 : len nb3 = len (nbuf s)).
        { apply copy_into_Done_inv in Hc3. destruct Hc3 as (_ & _ & Hl).
          rewrite Hl; [assumption |].
          unfold len in *. rewrite length_firstn, length_skipn. lia. }
        apply (IH _ (spec_old + Add c + Seek c)); simpl;
          try assumption; try reflexivity; try lia.
Qed.

Lemma write_all_nil W Write fuel (w : W) : write_all W Write fuel w [] = (w, Done None).
Proof. destruct fuel; reflexivity. Qed.

(** [BSPatch_alloc] is [BSPatch] when the allocation is granted, and
    panics after the reads when it is not. *)
Lemma make_bytes_fits maxAlloc n :
  0 <= n <= maxAlloc -> make_bytes maxAlloc n = Done (repeat x00 (Z.to_nat n)).
Proof.
  intros H. unfold make_bytes.
  destruct (n <? 0) eqn:E1; [apply Z.ltb_lt in E1; lia |].
  destruct (maxAlloc <? n) eqn:E2; [apply Z.ltb_lt in E2; lia |].
  reflexivity.
Qed.

Lemma make_bytes_refused maxAlloc n :
  n < 0 \/ maxAlloc < n -> make_bytes maxAlloc n = Panic.
Proof.
  intros H. unfold make_bytes.
  destruct (n <? 0) eqn:E1; [reflexivity |].
  destruct (maxAlloc <? n) eqn:E2; [reflexivity |].
  apply Z.ltb_ge in E1, E2. lia.
Qed.

Lemma BSPatch_alloc_fits maxAlloc W Write fuel old new newSize patch :
  newSize <= maxAlloc ->
  BSPatch_alloc W Write maxAlloc fuel old new newSize patch
  = BSPatch W Write fuel old new newSize patch.
Proof.
  intros H. unfold BSPatch_alloc, BSPatch.
  destruct (read_controls patch []) as [p1 [e1 | ctrlOps]]; [reflexivity |].
  destruct (ReadMessage asBsdiffDiff p1) as [p2 [e2 | diff]]; [reflexivity |].
  destruct (ReadMessage asBsdiffExtra p2) as [p3 [e3 | extra]]; [reflexivity |].
  destruct (ReadAll old) as [e4 | obuf]; [reflexivity |].
  destruct (newSize <? 0) eqn:E.
  - rewrite make_bytes_refused by (apply Z.ltb_lt in E; lia). reflexivity.
  - rewrite make_bytes_fits by (apply Z.ltb_ge in E; lia). reflexivity.
Qed.

Lemma BSPatch_alloc_refused maxAlloc W Write fuel old new newSize
  patch p1 ctrlOps p2 diff p3 extra obuf :
  read_controls patch [] = (p1, inr ctrlOps) ->
  ReadMessage asBsdiffDiff p1 = (p2, inr diff) ->
  ReadMessage asBsdiffExtra p2 = (p3, inr extra) ->
  ReadAll old = inr obuf ->
  newSize < 0 \/ maxAlloc < newSize ->
  BSPatch_alloc W Write maxAlloc fuel old new newSize patch = (p3, new, Panic).
Proof.
  intros Hc Hd He Ho H. unfold BSPatch_alloc.
  rewrite Hc, Hd, He, Ho, make_bytes_refused by assumption. reflexivity.
Qed.

(** C3, as the code has it: when the control triples that [BSPatch]
    reads declare more add and copy bytes than [newSize], [BSPatch]
    never returns success, and it writes nothing: it returns
    [ErrCorrupt], or panics (in [make], or on a slice or index out of
    range).  It returns [ErrCorrupt], at the first triple where
    [newpos + add] or [newpos + copy] exceeds [newSize], whenever
    [make([]byte, newSize)] is granted, that sum is an [int64] and the
    reads that the triples before it make of old, of the add-data and
    of the extra-data are in bounds.  When [newSize] is more than the
    runtime allocates, it panics in [make], before the first triple is
    looked at. *)
Theorem bspatch_declares_too_much
  maxAlloc W (Write : W -> list byte -> W * Z * option error) fuel
  old new newSize patch p1 ctrlOps p2 diff p3 extra obuf :
  read_controls patch [] = (p1, inr ctrlOps) ->
  ReadMessage asBsdiffDiff p1 = (p2, inr diff) ->
  ReadMessage asBsdiffExtra p2 = (p3, inr extra) ->
  ReadAll old = inr obuf ->
  int64 newSize -> Forall int64_fields ctrlOps ->
  declared_total ctrlOps > newSize ->
  (BSPatch_alloc W Write maxAlloc fuel old new newSize patch
   = (p3, new, Done (Some ErrCorrupt))
   \/ BSPatch_alloc W Write maxAlloc fuel old new newSize patch
      = (p3, new, Panic))
  /\ (0 <= newSize <= maxAlloc ->
      len obuf < 2 ^ 63 -> len diff < 2 ^ 63 -> len extra < 2 ^ 63 ->
      reads_in_bounds newSize (len obuf) (len diff) (len extra) ctrlOps 0 0 0 0 ->
      BSPatch_alloc W Write maxAlloc fuel old new newSize patch
      = (p3, new, Done (Some ErrCorrupt)))
  /\ (maxAlloc < newSize ->
      BSPatch_alloc W Write maxAlloc fuel old new newSize patch
      = (p3, new, Panic)).
Proof.
  intros Hc Hd He Ho HS HF Htot.
  assert (Hno : newSize < 0 \/ maxAlloc < newSize ->
                BSPatch_alloc W Write maxAlloc fuel old new newSize patch
                = (p3, new, Panic)).
  { intros H. eapply BSPatch_alloc_refused; eassumption. }
  destruct (Z_lt_dec newSize 0) as [Hneg | Hneg];
    [split; [right | split; [intros; lia |]]; auto |].
  destruct (Z_lt_dec maxAlloc newSize) as [Hbig | Hbig];
    [split; [right | split; [intros; lia |]]; auto |].
  split; [| split; [| intros; lia]].
  - unfold BSPatch_alloc.
    rewrite Hc, Hd, He, Ho, make_bytes_fits by lia.
    set (s0 := {| nbuf := repeat x00 (Z.to_nat newSize); oldpos := 0;
                  newpos := 0; diffOffset := 0; extraOffset := 0 |}).
    destruct (apply_controls_outcome newSize obuf diff extra ctrlOps s0)
      as [(s' & Hs) | [Hs | Hs]]; rewrite Hs.
    + exfalso.
      destruct (apply_controls_inr newSize obuf diff extra ctrlOps s0 s')
        as [Q1 Q2]; try assumption; simpl in *; lia.
    + left. reflexivity.
    + right. reflexivity.
  - intros _ Lo Ld Le HB. unfold BSPatch_alloc.
    rewrite Hc, Hd, He, Ho, make_bytes_fits by lia.
    rewrite (apply_controls_corrupt newSize obuf diff extra ctrlOps _ 0);
      try assumption; try reflexivity; simpl;
      try (pose proof (len_nonneg diff); pose proof (len_nonneg extra); lia).
    unfold len. rewrite repeat_length. lia.
Qed.

Definition too_much_patch : list message :=
  [ MBsdiffControl {| Add := 1; Copy := 1; Seek := 0 |};
    MBsdiffControl {| Add := 2; Copy := 0; Seek := 0 |};
    MBsdiffControl {| Add := -1; Copy := 0; Seek := 0 |};
    MBsdiffDiff [x01; x01; x01];
    MBsdiffExtra [x02] ].

Lemma bspatch_declares_too_much_witness :
  BSPatch_alloc (list byte) buffer_Write (2 ^ 48) 1 (reader_of "abc") [] 3
    too_much_patch
  = ([], [], Done (Some ErrCorrupt)).
Proof.
  refine (proj1 (proj2 (bspatch_declares_too_much (2 ^ 48) (list byte)
                          buffer_Write 1
                          (reader_of "abc") [] 3 too_much_patch
                          _ _ _ _ _ _ _ eq_refl eq_refl eq_refl eq_refl _ _ _))
                _ _ _ _ _).
  all: try (unfold int64; lia).
  all: unfold len; simpl; try lia.
  repeat constructor; unfold int64; simpl; lia.
Defined.

Definition short_old_patch : list message :=
  [ MBsdiffControl {| Add := 1; Copy := 0; Seek := 0 |};
    MBsdiffControl {| Add := 5; Copy := 0; Seek := 0 |};
    MBsdiffControl {| Add := -1; Copy := 0; Seek := 0 |};
    MBsdiffDiff [x00; x00; x00; x00; x00; x00];
    MBsdiffExtra [] ].

(** C3 as the specification words it fails, even when the allocation
    of the new buffer is granted: with an empty old buffer, [newSize]
    = 2 and triples that declare 1 + 5 bytes, the first triple fits,
    and adding the old data to its byte reads old out of range:
    [BSPatch] panics and does not return [ErrCorrupt]. *)
Lemma bspatch_panics_before_corrupt :
  ~ (forall maxAlloc W (Write : W -> list byte -> W * Z * option error) fuel
       old new newSize patch p1 ctrlOps p2 diff p3 extra obuf,
        read_controls patch [] = (p1, inr ctrlOps) ->
        ReadMessage asBsdiffDiff p1 = (p2, inr diff) ->
        ReadMessage asBsdiffExtra p2 = (p3, inr extra) ->
        ReadAll old = inr obuf ->
        0 <= newSize <= maxAlloc ->
        int64 newSize -> Forall int64_fields ctrlOps ->
        declared_total ctrlOps > newSize ->
        BSPatch_alloc W Write maxAlloc fuel old new newSize patch
        = (p3, new, Done (Some ErrCorrupt))).
Proof.
  intros H.
  specialize (H (2 ^ 48) (list byte) buffer_Write 1%nat (reader_of "") [] 2
                short_old_patch _ _ _ _ _ _ _
                eq_refl eq_refl eq_refl eq_refl).
  assert (Hp : BSPatch_alloc (list byte) buffer_Write (2 ^ 48) 1 (reader_of "")
                 [] 2 short_old_patch = ([], [], Panic))
    by (vm_compute; reflexivity).
  rewrite Hp in H.
  assert (Q : ([] : ReadContext, [] : list byte, @Panic (option error))
              = ([], [], Done (Some ErrCorrupt))).
  { apply H.
    - lia.
    - unfold int64; lia.
    - repeat constructor; unfold int64; simpl; lia.
    - simpl; lia. }
  discriminate Q.
Qed.

(** C10: an error that [BSPatch] returns other than an error of the
    writer leaves the writer as it was: [ErrCorrupt] and the errors of
    reading the patch or old are returned before the first call of
    [Write], which comes only after the loop over the control triples
    has completed.  A panic in that loop leaves the writer untouched as
    well. *)
Theorem bspatch_error_writes_nothing
  W (Write : W -> list byte -> W * Z * option error) fuel
  old new newSize patch :
  (forall w p w' n e, Write w p = (w', n, Some e) -> exists c, e = ErrWriter c) ->
  (forall p w e,
      BSPatch W Write fuel old new newSize patch = (p, w, Done (Some e)) ->
      (forall c, e <> ErrWriter c) -> w = new)
  /\ (forall p w,
         BSPatch W Write fuel old new newSize patch
         = (p, w, Done (Some ErrCorrupt)) -> w = new)
  /\ (forall ctrlOps p1 diff p2 extra p3 obuf,
         read_controls patch [] = (p1, inr ctrlOps) ->
         ReadMessage asBsdiffDiff p1 = (p2, inr diff) ->
         ReadMessage asBsdiffExtra p2 = (p3, inr extra) ->
         ReadAll old = inr obuf ->
         (forall s, apply_controls newSize obuf diff extra ctrlOps
                      {| nbuf := repeat x00 (Z.to_nat newSize); oldpos := 0;
                         newpos := 0; diffOffset := 0; extraOffset := 0 |}
                    <> Done (inr s)) ->
         snd (fst (BSPatch W Write fuel old new newSize patch)) = new).
Proof.
  intros HW.
  assert (Hwa : forall fuel w nb w' e,
             write_all W Write fuel w nb = (w', Done (Some e)) ->
             exists c, e = ErrWriter c).
  { induction fuel0 as [| f IH]; intros w nb w' e H; simpl in H.
    - destruct (len nb >? 0); inversion H.
    - destruct (len nb >? 0); [| inversion H].
      destruct (Write w nb) as [[w1 n] [e1 |]] eqn:EW.
      + inversion H; subst. eapply HW; eauto.
      + destruct (slice_from nb n); [eapply IH; eauto | inversion H | inversion H]. }
  assert (Main : forall p w e,
             BSPatch W Write fuel old new newSize patch = (p, w, Done (Some e)) ->
             (forall c, e <> ErrWriter c) -> w = new).
  { intros p w e H Hne. unfold BSPatch in H.
    destruct (read_controls patch []) as [p1 [e1 | ctrlOps]];
      [inversion H; reflexivity |].
    destruct (ReadMessage asBsdiffDiff p1) as [p2 [e2 | diff]];
      [inversion H; reflexivity |].
    destruct (ReadMessage asBsdiffExtra p2) as [p3 [e3 | extra]];
      [inversion H; reflexivity |].
    destruct (ReadAll old) as [e4 | obuf]; [inversion H; reflexivity |].
    destruct (newSize <? 0); [inversion H |].
    destruct (apply_controls _ _ _ _ _ _) as [[e5 | s] | |];
      try (inversion H; reflexivity).
    destruct (write_all W Write fuel new (nbuf s)) as [w1 r] eqn:EW.
    inversion H; subst.
    apply Hwa in EW. destruct EW as (c & ->). exfalso. now apply (Hne c). }
  split; [exact Main |]. split.
  - intros p w H. apply (Main p w ErrCorrupt H). intros c. discriminate.
  - intros ctrlOps p1 diff p2 extra p3 obuf Hc Hd He Ho Hns.
    unfold BSPatch. rewrite Hc, Hd, He, Ho.
    destruct (newSize <? 0); [reflexivity |].
    destruct (apply_controls _ _ _ _ _ _) as [[e5 | s] | |] eqn:EA;
      try reflexivity.
    exfalso. now apply (Hns s).
Qed.

Lemma bspatch_error_writes_nothing_witness :
  snd (fst (BSPatch (list byte) buffer_Write 1 (reader_of "abc") [x7a] 3
              too_much_patch)) = [x7a].
Proof.
  destruct (bspatch_error_writes_nothing (list byte) buffer_Write 1
              (reader_of "abc") [x7a] 3 too_much_patch) as (_ & H & _).
  - intros w p w' n e H. unfold buffer_Write in H. inversion H.
  - apply (H []). reflexivity.
Defined.

End PatchFacts.

(* ------------------------------------------------------------------ *)
(** ** The series of a patch stream *)

Section SeriesFacts.
Import Probe.

(** The messages of a BSDIFF series after its [SyncHeader], up to and
    including the control message with [Eof]. *)
Definition bsdiff_series (bh : BsdiffHeader) (cs : list Control) (eofc : Control)
  : list message :=
  MBsdiffHeader bh :: map MControl cs ++ [MControl eofc].

Definition no_eof (cs : list Control) : Prop :=
  Forall (fun c => c_Eof c = false) cs.

Definition valid_index {A} (l : list A) (i : Z) : Prop := 0 <= i < len l.


Lemma analyzeBsdiff_controls_series cs eofc rest s :
  no_eof cs -> c_Eof eofc = true ->
  exists s',
    analyzeBsdiff_controls (map MControl cs ++ MControl eofc :: rest) s
    = (rest, inr s').
Proof.
  intros Hcs He. revert s.
  induction Hcs as [| c cs Hc _ IH]; intros s; simpl.
  - rewrite He. eauto.
  - rewrite Hc. apply IH.
Qed.

Lemma skip_controls_series cs eofc rest :
  no_eof cs -> c_Eof eofc = true ->
  skip_controls (map MControl cs ++ MControl eofc :: rest) = (rest, None).
Proof.
  intros Hcs He.
  induction Hcs as [| c cs Hc _ IH]; simpl.
  - now rewrite He.
  - rewrite Hc. apply IH.
Qed.

Lemma ld_valid {A} (l : list A) i : valid_index l i -> exists x, ld l i = Done x.
Proof. apply ld_ok. Qed.

Definition is_hey (t : SyncOp_Type) : bool :=
  match t with SyncOp_HEY_YOU_DID_IT => true | _ => false end.


Lemma analyzeBsdiff_after_series tgt src sh bh cs eofc next :
  valid_index (Files src) (sh_FileIndex sh) ->
  valid_index (Files tgt) (bh_TargetIndex bh) ->
  no_eof cs -> c_Eof eofc = true ->
  analyzeBsdiff {| target := tgt; source := src;
                   rctx := bsdiff_series bh cs eofc ++ next |} sh
  = match ReadMessage asSyncOp next with
    | (r, inl e) => (r, Done (Some e))
    | (r, inr rop) =>
        match op_Type rop with
        | SyncOp_HEY_YOU_DID_IT => (r, Done None)
        | t => (r, Done (Some (ErrExpectedHeyYouDidIt t)))
        end
    end.
Proof.
  intros Hs Hb Hcs He.
  destruct (ld_valid _ _ Hs) as (f & Hf).
  destruct (ld_valid _ _ Hb) as (tf & Htf).
  unfold analyzeBsdiff, bsdiff_series. cbn [rctx source target].
  rewrite Hf. cbn [app ReadMessage asBsdiffHeader]. rewrite Htf.
  rewrite <- app_assoc. cbn [app].
  destruct (analyzeBsdiff_controls_series cs eofc next
              {| oldpos := 0; newpos := 0; pristine := 0; bestUnchanged := 0 |}
              Hcs He) as (s' & ->).
  reflexivity.
Qed.

Lemma skipSeries_after_series tgt src sh bh cs eofc next :
  sh_Type sh = SyncHeader_BSDIFF ->
  no_eof cs -> c_Eof eofc = true ->
  skipSeries {| target := tgt; source := src;
                rctx := bsdiff_series bh cs eofc ++ next |} sh
  = match ReadMessage asSyncOp next with
    | (r, inl e) => (r, Some e)
    | (r, inr rop) =>
        match op_Type rop with
        | SyncOp_HEY_YOU_DID_IT => (r, None)
        | _ => (r, Some ErrMissingHeyYouDidIt)
        end
    end.
Proof.
  intros Ht Hcs He. unfold skipSeries, bsdiff_series. rewrite Ht. cbn [rctx].
  cbn [app ReadMessage asBsdiffHeader]. rewrite <- app_assoc. cbn [app].
  rewrite (skip_controls_series cs eofc next Hcs He). reflexivity.
Qed.


Definition one_file : Container := {| Files := [{| Path := "a"; Size := 1 |}] |}.
Definition data_op : SyncOp :=
  {| op_Type := SyncOp_DATA; op_FileIndex := 0; op_BlockIndex := 0;
     op_BlockSpan := 0; op_Data := [] |}.
Definition hey_op : SyncOp :=
  {| op_Type := SyncOp_HEY_YOU_DID_IT; op_FileIndex := 0; op_BlockIndex := 0;
     op_BlockSpan := 0; op_Data := [] |}.
Definition eof_control : Control :=
  {| c_Add := []; c_Copy := []; c_Seek := 0; c_Eof := true |}.
Definition bsdiff_header_0 : SyncHeader :=
  {| sh_Type := SyncHeader_BSDIFF; sh_FileIndex := 0 |}.




(** [doDeepAnalysis] itself does not look at the error that
    [analyzeSeries] returns: for a file in [topIndexMap] whose BSDIFF
    series lacks its HEY_YOU_DID_IT, the loop goes on to the next file
    and returns nil at the end. *)
Remark doDeepAnalysis_drops_analyze_error :
  deep_files (fun _ => true) one_file one_file 0 (Files one_file)
    (MSyncHeader bsdiff_header_0
     :: bsdiff_series {| bh_TargetIndex := 0 |} [] eof_control
     ++ [MSyncOp data_op])
  = ([], Done None).
Proof. reflexivity. Qed.


(** A well-formed series, without its [SyncHeader]: the operations of
    an RSYNC series and its closing operation, or the header, the
    control messages, the control message with [Eof] and the closing
    operation of a BSDIFF series. *)
Inductive series :=
| RsyncSeries (ops : list SyncOp) (hey : SyncOp)
| BsdiffSeries (bh : BsdiffHeader) (cs : list Control) (eofc : Control)
    (hey : SyncOp).

Definition series_type (s : series) : SyncHeader_Type :=
  match s with
  | RsyncSeries _ _ => SyncHeader_RSYNC
  | BsdiffSeries _ _ _ _ => SyncHeader_BSDIFF
  end.

Definition series_body (s : series) : list message :=
  match s with
  | RsyncSeries ops hey => map MSyncOp ops ++ [MSyncOp hey]
  | BsdiffSeries bh cs eofc hey => bsdiff_series bh cs eofc ++ [MSyncOp hey]
  end.

Definition well_formed_op (tgt : Container) (op : SyncOp) : Prop :=
  op_Type op <> SyncOp_HEY_YOU_DID_IT
  /\ (op_Type op = SyncOp_BLOCK_RANGE ->
      valid_index (Files tgt) (op_FileIndex op)).

Definition well_formed (tgt : Container) (s : series) : Prop :=
  match s with
  | RsyncSeries ops hey =>
      Forall (well_formed_op tgt) ops /\ op_Type hey = SyncOp_HEY_YOU_DID_IT
  | BsdiffSeries bh cs eofc hey =>
      valid_index (Files tgt) (bh_TargetIndex bh)
      /\ no_eof cs /\ c_Eof eofc = true
      /\ op_Type hey = SyncOp_HEY_YOU_DID_IT
  end.

(** The stream of the series of the files [fileIndex], [fileIndex+1], ... *)
Fixpoint patch_stream (fileIndex : Z) (ss : list series) : list message :=
  match ss with
  | [] => []
  | s :: ss =>
      MSyncHeader {| sh_Type := series_type s; sh_FileIndex := fileIndex |}
      :: series_body s ++ patch_stream (fileIndex + 1) ss
  end.

Definition keys_valid (tgt : Container) (tb : list (Z * Z)) : Prop :=
  Forall (fun kv => valid_index (Files tgt) (fst kv)) tb.

Lemma add_blocks_valid tgt tb i span :
  keys_valid tgt tb -> valid_index (Files tgt) i ->
  keys_valid tgt (add_blocks tb i span).
Proof.
  intros Htb Hi. induction Htb as [| [k v] tb Hk Htb IH]; simpl.
  - constructor; [exact Hi | constructor].
  - destruct (k =? i); constructor; simpl in *; auto.
Qed.

Lemma report_blocks_ok tgt tb :
  keys_valid tgt tb -> report_blocks tgt tb = Done tt.
Proof.
  intros Htb. induction Htb as [| [k v] tb Hk _ IH]; simpl; [reflexivity |].
  simpl in Hk. destruct (ld_valid _ _ Hk) as (x & ->). simpl. exact IH.
Qed.

Lemma analyzeRsync_ops_series tgt ops hey rest :
  Forall (well_formed_op tgt) ops -> op_Type hey = SyncOp_HEY_YOU_DID_IT ->
  forall tb, keys_valid tgt tb ->
  exists tb',
    analyzeRsync_ops (map MSyncOp ops ++ MSyncOp hey :: rest) tb = (rest, inr tb')
    /\ keys_valid tgt tb'.
Proof.
  intros Hops Hh. induction Hops as [| op ops [Hn Hv] _ IH]; intros tb Htb; simpl.
  - rewrite Hh. eauto.
  - destruct (op_Type op) eqn:E; try (now apply IH); [| contradiction].
    apply IH. apply add_blocks_valid; auto.
Qed.

Lemma skip_ops_series tgt ops hey rest :
  Forall (well_formed_op tgt) ops -> op_Type hey = SyncOp_HEY_YOU_DID_IT ->
  skip_ops (map MSyncOp ops ++ MSyncOp hey :: rest) = (rest, None).
Proof.
  intros Hops Hh. induction Hops as [| op ops [Hn Hv] _ IH]; simpl.
  - now rewrite Hh.
  - destruct (op_Type op); try assumption. contradiction.
Qed.

Lemma series_parse_and_skip tgt src s sh rest :
  well_formed tgt s -> sh_Type sh = series_type s ->
  valid_index (Files src) (sh_FileIndex sh) ->
  analyzeSeries {| target := tgt; source := src; rctx := series_body s ++ rest |} sh
  = (rest, Done None)
  /\ skipSeries {| target := tgt; source := src; rctx := series_body s ++ rest |} sh
     = (rest, None).
Proof.
  intros Hwf Ht Hs. destruct s as [ops hey | bh cs eofc hey]; simpl in Hwf, Ht.
  - destruct Hwf as [Hops Hh].
    unfold analyzeSeries, skipSeries. rewrite Ht.
    unfold analyzeRsync. cbn [rctx source target series_body].
    destruct (ld_valid _ _ Hs) as (f & ->).
    rewrite <- app_assoc. cbn [app].
    destruct (analyzeRsync_ops_series tgt ops hey rest Hops Hh [])
      as (tb & -> & Htb); [constructor |].
    rewrite (report_blocks_ok tgt tb Htb). cbn [bind].
    rewrite (skip_ops_series tgt ops hey rest Hops Hh). auto.
  - destruct Hwf as (Hb & Hcs & He & Hh).
    assert (Ht' : sh_Type sh = SyncHeader_BSDIFF) by exact Ht.
    unfold analyzeSeries. rewrite Ht'. cbn [series_body].
    rewrite <- app_assoc. cbn [app].
    rewrite (analyzeBsdiff_after_series tgt src sh bh cs eofc
               (MSyncOp hey :: rest) Hs Hb Hcs He).
    rewrite (skipSeries_after_series tgt src sh bh cs eofc
               (MSyncOp hey :: rest) Ht' Hcs He).
    cbn [ReadMessage asSyncOp]. rewrite Hh. auto.
Qed.

Lemma deep_files_well_formed top tgt src rest :
  forall ss files fileIndex,
    Forall (well_formed tgt) ss -> length ss = length files ->
    0 <= fileIndex -> fileIndex + len files <= len (Files src) ->
    deep_files top tgt src fileIndex files (patch_stream fileIndex ss ++ rest)
    = (rest, Done None).
Proof.
  induction ss as [| s ss IH]; intros files fileIndex Hwf Hlen H0 Hle.
  - destruct files; [reflexivity | discriminate].
  - destruct files as [| f files]; [discriminate |].
    inversion Hwf as [| ? ? Hs Hss]; subst.
    cbn [patch_stream deep_files app ReadMessage asSyncHeader sh_FileIndex].
    rewrite Z.eqb_refl. cbn [negb].
    assert (Hv : valid_index (Files src)
                   (sh_FileIndex {| sh_Type := series_type s;
                                    sh_FileIndex := fileIndex |})).
    { unfold valid_index, len in *. simpl in *. lia. }
    rewrite <- app_assoc.
    destruct (series_parse_and_skip tgt src s
                {| sh_Type := series_type s; sh_FileIndex := fileIndex |}
                (patch_stream (fileIndex + 1) ss ++ rest) Hs eq_refl Hv)
      as [HA HK].
    rewrite HA, HK.
    assert (Hrec : deep_files top tgt src (fileIndex + 1) files
                     (patch_stream (fileIndex + 1) ss ++ rest) = (rest, Done None)).
    { apply IH; try assumption.
      - simpl in Hlen. lia.
      - lia.
      - unfold len in *. simpl in Hle. lia. }
    rewrite Hrec. destruct (top fileIndex); reflexivity.
Qed.

(** C9: for a well-formed series of either kind, [skipSeries] and
    [analyzeSeries] read the same messages: from a read context that
    holds the series followed by anything, both succeed and leave the
    cursor on the first message after the series.  Hence over a
    well-formed stream of the series of all files the loop of
    [doDeepAnalysis] ends with the cursor after the last series for
    whichever files are analysed and whichever are skipped. *)
Theorem skip_consumes_as_parse tgt src :
  (forall s sh rest,
      well_formed tgt s -> sh_Type sh = series_type s ->
      valid_index (Files src) (sh_FileIndex sh) ->
      analyzeSeries {| target := tgt; source := src;
                       rctx := series_body s ++ rest |} sh = (rest, Done None)
      /\ skipSeries {| target := tgt; source := src;
                       rctx := series_body s ++ rest |} sh = (rest, None))
  /\ (forall ss rest,
         Forall (well_formed tgt) ss -> length ss = length (Files src) ->
         forall top,
           deep_files top tgt src 0 (Files src) (patch_stream 0 ss ++ rest)
           = (rest, Done None)).
Proof.
  split.
  - intros. now apply series_parse_and_skip.
  - intros ss rest Hwf Hlen top.
    apply deep_files_well_formed; try assumption; lia.
Qed.

Definition block_op : SyncOp :=
  {| op_Type := SyncOp_BLOCK_RANGE; op_FileIndex := 0; op_BlockIndex := 0;
     op_BlockSpan := 2; op_Data := [] |}.
Definition zero_control : Control :=
  {| c_Add := [x00; x01]; c_Copy := [x02]; c_Seek := 1; c_Eof := false |}.
Definition two_files : Container :=
  {| Files := [{| Path := "a"; Size := 1 |}; {| Path := "b"; Size := 2 |}] |}.
Definition two_series : list series :=
  [ RsyncSeries [block_op; data_op] hey_op;
    BsdiffSeries {| bh_TargetIndex := 1 |} [zero_control] eof_control hey_op ].

Lemma skip_consumes_as_parse_witness :
  deep_files (fun i => i =? 0) two_files two_files 0 (Files two_files)
    (patch_stream 0 two_series ++ [MSyncOp data_op])
  = ([MSyncOp data_op], Done None)
  /\ deep_files (fun i => i =? 1) two_files two_files 0 (Files two_files)
       (patch_stream 0 two_series ++ [MSyncOp data_op])
     = ([MSyncOp data_op], Done None).
Proof.
  assert (Hwf : Forall (well_formed two_files) two_series).
  { repeat constructor; try discriminate;
      try (unfold valid_index, len; simpl; lia). }
  split;
    apply (proj2 (skip_consumes_as_parse two_files two_files)
             two_series [MSyncOp data_op] Hwf eq_refl).
Defined.

End SeriesFacts.

(* ------------------------------------------------------------------ *)
(** ** Arrays read by position *)

(** [zn a i]: the entry [a[i]], and 0 out of range *)
Definition zn (a : list Z) (i : Z) : Z := nth (Z.to_nat i) a 0.

(** [bn a i]: the byte [a[i]] *)
Definition bn (a : list byte) (i : Z) : byte := nth (Z.to_nat i) a x00.

Lemma ld_zn a i : 0 <= i < len a -> ld a i = Done (zn a i).
Proof.
  intros H. unfold ld, zn, len in *.
  destruct (i <? 0) eqn:E; [apply Z.ltb_lt in E; lia |].
  destruct (nth_error a (Z.to_nat i)) eqn:Hn.
  - now rewrite (nth_error_nth _ _ _ Hn).
  - apply nth_error_None in Hn. lia.
Qed.

Lemma ld_bn a i : 0 <= i < len a -> ld a i = Done (bn a i).
Proof.
  intros H. unfold ld, bn, len in *.
  destruct (i <? 0) eqn:E; [apply Z.ltb_lt in E; lia |].
  destruct (nth_error a (Z.to_nat i)) eqn:Hn.
  - now rewrite (nth_error_nth _ _ _ Hn).
  - apply nth_error_None in Hn. lia.
Qed.

Lemma nth_set_nth {A} (a : list A) i j x d :
  (i < length a)%nat ->
  nth j (set_nth i a x) d = if Nat.eqb j i then x else nth j a d.
Proof.
  revert i j. induction a as [| y a IH]; intros i j Hi; simpl in *; [lia |].
  destruct i, j; simpl; try reflexivity.
  apply IH. lia.
Qed.

(** [upd a i x]: the array [a] after [a[i] = x] *)
Definition upd {A} (a : list A) (i : Z) (x : A) : list A := set_nth (Z.to_nat i) a x.

Lemma st_upd {A} (a : list A) i x : 0 <= i < len a -> st a i x = Done (upd a i x).
Proof. apply st_ok. Qed.

Lemma len_upd {A} (a : list A) i x : len (upd a i x) = len a.
Proof. apply len_set_nth. Qed.

Lemma zn_upd a i j x :
  0 <= i < len a -> 0 <= j ->
  zn (upd a i x) j = if j =? i then x else zn a j.
Proof.
  intros Hi Hj. unfold zn, upd, len in *.
  rewrite nth_set_nth by lia.
  destruct (j =? i) eqn:E.
  - apply Z.eqb_eq in E. subst. now rewrite Nat.eqb_refl.
  - apply Z.eqb_neq in E.
    destruct (Nat.eqb (Z.to_nat j) (Z.to_nat i)) eqn:E'; [| reflexivity].
    apply Nat.eqb_eq in E'. lia.
Qed.

Lemma zn_upd_same a i x : 0 <= i < len a -> zn (upd a i x) i = x.
Proof. intros. rewrite zn_upd by lia. now rewrite Z.eqb_refl. Qed.

Lemma zn_upd_other a i j x :
  0 <= i < len a -> 0 <= j -> j <> i -> zn (upd a i x) j = zn a j.
Proof.
  intros. rewrite zn_upd by lia.
  destruct (j =? i) eqn:E; [apply Z.eqb_eq in E; lia | reflexivity].
Qed.

(** [swapped a i j]: the array [a] after [swap(a, i, j)] *)
Definition swapped (a : list Z) (i j : Z) : list Z :=
  upd (upd a i (zn a j)) j (zn a i).

Lemma swap_ok a i j :
  0 <= i < len a -> 0 <= j < len a ->
  Bsdiff.swap a i j = Done (swapped a i j).
Proof.
  intros Hi Hj. unfold Bsdiff.swap, swapped.
  rewrite (ld_zn a j), (ld_zn a i) by assumption. simpl.
  rewrite st_upd by assumption. simpl.
  rewrite st_upd by (rewrite len_upd; assumption). reflexivity.
Qed.

Lemma len_swapped a i j : len (swapped a i j) = len a.
Proof. unfold swapped. now rewrite !len_upd. Qed.

Lemma zn_swapped a i j q :
  0 <= i < len a -> 0 <= j < len a -> 0 <= q ->
  zn (swapped a i j) q =
  if q =? j then zn a i else if q =? i then zn a j else zn a q.
Proof.
  intros Hi Hj Hq. unfold swapped.
  rewrite zn_upd by (rewrite ?len_upd; lia).
  destruct (q =? j); [reflexivity |].
  now rewrite zn_upd by lia.
Qed.

(* ------------------------------------------------------------------ *)
(** ** The invariant rule of [while] *)

Lemma while_inv {St} (Inv : St -> Prop) (m : St -> Z)
  (cond : St -> run bool) (body : St -> run St) :
  (forall s, Inv s -> exists c, cond s = Done c) ->
  (forall s, Inv s -> cond s = Done true ->
             exists s', body s = Done s' /\ Inv s' /\ 0 <= m s' < m s) ->
  forall fuel s,
    Inv s -> m s <= Z.of_nat fuel ->
    exists s', while fuel cond body s = Done s' /\ Inv s'
               /\ cond s' = Done false.
Proof.
  intros Hc Hb. induction fuel as [| f IH]; intros s Hi Hm.
  - destruct (Hc s Hi) as ([|] & E).
    + destruct (Hb s Hi E) as (s' & _ & _ & Hlt). lia.
    + exists s. simpl. rewrite E. simpl. auto.
  - destruct (Hc s Hi) as ([|] & E).
    + destruct (Hb s Hi E) as (s' & Eb & Hi' & Hlt).
      destruct (IH s' Hi') as (s2 & Ew & Hi2 & Ec2); [lia |].
      exists s2. simpl. rewrite E. simpl. rewrite Eb. simpl. auto.
    + exists s. simpl. rewrite E. simpl. auto.
Qed.

(* ------------------------------------------------------------------ *)
(** ** Counting the positions of a range that satisfy a test *)

Fixpoint cnt_up (f : Z -> bool) (lo : Z) (n : nat) : Z :=
  match n with
  | O => 0
  | S n => (if f lo then 1 else 0) + cnt_up f (lo + 1) n
  end.

(** [cnt f lo hi]: how many [q] in [[lo, hi)] have [f q = true] *)
Definition cnt (f : Z -> bool) (lo hi : Z) : Z := cnt_up f lo (Z.to_nat (hi - lo)).

Lemma cnt_empty f lo hi : hi <= lo -> cnt f lo hi = 0.
Proof. intros H. unfold cnt. now replace (Z.to_nat (hi - lo)) with O by lia. Qed.

Lemma cnt_first f lo hi :
  lo < hi -> cnt f lo hi = (if f lo then 1 else 0) + cnt f (lo + 1) hi.
Proof.
  intros H. unfold cnt.
  replace (Z.to_nat (hi - lo)) with (S (Z.to_nat (hi - (lo + 1)))) by lia.
  reflexivity.
Qed.

Lemma cnt_up_app f lo a b :
  cnt_up f lo (a + b) = cnt_up f lo a + cnt_up f (lo + Z.of_nat a) b.
Proof.
  revert lo. induction a as [| a IH]; intros lo; simpl.
  - now replace (lo + 0) with lo by lia.
  - rewrite IH. replace (lo + 1 + Z.of_nat a) with (lo + Z.pos (Pos.of_succ_nat a)) by lia.
    lia.
Qed.

Lemma cnt_split f lo mid hi :
  lo <= mid <= hi -> cnt f lo hi = cnt f lo mid + cnt f mid hi.
Proof.
  intros H. unfold cnt.
  replace (Z.to_nat (hi - lo)) with (Z.to_nat (mid - lo) + Z.to_nat (hi - mid))%nat by lia.
  rewrite cnt_up_app. repeat f_equal. lia.
Qed.

Lemma cnt_last f lo hi :
  lo < hi -> cnt f lo hi = cnt f lo (hi - 1) + (if f (hi - 1) then 1 else 0).
Proof.
  intros H. rewrite (cnt_split f lo (hi - 1) hi) by lia.
  rewrite (cnt_first f (hi - 1) hi) by lia.
  rewrite (cnt_empty f (hi - 1 + 1) hi) by lia. lia.
Qed.

Lemma cnt_bounds f lo hi : 0 <= cnt f lo hi <= Z.max 0 (hi - lo).
Proof.
  unfold cnt. remember (Z.to_nat (hi - lo)) as n eqn:E.
  assert (H : 0 <= cnt_up f lo n <= Z.of_nat n).
  { clear E. revert lo. induction n as [| n IH]; intros lo; simpl; [lia |].
    specialize (IH (lo + 1)). destruct (f lo); lia. }
  lia.
Qed.

Lemma cnt_ext f g lo hi :
  (forall q, lo <= q < hi -> f q = g q) -> cnt f lo hi = cnt g lo hi.
Proof.
  unfold cnt. remember (Z.to_nat (hi - lo)) as n eqn:E.
  assert (Hn : lo + Z.of_nat n <= Z.max lo hi) by lia. clear E.
  revert lo Hn. induction n as [| n IH]; intros lo Hn H; simpl; [reflexivity |].
  rewrite H by lia. rewrite IH; [reflexivity | lia |].
  intros q Hq. apply H. lia.
Qed.

Lemma cnt_all f lo hi :
  lo <= hi -> (forall q, lo <= q < hi -> f q = true) -> cnt f lo hi = hi - lo.
Proof.
  intros Hle H. unfold cnt. remember (Z.to_nat (hi - lo)) as n eqn:E.
  assert (Hn : hi = lo + Z.of_nat n) by lia. clear E. subst hi.
  revert lo Hle H. induction n as [| n IH]; intros lo Hle H; simpl; [lia |].
  rewrite H by lia. rewrite IH; [lia | lia |].
  intros q Hq. apply H. lia.
Qed.

Lemma cnt_none f lo hi :
  (forall q, lo <= q < hi -> f q = false) -> cnt f lo hi = 0.
Proof.
  intros H. rewrite (cnt_ext f (fun _ => false)) by assumption.
  unfold cnt. generalize (Z.to_nat (hi - lo)) as n. generalize lo as l.
  intros l n. revert l. induction n as [| n IH]; intros l; simpl; auto.
Qed.

Lemma cnt_full_all f lo hi :
  lo <= hi -> cnt f lo hi = hi - lo -> forall q, lo <= q < hi -> f q = true.
Proof.
  intros Hle H q Hq.
  rewrite (cnt_split f lo q hi) in H by lia.
  rewrite (cnt_first f q hi) in H by lia.
  pose proof (cnt_bounds f lo q). pose proof (cnt_bounds f (q + 1) hi).
  destruct (f q); [reflexivity | lia].
Qed.

Lemma cnt_zero_none f lo hi :
  cnt f lo hi = 0 -> forall q, lo <= q < hi -> f q = false.
Proof.
  intros H q Hq.
  rewrite (cnt_split f lo q hi) in H by lia.
  rewrite (cnt_first f q hi) in H by lia.
  pose proof (cnt_bounds f lo q). pose proof (cnt_bounds f (q + 1) hi).
  destruct (f q); [lia | reflexivity].
Qed.

(** Counting is not changed by exchanging the values at two positions. *)
Lemma cnt_swap f g lo hi i j :
  lo <= i < hi -> lo <= j < hi ->
  g i = f j -> g j = f i ->
  (forall q, lo <= q < hi -> q <> i -> q <> j -> g q = f q) ->
  cnt g lo hi = cnt f lo hi.
Proof.
  assert (W : forall f g lo hi i j,
             lo <= i < hi -> lo <= j < hi -> i < j ->
             g i = f j -> g j = f i ->
             (forall q, lo <= q < hi -> q <> i -> q <> j -> g q = f q) ->
             cnt g lo hi = cnt f lo hi).
  { clear. intros f g lo hi i j Hi Hj Hlt Gi Gj Ho.
    rewrite (cnt_split g lo i hi), (cnt_split f lo i hi) by lia.
    rewrite (cnt_first g i hi), (cnt_first f i hi) by lia.
    rewrite (cnt_split g (i + 1) j hi), (cnt_split f (i + 1) j hi) by lia.
    rewrite (cnt_first g j hi), (cnt_first f j hi) by lia.
    rewrite Gi, Gj.
    rewrite (cnt_ext g f lo i) by (intros; apply Ho; lia).
    rewrite (cnt_ext g f (i + 1) j) by (intros; apply Ho; lia).
    rewrite (cnt_ext g f (j + 1) hi) by (intros; apply Ho; lia).
    lia. }
  intros Hi Hj Gi Gj Ho.
  destruct (Z.lt_trichotomy i j) as [L | [E | L]].
  - now apply (W f g lo hi i j).
  - subst j. apply cnt_ext. intros q Hq.
    destruct (Z.eq_dec q i) as [-> | Hne]; [assumption | now apply Ho].
  - apply (W f g lo hi j i); auto.
Qed.

Lemma cnt_pos f lo hi q : lo <= q < hi -> f q = true -> 1 <= cnt f lo hi.
Proof.
  intros Hq Hf. rewrite (cnt_split f lo q hi) by lia.
  rewrite (cnt_first f q hi) by lia. rewrite Hf.
  pose proof (cnt_bounds f lo q). pose proof (cnt_bounds f (q + 1) hi). lia.
Qed.

Lemma cnt_not_full f lo hi q :
  lo <= q < hi -> f q = false -> cnt f lo hi <= hi - lo - 1.
Proof.
  intros Hq Hf. rewrite (cnt_split f lo q hi) by lia.
  rewrite (cnt_first f q hi) by lia. rewrite Hf.
  pose proof (cnt_bounds f lo q). pose proof (cnt_bounds f (q + 1) hi). lia.
Qed.

Lemma cnt_le_lt_eq (key : Z -> Z) x lo hi :
  cnt (fun q => key q <=? x) lo hi
  = cnt (fun q => key q <? x) lo hi + cnt (fun q => key q =? x) lo hi.
Proof.
  unfold cnt. generalize (Z.to_nat (hi - lo)) as m. intros m. revert lo.
  induction m as [| m IH]; intros lo; simpl; [reflexivity |].
  rewrite IH.
  destruct (key lo <=? x) eqn:E1; destruct (key lo <? x) eqn:E2;
    destruct (key lo =? x) eqn:E3;
    rewrite ?Z.leb_le, ?Z.leb_gt, ?Z.ltb_lt, ?Z.ltb_ge, ?Z.eqb_eq, ?Z.eqb_neq in *;
    lia.
Qed.

(* ------------------------------------------------------------------ *)
(** ** The order of the suffixes *)

Section Suffixes.

Variable obuf : list byte.

(** The suffix of [obuf] that starts at [s] *)
Definition sfx (s : Z) : list byte := skipn (Z.to_nat s) obuf.

(** [prec s t]: suffix [s] is lexicographically below suffix [t] *)
Definition prec (s t : Z) : Prop := Bsdiff.bytes_compare (sfx s) (sfx t) = Lt.

(** [share h s t]: suffixes [s] and [t] both have [h] bytes at least and
    agree on their first [h] bytes *)
Definition share (h s t : Z) : Prop :=
  0 <= s /\ 0 <= t /\ s + h <= len obuf /\ t + h <= len obuf
  /\ forall i, 0 <= i < h -> bn obuf (s + i) = bn obuf (t + i).

Lemma sfx_cons s : 0 <= s < len obuf -> sfx s = bn obuf s :: sfx (s + 1).
Proof.
  intros H. unfold sfx, bn, len in *.
  replace (Z.to_nat (s + 1)) with (S (Z.to_nat s)) by lia.
  assert (Hl : (Z.to_nat s < length obuf)%nat) by lia.
  revert Hl. generalize (Z.to_nat s) as k. clear H.
  induction obuf as [| c l IH]; intros k Hl; simpl in *; [lia |].
  destruct k; [reflexivity |]. apply IH. lia.
Qed.

Lemma sfx_end : sfx (len obuf) = [].
Proof. unfold sfx, len. rewrite Nat2Z.id. apply skipn_all. Qed.

Lemma len_sfx s : 0 <= s <= len obuf -> len (sfx s) = len obuf - s.
Proof. intros H. unfold sfx, len in *. rewrite length_skipn. lia. Qed.

Lemma compare_cons_same c a b :
  Bsdiff.bytes_compare (c :: a) (c :: b) = Bsdiff.bytes_compare a b.
Proof. simpl. now rewrite Z.compare_refl. Qed.

Lemma compare_refl a : Bsdiff.bytes_compare a a = Eq.
Proof. induction a; simpl; [reflexivity |]. now rewrite Z.compare_refl. Qed.

Lemma prec_irrefl s : ~ prec s s.
Proof. unfold prec. rewrite compare_refl. discriminate. Qed.

Lemma share_nonneg h s t : share h s t -> 0 <= s /\ 0 <= t.
Proof. intros (H1 & H2 & _). auto. Qed.

Lemma compare_share h s t :
  0 <= h -> share h s t ->
  Bsdiff.bytes_compare (sfx s) (sfx t)
  = Bsdiff.bytes_compare (sfx (s + h)) (sfx (t + h)).
Proof.
  intros Hh. revert s t. pattern h. apply natlike_ind; [| | assumption].
  - intros s t _. now rewrite !Z.add_0_r.
  - clear h Hh. intros h Hh IH s t (Hs & Ht & Hsn & Htn & Heq).
    rewrite (sfx_cons s), (sfx_cons t) by lia.
    pose proof (Heq 0) as H0. rewrite !Z.add_0_r in H0. rewrite H0 by lia.
    rewrite compare_cons_same.
    replace (s + Z.succ h) with (s + 1 + h) by lia.
    replace (t + Z.succ h) with (t + 1 + h) by lia.
    apply IH. repeat split; try lia.
    intros i Hi. replace (s + 1 + i) with (s + (i + 1)) by lia.
    replace (t + 1 + i) with (t + (i + 1)) by lia. apply Heq. lia.
Qed.

Lemma prec_share h s t :
  0 <= h -> share h s t -> prec (s + h) (t + h) -> prec s t.
Proof. intros Hh Hs Hp. unfold prec. now rewrite (compare_share h s t). Qed.

Lemma share_refl h s : 0 <= s -> s + h <= len obuf -> share h s s.
Proof. intros. repeat split; auto. Qed.

Lemma share_sym h s t : share h s t -> share h t s.
Proof.
  intros (H1 & H2 & H3 & H4 & H5). repeat split; auto.
  intros i Hi. symmetry. now apply H5.
Qed.

Lemma share_trans h s t u : share h s t -> share h t u -> share h s u.
Proof.
  intros (H1 & H2 & H3 & H4 & H5) (K1 & K2 & K3 & K4 & K5).
  repeat split; auto. intros i Hi. rewrite H5 by assumption. now apply K5.
Qed.

Lemma share_less h h' s t : h' <= h -> share h s t -> share h' s t.
Proof.
  intros Hle (H1 & H2 & H3 & H4 & H5). repeat split; try lia.
  intros i Hi. apply H5. lia.
Qed.

Lemma share_double h s t :
  0 <= h -> share h s t -> share h (s + h) (t + h) -> share (h + h) s t.
Proof.
  intros Hh (H1 & H2 & H3 & H4 & H5) (K1 & K2 & K3 & K4 & K5).
  repeat split; try lia.
  intros i Hi. destruct (Z_lt_le_dec i h) as [L | L].
  - apply H5. lia.
  - replace (s + i) with (s + h + (i - h)) by lia.
    replace (t + i) with (t + h + (i - h)) by lia. apply K5. lia.
Qed.

Lemma share_one s t :
  0 <= s < len obuf -> 0 <= t < len obuf -> bn obuf s = bn obuf t ->
  share 1 s t.
Proof.
  intros Hs Ht He. repeat split; try lia.
  intros i Hi. replace i with 0 by lia. now rewrite !Z.add_0_r.
Qed.

Lemma prec_first_byte s t :
  0 <= s < len obuf -> 0 <= t < len obuf ->
  b2z (bn obuf s) < b2z (bn obuf t) -> prec s t.
Proof.
  intros Hs Ht Hlt. unfold prec.
  rewrite (sfx_cons s), (sfx_cons t) by lia. simpl.
  apply Z.compare_lt_iff in Hlt. now rewrite Hlt.
Qed.

Lemma prec_sentinel t : 0 <= t < len obuf -> prec (len obuf) t.
Proof.
  intros Ht. unfold prec. rewrite sfx_end, (sfx_cons t) by lia. reflexivity.
Qed.

End Suffixes.

(* ------------------------------------------------------------------ *)
(** ** The invariant of the suffix sort *)

Ltac splits := repeat match goal with |- _ /\ _ => split end.

Section Groups.

Variable obuf : list byte.

Local Abbreviation n := (len obuf).
Local Abbreviation N := (len obuf + 1).

(** [P] lists every suffix 0..n exactly once. *)
Definition isperm (P : list Z) : Prop :=
  len P = N
  /\ (forall q, 0 <= q < N -> 0 <= zn P q < N)
  /\ (forall q q', 0 <= q < N -> 0 <= q' < N -> zn P q = zn P q' -> q = q')
  /\ (forall s, 0 <= s < N -> exists q, 0 <= q < N /\ zn P q = s).

Definition ranged (V : list Z) : Prop :=
  len V = N /\ forall s, 0 <= s < N -> 0 <= zn V s < N.

(** The group number of the suffix at position [q] *)
Definition G (V P : list Z) (q : Z) : Z := zn V (zn P q).

(** A group number is the last position of its group, and groups are
    intervals of positions. *)
Definition layout (V P : list Z) : Prop :=
  forall q, 0 <= q < N ->
            q <= G V P q /\ forall r, q <= r <= G V P q -> G V P r = G V P q.

(** A negative entry [-e] of [I] heads [e] positions that are sorted
    and marked; any other entry is the suffix at its position, which
    has [h] bytes at least and whose group ends without mark. *)
Definition marks (h : Z) (I_ V P : list Z) : Prop :=
  len I_ = N
  /\ forall q, 0 <= q < N ->
       (zn I_ q < 0 ->
        q - zn I_ q <= N
        /\ forall r, q <= r < q - zn I_ q -> G V P r = r /\ zn I_ r < 0)
       /\ (0 <= zn I_ q ->
           zn I_ q = zn P q /\ zn P q + h <= n /\ 0 <= zn I_ (G V P q)).

(** Group numbers respect the order of the suffixes. *)
Definition ordered (V : list Z) : Prop :=
  forall s t, 0 <= s < N -> 0 <= t < N -> zn V s < zn V t -> prec obuf s t.

(** Suffixes of one group agree on their first [h] bytes. *)
Definition grouped (h : Z) (V : list Z) : Prop :=
  forall s t, 0 <= s < N -> 0 <= t < N -> s <> t -> zn V s = zn V t ->
              share obuf h s t.

Record GI (h : Z) (I_ V P : list Z) : Prop := {
  gi_h : 1 <= h;
  gi_perm : isperm P;
  gi_ranged : ranged V;
  gi_layout : layout V P;
  gi_marks : marks h I_ V P;
  gi_ordered : ordered V;
  gi_grouped : grouped h V }.

Lemma G_range V P q : isperm P -> ranged V -> 0 <= q < N -> 0 <= G V P q < N.
Proof.
  intros (_ & Hr & _) (_ & Hv) Hq. unfold G. apply Hv. now apply Hr.
Qed.

(** Positions before a group start have smaller group numbers. *)
Lemma before_start V P a :
  layout V P -> 0 < a < N -> G V P (a - 1) = a - 1 ->
  forall r, 0 <= r < a -> G V P r < a.
Proof.
  intros HL Ha Hs r Hr.
  destruct (Z_lt_le_dec (G V P r) a) as [L | L]; [assumption | exfalso].
  destruct (HL r) as [_ H]; [lia |].
  pose proof (H (a - 1)) as H1. rewrite Hs in H1. lia.
Qed.

(** [P'] rearranges [P] inside the positions [[lo, hi)]. *)
Definition perm_in (P P' : list Z) (lo hi : Z) : Prop :=
  isperm P'
  /\ (forall q, 0 <= q < N -> ~ lo <= q < hi -> zn P' q = zn P q)
  /\ (forall q, lo <= q < hi -> exists q0, lo <= q0 < hi /\ zn P' q = zn P q0).

Lemma perm_in_refl P lo hi : isperm P -> perm_in P P lo hi.
Proof. intros H. split; [assumption |]. split; eauto. Qed.

Lemma perm_in_trans P P1 P2 lo hi :
  0 <= lo -> hi <= N ->
  perm_in P P1 lo hi -> perm_in P1 P2 lo hi -> perm_in P P2 lo hi.
Proof.
  intros Hlo Hhi (_ & A2 & A3) (B1 & B2 & B3). split; [assumption |]. split.
  - intros q Hq Hn. rewrite B2, A2; auto.
  - intros q Hq. destruct (B3 q Hq) as (q1 & Hq1 & E1).
    destruct (A3 q1 Hq1) as (q0 & Hq0 & E0). exists q0. split; congruence.
Qed.

Lemma perm_in_wider P P' lo hi lo' hi' :
  lo' <= lo -> hi <= hi' -> 0 <= lo' -> hi' <= N ->
  perm_in P P' lo hi -> perm_in P P' lo' hi'.
Proof.
  intros H1 H2 H3 H4 (A1 & A2 & A3). split; [assumption |]. split.
  - intros q Hq Hn. apply A2; [assumption | lia].
  - intros q Hq. destruct (Z_lt_le_dec q lo) as [L | L].
    + exists q. split; [lia |]. apply A2; lia.
    + destruct (Z_lt_le_dec q hi) as [L' | L'].
      * destruct (A3 q) as (q0 & Hq0 & E); [lia |]. exists q0. split; [lia | exact E].
      * exists q. split; [lia |]. apply A2; lia.
Qed.

(** The positions of a rearranged range hold the same suffixes. *)
Lemma perm_in_back P P' lo hi :
  0 <= lo -> hi <= N -> isperm P -> perm_in P P' lo hi ->
  forall q0, lo <= q0 < hi -> exists q, lo <= q < hi /\ zn P' q = zn P q0.
Proof.
  intros Hlo Hhi (_ & Pr & Pi & _) ((_ & _ & _ & Ps') & A2 & _) q0 Hq0.
  destruct (Ps' (zn P q0)) as (q & Hq & E); [apply Pr; lia |].
  exists q. split; [| exact E].
  destruct (Z_lt_le_dec q lo) as [L | L].
  - rewrite A2 in E by lia. apply Pi in E; lia.
  - destruct (Z_lt_le_dec q hi) as [L' | L']; [lia |].
    rewrite A2 in E by lia. apply Pi in E; lia.
Qed.

Lemma isperm_swapped P i j :
  isperm P -> 0 <= i < N -> 0 <= j < N -> isperm (swapped P i j).
Proof.
  intros (Hl & Hr & Hi & Hs) Hi' Hj'.
  assert (Z : forall q, 0 <= q < N ->
                        zn (swapped P i j) q =
                        if q =? j then zn P i else if q =? i then zn P j else zn P q).
  { intros q Hq. apply zn_swapped; lia. }
  split; [now rewrite len_swapped |]. split; [| split].
  - intros q Hq. rewrite Z by assumption.
    destruct (q =? j); [now apply Hr |]. destruct (q =? i); now apply Hr.
  - intros q q' Hq Hq'. rewrite !Z by assumption.
    destruct (q =? j) eqn:E1; destruct (q' =? j) eqn:E2;
      destruct (q =? i) eqn:E3; destruct (q' =? i) eqn:E4;
      rewrite ?Z.eqb_eq, ?Z.eqb_neq in *; intros E; try lia;
      try (apply Hi in E; lia).
  - intros s Hs'. destruct (Hs s Hs') as (q & Hq & E).
    destruct (Z.eq_dec q i) as [-> | Ni].
    + exists j. split; [assumption |]. rewrite Z by assumption.
      now rewrite Z.eqb_refl.
    + destruct (Z.eq_dec q j) as [-> | Nj].
      * exists i. split; [assumption |]. rewrite Z by assumption.
        destruct (i =? j) eqn:E1; [apply Z.eqb_eq in E1; now subst |].
        now rewrite Z.eqb_refl.
      * exists q. split; [assumption |]. rewrite Z by assumption.
        destruct (q =? j) eqn:E1; [apply Z.eqb_eq in E1; lia |].
        destruct (q =? i) eqn:E2; [apply Z.eqb_eq in E2; lia |]. exact E.
Qed.

Lemma perm_in_swapped P lo hi i j :
  isperm P -> 0 <= lo -> hi <= N -> lo <= i < hi -> lo <= j < hi ->
  perm_in P (swapped P i j) lo hi.
Proof.
  intros HP Hlo Hhi Hi Hj. pose proof HP as (Hl & _).
  split; [apply isperm_swapped; auto; lia |]. split.
  - intros q Hq Hn. rewrite zn_swapped by lia.
    destruct (q =? j) eqn:E1; [apply Z.eqb_eq in E1; lia |].
    destruct (q =? i) eqn:E2; [apply Z.eqb_eq in E2; lia |]. reflexivity.
  - intros q Hq. rewrite zn_swapped by lia.
    destruct (q =? j); [exists i; auto |].
    destruct (q =? i); [exists j; auto |]. exists q; auto.
Qed.

(** A subgroup [[a, e)] at the front of the pending part [[a, b]] of a
    group gets its own number [e - 1], and its mark when it is a single
    suffix. *)
Lemma renumber h I_ V P I' V' a e b :
  GI h I_ V P ->
  0 <= a < e -> e <= b + 1 -> b < N ->
  (forall r, 0 <= r < a -> G V P r < a) ->
  (forall q, a <= q <= b -> G V P q = b /\ 0 <= zn I_ q) ->
  (forall q r, a <= q < e -> e <= r <= b -> prec obuf (zn P q) (zn P r)) ->
  (forall q q', a <= q < e -> a <= q' < e -> q <> q' ->
                share obuf (h + h) (zn P q) (zn P q')) ->
  len V' = N ->
  (forall q, a <= q < e -> zn V' (zn P q) = e - 1) ->
  (forall s, 0 <= s < N -> (forall q, a <= q < e -> zn P q <> s) ->
             zn V' s = zn V s) ->
  len I' = N ->
  (forall q, 0 <= q < N -> q <> a -> zn I' q = zn I_ q) ->
  zn I' a = (if e =? a + 1 then -1 else zn I_ a) ->
  GI h I' V' P
  /\ (forall r, 0 <= r < e -> G V' P r < e)
  /\ (forall q, e <= q <= b -> G V' P q = b /\ 0 <= zn I' q)
  /\ (forall q, a <= q < e -> G V' P q = e - 1)
  /\ (forall q, a <= q < e -> zn I' q < 0 \/ zn P q + (h + h) <= n)
  /\ (forall q, 0 <= q < N -> ~ a <= q < e -> G V' P q = G V P q).
Proof.
  intros [Hh HP HV HL HM HO HG] Hae Heb HbN Hbefore Hpend Hprec Hshare
    HlV' Hnew Hold HlI' HI' HI'a.
  pose proof HP as (HlP & Pr & Pi & Ps).
  pose proof HV as (HlV & Vr).
  destruct HM as (HlI & HM).
  (* the new group numbers, by position *)
  assert (Gin : forall q, a <= q < e -> G V' P q = e - 1).
  { intros q Hq. unfold G. now apply Hnew. }
  assert (Gout : forall q, 0 <= q < N -> ~ a <= q < e -> G V' P q = G V P q).
  { intros q Hq Hn. unfold G. apply Hold; [apply Pr; lia |].
    intros q' Hq' E. apply Pi in E; lia. }
  assert (Gafter : forall q, b < q < N -> b < G V P q).
  { intros q Hq. destruct (HL q) as [H _]; lia. }
  split; [| split; [| split; [| split; [| split]]]]; [| | | | | exact Gout].
  - constructor.
    + assumption.
    + assumption.
    + (* ranged *)
      split; [assumption |]. intros s Hs.
      destruct (Ps s Hs) as (q & Hq & <-).
      destruct (Z_lt_le_dec q a) as [L | L];
        [change (0 <= G V' P q < N); rewrite Gout by lia;
         apply G_range; auto |].
      destruct (Z_lt_le_dec q e) as [L' | L'];
        [change (0 <= G V' P q < N); rewrite Gin by lia; lia |].
      change (0 <= G V' P q < N). rewrite Gout by lia. apply G_range; auto.
    + (* layout *)
      intros q Hq.
      destruct (Z_lt_le_dec q a) as [L | L].
      { rewrite Gout by lia. destruct (HL q Hq) as [H1 H2].
        split; [assumption |]. intros r Hr.
        pose proof (Hbefore q ltac:(lia)).
        rewrite Gout by lia. now apply H2. }
      destruct (Z_lt_le_dec q e) as [L' | L'].
      { rewrite Gin by lia. split; [lia |]. intros r Hr. apply Gin. lia. }
      destruct (Z_lt_le_dec q (b + 1)) as [L2 | L2].
      { rewrite Gout by lia. destruct (Hpend q) as [E _]; [lia |].
        rewrite E. split; [lia |]. intros r Hr. rewrite Gout by lia.
        apply Hpend. lia. }
      rewrite Gout by lia. destruct (HL q Hq) as [H1 H2].
      pose proof (G_range V P q HP HV Hq).
      split; [assumption |]. intros r Hr. rewrite Gout by lia. now apply H2.
    + (* marks *)
      split; [assumption |]. intros q Hq.
      assert (Hend : 0 <= zn I' q -> 0 <= zn I_ q -> 0 <= zn I_ (G V P q) ->
                     0 <= zn I' (G V' P q)).
      { intros Hpos' Hpos Hg.
        destruct (Z_lt_le_dec q a) as [L | L].
        { rewrite Gout by lia. pose proof (Hbefore q ltac:(lia)).
          pose proof (G_range V P q HP HV Hq). rewrite HI' by lia. assumption. }
        destruct (Z_lt_le_dec q e) as [L' | L'].
        { rewrite Gin by lia. destruct (Z.eq_dec (e - 1) a) as [Ea | Ea].
          - assert (q = a) by lia. subst q. rewrite HI'a in Hpos'.
            replace (e =? a + 1) with true in Hpos'
              by (symmetry; apply Z.eqb_eq; lia). lia.
          - rewrite HI' by lia. apply Hpend. lia. }
        rewrite Gout by lia. pose proof (G_range V P q HP HV Hq).
        destruct (HL q Hq) as [Hge _]. rewrite HI' by lia. assumption. }
      destruct (Z.eq_dec q a) as [-> | Na].
      * destruct (e =? a + 1) eqn:E.
        -- rewrite HI'a.
           apply Z.eqb_eq in E. split; [| intros; lia]. intros _.
           split; [lia |]. intros r Hr. replace r with a by lia.
           split; [rewrite Gin by lia; lia |]. rewrite HI'a.
           replace (e =? a + 1) with true by (symmetry; now apply Z.eqb_eq). lia.
        -- destruct (Hpend a) as [_ Hpos]; [lia |].
           assert (Ea : zn I' a = zn I_ a) by (rewrite HI'a; reflexivity).
           split; [intros; lia |]. intros Hpos'.
           destruct (HM a Hq) as [_ M]. destruct (M Hpos) as (M1 & M2 & M3).
           rewrite Ea. splits; auto.
      * destruct (HM q Hq) as [M1 M2].
        split.
        -- rewrite HI' by assumption.
           intros Hneg. destruct (M1 Hneg) as [M3 M4]. split; [assumption |].
           intros r Hr. destruct (M4 r Hr) as [M5 M6].
           assert (Hr' : ~ a <= r <= b).
           { intros C. destruct (Hpend r C) as [_ C']. lia. }
           rewrite Gout by lia. rewrite HI' by lia. auto.
        -- intros Hpos'. pose proof Hpos' as Hpos. rewrite HI' in Hpos by assumption.
           destruct (M2 Hpos) as (M3 & M4 & M5).
           rewrite HI' by assumption. splits; auto.
    + (* ordered *)
      intros s t Hs Ht Hlt.
      destruct (Ps s Hs) as (qs & Hqs & Es). destruct (Ps t Ht) as (qt & Hqt & Et).
      subst s t. change (G V' P qs < G V' P qt) in Hlt.
      assert (Ob : forall q q', 0 <= q < N -> 0 <= q' < N ->
                                G V P q < G V P q' -> prec obuf (zn P q) (zn P q')).
      { intros q q' Hq Hq' Hl. apply HO; auto. }
      destruct (Z_lt_le_dec qs a) as [S1 | S1].
      { rewrite (Gout qs) in Hlt by lia. pose proof (Hbefore qs ltac:(lia)).
        destruct (Z_lt_le_dec qt a) as [T1 | T1];
          [rewrite (Gout qt) in Hlt by lia; now apply Ob |].
        apply Ob; auto.
        destruct (Z_lt_le_dec qt (b + 1)) as [T2 | T2].
        - destruct (Hpend qt) as [E _]; [lia |]. lia.
        - pose proof (Gafter qt ltac:(lia)). lia. }
      destruct (Z_lt_le_dec qs e) as [S2 | S2].
      { rewrite (Gin qs) in Hlt by lia.
        destruct (Z_lt_le_dec qt a) as [T1 | T1].
        { rewrite (Gout qt) in Hlt by lia. pose proof (Hbefore qt ltac:(lia)). lia. }
        destruct (Z_lt_le_dec qt e) as [T2 | T2];
          [rewrite (Gin qt) in Hlt by lia; lia |].
        destruct (Z_lt_le_dec qt (b + 1)) as [T3 | T3];
          [apply Hprec; lia |].
        apply Ob; auto. destruct (Hpend qs) as [E _]; [lia |].
        pose proof (Gafter qt ltac:(lia)). lia. }
      rewrite (Gout qs) in Hlt by lia.
      destruct (Z_lt_le_dec qt a) as [T1 | T1];
        [rewrite (Gout qt) in Hlt by lia; now apply Ob |].
      destruct (Z_lt_le_dec qt e) as [T2 | T2];
        [| rewrite (Gout qt) in Hlt by lia; now apply Ob].
      rewrite (Gin qt) in Hlt by lia. apply Ob; auto.
      destruct (Hpend qt) as [E _]; [lia |]. lia.
    + (* grouped *)
      intros s t Hs Ht Hne Heq.
      destruct (Ps s Hs) as (qs & Hqs & Es). destruct (Ps t Ht) as (qt & Hqt & Et).
      subst s t. change (G V' P qs = G V' P qt) in Heq.
      assert (Hqne : qs <> qt) by congruence.
      assert (Gb : forall q q', 0 <= q < N -> 0 <= q' < N -> q <> q' ->
                                G V P q = G V P q' ->
                                share obuf h (zn P q) (zn P q')).
      { intros q q' Hq Hq' Hn E. apply HG; auto;
          try (intros C; apply Pi in C; auto). }
      assert (In : forall q, a <= q < e -> forall q', 0 <= q' < N -> q <> q' ->
                             G V' P q = G V' P q' ->
                             share obuf h (zn P q) (zn P q')).
      { intros q Hq q' Hq' Hn E. rewrite (Gin q) in E by lia.
        destruct (Z_lt_le_dec q' a) as [T1 | T1].
        { rewrite (Gout q') in E by lia. pose proof (Hbefore q' ltac:(lia)). lia. }
        destruct (Z_lt_le_dec q' e) as [T2 | T2].
        { apply (share_less obuf (h + h)); [lia |]. apply Hshare; lia. }
        rewrite (Gout q') in E by lia. apply Gb; auto; [lia |].
        destruct (Hpend q) as [E1 _]; [lia |].
        destruct (Z_lt_le_dec q' (b + 1)) as [T3 | T3].
        - destruct (Hpend q') as [E2 _]; [lia |]. lia.
        - pose proof (Gafter q' ltac:(lia)). lia. }
      destruct (Z_lt_le_dec qs a) as [S1 | S1].
      { destruct (Z_lt_le_dec qt a) as [T1 | T1];
          [rewrite !Gout in Heq by lia; now apply Gb |].
        destruct (Z_lt_le_dec qt e) as [T2 | T2];
          [apply share_sym; apply In; auto; lia |].
        rewrite !Gout in Heq by lia; now apply Gb. }
      destruct (Z_lt_le_dec qs e) as [S2 | S2]; [apply In; auto; lia |].
      destruct (Z_lt_le_dec qt a) as [T1 | T1];
        [rewrite !Gout in Heq by lia; now apply Gb |].
      destruct (Z_lt_le_dec qt e) as [T2 | T2];
        [apply share_sym; apply In; auto; lia |].
      rewrite !Gout in Heq by lia; now apply Gb.
  - intros r Hr. destruct (Z_lt_le_dec r a) as [L | L].
    + rewrite Gout by lia. pose proof (Hbefore r ltac:(lia)). lia.
    + rewrite Gin by lia. lia.
  - intros q Hq. rewrite Gout by lia. destruct (Hpend q) as [E1 E2]; [lia |].
    split; [assumption |]. rewrite HI' by lia. assumption.
  - exact Gin.
  - intros q Hq. destruct (Z.eq_dec e (a + 1)) as [E | E].
    + left. replace q with a by lia. rewrite HI'a.
      replace (e =? a + 1) with true by (symmetry; now apply Z.eqb_eq). lia.
    + right.
      assert (exists q', a <= q' < e /\ q <> q') as (q' & Hq' & Hn).
      { destruct (Z.eq_dec q a); [exists (a + 1) | exists a]; lia. }
      destruct (Hshare q q' Hq Hq' Hn) as (_ & _ & Hb & _). exact Hb.
Qed.

(** The pending part [[a, b]] of a group: its suffixes still carry the
    number [b] and no mark. *)
Definition pending (I_ V P : list Z) (a b : Z) : Prop :=
  forall q, a <= q <= b -> G V P q = b /\ 0 <= zn I_ q.

Lemma GI_swapped h I_ V P a b i j :
  GI h I_ V P -> 0 <= a -> b < N -> pending I_ V P a b ->
  a <= i <= b -> a <= j <= b ->
  GI h (swapped I_ i j) V (swapped P i j)
  /\ pending (swapped I_ i j) V (swapped P i j) a b
  /\ (forall q, 0 <= q < N -> G V (swapped P i j) q = G V P q).
Proof.
  intros [Hh HP HV HL HM HO HG] Ha Hb Hpend Hi Hj.
  pose proof HP as (HlP & Pr & Pi & Ps). destruct HM as (HlI & HM).
  assert (ZP : forall q, 0 <= q < N ->
                 zn (swapped P i j) q =
                 if q =? j then zn P i else if q =? i then zn P j else zn P q)
    by (intros; apply zn_swapped; lia).
  assert (ZI : forall q, 0 <= q < N ->
                 zn (swapped I_ i j) q =
                 if q =? j then zn I_ i else if q =? i then zn I_ j else zn I_ q)
    by (intros; apply zn_swapped; lia).
  destruct (Hpend i Hi) as [Gi Ii]. destruct (Hpend j Hj) as [Gj Ij].
  assert (GE : forall q, 0 <= q < N -> G V (swapped P i j) q = G V P q).
  { intros q Hq. unfold G. rewrite ZP by assumption.
    destruct (q =? j) eqn:E1; [apply Z.eqb_eq in E1; subst q; unfold G in *; lia |].
    destruct (q =? i) eqn:E2; [apply Z.eqb_eq in E2; subst q; unfold G in *; lia |].
    reflexivity. }
  assert (PE : forall q, 0 <= q < N -> 0 <= zn I_ q ->
                 0 <= zn (swapped I_ i j) q
                 /\ zn (swapped I_ i j) q = zn (swapped P i j) q
                 /\ zn (swapped P i j) q + h <= n).
  { intros q Hq Hpos. rewrite ZI, ZP by assumption.
    destruct (HM i ltac:(lia)) as [_ Mi]. destruct (HM j ltac:(lia)) as [_ Mj].
    destruct (HM q Hq) as [_ Mq].
    destruct (q =? j); [destruct (Mi Ii) as (? & ? & ?); lia |].
    destruct (q =? i); [destruct (Mj Ij) as (? & ? & ?); lia |].
    destruct (Mq Hpos) as (? & ? & ?); lia. }
  assert (PG : forall q, 0 <= q < N -> 0 <= zn I_ q ->
                 0 <= zn (swapped I_ i j) (G V P q)).
  { intros q Hq Hpos. destruct (HM q Hq) as [_ Mq].
    destruct (Mq Hpos) as (_ & _ & Hg).
    pose proof (G_range V P q HP HV Hq). rewrite ZI by lia.
    destruct (G V P q =? j); [assumption |].
    destruct (G V P q =? i); assumption. }
  assert (NE : forall q, 0 <= q < N -> zn I_ q < 0 ->
                 zn (swapped I_ i j) q = zn I_ q).
  { intros q Hq Hneg. rewrite ZI by assumption.
    destruct (q =? j) eqn:E1; [apply Z.eqb_eq in E1; subst q; lia |].
    destruct (q =? i) eqn:E2; [apply Z.eqb_eq in E2; subst q; lia |].
    reflexivity. }
  split; [| split].
  - constructor; try assumption.
    + apply isperm_swapped; auto; lia.
    + intros q Hq. rewrite GE by assumption. destruct (HL q Hq) as [H1 H2].
      split; [assumption |]. intros r Hr.
      pose proof (G_range V P q HP HV Hq). rewrite GE by lia. now apply H2.
    + split; [now rewrite len_swapped |]. intros q Hq. split.
      * intros Hneg.
        assert (Hq' : zn I_ q < 0).
        { destruct (Z_lt_le_dec (zn I_ q) 0) as [L | L]; [assumption |].
          destruct (PE q Hq L). lia. }
        rewrite NE by assumption. destruct (HM q Hq) as [M1 _].
        destruct (M1 Hq') as [M2 M3]. split; [assumption |].
        intros r Hr. destruct (M3 r Hr) as [M4 M5].
        rewrite GE by lia. rewrite NE by (try lia; assumption). auto.
      * intros Hpos.
        assert (Hq' : 0 <= zn I_ q).
        { destruct (Z_lt_le_dec (zn I_ q) 0) as [L | L]; [| assumption].
          rewrite NE in Hpos by assumption. lia. }
        destruct (PE q Hq Hq') as (_ & E1 & E2). rewrite GE by assumption.
        splits; auto.
  - intros q Hq. rewrite GE by lia. destruct (Hpend q Hq) as [E1 E2].
    split; [assumption |]. now apply PE; [lia |].
  - exact GE.
Qed.

(** Reading the key [V[I[q]+h]] of a pending position *)
Lemma key_pending h I_ V P a b q :
  GI h I_ V P -> 0 <= a -> b < N -> pending I_ V P a b -> a <= q <= b ->
  Bsdiff.key I_ V h q = Done (zn V (zn P q + h))
  /\ zn I_ q = zn P q /\ 0 <= zn P q /\ zn P q + h <= n.
Proof.
  intros [Hh HP HV HL HM HO HG] Ha Hb Hpend Hq.
  pose proof HP as (HlP & Pr & _). destruct HM as (HlI & HM).
  destruct HV as (HlV & _).
  destruct (Hpend q Hq) as [_ Hpos].
  destruct (HM q ltac:(lia)) as [_ M]. destruct (M Hpos) as (E & B & _).
  pose proof (Pr q ltac:(lia)).
  unfold Bsdiff.key. rewrite ld_zn by lia. simpl.
  rewrite ld_zn by lia. rewrite E. repeat split; lia.
Qed.

End Groups.

(* ------------------------------------------------------------------ *)
(** ** [split] *)

Ltac open_G := unfold G in *.

Section Split.
Import Bsdiff.

Variable obuf : list byte.

Local Abbreviation n := (len obuf).
Local Abbreviation N := (len obuf + 1).
Local Abbreviation GI := (GI obuf).
Local Abbreviation G := G.
Local Abbreviation pending := pending.

(** The key of the suffix at position [q] *)
Definition K (h : Z) (V P : list Z) (q : Z) : Z := zn V (zn P q + h).

Lemma pending_share h I_ V P a b q r :
  GI h I_ V P -> 0 <= a -> b < N -> pending I_ V P a b ->
  a <= q <= b -> a <= r <= b -> q <> r ->
  share obuf h (zn P q) (zn P r).
Proof.
  intros HGI Ha Hb Hpend Hq Hr Hne.
  pose proof (gi_perm _ _ _ _ _ HGI) as (_ & Pr & Pi & _).
  apply (gi_grouped _ _ _ _ _ HGI).
  - apply Pr; lia.
  - apply Pr; lia.
  - intros C. apply Pi in C; lia.
  - destruct (Hpend q Hq) as [E1 _]. destruct (Hpend r Hr) as [E2 _].
    open_G. lia.
Qed.

Lemma key_lt_prec h I_ V P a b q r :
  GI h I_ V P -> 0 <= a -> b < N -> pending I_ V P a b ->
  a <= q <= b -> a <= r <= b ->
  K h V P q < K h V P r -> prec obuf (zn P q) (zn P r).
Proof.
  intros HGI Ha Hb Hpend Hq Hr Hlt.
  assert (Hne : q <> r) by (intros ->; lia).
  pose proof (pending_share h I_ V P a b q r HGI Ha Hb Hpend Hq Hr Hne) as Hs.
  destruct (key_pending obuf h I_ V P a b q HGI Ha Hb Hpend Hq) as (_ & _ & Q1 & Q2).
  destruct (key_pending obuf h I_ V P a b r HGI Ha Hb Hpend Hr) as (_ & _ & R1 & R2).
  pose proof (gi_h _ _ _ _ _ HGI).
  apply (prec_share obuf h); [lia | assumption |].
  apply (gi_ordered _ _ _ _ _ HGI); try lia. exact Hlt.
Qed.

Lemma key_eq_share h I_ V P a b q r :
  GI h I_ V P -> 0 <= a -> b < N -> pending I_ V P a b ->
  a <= q <= b -> a <= r <= b -> q <> r ->
  K h V P q = K h V P r -> share obuf (h + h) (zn P q) (zn P r).
Proof.
  intros HGI Ha Hb Hpend Hq Hr Hne Heq.
  pose proof (pending_share h I_ V P a b q r HGI Ha Hb Hpend Hq Hr Hne) as Hs.
  destruct (key_pending obuf h I_ V P a b q HGI Ha Hb Hpend Hq) as (_ & _ & Q1 & Q2).
  destruct (key_pending obuf h I_ V P a b r HGI Ha Hb Hpend Hr) as (_ & _ & R1 & R2).
  pose proof (gi_h _ _ _ _ _ HGI).
  pose proof (gi_perm _ _ _ _ _ HGI) as (_ & _ & Pi & _).
  apply share_double; [lia | assumption |].
  apply (gi_grouped _ _ _ _ _ HGI); try lia.
  - intros C. assert (zn P q = zn P r) by lia. apply Pi in H0; lia.
  - exact Heq.
Qed.

(** The loop that gives a subgroup its number *)
Lemma renumber_loop I_ V P k j g :
  len V = N -> len I_ = N -> isperm obuf P ->
  0 <= k -> 0 <= j -> k + j <= N ->
  (forall q, k <= q < k + j -> zn I_ q = zn P q) ->
  exists V',
    for_range 0 j (fun i V => p <- ld I_ (k + i) ;; st V p g) V = Done V'
    /\ len V' = N
    /\ (forall q, k <= q < k + j -> zn V' (zn P q) = g)
    /\ (forall s, 0 <= s < N -> (forall q, k <= q < k + j -> zn P q <> s) ->
                  zn V' s = zn V s).
Proof.
  intros HlV HlI (HlP & Pr & Pi & Ps) Hk Hj Hkj HIP.
  destruct (for_range_inv
              (fun i V' =>
                 len V' = N
                 /\ (forall q, k <= q < k + i -> zn V' (zn P q) = g)
                 /\ (forall s, 0 <= s < N ->
                               (forall q, k <= q < k + i -> zn P q <> s) ->
                               zn V' s = zn V s))
              (fun i V => p <- ld I_ (k + i) ;; st V p g) 0 j V)
    as (V' & Hr & H1 & H2 & H3).
  - assumption.
  - split; [assumption |]. split; [intros; lia | auto].
  - intros i V1 Hi (L1 & A1 & A2).
    rewrite ld_zn by lia. simpl. rewrite HIP by lia.
    pose proof (Pr (k + i) ltac:(lia)) as Hp.
    rewrite st_upd by lia. eexists. split; [reflexivity |].
    split; [now rewrite len_upd |]. split.
    + intros q Hq. rewrite zn_upd by (try apply Pr; lia).
      destruct (zn P q =? zn P (k + i)) eqn:E; [reflexivity |].
      apply A1. apply Z.eqb_neq in E.
      assert (q <> k + i) by congruence. lia.
    + intros s Hs Hn. rewrite zn_upd by lia.
      destruct (s =? zn P (k + i)) eqn:E.
      * apply Z.eqb_eq in E. exfalso. apply (Hn (k + i)); [lia | congruence].
      * apply A2; [assumption |]. intros q Hq. apply Hn. lia.
  - exists V'. repeat split; auto.
Qed.

(** The inner loop of the selection sort: the suffixes of least key
    among [[k, en)] are brought to the front. *)
Lemma select_min h I_ V P k en b :
  GI h I_ V P -> 0 <= k < en -> en <= b + 1 -> b < N -> pending I_ V P k b ->
  exists I' P' x j,
    for_range 1 (en - k)
      (fun i '(I_, x, j) =>
         v <- key I_ V h (k + i) ;;
         let '(x, j) := if v <? x then (v, 0) else (x, j) in
         if v =? x then
           I_ <- swap I_ (k + i) (k + j) ;; Done (I_, x, j + 1)
         else Done (I_, x, j))
      (I_, K h V P k, 1) = Done (I', x, j)
    /\ GI h I' V P' /\ pending I' V P' k b /\ perm_in obuf P P' k en
    /\ (forall q, 0 <= q < N -> ~ k <= q < en -> zn I' q = zn I_ q)
    /\ (forall q, 0 <= q < N -> G V P' q = G V P q)
    /\ 1 <= j <= en - k
    /\ (forall q, k <= q < k + j -> K h V P' q = x)
    /\ (forall q, k + j <= q < en -> x < K h V P' q).
Proof.
  intros HGI Hk Hen Hb Hpend.
  pose proof (gi_perm _ _ _ _ _ HGI) as HP.
  destruct (for_range_inv
              (fun i (s : list Z * Z * Z) =>
                 let '(I1, x, j) := s in
                 exists P1,
                   GI h I1 V P1 /\ pending I1 V P1 k b /\ perm_in obuf P P1 k en
                   /\ (forall q, 0 <= q < N -> ~ k <= q < en -> zn I1 q = zn I_ q)
                   /\ (forall q, 0 <= q < N -> G V P1 q = G V P q)
                   /\ 1 <= j <= i
                   /\ (forall q, k <= q < k + j -> K h V P1 q = x)
                   /\ (forall q, k + j <= q < k + i -> x < K h V P1 q))
              (fun i '(I_, x, j) =>
                 v <- key I_ V h (k + i) ;;
                 let '(x, j) := if v <? x then (v, 0) else (x, j) in
                 if v =? x then
                   I_ <- swap I_ (k + i) (k + j) ;; Done (I_, x, j + 1)
                 else Done (I_, x, j))
              1 (en - k) (I_, K h V P k, 1))
    as ([[I' x] j] & Hr & P' & A1 & A2 & A3 & A4 & A5 & A6 & A7 & A8).
  - lia.
  - exists P. splits; auto; try lia; try (now apply perm_in_refl);
      try (intros q Hq; replace q with k by lia; reflexivity).
  - intros i [[I1 x] j] Hi (P1 & B1 & B2 & B3 & B4 & B5 & B6 & B7 & B8).
    pose proof (gi_perm _ _ _ _ _ B1) as HP1.
    pose proof (gi_marks _ _ _ _ _ B1) as (HlI1 & _).
    pose proof HP1 as (HlP1 & _).
    destruct (key_pending obuf h I1 V P1 k b (k + i) B1) as (Ek & _);
      try lia; try assumption.
    rewrite Ek. cbn [bind]. fold (K h V P1 (k + i)).
    set (v := K h V P1 (k + i)).
    destruct (v <? x) eqn:Elt.
    + (* a smaller key: it becomes the front *)
      apply Z.ltb_lt in Elt. rewrite Z.eqb_refl.
      rewrite swap_ok by lia. cbn [bind]. rewrite Z.add_0_r.
      destruct (GI_swapped obuf h I1 V P1 k b (k + i) k B1) as (C1 & C2 & C3);
        try lia; try assumption.
      eexists. split; [reflexivity |].
      exists (swapped P1 (k + i) k). splits; try assumption; try lia.
      * apply (perm_in_trans obuf P P1); try lia; try assumption.
        apply perm_in_swapped; try assumption; lia.
      * intros q Hq Hn. rewrite zn_swapped by lia.
        destruct (q =? k) eqn:E1; [apply Z.eqb_eq in E1; lia |].
        destruct (q =? k + i) eqn:E2; [apply Z.eqb_eq in E2; lia |].
        now apply B4.
      * intros q Hq. rewrite C3 by assumption. now apply B5.
      * intros q Hq. replace q with k by lia. unfold K.
        rewrite zn_swapped by lia. now rewrite Z.eqb_refl.
      * intros q Hq. unfold K. rewrite zn_swapped by lia.
        destruct (q =? k) eqn:E1; [apply Z.eqb_eq in E1; lia |].
        destruct (q =? k + i) eqn:E2.
        -- fold (K h V P1 k). rewrite (B7 k) by lia. lia.
        -- apply Z.eqb_neq in E2. fold (K h V P1 q).
           destruct (Z_lt_le_dec q (k + j)) as [L | L].
           ++ rewrite (B7 q) by lia. lia.
           ++ pose proof (B8 q ltac:(lia)). lia.
    + apply Z.ltb_ge in Elt. destruct (v =? x) eqn:Eeq.
      * (* the same key: it joins the front *)
        apply Z.eqb_eq in Eeq.
        rewrite swap_ok by lia. cbn [bind].
        destruct (GI_swapped obuf h I1 V P1 k b (k + i) (k + j) B1)
          as (C1 & C2 & C3); try lia; try assumption.
        eexists. split; [reflexivity |].
        exists (swapped P1 (k + i) (k + j)). splits; try assumption; try lia.
        -- apply (perm_in_trans obuf P P1); try lia; try assumption.
           apply perm_in_swapped; try assumption; lia.
        -- intros q Hq Hn. rewrite zn_swapped by lia.
           destruct (q =? k + j) eqn:E1; [apply Z.eqb_eq in E1; lia |].
           destruct (q =? k + i) eqn:E2; [apply Z.eqb_eq in E2; lia |].
           now apply B4.
        -- intros q Hq. rewrite C3 by assumption. now apply B5.
        -- intros q Hq. unfold K. rewrite zn_swapped by lia.
           destruct (q =? k + j) eqn:E1; [exact Eeq |].
           apply Z.eqb_neq in E1.
           destruct (q =? k + i) eqn:E2; [apply Z.eqb_eq in E2; lia |].
           apply B7. lia.
        -- intros q Hq. unfold K. rewrite zn_swapped by lia.
           destruct (q =? k + j) eqn:E1; [apply Z.eqb_eq in E1; lia |].
           destruct (q =? k + i) eqn:E2.
           ++ apply B8. lia.
           ++ apply Z.eqb_neq in E2. apply B8. lia.
      * (* a larger key *)
        apply Z.eqb_neq in Eeq.
        eexists. split; [reflexivity |].
        exists P1. splits; try assumption; try lia.
        intros q Hq. destruct (Z.eq_dec q (k + i)) as [-> | Hne].
        -- fold v. lia.
        -- apply B8. lia.
  - exists I', P', x, j. splits; try assumption; try lia.
    intros q Hq. apply A8. lia.
Qed.

(** The positions [[lo, hi)] are done at depth [h]: a position without
    mark holds a suffix of [2h] bytes at least, and the suffixes of one
    group agree on their first [2h] bytes. *)
Definition done_range (h : Z) (I_ V P : list Z) (lo hi : Z) : Prop :=
  (forall q, lo <= q < hi -> zn I_ q < 0 \/ zn P q + (h + h) <= n)
  /\ (forall q q', lo <= q < hi -> lo <= q' < hi -> q <> q' ->
                   G V P q = G V P q' ->
                   share obuf (h + h) (zn P q) (zn P q')).

(** What [split] requires of [[start, start+length)], a front part of
    the pending part [[start, b]] of a group ... *)
Definition split_pre (h : Z) (I_ V P : list Z) (start length b : Z) : Prop :=
  GI h I_ V P /\ 0 <= start /\ 1 <= length /\ start + length <= b + 1 /\ b < N
  /\ (forall r, 0 <= r < start -> G V P r < start)
  /\ pending I_ V P start b
  /\ (forall q r, start <= q < start + length -> start + length <= r <= b ->
                  prec obuf (zn P q) (zn P r)).

(** ... and what it establishes. *)
Definition split_post (h : Z) (I_ V P : list Z) (start length b : Z)
  (I' V' : list Z) : Prop :=
  exists P',
    GI h I' V' P' /\ perm_in obuf P P' start (start + length)
    /\ (forall q, 0 <= q < N -> ~ start <= q < start + length ->
                  zn I' q = zn I_ q)
    /\ (forall s, 0 <= s < N ->
                  (forall q, start <= q < start + length -> zn P q <> s) ->
                  zn V' s = zn V s)
    /\ (forall r, 0 <= r < start + length -> G V' P' r < start + length)
    /\ pending I' V' P' (start + length) b
    /\ done_range h I' V' P' start (start + length).

Lemma split_small_ok h I_ V P start length b :
  split_pre h I_ V P start length b ->
  exists I' V',
    split_small I_ V start length h = Done (I', V')
    /\ split_post h I_ V P start length b I' V'.
Proof.
  intros (HGI & Hs & Hl & Hle & Hb & Hbef & Hpend & Hright).
  set (en := start + length) in *.
  pose proof (gi_perm _ _ _ _ _ HGI) as HP.
  unfold split_small.
  destruct (while_inv
              (fun s : list Z * list Z * Z =>
                 let '(I1, V1, k) := s in
                 exists P1,
                   GI h I1 V1 P1 /\ start <= k <= en
                   /\ perm_in obuf P P1 start en
                   /\ (forall q, 0 <= q < N -> ~ start <= q < en ->
                                 zn I1 q = zn I_ q)
                   /\ (forall s, 0 <= s < N ->
                                 (forall q, start <= q < en -> zn P q <> s) ->
                                 zn V1 s = zn V s)
                   /\ (forall r, 0 <= r < k -> G V1 P1 r < k)
                   /\ pending I1 V1 P1 k b
                   /\ done_range h I1 V1 P1 start k)
              (fun s : list Z * list Z * Z => let '(_, _, k) := s in en - k)
              (fun '(_, _, k) => Done (k <? start + length))
              (fun '(I_, V, k) =>
                 x <- key I_ V h k ;;
                 '(I_, x, j) <-
                   for_range 1 (start + length - k)
                     (fun i '(I_, x, j) =>
                        v <- key I_ V h (k + i) ;;
                        let '(x, j) := if v <? x then (v, 0) else (x, j) in
                        if v =? x then
                          I_ <- swap I_ (k + i) (k + j) ;; Done (I_, x, j + 1)
                        else Done (I_, x, j))
                     (I_, x, 1) ;;
                 V <- for_range 0 j
                        (fun i V => p <- ld I_ (k + i) ;; st V p (k + j - 1)) V ;;
                 I_ <- (if j =? 1 then st I_ k (-1) else Done I_) ;;
                 Done (I_, V, k + j)))
    with (fuel := Z.to_nat length) (s := (I_, V, start))
    as ([[I' V'] k'] & Hw & (P' & A1 & A2 & A3 & A4 & A5 & A6 & A7 & A8) & Hc).
  - intros [[I1 V1] k] _. eauto.
  - intros [[I1 V1] k] (P1 & B1 & B2 & B3 & B4 & B5 & B6 & B7 & B8) Hc.
    inversion Hc as [Hk]. apply Z.ltb_lt in Hk. fold en in Hk.
    pose proof (gi_perm _ _ _ _ _ B1) as HP1.
    destruct (key_pending obuf h I1 V1 P1 k b k B1) as (Ek & _);
      try lia; try assumption.
    rewrite Ek. cbn [bind]. fold (K h V1 P1 k). fold en.
    destruct (select_min h I1 V1 P1 k en b B1)
      as (I2 & P2 & x & j & Es & C1 & C2 & C3 & C4 & C5 & C6 & C7 & C8);
      try lia; try assumption.
    rewrite Es. cbn [bind].
    pose proof (gi_perm _ _ _ _ _ C1) as HP2.
    pose proof (gi_marks _ _ _ _ _ C1) as (HlI2 & HM2).
    pose proof (gi_ranged _ _ _ _ _ C1) as (HlV1 & _).
    assert (HIP2 : forall q, k <= q < k + j -> zn I2 q = zn P2 q).
    { intros q Hq. destruct (C2 q ltac:(lia)) as [_ Hpos].
      destruct (HM2 q ltac:(lia)) as [_ M]. now destruct (M Hpos). }
    destruct (renumber_loop I2 V1 P2 k j (k + j - 1))
      as (V2 & Er & D1 & D2 & D3); try lia; try assumption.
    rewrite Er. cbn [bind].
    set (I3 := if j =? 1 then upd I2 k (-1) else I2).
    assert (Em : (if j =? 1 then st I2 k (-1) else Done I2) = Done I3).
    { unfold I3. destruct (j =? 1); [| reflexivity]. apply st_upd. lia. }
    rewrite Em. cbn [bind].
    assert (P02 : perm_in obuf P P2 start en).
    { apply (perm_in_trans obuf P P1); try lia; try assumption.
      apply (perm_in_wider obuf P1 P2 k en); try lia; assumption. }
    assert (HlI3 : len I3 = N).
    { unfold I3. destruct (j =? 1); [now rewrite len_upd | assumption]. }
    assert (HI3 : forall q, 0 <= q < N -> q <> k -> zn I3 q = zn I2 q).
    { intros q Hq Hn. unfold I3. destruct (j =? 1); [| reflexivity].
      apply zn_upd_other; lia. }
    assert (HI3k : zn I3 k = (if k + j =? k + 1 then -1 else zn I2 k)).
    { unfold I3. destruct (j =? 1) eqn:E.
      - apply Z.eqb_eq in E. subst j. rewrite Z.eqb_refl. apply zn_upd_same. lia.
      - apply Z.eqb_neq in E.
        destruct (k + j =? k + 1) eqn:E'; [apply Z.eqb_eq in E'; lia | reflexivity]. }
    destruct (renumber obuf h I2 V1 P2 I3 V2 k (k + j) b C1)
      as (R1 & R2 & R3 & R4 & R5 & R6); try lia; try assumption.
    { intros r Hr. rewrite C5 by lia. apply B6. lia. }
    { intros q r Hq Hr. destruct (Z_lt_le_dec r en) as [L | L].
      - apply (key_lt_prec h I2 V1 P2 k b); try lia; try assumption.
        rewrite (C7 q) by lia. apply C8. lia.
      - destruct P02 as (_ & O1 & O2).
        destruct (O2 q ltac:(lia)) as (q0 & Hq0 & ->).
        rewrite (O1 r) by lia. apply Hright; lia. }
    { intros q q' Hq Hq' Hn.
      apply (key_eq_share h I2 V1 P2 k b); try lia; try assumption.
      rewrite (C7 q), (C7 q') by lia. reflexivity. }
    eexists. split; [reflexivity |]. split; [| lia].
    exists P2. splits; try assumption; try lia.
    + intros q Hq Hn. rewrite HI3 by lia. rewrite C4 by lia. now apply B4.
    + intros s Hs' Hn. rewrite D3; [now apply B5 | assumption |].
      intros q Hq. destruct P02 as (_ & _ & O2).
      destruct (O2 q ltac:(lia)) as (q0 & Hq0 & ->). apply Hn. lia.
    + (* done_range *)
      destruct B8 as [E1 E2]. destruct C3 as (_ & O1 & _).
      assert (GE : forall q, start <= q < k -> G V2 P2 q = G V1 P1 q).
      { intros q Hq. rewrite R6 by lia. apply C5. lia. }
      split.
      * intros q Hq. destruct (Z_lt_le_dec q k) as [L | L].
        -- rewrite HI3 by lia. rewrite C4 by lia. rewrite O1 by lia.
           apply E1. lia.
        -- apply R5. lia.
      * intros q q' Hq Hq' Hn HG.
        destruct (Z_lt_le_dec q k) as [L | L];
          destruct (Z_lt_le_dec q' k) as [L' | L'].
        -- rewrite !GE in HG by lia. rewrite !O1 by lia. apply E2; auto; lia.
        -- rewrite GE in HG by lia. rewrite (R4 q') in HG by lia.
           pose proof (B6 q ltac:(lia)). lia.
        -- rewrite (GE q') in HG by lia. rewrite (R4 q) in HG by lia.
           pose proof (B6 q' ltac:(lia)). lia.
        -- apply (key_eq_share h I2 V1 P2 k b); try lia; try assumption.
           rewrite (C7 q), (C7 q') by lia. reflexivity.
  - exists P. splits; try assumption; try lia; auto.
    + now apply perm_in_refl.
    + split; intros; lia.
  - unfold en. lia.
  - rewrite Hw. cbn [bind].
    inversion Hc as [Hk]. apply Z.ltb_ge in Hk. fold en in Hk.
    exists I', V'. split; [reflexivity |].
    assert (k' = en) by lia. subst k'.
    exists P'. splits; assumption.
Qed.

End Split.

(* ------------------------------------------------------------------ *)
(** ** The ternary partition of [split] *)

Section Counting.

Variable key : Z -> Z.
Variable x : Z.

Lemma room_eq start en jj kk j i :
  cnt (fun q => key q =? x) start en = kk - jj ->
  start <= i < jj -> 0 <= j -> jj + j <= kk -> kk <= en ->
  key i = x -> (forall q, jj <= q < jj + j -> key q = x) ->
  jj + j < kk.
Proof.
  intros Hc Hi Hj Hjk Hk Ki Keq.
  rewrite (cnt_split _ start jj en) in Hc by lia.
  rewrite (cnt_split _ jj (jj + j) en) in Hc by lia.
  pose proof (cnt_pos (fun q => key q =? x) start jj i Hi) as H1.
  rewrite (cnt_all _ jj (jj + j)) in Hc;
    [| lia | intros q Hq; apply Z.eqb_eq; now apply Keq].
  pose proof (cnt_bounds (fun q => key q =? x) (jj + j) en).
  specialize (H1 ltac:(now apply Z.eqb_eq)). lia.
Qed.

Lemma room_gt start en jj kk k p :
  cnt (fun q => key q <? x) start en = jj - start ->
  cnt (fun q => key q =? x) start en = kk - jj ->
  start <= p < kk -> 0 <= k -> kk + k <= en ->
  x < key p -> (forall q, kk <= q < kk + k -> x < key q) ->
  kk + k < en.
Proof.
  intros Hl He Hp Hk Hkk Kp Kgt.
  pose proof (cnt_le_lt_eq key x start en) as Hle. rewrite Hl, He in Hle.
  rewrite (cnt_split _ start kk en) in Hle by lia.
  rewrite (cnt_split _ kk (kk + k) en) in Hle by lia.
  pose proof (cnt_not_full (fun q => key q <=? x) start kk p Hp) as H1.
  rewrite (cnt_none _ kk (kk + k)) in Hle;
    [| intros q Hq; apply Z.leb_gt; now apply Kgt].
  pose proof (cnt_bounds (fun q => key q <=? x) (kk + k) en).
  specialize (H1 ltac:(now apply Z.leb_gt)). lia.
Qed.

Lemma no_lt_after start en jj :
  cnt (fun q => key q <? x) start en = jj - start ->
  start <= jj <= en -> (forall q, start <= q < jj -> key q < x) ->
  forall q, jj <= q < en -> x <= key q.
Proof.
  intros Hl Hj Klt q Hq.
  rewrite (cnt_split _ start jj en) in Hl by lia.
  rewrite (cnt_all _ start jj) in Hl;
    [| lia | intros r Hr; apply Z.ltb_lt; now apply Klt].
  assert (H0 : cnt (fun q => key q <? x) jj en = 0) by lia.
  pose proof (cnt_zero_none _ jj en H0 q Hq) as H1. simpl in H1.
  now apply Z.ltb_ge in H1.
Qed.

Lemma all_gt_after start en jj kk :
  cnt (fun q => key q <? x) start en = jj - start ->
  cnt (fun q => key q =? x) start en = kk - jj ->
  start <= jj <= kk -> kk <= en ->
  (forall q, start <= q < jj -> key q < x) ->
  (forall q, jj <= q < kk -> key q = x) ->
  forall q, kk <= q < en -> x < key q.
Proof.
  intros Hl He Hj Hk Klt Keq q Hq.
  pose proof (cnt_le_lt_eq key x start en) as Hle. rewrite Hl, He in Hle.
  rewrite (cnt_split _ start kk en) in Hle by lia.
  rewrite (cnt_all _ start kk) in Hle; [| lia |].
  - assert (H0 : cnt (fun q => key q <=? x) kk en = 0) by lia.
    pose proof (cnt_zero_none _ kk en H0 q Hq) as H1. simpl in H1.
    now apply Z.leb_gt in H1.
  - intros r Hr. apply Z.leb_le. destruct (Z_lt_le_dec r jj) as [L | L].
    + pose proof (Klt r ltac:(lia)). lia.
    + pose proof (Keq r ltac:(lia)). lia.
Qed.

End Counting.

Section Partition.
Import Bsdiff.

Variable obuf : list byte.

Local Abbreviation n := (len obuf).
Local Abbreviation N := (len obuf + 1).
Local Abbreviation GI := (GI obuf).

Lemma split_count_ok h I_ V P start length b x :
  GI h I_ V P -> 0 <= start -> 0 <= length -> start + length <= b + 1 -> b < N ->
  pending I_ V P start b ->
  split_count I_ V start length h x
  = Done (cnt (fun q => K h V P q <? x) start (start + length),
          cnt (fun q => K h V P q =? x) start (start + length)).
Proof.
  intros HGI Hs Hl Hle Hb Hpend. unfold split_count.
  destruct (for_range_inv
              (fun i (s : Z * Z) =>
                 s = (cnt (fun q => K h V P q <? x) start i,
                      cnt (fun q => K h V P q =? x) start i))
              (fun i '(jj, kk) =>
                 v <- key I_ V h i ;;
                 let jj := if v <? x then jj + 1 else jj in
                 let kk := if v =? x then kk + 1 else kk in
                 Done (jj, kk))
              start (start + length) (0, 0)) as (s & Hr & ->).
  - lia.
  - now rewrite !cnt_empty by lia.
  - intros i [jj kk] Hi E. inversion E; subst jj kk. clear E.
    destruct (key_pending obuf h I_ V P start b i HGI) as (Ek & _);
      try lia; try assumption.
    rewrite Ek. cbn [bind]. fold (K h V P i).
    eexists. split; [reflexivity |].
    rewrite (cnt_last _ start (i + 1)) by lia.
    rewrite (cnt_last (fun q => K h V P q =? x) start (i + 1)) by lia.
    replace (i + 1 - 1) with i by lia.
    destruct (K h V P i <? x), (K h V P i =? x); simpl; f_equal; lia.
  - exact Hr.
Qed.

(** Counting the keys of a range is not changed by a swap in it. *)
Lemma cnt_key_swapped h V P (f : Z -> bool) lo hi i j :
  len P = N -> 0 <= lo -> hi <= N -> lo <= i < hi -> lo <= j < hi ->
  cnt (fun q => f (K h V (swapped P i j) q)) lo hi
  = cnt (fun q => f (K h V P q)) lo hi.
Proof.
  intros HlP Hlo Hhi Hi Hj.
  apply (cnt_swap _ _ lo hi i j); try assumption.
  - unfold K. rewrite zn_swapped by lia.
    destruct (i =? j) eqn:E; [apply Z.eqb_eq in E; now subst |].
    now rewrite Z.eqb_refl.
  - unfold K. rewrite zn_swapped by lia. now rewrite Z.eqb_refl.
  - intros q Hq Hni Hnj. unfold K. rewrite zn_swapped by lia.
    destruct (q =? j) eqn:E1; [apply Z.eqb_eq in E1; lia |].
    destruct (q =? i) eqn:E2; [apply Z.eqb_eq in E2; lia |]. reflexivity.
Qed.

(** The invariant of the two partitioning loops *)
Definition part_inv (h : Z) (I_ V P : list Z) (start en b x jj kk : Z)
  (I1 : list Z) (i j k : Z) : Prop :=
  exists P1,
    GI h I1 V P1 /\ pending I1 V P1 start b /\ perm_in obuf P P1 start en
    /\ (forall q, 0 <= q < N -> ~ start <= q < en -> zn I1 q = zn I_ q)
    /\ (forall q, 0 <= q < N -> G V P1 q = G V P q)
    /\ start <= i <= jj /\ 0 <= j /\ jj + j <= kk /\ 0 <= k /\ kk + k <= en
    /\ (forall q, start <= q < i -> K h V P1 q < x)
    /\ (forall q, jj <= q < jj + j -> K h V P1 q = x)
    /\ (forall q, kk <= q < kk + k -> x < K h V P1 q)
    /\ cnt (fun q => K h V P1 q <? x) start en = jj - start
    /\ cnt (fun q => K h V P1 q =? x) start en = kk - jj.

Lemma part_swap h I_ V P start en b I1 P1 p1 p2 :
  0 <= start -> en <= b + 1 -> b < N ->
  GI h I1 V P1 -> pending I1 V P1 start b -> perm_in obuf P P1 start en ->
  (forall q, 0 <= q < N -> ~ start <= q < en -> zn I1 q = zn I_ q) ->
  (forall q, 0 <= q < N -> G V P1 q = G V P q) ->
  start <= p1 < en -> start <= p2 < en ->
  swap I1 p1 p2 = Done (swapped I1 p1 p2)
  /\ GI h (swapped I1 p1 p2) V (swapped P1 p1 p2)
  /\ pending (swapped I1 p1 p2) V (swapped P1 p1 p2) start b
  /\ perm_in obuf P (swapped P1 p1 p2) start en
  /\ (forall q, 0 <= q < N -> ~ start <= q < en ->
                zn (swapped I1 p1 p2) q = zn I_ q)
  /\ (forall q, 0 <= q < N -> G V (swapped P1 p1 p2) q = G V P q)
  /\ (forall q, 0 <= q < N ->
                K h V (swapped P1 p1 p2) q =
                if q =? p2 then K h V P1 p1
                else if q =? p1 then K h V P1 p2 else K h V P1 q)
  /\ (forall f, cnt (fun q => f (K h V (swapped P1 p1 p2) q)) start en
                = cnt (fun q => f (K h V P1 q)) start en).
Proof.
  intros Hs Hen Hb B1 B2 B3 B4 B5 Hp1 Hp2.
  pose proof (gi_perm _ _ _ _ _ B1) as HP1. pose proof HP1 as (HlP1 & _).
  pose proof (gi_marks _ _ _ _ _ B1) as (HlI1 & _).
  destruct (GI_swapped obuf h I1 V P1 start b p1 p2 B1) as (C1 & C2 & C3);
    try lia; try assumption.
  splits; try assumption.
  - apply swap_ok; lia.
  - apply (perm_in_trans obuf P P1); try lia; try assumption.
    apply perm_in_swapped; try assumption; lia.
  - intros q Hq Hn. rewrite zn_swapped by lia.
    destruct (q =? p2) eqn:E1; [apply Z.eqb_eq in E1; lia |].
    destruct (q =? p1) eqn:E2; [apply Z.eqb_eq in E2; lia |]. now apply B4.
  - intros q Hq. rewrite C3 by assumption. now apply B5.
  - intros q Hq. unfold K. rewrite zn_swapped by lia.
    destruct (q =? p2); [reflexivity |]. destruct (q =? p1); reflexivity.
  - intros f. apply cnt_key_swapped; try lia; assumption.
Qed.

Lemma split_partition_ok h I_ V P start length b x :
  GI h I_ V P -> 0 <= start -> 1 <= length -> start + length <= b + 1 -> b < N ->
  pending I_ V P start b ->
  let en := start + length in
  let jj := cnt (fun q => K h V P q <? x) start en + start in
  let kk := cnt (fun q => K h V P q =? x) start en + jj in
  exists I' P',
    split_partition I_ V start length h x jj kk = Done I'
    /\ GI h I' V P' /\ pending I' V P' start b /\ perm_in obuf P P' start en
    /\ (forall q, 0 <= q < N -> ~ start <= q < en -> zn I' q = zn I_ q)
    /\ (forall q, 0 <= q < N -> G V P' q = G V P q)
    /\ start <= jj /\ jj <= kk /\ kk <= en
    /\ (forall q, start <= q < jj -> K h V P' q < x)
    /\ (forall q, jj <= q < kk -> K h V P' q = x)
    /\ (forall q, kk <= q < en -> x < K h V P' q).
Proof.
  intros HGI Hs Hl Hle Hb Hpend en jj kk.
  pose proof (gi_perm _ _ _ _ _ HGI) as HP.
  pose proof (cnt_bounds (fun q => K h V P q <? x) start en) as Bl.
  pose proof (cnt_bounds (fun q => K h V P q =? x) start en) as Be.
  pose proof (cnt_bounds (fun q => K h V P q <=? x) start en) as Ble.
  pose proof (cnt_le_lt_eq (K h V P) x start en) as Hsum.
  assert (Hjk : start <= jj /\ jj <= kk /\ kk <= en) by (unfold jj, kk, en in *; lia).
  unfold split_partition.
  (* the first loop *)
  destruct (while_inv
              (fun s : list Z * Z * Z * Z =>
                 let '(I1, i, j, k) := s in
                 part_inv h I_ V P start en b x jj kk I1 i j k)
              (fun s : list Z * Z * Z * Z =>
                 let '(_, i, j, k) := s in (jj - i) + (kk - jj - j) + (en - kk - k))
              (fun '(_, i, _, _) => Done (i <? jj))
              (fun '(I_, i, j, k) =>
                 v <- key I_ V h i ;;
                 if v <? x then Done (I_, i + 1, j, k)
                 else if v =? x then I_ <- swap I_ i (jj + j) ;; Done (I_, i, j + 1, k)
                 else I_ <- swap I_ i (kk + k) ;; Done (I_, i, j, k + 1)))
    with (fuel := Z.to_nat length) (s := (I_, start, 0, 0))
    as ([[[I1 i1] j1] k1] & Hw1 & Hinv1 & Hc1).
  - intros [[[I1 i] j] k] _. eauto.
  - intros [[[I1 i] j] k]
      (P1 & B1 & B2 & B3 & B4 & B5 & Bi & Bj & Bjk & Bk & Bkk & Klt & Keq & Kgt & Cl & Ce) Hc.
    inversion Hc as [Hi]. apply Z.ltb_lt in Hi.
    destruct (key_pending obuf h I1 V P1 start b i B1) as (Ek & _);
      try lia; try assumption.
    rewrite Ek. cbn [bind]. fold (K h V P1 i).
    destruct (K h V P1 i <? x) eqn:Elt.
    + apply Z.ltb_lt in Elt. eexists. split; [reflexivity |]. split; [| lia].
      exists P1. splits; try assumption; try lia.
      intros q Hq. destruct (Z.eq_dec q i) as [-> | Hn]; [assumption |].
      apply Klt. lia.
    + apply Z.ltb_ge in Elt. destruct (K h V P1 i =? x) eqn:Eeq.
      * apply Z.eqb_eq in Eeq.
        pose proof (room_eq (K h V P1) x start en jj kk j i Ce) as Hroom.
        specialize (Hroom ltac:(lia) ltac:(lia) ltac:(lia) ltac:(lia) Eeq Keq).
        destruct (part_swap h I_ V P start en b I1 P1 i (jj + j))
          as (S0 & S1 & S2 & S3 & S4 & S5 & S6 & S7);
          try lia; try assumption.
        rewrite S0. cbn [bind]. eexists. split; [reflexivity |]. split; [| lia].
        exists (swapped P1 i (jj + j)). splits; try assumption; try lia.
        -- intros q Hq. rewrite S6 by lia.
           destruct (q =? jj + j) eqn:E1; [apply Z.eqb_eq in E1; lia |].
           destruct (q =? i) eqn:E2; [apply Z.eqb_eq in E2; lia |].
           apply Klt. lia.
        -- intros q Hq. rewrite S6 by lia.
           destruct (q =? jj + j) eqn:E1; [assumption |]. apply Z.eqb_neq in E1.
           destruct (q =? i) eqn:E2; [apply Z.eqb_eq in E2; lia |].
           apply Keq. lia.
        -- intros q Hq. rewrite S6 by lia.
           destruct (q =? jj + j) eqn:E1; [apply Z.eqb_eq in E1; lia |].
           destruct (q =? i) eqn:E2; [apply Z.eqb_eq in E2; lia |].
           apply Kgt. lia.
        -- rewrite (S7 (fun v => v <? x)). exact Cl.
        -- rewrite (S7 (fun v => v =? x)). exact Ce.
      * apply Z.eqb_neq in Eeq.
        pose proof (room_gt (K h V P1) x start en jj kk k i Cl Ce) as Hroom.
        specialize (Hroom ltac:(lia) ltac:(lia) ltac:(lia) ltac:(lia) Kgt).
        destruct (part_swap h I_ V P start en b I1 P1 i (kk + k))
          as (S0 & S1 & S2 & S3 & S4 & S5 & S6 & S7);
          try lia; try assumption.
        rewrite S0. cbn [bind]. eexists. split; [reflexivity |]. split; [| lia].
        exists (swapped P1 i (kk + k)). splits; try assumption; try lia.
        -- intros q Hq. rewrite S6 by lia.
           destruct (q =? kk + k) eqn:E1; [apply Z.eqb_eq in E1; lia |].
           destruct (q =? i) eqn:E2; [apply Z.eqb_eq in E2; lia |].
           apply Klt. lia.
        -- intros q Hq. rewrite S6 by lia.
           destruct (q =? kk + k) eqn:E1; [apply Z.eqb_eq in E1; lia |].
           destruct (q =? i) eqn:E2; [apply Z.eqb_eq in E2; lia |].
           apply Keq. lia.
        -- intros q Hq. rewrite S6 by lia.
           destruct (q =? kk + k) eqn:E1; [lia |]. apply Z.eqb_neq in E1.
           destruct (q =? i) eqn:E2; [apply Z.eqb_eq in E2; lia |].
           apply Kgt. lia.
        -- rewrite (S7 (fun v => v <? x)). exact Cl.
        -- rewrite (S7 (fun v => v =? x)). exact Ce.
  - exists P. splits; try assumption; try lia; auto;
      try (now apply perm_in_refl); try (intros; lia);
      try (unfold jj; lia); try (unfold kk; lia).
  - unfold en in *. lia.
  - rewrite Hw1. cbn [bind].
    inversion Hc1 as [Hi1]. apply Z.ltb_ge in Hi1.
    destruct Hinv1 as
      (P1 & B1 & B2 & B3 & B4 & B5 & Bi & Bj & Bjk & Bk & Bkk & Klt & Keq & Kgt & Cl & Ce).
    assert (i1 = jj) by lia. subst i1.
    (* the second loop *)
    destruct (while_inv
                (fun s : list Z * Z * Z =>
                   let '(I2, j, k) := s in
                   part_inv h I_ V P start en b x jj kk I2 jj j k)
                (fun s : list Z * Z * Z =>
                   let '(_, j, k) := s in (kk - jj - j) + (en - kk - k))
                (fun '(_, j, _) => Done (jj + j <? kk))
                (fun '(I_, j, k) =>
                   v <- key I_ V h (jj + j) ;;
                   if v =? x then Done (I_, j + 1, k)
                   else I_ <- swap I_ (jj + j) (kk + k) ;; Done (I_, j, k + 1)))
      with (fuel := Z.to_nat length) (s := (I1, j1, k1))
      as ([[I2 j2] k2] & Hw2 & Hinv2 & Hc2).
    + intros [[I2 j] k] _. eauto.
    + intros [[I2 j] k]
        (P2 & D1 & D2 & D3 & D4 & D5 & Di & Dj & Djk & Dk & Dkk & Llt & Leq & Lgt & Dl & De) Hc.
      inversion Hc as [Hj]. apply Z.ltb_lt in Hj.
      destruct (key_pending obuf h I2 V P2 start b (jj + j) D1) as (Ek & _);
        try lia; try assumption.
      rewrite Ek. cbn [bind]. fold (K h V P2 (jj + j)).
      destruct (K h V P2 (jj + j) =? x) eqn:Eeq.
      * apply Z.eqb_eq in Eeq. eexists. split; [reflexivity |]. split; [| lia].
        exists P2. splits; try assumption; try lia.
        intros q Hq. destruct (Z.eq_dec q (jj + j)) as [-> | Hn]; [assumption |].
        apply Leq. lia.
      * apply Z.eqb_neq in Eeq.
        pose proof (no_lt_after (K h V P2) x start en jj Dl ltac:(lia) Llt
                      (jj + j) ltac:(lia)) as Hge.
        pose proof (room_gt (K h V P2) x start en jj kk k (jj + j) Dl De) as Hroom.
        specialize (Hroom ltac:(lia) ltac:(lia) ltac:(lia) ltac:(lia) Lgt).
        destruct (part_swap h I_ V P start en b I2 P2 (jj + j) (kk + k))
          as (S0 & S1 & S2 & S3 & S4 & S5 & S6 & S7);
          try lia; try assumption.
        rewrite S0. cbn [bind]. eexists. split; [reflexivity |]. split; [| lia].
        exists (swapped P2 (jj + j) (kk + k)). splits; try assumption; try lia.
        -- intros q Hq. rewrite S6 by lia.
           destruct (q =? kk + k) eqn:E1; [apply Z.eqb_eq in E1; lia |].
           destruct (q =? jj + j) eqn:E2; [apply Z.eqb_eq in E2; lia |].
           apply Llt. lia.
        -- intros q Hq. rewrite S6 by lia.
           destruct (q =? kk + k) eqn:E1; [apply Z.eqb_eq in E1; lia |].
           destruct (q =? jj + j) eqn:E2; [apply Z.eqb_eq in E2; lia |].
           apply Leq. lia.
        -- intros q Hq. rewrite S6 by lia.
           destruct (q =? kk + k) eqn:E1; [lia |]. apply Z.eqb_neq in E1.
           destruct (q =? jj + j) eqn:E2; [apply Z.eqb_eq in E2; lia |].
           apply Lgt. lia.
        -- rewrite (S7 (fun v => v <? x)). exact Dl.
        -- rewrite (S7 (fun v => v =? x)). exact De.
    + exists P1. splits; try assumption; try lia.
    + unfold en in *. lia.
    + rewrite Hw2. cbn [bind].
      inversion Hc2 as [Hj2]. apply Z.ltb_ge in Hj2.
      destruct Hinv2 as
        (P2 & D1 & D2 & D3 & D4 & D5 & Di & Dj & Djk & Dk & Dkk & Llt & Leq & Lgt & Dl & De).
      exists I2, P2. splits; try assumption; try lia.
      * reflexivity.
      * intros q Hq. apply Leq. lia.
      * apply (all_gt_after (K h V P2) x start en jj kk); try assumption; try lia.
        intros q Hq. apply Leq. lia.
Qed.

End Partition.

Ltac open_split_pre := unfold split_pre.

Section SplitRec.
Import Bsdiff.

Variable obuf : list byte.

Local Abbreviation n := (len obuf).
Local Abbreviation N := (len obuf + 1).
Local Abbreviation GI := (GI obuf).
Local Abbreviation done_range := (done_range obuf).
Local Abbreviation split_pre := (split_pre obuf).
Local Abbreviation split_post := (split_post obuf).

Lemma done_range_agree h I_ V P I' V' P' lo hi :
  done_range h I_ V P lo hi ->
  (forall q, lo <= q < hi ->
             zn I' q = zn I_ q /\ zn P' q = zn P q /\ G V' P' q = G V P q) ->
  done_range h I' V' P' lo hi.
Proof.
  intros [D1 D2] Ha. split.
  - intros q Hq. destruct (Ha q Hq) as (-> & -> & _). now apply D1.
  - intros q q' Hq Hq' Hn HG.
    destruct (Ha q Hq) as (_ & -> & E1). destruct (Ha q' Hq') as (_ & -> & E2).
    apply D2; auto. congruence.
Qed.

Lemma done_range_join h I_ V P lo mid hi :
  done_range h I_ V P lo mid -> done_range h I_ V P mid hi ->
  (forall q, lo <= q < mid -> G V P q < mid) ->
  (forall q, mid <= q < hi -> mid <= G V P q) ->
  done_range h I_ V P lo hi.
Proof.
  intros [D1 D2] [E1 E2] Hlow Hhigh. split.
  - intros q Hq. destruct (Z_lt_le_dec q mid); [apply D1 | apply E1]; lia.
  - intros q q' Hq Hq' Hn HG.
    destruct (Z_lt_le_dec q mid) as [L | L];
      destruct (Z_lt_le_dec q' mid) as [L' | L'].
    + apply D2; auto; lia.
    + pose proof (Hlow q ltac:(lia)). pose proof (Hhigh q' ltac:(lia)). lia.
    + pose proof (Hlow q' ltac:(lia)). pose proof (Hhigh q ltac:(lia)). lia.
    + apply E2; auto; lia.
Qed.

Lemma done_range_empty h I_ V P lo hi : hi <= lo -> done_range h I_ V P lo hi.
Proof. intros H. split; intros; lia. Qed.

(** Outside the range that [split] works on, positions keep their
    suffix and their group number. *)
Lemma frame_outside P P' V V' lo hi :
  isperm obuf P -> 0 <= lo -> hi <= N ->
  perm_in obuf P P' lo hi ->
  (forall s, 0 <= s < N -> (forall q, lo <= q < hi -> zn P q <> s) ->
             zn V' s = zn V s) ->
  forall q, 0 <= q < N -> ~ lo <= q < hi ->
            zn P' q = zn P q /\ G V' P' q = G V P q.
Proof.
  intros (_ & Pr & Pi & _) Hlo Hhi (_ & A2 & _) HV q Hq Hn.
  split; [now apply A2 |]. unfold G. rewrite A2 by assumption.
  apply HV; [now apply Pr |]. intros q' Hq' E. apply Pi in E; lia.
Qed.

Lemma split_rec_ok fuel :
  forall h I_ V P start length b,
    split_pre h I_ V P start length b -> length <= Z.of_nat fuel ->
    exists I' V',
      split_rec fuel I_ V start length h = Done (I', V')
      /\ split_post h I_ V P start length b I' V'.
Proof.
  induction fuel as [| fuel IH]; intros h I_ V P start length b Hpre Hfuel.
  { pose proof Hpre as (_ & _ & Hl & _). lia. }
  cbn [split_rec]. destruct (length <? 16) eqn:E16;
    [now apply split_small_ok |].
  apply Z.ltb_ge in E16.
  destruct Hpre as (HGI & Hs & Hl & Hle & Hb & Hbef & Hpend & Hright).
  set (en := start + length) in *.
  pose proof (gi_perm _ _ _ _ _ HGI) as HP.
  pose proof (gi_h _ _ _ _ _ HGI) as Hh.
  (* the pivot *)
  assert (Hmid : start <= start + length / 2 < en)
    by (unfold en; Z.div_mod_to_equations; lia).
  destruct (key_pending obuf h I_ V P start b (start + length / 2) HGI)
    as (Ek & _); try lia; try assumption.
  rewrite Ek. cbn [bind]. fold (K h V P (start + length / 2)).
  set (x := K h V P (start + length / 2)).
  rewrite (split_count_ok obuf h I_ V P start length b x) by (try assumption; lia).
  cbn [bind]. cbv zeta. fold en.
  set (jj := cnt (fun q => K h V P q <? x) start en + start).
  set (kk := cnt (fun q => K h V P q =? x) start en + jj).
  pose proof (split_partition_ok obuf h I_ V P start length b x HGI Hs
                ltac:(lia) Hle Hb Hpend) as Hp.
  cbv zeta in Hp. fold en in Hp. fold jj in Hp. fold kk in Hp.
  destruct Hp as (I1 & P1 & Ep & A1 & A2 & A3 & A4 & A5 & Hj1 & Hj2 & Hj3
                  & Klt & Keq & Kgt).
  rewrite Ep. cbn [bind].
  pose proof (gi_perm _ _ _ _ _ A1) as HP1.
  assert (Hjk : jj < kk).
  { pose proof (cnt_pos (fun q => K h V P q =? x) start en (start + length / 2)
                  Hmid ltac:(now apply Z.eqb_eq)). unfold kk. lia. }
  (* what the partition says of the order of the suffixes *)
  assert (F_lt : forall q r, start <= q < jj -> jj <= r < en ->
                             prec obuf (zn P1 q) (zn P1 r)).
  { intros q r Hq Hr.
    apply (key_lt_prec obuf h I1 V P1 start b); try lia; try assumption.
    pose proof (Klt q Hq). destruct (Z_lt_le_dec r kk) as [L | L].
    - rewrite (Keq r) by lia. lia.
    - pose proof (Kgt r ltac:(lia)). lia. }
  assert (F_eq : forall q r, jj <= q < kk -> kk <= r < en ->
                             prec obuf (zn P1 q) (zn P1 r)).
  { intros q r Hq Hr.
    apply (key_lt_prec obuf h I1 V P1 start b); try lia; try assumption.
    rewrite (Keq q) by lia. apply Kgt. lia. }
  assert (F_share : forall q q', jj <= q < kk -> jj <= q' < kk -> q <> q' ->
                                 share obuf (h + h) (zn P1 q) (zn P1 q')).
  { intros q q' Hq Hq' Hn.
    apply (key_eq_share obuf h I1 V P1 start b); try lia; try assumption.
    rewrite (Keq q), (Keq q') by lia. reflexivity. }
  assert (F_right : forall q r, start <= q < en -> en <= r <= b ->
                                prec obuf (zn P1 q) (zn P1 r)).
  { intros q r Hq Hr. destruct A3 as (_ & O1 & O2).
    destruct (O2 q Hq) as (q0 & Hq0 & ->). rewrite (O1 r) by lia.
    apply Hright; lia. }
  (* the part below the pivot *)
  assert (Left : exists I2 V2 P2,
             (if jj >? start then split_rec fuel I1 V start (jj - start) h
              else Done (I1, V)) = Done (I2, V2)
             /\ GI h I2 V2 P2 /\ perm_in obuf P1 P2 start jj
             /\ (forall q, 0 <= q < N -> ~ start <= q < jj -> zn I2 q = zn I1 q)
             /\ (forall s, 0 <= s < N ->
                           (forall q, start <= q < jj -> zn P1 q <> s) ->
                           zn V2 s = zn V s)
             /\ (forall r, 0 <= r < jj -> G V2 P2 r < jj)
             /\ pending I2 V2 P2 jj b
             /\ done_range h I2 V2 P2 start jj).
  { destruct (jj >? start) eqn:Ejs.
    - rewrite Z.gtb_ltb in Ejs. apply Z.ltb_lt in Ejs.
      destruct (IH h I1 V P1 start (jj - start) b) as (I2 & V2 & E2 & P2 & Q);
        [| lia |].
      + open_split_pre. replace (start + (jj - start)) with jj by lia.
        splits; try assumption; try lia.
        * intros r Hr. rewrite A5 by lia. now apply Hbef.
        * intros q r Hq Hr. destruct (Z_lt_le_dec r en) as [L | L];
            [apply F_lt | apply F_right]; lia.
      + replace (start + (jj - start)) with jj in Q by lia.
        exists I2, V2, P2. split; [exact E2 | exact Q].
    - rewrite Z.gtb_ltb in Ejs. apply Z.ltb_ge in Ejs.
      assert (jj = start) by lia.
      exists I1, V, P1. splits; try assumption; try reflexivity.
      + apply perm_in_refl. assumption.
      + intros r Hr. rewrite A5 by lia. pose proof (Hbef r ltac:(lia)). lia.
      + intros q Hq. apply A2. lia.
      + apply done_range_empty. lia. }
  destruct Left as (I2 & V2 & P2 & E2 & B1 & B2 & B3 & B4 & B5 & B6 & B7).
  rewrite E2. cbn [bind].
  pose proof (gi_perm _ _ _ _ _ B1) as HP2.
  pose proof (gi_marks _ _ _ _ _ B1) as (HlI2 & HM2).
  pose proof (gi_ranged _ _ _ _ _ B1) as (HlV2 & _).
  assert (Same2 : forall q, jj <= q < N -> zn P2 q = zn P1 q).
  { intros q Hq. destruct B2 as (_ & O1 & _). apply O1; lia. }
  (* the part equal to the pivot *)
  assert (HIP2 : forall q, jj <= q < jj + (kk - jj) -> zn I2 q = zn P2 q).
  { intros q Hq. destruct (B6 q ltac:(lia)) as [_ Hpos].
    destruct (HM2 q ltac:(lia)) as [_ M]. now destruct (M Hpos). }
  destruct (renumber_loop obuf I2 V2 P2 jj (kk - jj) (kk - 1))
    as (V3 & Er & D1 & D2 & D3); try lia; try assumption.
  rewrite Er. cbn [bind].
  set (I3 := if jj =? kk - 1 then upd I2 jj (-1) else I2).
  assert (Em : (if jj =? kk - 1 then st I2 jj (-1) else Done I2) = Done I3).
  { unfold I3. destruct (jj =? kk - 1); [| reflexivity]. apply st_upd. lia. }
  rewrite Em. cbn [bind].
  assert (HlI3 : len I3 = N).
  { unfold I3. destruct (jj =? kk - 1); [now rewrite len_upd | assumption]. }
  assert (HI3 : forall q, 0 <= q < N -> q <> jj -> zn I3 q = zn I2 q).
  { intros q Hq Hn. unfold I3. destruct (jj =? kk - 1); [| reflexivity].
    apply zn_upd_other; lia. }
  assert (HI3k : zn I3 jj = (if kk =? jj + 1 then -1 else zn I2 jj)).
  { unfold I3. destruct (jj =? kk - 1) eqn:E.
    - apply Z.eqb_eq in E. replace (kk =? jj + 1) with true
        by (symmetry; apply Z.eqb_eq; lia). apply zn_upd_same. lia.
    - apply Z.eqb_neq in E.
      destruct (kk =? jj + 1) eqn:E'; [apply Z.eqb_eq in E'; lia | reflexivity]. }
  destruct (renumber obuf h I2 V2 P2 I3 V3 jj kk b B1)
    as (R1 & R2 & R3 & R4 & R5 & R6); try lia; try assumption.
  { intros q r Hq Hr. rewrite !Same2 by lia.
    destruct (Z_lt_le_dec r en) as [L | L]; [apply F_eq | apply F_right]; lia. }
  { intros q q' Hq Hq' Hn. rewrite !Same2 by lia. now apply F_share. }
  { intros q Hq. apply D2. lia. }
  { intros s0 Hs0 Hn. apply D3; [assumption |]. intros q Hq. apply Hn. lia. }
  (* the part above the pivot *)
  assert (Right : exists I4 V4 P4,
             (if en >? kk
              then split_rec fuel I3 V3 kk (en - kk) h
              else Done (I3, V3)) = Done (I4, V4)
             /\ GI h I4 V4 P4 /\ perm_in obuf P2 P4 kk en
             /\ (forall q, 0 <= q < N -> ~ kk <= q < en -> zn I4 q = zn I3 q)
             /\ (forall s, 0 <= s < N ->
                           (forall q, kk <= q < en -> zn P2 q <> s) ->
                           zn V4 s = zn V3 s)
             /\ (forall r, 0 <= r < en -> G V4 P4 r < en)
             /\ pending I4 V4 P4 en b
             /\ done_range h I4 V4 P4 kk en).
  { destruct (en >? kk) eqn:Eek.
    - rewrite Z.gtb_ltb in Eek. apply Z.ltb_lt in Eek.
      destruct (IH h I3 V3 P2 kk (en - kk) b) as (I4 & V4 & E4 & P4 & Q);
        [| lia |].
      + open_split_pre. replace (kk + (en - kk)) with en by lia.
        splits; try assumption; try lia.
        intros q r Hq Hr. rewrite !Same2 by lia. apply F_right; lia.
      + replace (kk + (en - kk)) with en in Q by lia.
        exists I4, V4, P4. split; [exact E4 | exact Q].
    - rewrite Z.gtb_ltb in Eek. apply Z.ltb_ge in Eek.
      assert (kk = en) by lia.
      exists I3, V3, P2. splits; try assumption; try reflexivity.
      + apply perm_in_refl. assumption.
      + intros r Hr. pose proof (R2 r ltac:(lia)). lia.
      + intros q Hq. apply R3. lia.
      + apply done_range_empty. lia. }
  destruct Right as (I4 & V4 & P4 & E4 & C1 & C2 & C3 & C4 & C5 & C6 & C7).
  rewrite E4.
  exists I4, V4. split; [reflexivity |].
  (* putting the three parts together *)
  assert (P12 : perm_in obuf P P2 start en).
  { apply (perm_in_trans obuf P P1); try lia; try assumption.
    apply (perm_in_wider obuf P1 P2 start jj); try lia; assumption. }
  assert (P14 : perm_in obuf P P4 start en).
  { apply (perm_in_trans obuf P P2); try lia; try assumption.
    apply (perm_in_wider obuf P2 P4 kk en); try lia; assumption. }
  pose proof (frame_outside P2 P4 V3 V4 kk en HP2 ltac:(lia) ltac:(lia) C2 C4)
    as Fr4.
  exists P4. splits; try assumption.
  - intros q Hq Hn. rewrite C3 by lia. rewrite HI3 by lia.
    rewrite B3 by lia. now apply A4.
  - intros s0 Hs0 Hn.
    assert (In2 : forall q, start <= q < en -> zn P2 q <> s0).
    { intros q Hq. destruct P12 as (_ & _ & O2).
      destruct (O2 q Hq) as (q0 & Hq0 & ->). now apply Hn. }
    assert (In1 : forall q, start <= q < en -> zn P1 q <> s0).
    { intros q Hq. destruct A3 as (_ & _ & O2).
      destruct (O2 q Hq) as (q0 & Hq0 & ->). now apply Hn. }
    rewrite C4; [| assumption | intros q Hq; apply In2; lia].
    rewrite D3; [| assumption | intros q Hq; apply In2; lia].
    apply B4; [assumption |]. intros q Hq. apply In1. lia.
  - (* done *)
    apply (done_range_join h I4 V4 P4 start kk en).
    + apply (done_range_agree h I3 V3 P2); [| intros q Hq; destruct (Fr4 q) as [F1 F2];
                                               [lia | lia |]; rewrite C3 by lia; auto].
      apply (done_range_join h I3 V3 P2 start jj kk).
      * apply (done_range_agree h I2 V2 P2); [assumption |].
        intros q Hq. rewrite HI3 by lia. rewrite R6 by lia. auto.
      * split; [intros q Hq; now apply R5 |].
        intros q q' Hq Hq' Hn _. rewrite !Same2 by lia. now apply F_share.
      * intros q Hq. rewrite R6 by lia. apply B5. lia.
      * intros q Hq. rewrite R4 by lia. lia.
    + assumption.
    + intros q Hq. destruct (Fr4 q) as [_ ->]; [lia | lia |]. apply R2. lia.
    + intros q Hq. destruct (gi_layout _ _ _ _ _ C1 q) as [H1 _]; lia.
Qed.

(** [split] on a whole group *)
Lemma split_ok h I_ V P start length b :
  split_pre h I_ V P start length b ->
  exists I' V',
    split I_ V start length h = Done (I', V')
    /\ split_post h I_ V P start length b I' V'.
Proof.
  intros Hpre. unfold split. apply split_rec_ok; [assumption |].
  destruct Hpre as (_ & _ & Hl & _). lia.
Qed.

End SplitRec.

(* ------------------------------------------------------------------ *)
(** ** One pass of the doubling loop *)

Section Pass.
Import Bsdiff.

Variable obuf : list byte.

Local Abbreviation N := (len obuf + 1).
Local Abbreviation GI := (GI obuf).
Local Abbreviation done_range := (done_range obuf).

(** Every position carries a mark. *)
Definition all_marked (I_ : list Z) : Prop :=
  forall q, 0 <= q < N -> zn I_ q < 0.

Lemma GI_mark_run h I_ V P a m :
  GI h I_ V P -> 0 < m -> 0 <= a -> a + m <= N ->
  (forall r, a <= r < a + m -> G V P r = r /\ zn I_ r < 0) ->
  GI h (upd I_ a (- m)) V P.
Proof.
  intros [Hh HP HV HL HM HO HG] Hm Ha Ham Hrun.
  destruct HM as (HlI & HM).
  assert (Z' : forall q, 0 <= q < N ->
                 zn (upd I_ a (- m)) q = if q =? a then - m else zn I_ q)
    by (intros; apply zn_upd; lia).
  assert (Neg : forall q, 0 <= q < N -> zn I_ q < 0 -> zn (upd I_ a (- m)) q < 0).
  { intros q Hq Hn. rewrite Z' by assumption. destruct (q =? a); lia. }
  constructor; try assumption.
  split; [now rewrite len_upd |]. intros q Hq. rewrite Z' by assumption.
  destruct (q =? a) eqn:E.
  - apply Z.eqb_eq in E. subst q. split; [| intros; lia]. intros _.
    split; [lia |]. intros r Hr. destruct (Hrun r) as [R1 R2]; [lia |].
    split; [assumption |]. apply Neg; [lia | assumption].
  - apply Z.eqb_neq in E. destruct (HM q Hq) as [M1 M2]. split.
    + intros Hneg. destruct (M1 Hneg) as [M3 M4]. split; [assumption |].
      intros r Hr. destruct (M4 r Hr) as [M5 M6]. split; [assumption |].
      apply Neg; [lia | assumption].
    + intros Hpos. destruct (M2 Hpos) as (M3 & M4 & M5). splits; auto.
      pose proof (G_range obuf V P q HP HV Hq). rewrite Z' by lia.
      destruct (G V P q =? a) eqn:E'; [| assumption].
      apply Z.eqb_eq in E'. destruct (Hrun a) as [_ R2]; [lia |].
      rewrite E' in M5. lia.
Qed.

Lemma GI_double h I_ V P :
  GI h I_ V P -> done_range h I_ V P 0 N -> GI (h + h) I_ V P.
Proof.
  intros [Hh HP HV HL HM HO HG] [D1 D2].
  pose proof HP as (_ & Pr & Pi & Ps). destruct HM as (HlI & HM).
  constructor; try assumption; try lia.
  - split; [assumption |]. intros q Hq. destruct (HM q Hq) as [M1 M2].
    split; [assumption |]. intros Hpos. destruct (M2 Hpos) as (M3 & M4 & M5).
    splits; auto. destruct (D1 q Hq); lia.
  - intros s t Hs Ht Hne Heq.
    destruct (Ps s Hs) as (qs & Hqs & <-). destruct (Ps t Ht) as (qt & Hqt & <-).
    apply D2; auto. congruence.
Qed.

Lemma GI_all_marked h I_ V P :
  GI h I_ V P -> len obuf < h -> all_marked I_.
Proof.
  intros [Hh HP HV HL HM HO HG] Hlt q Hq.
  pose proof HP as (_ & Pr & _). destruct HM as (_ & HM).
  destruct (Z_lt_le_dec (zn I_ q) 0) as [L | L]; [assumption |].
  destruct (HM q Hq) as [_ M]. destruct (M L) as (_ & M2 & _).
  pose proof (Pr q Hq). lia.
Qed.

Lemma done_range_marked h I_ V P I' lo hi :
  done_range h I_ V P lo hi ->
  (forall q, lo <= q < hi -> zn I' q < 0 \/ zn I' q = zn I_ q) ->
  done_range h I' V P lo hi.
Proof.
  intros [D1 D2] Ha. split; [| exact D2].
  intros q Hq. destruct (Ha q Hq) as [L | ->]; [now left | now apply D1].
Qed.

(** The merge [if n != 0 { I[i-n] = -n }] of the marks passed over *)
Lemma merge_marks h I_ V P i nacc :
  GI h I_ V P -> 0 <= nacc <= i -> i <= N ->
  (forall r, i - nacc <= r < i -> G V P r = r /\ zn I_ r < 0) ->
  exists I',
    (if negb (nacc =? 0) then st I_ (i - nacc) (- nacc) else Done I_) = Done I'
    /\ GI h I' V P
    /\ (forall q, 0 <= q < N -> zn I' q < 0 \/ zn I' q = zn I_ q)
    /\ (forall q, 0 <= q < N -> 0 <= zn I_ q -> zn I' q = zn I_ q)
    /\ (nacc <> 0 -> zn I' (i - nacc) = - nacc).
Proof.
  intros HGI Hn Hi Hrun.
  pose proof (gi_marks _ _ _ _ _ HGI) as (HlI & _).
  destruct (nacc =? 0) eqn:E; cbn [negb].
  - apply Z.eqb_eq in E. exists I_. splits; auto. intros; lia.
  - apply Z.eqb_neq in E. exists (upd I_ (i - nacc) (- nacc)).
    assert (Z' : forall q, 0 <= q < N ->
                   zn (upd I_ (i - nacc) (- nacc)) q
                   = if q =? i - nacc then - nacc else zn I_ q)
      by (intros; apply zn_upd; lia).
    splits.
    + apply st_upd. lia.
    + apply GI_mark_run; try assumption; try lia.
      intros r Hr. apply Hrun. lia.
    + intros q Hq. rewrite Z' by assumption.
      destruct (q =? i - nacc); [left; lia | now right].
    + intros q Hq Hpos. rewrite Z' by assumption.
      destruct (q =? i - nacc) eqn:E'; [| reflexivity].
      apply Z.eqb_eq in E'. destruct (Hrun q); lia.
    + intros _. rewrite Z' by lia. now rewrite Z.eqb_refl.
Qed.

Lemma qsufsort_pass_ok h I_ V P :
  GI h I_ V P ->
  exists I' V' P',
    qsufsort_pass obuf I_ V h = Done (I', V')
    /\ GI (h + h) I' V' P'
    /\ (all_marked I_ -> zn I' 0 = - N).
Proof.
  intros HGI. unfold qsufsort_pass.
  destruct (while_inv
              (fun s : list Z * list Z * Z * Z =>
                 let '(I1, V1, i, nacc) := s in
                 exists P1,
                   GI h I1 V1 P1 /\ 0 <= i <= N
                   /\ (forall r, 0 <= r < i -> G V1 P1 r < i)
                   /\ done_range h I1 V1 P1 0 i
                   /\ 0 <= nacc <= i
                   /\ (forall r, i - nacc <= r < i ->
                                 G V1 P1 r = r /\ zn I1 r < 0)
                   /\ (all_marked I_ -> I1 = I_ /\ nacc = i))
              (fun s : list Z * list Z * Z * Z => let '(_, _, i, _) := s in N - i)
              (fun '(_, _, i, _) => Done (i <? len obuf + 1))
              (fun '(I_, V, i, n) =>
                 e <- ld I_ i ;;
                 if e <? 0 then Done (I_, V, i - e, n - e)
                 else
                   I_ <- (if negb (n =? 0) then st I_ (i - n) (- n) else Done I_) ;;
                   p <- ld I_ i ;;
                   v <- ld V p ;;
                   '(I_, V) <- split I_ V i (v + 1 - i) h ;;
                   Done (I_, V, i + (v + 1 - i), 0)))
    with (fuel := S (length obuf)) (s := (I_, V, 0, 0))
    as ([[[I1 V1] i1] n1] & Hw & (P1 & A1 & A2 & A3 & A4 & A5 & A6 & A7) & Hc).
  - intros [[[I1 V1] i] nacc] _. eauto.
  - intros [[[I1 V1] i] nacc] (P1 & B1 & B2 & B3 & B4 & B5 & B6 & B7) Hc.
    inversion Hc as [Hi]. apply Z.ltb_lt in Hi.
    pose proof (gi_marks _ _ _ _ _ B1) as (HlI1 & HM1).
    pose proof (gi_perm _ _ _ _ _ B1) as HP1.
    pose proof (gi_ranged _ _ _ _ _ B1) as HV1.
    rewrite ld_zn by lia. cbn [bind].
    destruct (zn I1 i <? 0) eqn:Ee.
    + (* marks are passed over *)
      apply Z.ltb_lt in Ee. destruct (HM1 i ltac:(lia)) as [M _].
      destruct (M Ee) as [M1 M2].
      eexists. split; [reflexivity |]. split; [| lia].
      exists P1. splits; try assumption; try lia.
      * intros r Hr. destruct (Z_lt_le_dec r i) as [L | L].
        -- pose proof (B3 r ltac:(lia)). lia.
        -- destruct (M2 r ltac:(lia)). lia.
      * apply (done_range_join obuf h I1 V1 P1 0 i); try assumption.
        -- split.
           ++ intros q Hq. left. now apply M2.
           ++ intros q q' Hq Hq' Hn HG.
              destruct (M2 q Hq) as [E1 _]. destruct (M2 q' Hq') as [E2 _]. lia.
        -- intros q Hq. destruct (M2 q Hq). lia.
      * intros r Hr. destruct (Z_lt_le_dec r i) as [L | L].
        -- apply B6. lia.
        -- apply M2. lia.
      * intros Hall. destruct (B7 Hall). split; [assumption | lia].
    + (* a group is split *)
      apply Z.ltb_ge in Ee.
      destruct (merge_marks h I1 V1 P1 i nacc B1 B5 ltac:(lia) B6)
        as (I1' & Em & C1 & C2 & C3 & _).
      rewrite Em. cbn [bind].
      pose proof (gi_marks _ _ _ _ _ C1) as (HlI1' & HM1').
      assert (Ei : zn I1' i = zn I1 i) by (apply C3; [lia | assumption]).
      rewrite ld_zn by lia. cbn [bind]. rewrite Ei.
      destruct (HM1 i ltac:(lia)) as [_ M]. destruct (M Ee) as (M1 & M2 & M3).
      pose proof (proj1 (proj2 HP1) i ltac:(lia)) as HPi.
      rewrite M1. rewrite ld_zn by (destruct HV1; lia). cbn [bind]. cbv zeta.
      fold (G V1 P1 i). set (b := G V1 P1 i).
      pose proof (G_range obuf V1 P1 i HP1 HV1 ltac:(lia)) as Hb. fold b in Hb.
      destruct (gi_layout _ _ _ _ _ C1 i ltac:(lia)) as [L1 L2]. fold b in L1, L2.
      assert (Hpend : pending I1' V1 P1 i b).
      { intros q Hq. split; [now apply L2 |].
        destruct (Z_lt_le_dec (zn I1' q) 0) as [L | L]; [exfalso | assumption].
        destruct (HM1' q ltac:(lia)) as [Mq _]. destruct (Mq L) as [_ Mr].
        destruct (Mr q ltac:(lia)) as [Gq _]. rewrite (L2 q Hq) in Gq.
        destruct (HM1' i ltac:(lia)) as [_ Mi].
        destruct (Mi ltac:(lia)) as (_ & _ & Mb). fold b in Mb. subst q. lia. }
      destruct (split_ok obuf h I1' V1 P1 i (b + 1 - i) b)
        as (I2 & V2 & Es & P2 & D1 & D2 & D3 & D4 & D5 & D6 & D7).
      { unfold split_pre. splits; try assumption; try lia; intros; lia. }
      rewrite Es. cbn [bind].
      replace (i + (b + 1 - i)) with (b + 1) in * by lia.
      eexists. split; [reflexivity |]. split; [| lia].
      pose proof (frame_outside obuf P1 P2 V1 V2 i (b + 1) HP1 ltac:(lia)
                    ltac:(lia) D2 D4) as Fr.
      exists P2. splits; try assumption; try lia.
      * apply (done_range_join obuf h I2 V2 P2 0 i); try assumption.
        -- apply (done_range_agree obuf h I1' V1 P1).
           ++ apply (done_range_marked h I1 V1 P1); [assumption |].
              intros q Hq. apply C2. lia.
           ++ intros q Hq. destruct (Fr q) as [F1 F2]; [lia | lia |].
              rewrite D3 by lia. auto.
        -- intros q Hq. destruct (Fr q) as [_ ->]; [lia | lia |]. apply B3. lia.
        -- intros q Hq. destruct (gi_layout _ _ _ _ _ D1 q) as [H1 _]; lia.
      * intros Hall. destruct (B7 Hall) as [-> _].
        pose proof (Hall i ltac:(lia)). lia.
  - exists P. splits; try assumption; try lia; auto;
      try (intros; lia); try (apply done_range_empty; lia).
    pose proof (len_nonneg obuf). lia.
  - unfold len. lia.
  - rewrite Hw. cbn [bind].
    inversion Hc as [Hi]. apply Z.ltb_ge in Hi.
    assert (i1 = N) by lia. subst i1.
    destruct (merge_marks h I1 V1 P1 N n1 A1 A5 ltac:(lia) A6)
      as (I' & Em & C1 & C2 & C3 & C4).
    rewrite Em. cbn [bind].
    exists I', V1, P1. split; [reflexivity |]. split.
    + apply GI_double; [assumption |].
      apply (done_range_marked h I1 V1 P1); [assumption |].
      intros q Hq. apply C2. lia.
    + intros Hall. destruct (A7 Hall) as [_ ->].
      pose proof (len_nonneg obuf).
      replace (N - N) with 0 in C4 by lia. apply C4. lia.
Qed.

End Pass.

(* ------------------------------------------------------------------ *)
(** ** The doubling loop and the final inversion *)

Lemma zn_ext (a b : list Z) :
  len a = len b -> (forall q, 0 <= q < len a -> zn a q = zn b q) -> a = b.
Proof.
  intros Hl H. unfold len in *. apply (nth_ext a b 0 0); [lia |].
  intros k Hk. specialize (H (Z.of_nat k) ltac:(lia)). unfold zn in H.
  now rewrite Nat2Z.id in H.
Qed.

Section Doubling.
Import Bsdiff.

Variable obuf : list byte.

Local Abbreviation N := (len obuf + 1).
Local Abbreviation GI := (GI obuf).

Lemma log2_bound h : 1 <= h <= 2 * len obuf -> Z.log2 h <= len obuf.
Proof.
  intros Hh.
  assert (Hn : 0 < len obuf) by lia.
  pose proof (Z.log2_le_mono h (2 * len obuf) ltac:(lia)) as H1.
  rewrite (Z.log2_double (len obuf) Hn) in H1.
  pose proof (Z.log2_lt_lin (len obuf) Hn). lia.
Qed.

Lemma doubling_ok I_ V P :
  GI 1 I_ V P -> zn I_ 0 = -1 ->
  exists I' V' h' P',
    while (length obuf + 2)
      (fun '(I_, _, _) => e <- ld I_ 0 ;; Done (negb (e =? - (len obuf + 1))))
      (fun '(I_, V, h) =>
         '(I_, V) <- qsufsort_pass obuf I_ V h ;; Done (I_, V, h + h))
      (I_, V, 1) = Done (I', V', h')
    /\ GI h' I' V' P' /\ zn I' 0 = - N.
Proof.
  intros HGI H0.
  pose proof (len_nonneg obuf) as Hn.
  destruct (while_inv
              (fun s : list Z * list Z * Z =>
                 let '(I1, V1, h1) := s in
                 exists P1,
                   GI h1 I1 V1 P1 /\ (2 * len obuf < h1 -> zn I1 0 = - N))
              (fun s : list Z * list Z * Z =>
                 let '(_, _, h1) := s in len obuf + 1 - Z.log2 h1)
              (fun '(I_, _, _) => e <- ld I_ 0 ;; Done (negb (e =? - (len obuf + 1))))
              (fun '(I_, V, h) =>
                 '(I_, V) <- qsufsort_pass obuf I_ V h ;; Done (I_, V, h + h)))
    with (fuel := (length obuf + 2)%nat) (s := (I_, V, 1))
    as ([[I' V'] h'] & Hw & (P' & A1 & A2) & Hc).
  - intros [[I1 V1] h1] (P1 & B1 & _).
    pose proof (gi_marks _ _ _ _ _ B1) as (HlI & _).
    rewrite ld_zn by lia. cbn [bind]. eauto.
  - intros [[I1 V1] h1] (P1 & B1 & B2) Hc.
    pose proof (gi_marks _ _ _ _ _ B1) as (HlI & _).
    pose proof (gi_h _ _ _ _ _ B1) as Hh.
    rewrite ld_zn in Hc by lia. cbn [bind] in Hc. inversion Hc as [Hne].
    apply negb_true_iff in Hne. apply Z.eqb_neq in Hne.
    assert (Hle : h1 <= 2 * len obuf).
    { destruct (Z_lt_le_dec (2 * len obuf) h1) as [L | L]; [| assumption].
      specialize (B2 L). lia. }
    destruct (qsufsort_pass_ok obuf h1 I1 V1 P1 B1) as (I2 & V2 & P2 & Ep & C1 & C2).
    rewrite Ep. cbn [bind]. eexists. split; [reflexivity |]. split.
    + exists P2. split; [assumption |]. intros Hlt. apply C2.
      apply (GI_all_marked obuf h1 I1 V1 P1); [assumption | lia].
    + replace (h1 + h1) with (2 * h1) by lia.
      rewrite (Z.log2_double h1) by lia.
      pose proof (log2_bound h1 ltac:(lia)). lia.
  - exists P. split; [assumption |]. intros Hlt.
    assert (len obuf = 0) by lia. lia.
  - change (Z.log2 1) with 0. unfold len. lia.
  - rewrite ld_zn in Hc by (pose proof (gi_marks _ _ _ _ _ A1) as (HlI & _); lia).
    cbn [bind] in Hc. inversion Hc as [He].
    apply negb_false_iff in He. apply Z.eqb_eq in He.
    exists I', V', h', P'. auto.
Qed.

Lemma invert_ok h I_ V P :
  GI h I_ V P -> zn I_ 0 = - N ->
  for_range 0 (len obuf + 1) (fun i I_ => p <- ld V i ;; st I_ p i) I_ = Done P
  /\ (forall q, 0 <= q < N -> zn V (zn P q) = q).
Proof.
  intros HGI H0.
  pose proof (len_nonneg obuf) as Hn.
  pose proof (gi_marks _ _ _ _ _ HGI) as (HlI & HM).
  pose proof (gi_perm _ _ _ _ _ HGI) as (HlP & Pr & Pi & Ps).
  pose proof (gi_ranged _ _ _ _ _ HGI) as (HlV & Vr).
  assert (Gid : forall q, 0 <= q < N -> zn V (zn P q) = q).
  { destruct (HM 0 ltac:(lia)) as [M _]. destruct (M ltac:(lia)) as [_ M2].
    intros q Hq. apply M2. lia. }
  split; [| exact Gid].
  assert (Vinj : forall s t, 0 <= s < N -> 0 <= t < N -> zn V s = zn V t -> s = t).
  { intros s t Hs Ht E. destruct (Ps s Hs) as (qs & Hqs & <-).
    destruct (Ps t Ht) as (qt & Hqt & <-). rewrite !Gid in E by assumption.
    now subst. }
  destruct (for_range_inv
              (fun i I1 => len I1 = N
                           /\ forall s, 0 <= s < i -> zn I1 (zn V s) = s)
              (fun i I_ => p <- ld V i ;; st I_ p i) 0 (len obuf + 1) I_)
    as (I' & Hr & Hl' & H').
  - lia.
  - split; [assumption | intros; lia].
  - intros i I1 Hi (Hl1 & H1).
    rewrite ld_zn by lia. cbn [bind].
    pose proof (Vr i ltac:(lia)) as Hv.
    rewrite st_upd by lia. eexists. split; [reflexivity |].
    split; [now rewrite len_upd |]. intros s Hs.
    rewrite zn_upd by (try apply Vr; lia).
    destruct (zn V s =? zn V i) eqn:E.
    + apply Z.eqb_eq in E. apply Vinj in E; lia.
    + apply H1. apply Z.eqb_neq in E.
      assert (s <> i) by congruence. lia.
  - rewrite Hr. f_equal. apply zn_ext; [lia |].
    intros q Hq. rewrite <- (Gid q) at 1 by lia. apply H'. apply Pr. lia.
Qed.

(** [qsufsort], from the state that its bucket phase leaves *)
Lemma qsufsort_from_init I0 V0 P0 :
  qsufsort_init obuf = Done (I0, V0) ->
  GI 1 I0 V0 P0 -> zn I0 0 = -1 ->
  exists I_,
    qsufsort obuf = Done I_
    /\ isperm obuf I_
    /\ (forall q q', 0 <= q < q' -> q' < N -> prec obuf (zn I_ q) (zn I_ q')).
Proof.
  intros Ei HGI H0. unfold qsufsort, qsufsort_fuel. rewrite Ei. cbn [bind].
  destruct (doubling_ok I0 V0 P0 HGI H0) as (I1 & V1 & h1 & P1 & Ew & A1 & A2).
  rewrite Ew. cbn [bind].
  destruct (invert_ok h1 I1 V1 P1 A1 A2) as [Ef Gid].
  rewrite Ef. exists P1. split; [reflexivity |].
  pose proof (gi_perm _ _ _ _ _ A1) as HP. split; [assumption |].
  intros q q' Hq Hq'. destruct HP as (_ & Pr & _).
  apply (gi_ordered _ _ _ _ _ A1); try (apply Pr; lia).
  rewrite !Gid by lia. lia.
Qed.

End Doubling.

(* ------------------------------------------------------------------ *)
(** ** The bucket phase *)

Lemma b2z_range c : 0 <= b2z c < 256.
Proof.
  unfold b2z. pose proof (Byte.to_N_bounded c). lia.
Qed.

Lemma b2z_inj c d : b2z c = b2z d -> c = d.
Proof.
  unfold b2z. intros H. apply N2Z.inj in H.
  pose proof (Byte.of_to_N c) as Hc. rewrite H, Byte.of_to_N in Hc.
  now inversion Hc.
Qed.

Lemma cnt_mono f g lo hi :
  (forall q, lo <= q < hi -> f q = true -> g q = true) ->
  cnt f lo hi <= cnt g lo hi.
Proof.
  unfold cnt. remember (Z.to_nat (hi - lo)) as m eqn:E.
  assert (Hm : lo + Z.of_nat m <= Z.max lo hi) by lia. clear E.
  revert lo Hm. induction m as [| m IH]; intros lo Hm H; simpl; [lia |].
  specialize (IH (lo + 1) ltac:(lia)).
  assert (H' : forall q, lo + 1 <= q < hi -> f q = true -> g q = true)
    by (intros; apply H; [lia | assumption]).
  specialize (IH H'). specialize (H lo ltac:(lia)).
  destruct (f lo); [rewrite H by reflexivity; lia |].
  destruct (g lo); lia.
Qed.

(** The invariant rule of [for_each], over a byte string *)
Lemma for_each_inv {St} (P : Z -> St -> Prop)
  (body : Z -> byte -> St -> run St) (l : list byte) (s : St) :
  P 0 s ->
  (forall i s, 0 <= i < len l -> P i s ->
               exists s', body i (bn l i) s = Done s' /\ P (i + 1) s') ->
  exists s', for_each l 0 body s = Done s' /\ P (len l) s'.
Proof.
  assert (Gen : forall (l' : list byte) i0 s,
             0 <= i0 ->
             (forall k, (k < length l')%nat ->
                        nth k l' x00 = bn l (i0 + Z.of_nat k)) ->
             i0 + len l' = len l ->
             P i0 s ->
             (forall i s, 0 <= i < len l -> P i s ->
                          exists s', body i (bn l i) s = Done s' /\ P (i + 1) s') ->
             exists s', for_each l' i0 body s = Done s' /\ P (len l) s').
  { induction l' as [| c l' IH]; intros i0 s0 Hi0 Hnth Hlen H0 Hstep.
    - simpl. exists s0. split; [reflexivity |]. unfold len in *. simpl in *.
      now replace (Z.of_nat (length l)) with i0 by lia.
    - pose proof (Hnth O ltac:(simpl; lia)) as Hc. simpl in Hc.
      rewrite Z.add_0_r in Hc.
      destruct (Hstep i0 s0) as (s1 & E1 & H1);
        [unfold len in *; simpl in *; lia | assumption |].
      rewrite <- Hc in E1.
      destruct (IH (i0 + 1) s1) as (s2 & E2 & H2); try assumption; try lia.
      + intros k Hk. specialize (Hnth (S k) ltac:(simpl; lia)). simpl in Hnth.
        rewrite Hnth. f_equal. lia.
      + unfold len in *. simpl in *. lia.
      + exists s2. simpl. rewrite E1. simpl. auto. }
  intros H0 Hstep. apply (Gen l 0 s); auto; try lia.
  intros k Hk. unfold bn. now rewrite Z.add_0_l, Nat2Z.id.
Qed.

Section Buckets.

Variable obuf : list byte.

Local Abbreviation N := (len obuf + 1).

(** The byte at offset [j], as a number *)
Definition byt (j : Z) : Z := b2z (bn obuf j).

(** How often [c] occurs before offset [i]; how many bytes of [obuf]
    are at most [c]; how many are below [c] *)
Definition occ (c i : Z) : Z := cnt (fun j => byt j =? c) 0 i.
Definition lec (c : Z) : Z := cnt (fun j => byt j <=? c) 0 (len obuf).
Definition ltc (c : Z) : Z := cnt (fun j => byt j <? c) 0 (len obuf).

(** The position that the bucket phase gives to suffix [j] *)
Definition slot (j : Z) : Z := ltc (byt j) + occ (byt j) (j + 1).

Lemma byt_range j : 0 <= byt j < 256.
Proof. apply b2z_range. Qed.

Lemma lec_eq c : lec c = ltc c + occ c (len obuf).
Proof. apply cnt_le_lt_eq. Qed.

Lemma ltc_lec c : ltc c = lec (c - 1).
Proof.
  apply cnt_ext. intros q _.
  destruct (byt q <? c) eqn:E1; destruct (byt q <=? c - 1) eqn:E2;
    rewrite ?Z.ltb_lt, ?Z.ltb_ge, ?Z.leb_le, ?Z.leb_gt in *; lia.
Qed.

Lemma ltc_0 : ltc 0 = 0.
Proof.
  apply cnt_none. intros q _. pose proof (byt_range q). apply Z.ltb_ge. lia.
Qed.

Lemma lec_0 : lec 0 = occ 0 (len obuf).
Proof. rewrite lec_eq, ltc_0. lia. Qed.

Lemma lec_ltc c c' : c < c' -> lec c <= ltc c'.
Proof.
  intros H. apply cnt_mono. intros q _ E.
  apply Z.leb_le in E. apply Z.ltb_lt. lia.
Qed.

Lemma occ_nonneg c i : 0 <= occ c i.
Proof. apply cnt_bounds. Qed.

Lemma ltc_nonneg c : 0 <= ltc c.
Proof. apply cnt_bounds. Qed.

Lemma lec_le c : lec c <= len obuf.
Proof.
  pose proof (cnt_bounds (fun j => byt j <=? c) 0 (len obuf)).
  pose proof (len_nonneg obuf). unfold lec. lia.
Qed.

Lemma occ_step c i :
  0 <= i -> occ c (i + 1) = occ c i + (if byt i =? c then 1 else 0).
Proof.
  intros H. unfold occ. rewrite (cnt_last _ 0 (i + 1)) by lia.
  now replace (i + 1 - 1) with i by lia.
Qed.

Lemma occ_mono c i i' : 0 <= i <= i' -> occ c i <= occ c i'.
Proof.
  intros H. unfold occ. rewrite (cnt_split _ 0 i i') by lia.
  pose proof (cnt_bounds (fun j => byt j =? c) i i'). lia.
Qed.

Lemma slot_range j :
  0 <= j < len obuf ->
  ltc (byt j) < slot j <= lec (byt j) /\ 1 <= slot j <= len obuf.
Proof.
  intros Hj. unfold slot. rewrite occ_step by lia. rewrite Z.eqb_refl.
  pose proof (occ_nonneg (byt j) j). pose proof (ltc_nonneg (byt j)).
  pose proof (occ_mono (byt j) (j + 1) (len obuf) ltac:(lia)) as Hm.
  rewrite occ_step in Hm by lia. rewrite Z.eqb_refl in Hm.
  pose proof (lec_eq (byt j)). pose proof (lec_le (byt j)). lia.
Qed.

(** A position lies in the bucket of one byte value only. *)
Lemma bucket_unique c c' q :
  ltc c < q <= lec c -> ltc c' < q <= lec c' -> c = c'.
Proof.
  intros H H'. destruct (Z.lt_trichotomy c c') as [L | [E | L]]; [| assumption |].
  - pose proof (lec_ltc c c' L). lia.
  - pose proof (lec_ltc c' c L). lia.
Qed.

Lemma slot_inj j j' :
  0 <= j < len obuf -> 0 <= j' < len obuf -> slot j = slot j' -> j = j'.
Proof.
  intros Hj Hj' E.
  pose proof (slot_range j Hj) as [R _]. pose proof (slot_range j' Hj') as [R' _].
  rewrite E in R. pose proof (bucket_unique _ _ _ R R') as Hc.
  unfold slot in E. rewrite Hc in E.
  assert (W : forall a b, 0 <= a < b -> b < len obuf -> byt a = byt j' ->
                          byt b = byt j' ->
                          occ (byt j') (a + 1) < occ (byt j') (b + 1)).
  { intros a b Hab Hb Ea Eb.
    rewrite (occ_step _ b) by lia. rewrite Eb, Z.eqb_refl.
    pose proof (occ_mono (byt j') (a + 1) b ltac:(lia)). lia. }
  destruct (Z.lt_trichotomy j j') as [L | [E' | L]]; [| assumption |].
  - pose proof (W j j' ltac:(lia) ltac:(lia) Hc eq_refl). lia.
  - pose proof (W j' j ltac:(lia) ltac:(lia) eq_refl Hc). lia.
Qed.

(** Every position 1..n is the position of some suffix. *)
Lemma slot_surj q :
  1 <= q <= len obuf -> exists j, 0 <= j < len obuf /\ slot j = q.
Proof.
  intros Hq.
  set (l := map (fun k => slot (Z.of_nat k)) (seq 0 (length obuf))).
  set (l' := map Z.of_nat (seq 1 (length obuf))).
  assert (Hnd : NoDup l).
  { apply NoDup_map_NoDup_ForallPairs; [| apply seq_NoDup].
    intros a b Ha Hb E. apply in_seq in Ha, Hb.
    apply slot_inj in E; unfold len; lia. }
  assert (Hincl : incl l l').
  { intros x Hx. apply in_map_iff in Hx. destruct Hx as (k & <- & Hk).
    apply in_seq in Hk.
    pose proof (slot_range (Z.of_nat k) ltac:(unfold len; lia)) as [_ R].
    apply in_map_iff. exists (Z.to_nat (slot (Z.of_nat k))).
    split; [lia |]. apply in_seq. unfold len in *. lia. }
  assert (Hlen : (length l' <= length l)%nat).
  { unfold l, l'. rewrite !length_map, !length_seq. lia. }
  pose proof (NoDup_length_incl Hnd Hlen Hincl) as Hback.
  assert (Hin : In q l').
  { apply in_map_iff. exists (Z.to_nat q). split; [lia |].
    apply in_seq. unfold len in *. lia. }
  apply Hback in Hin. apply in_map_iff in Hin. destruct Hin as (k & E & Hk).
  apply in_seq in Hk. exists (Z.of_nat k). split; [unfold len; lia | exact E].
Qed.

Lemma lec_slot_of j : 0 <= j < len obuf -> 1 <= lec (byt j) <= len obuf.
Proof.
  intros Hj. pose proof (slot_range j Hj). pose proof (lec_le (byt j)). lia.
Qed.

Lemma lec_mono_byte j j' :
  0 <= j < len obuf -> 0 <= j' < len obuf ->
  lec (byt j) < lec (byt j') -> byt j < byt j'.
Proof.
  intros Hj Hj' H.
  destruct (Z_lt_le_dec (byt j) (byt j')) as [L | L]; [assumption | exfalso].
  destruct (Z.eq_dec (byt j) (byt j')) as [E | E]; [rewrite E in H; lia |].
  pose proof (lec_ltc (byt j') (byt j) ltac:(lia)).
  pose proof (slot_range j Hj). lia.
Qed.

Lemma lec_inj_byte j j' :
  0 <= j < len obuf -> 0 <= j' < len obuf ->
  lec (byt j) = lec (byt j') -> byt j = byt j'.
Proof.
  intros Hj Hj' H.
  pose proof (slot_range j Hj) as [R _]. pose proof (slot_range j' Hj') as [R' _].
  destruct (Z.lt_trichotomy (byt j) (byt j')) as [L | [E | L]]; [| assumption |].
  - pose proof (lec_ltc _ _ L). lia.
  - pose proof (lec_ltc _ _ L). lia.
Qed.

Lemma zn_repeat m i : zn (repeat 0 m) i = 0.
Proof. unfold zn. apply nth_repeat. Qed.

Lemma len_repeat {A} (x : A) m : len (repeat x m) = Z.of_nat m.
Proof. unfold len. now rewrite repeat_length. Qed.

(** The shift [copy(buckets[1:], buckets[:])] *)
Lemma shift_ok (b : list Z) :
  len b = 256 ->
  let b' := firstn 1 b ++ Bsdiff.copy (skipn 1 b) b in
  len b' = 256 /\ forall c, 1 <= c < 256 -> zn b' c = zn b (c - 1).
Proof.
  intros Hl b'. unfold len in Hl.
  assert (L : length b = 256%nat) by lia.
  assert (E : b' = firstn 1 b ++ firstn 255 b).
  { unfold b', Bsdiff.copy. rewrite length_skipn, L.
    replace (Nat.min (256 - 1) 256) with 255%nat by reflexivity.
    rewrite skipn_skipn. rewrite (skipn_all2 b) by (rewrite L; simpl; lia).
    now rewrite app_nil_r. }
  split.
  - unfold len. rewrite E, length_app, !length_firstn, L. reflexivity.
  - intros c Hc. unfold zn. rewrite E.
    rewrite app_nth2 by (rewrite length_firstn, L; simpl; lia).
    rewrite length_firstn, L. replace (Nat.min 1 256) with 1%nat by reflexivity.
    rewrite nth_firstn.
    replace (Z.to_nat c - 1)%nat with (Z.to_nat (c - 1)) by lia.
    destruct (Z.to_nat (c - 1) <? 255)%nat eqn:F; [reflexivity |].
    apply Nat.ltb_ge in F. lia.
Qed.

(** The permutation and the group numbers that the bucket phase builds *)
Definition init_P (P : list Z) : Prop :=
  len P = N /\ zn P 0 = len obuf
  /\ forall j, 0 <= j < len obuf -> zn P (slot j) = j.

Definition init_V (V : list Z) : Prop :=
  len V = N /\ zn V (len obuf) = 0
  /\ forall j, 0 <= j < len obuf -> zn V j = lec (byt j).

(** [mk i q]: position [q] is the bucket of a byte value in [1, i) that
    occurs once *)
Definition mk (i q : Z) : Prop :=
  exists c, 1 <= c < i /\ occ c (len obuf) = 1 /\ q = lec c.

Definition init_I (P I_ : list Z) : Prop :=
  len I_ = N /\ zn I_ 0 = -1
  /\ (forall q, 1 <= q < N ->
                zn I_ q = zn P q \/ (zn I_ q = -1 /\ mk 256 q))
  /\ (forall q, mk 256 q -> zn I_ q = -1).

Lemma init_P_isperm P : init_P P -> isperm obuf P.
Proof.
  intros (Hl & H0 & Hp). pose proof (len_nonneg obuf) as Hn.
  assert (Hq : forall q, 0 <= q < N ->
                         (q = 0 /\ zn P q = len obuf)
                         \/ exists j, 0 <= j < len obuf /\ q = slot j /\ zn P q = j).
  { intros q Hq. destruct (Z.eq_dec q 0) as [-> | Hne]; [left; auto |].
    right. destruct (slot_surj q ltac:(lia)) as (j & Hj & <-).
    exists j. auto. }
  split; [assumption |]. split; [| split].
  - intros q Hq0. destruct (Hq q Hq0) as [[_ E] | (j & Hj & _ & E)]; lia.
  - intros q q' Hq0 Hq0' E.
    destruct (Hq q Hq0) as [[-> E1] | (j & Hj & -> & E1)];
      destruct (Hq q' Hq0') as [[-> E2] | (j' & Hj' & -> & E2)];
      try reflexivity; try lia.
    f_equal. lia.
  - intros s Hs. destruct (Z.eq_dec s (len obuf)) as [-> | Hne].
    + exists 0. split; [lia | assumption].
    + exists (slot s). pose proof (slot_range s ltac:(lia)).
      split; [lia |]. apply Hp. lia.
Qed.

Lemma init_GI P V I_ :
  init_P P -> init_V V -> init_I P I_ -> GI obuf 1 I_ V P.
Proof.
  intros HP HV HI. pose proof (init_P_isperm P HP) as Hperm.
  destruct HP as (Pl & P0 & Pp). destruct HV as (Vl & Vn & Vv).
  destruct HI as (Il & I0 & Ia & Ib).
  pose proof (len_nonneg obuf) as Hn.
  assert (G0 : G V P 0 = 0) by (unfold G; now rewrite P0).
  assert (Gp : forall j, 0 <= j < len obuf -> G V P (slot j) = lec (byt j)).
  { intros j Hj. unfold G. rewrite Pp by assumption. now apply Vv. }
  constructor.
  - lia.
  - assumption.
  - split; [assumption |]. intros s Hs.
    destruct (Z.eq_dec s (len obuf)) as [-> | Hne]; [rewrite Vn; lia |].
    rewrite Vv by lia. pose proof (lec_slot_of s ltac:(lia)). lia.
  - intros q Hq. destruct (Z.eq_dec q 0) as [-> | Hne].
    + rewrite G0. split; [lia |]. intros r Hr.
      replace r with 0 by lia. assumption.
    + destruct (slot_surj q ltac:(lia)) as (j & Hj & <-).
      rewrite Gp by assumption. pose proof (slot_range j Hj) as [R R'].
      split; [lia |]. intros r Hr.
      pose proof (lec_le (byt j)).
      destruct (slot_surj r ltac:(lia)) as (j' & Hj' & <-).
      rewrite Gp by assumption. pose proof (slot_range j' Hj') as [S _].
      f_equal. apply (bucket_unique (byt j') (byt j) (slot j')); lia.
  - split; [assumption |]. intros q Hq. split.
    + intros Hneg. destruct (Z.eq_dec q 0) as [-> | Hne].
      * rewrite I0. split; [lia |]. intros r Hr.
        replace r with 0 by lia. rewrite I0. split; [assumption | lia].
      * destruct (slot_surj q ltac:(lia)) as (j & Hj & Eq).
        destruct (Ia q ltac:(lia)) as [E | [E M]].
        { rewrite <- Eq, Pp in E by assumption. rewrite Eq in E. lia. }
        rewrite E. split; [lia |]. intros r Hr.
        replace r with q by lia. split; [| lia].
        destruct M as (c & Hc & Ho & El).
        rewrite <- Eq, Gp by assumption. rewrite Eq, El. f_equal.
        pose proof (slot_range j Hj) as [R _]. rewrite Eq, El in R.
        apply (bucket_unique (byt j) c (lec c)); [lia |].
        pose proof (lec_eq c). lia.
    + intros Hpos. destruct (Z.eq_dec q 0) as [-> | Hne]; [lia |].
      destruct (slot_surj q ltac:(lia)) as (j & Hj & Eq).
      destruct (Ia q ltac:(lia)) as [E | [E M]]; [| lia].
      split; [assumption |].
      rewrite <- Eq. rewrite Pp, Gp by assumption. split; [lia |].
      pose proof (lec_slot_of j Hj) as He.
      destruct (Ia (lec (byt j)) ltac:(lia)) as [E' | [E' M]].
      * rewrite E'. destruct Hperm as (_ & Hr & _).
        specialize (Hr (lec (byt j)) ltac:(lia)). lia.
      * exfalso. destruct M as (c & Hc & Ho & El).
        pose proof (slot_range j Hj) as [R _].
        pose proof (lec_eq c) as Hc1.
        assert (Ec : byt j = c).
        { apply (bucket_unique (byt j) c (lec (byt j))); lia. }
        rewrite Ec in *. assert (Eq' : q = lec c) by lia.
        rewrite Eq' in Hpos. lia.
  - intros s t Hs Ht Hlt.
    destruct (Z.eq_dec t (len obuf)) as [-> | Ht'].
    { rewrite Vn in Hlt. destruct (Z.eq_dec s (len obuf)) as [-> | Hs'];
        [lia |]. rewrite Vv in Hlt by lia.
      pose proof (lec_slot_of s ltac:(lia)). lia. }
    destruct (Z.eq_dec s (len obuf)) as [-> | Hs'].
    { apply prec_sentinel. lia. }
    rewrite !Vv in Hlt by lia.
    apply prec_first_byte; try lia.
    apply lec_mono_byte; try lia.
  - intros s t Hs Ht Hne E.
    destruct (Z.eq_dec s (len obuf)) as [-> | Hs'].
    { rewrite Vn, Vv in E by lia. pose proof (lec_slot_of t ltac:(lia)). lia. }
    destruct (Z.eq_dec t (len obuf)) as [-> | Ht'].
    { rewrite Vn, Vv in E by lia. pose proof (lec_slot_of s ltac:(lia)). lia. }
    rewrite !Vv in E by lia.
    apply share_one; try lia.
    apply b2z_inj. apply lec_inj_byte; try lia.
Qed.

Lemma qsufsort_init_ok :
  exists I_ V P,
    Bsdiff.qsufsort_init obuf = Done (I_, V)
    /\ init_P P /\ init_V V /\ init_I P I_.
Proof.
  pose proof (len_nonneg obuf) as Hn.
  unfold Bsdiff.qsufsort_init.
  (* counting *)
  match goal with
  | |- context [for_each obuf 0 ?body ?s] =>
      destruct (for_each_inv
                  (fun i b => len b = 256
                              /\ forall c, 0 <= c < 256 -> zn b c = occ c i)
                  body obuf s) as (b1 & E1 & Hl1 & H1)
  end.
  { split; [reflexivity |]. intros c Hc. rewrite zn_repeat.
    unfold occ. now rewrite cnt_empty by lia. }
  { intros i b Hi (Hl & Hb). pose proof (b2z_range (bn obuf i)) as Hr.
    rewrite ld_zn by lia. cbn [bind]. rewrite st_upd by lia.
    eexists. split; [reflexivity |]. split; [now rewrite len_upd |].
    intros c Hc. rewrite zn_upd by lia. rewrite occ_step by lia.
    unfold byt. rewrite (Z.eqb_sym c).
    destruct (b2z (bn obuf i) =? c) eqn:F.
    - apply Z.eqb_eq in F. rewrite F, Hb by lia. reflexivity.
    - rewrite Hb by lia. lia. }
  rewrite E1. cbn [bind].
  (* prefix sums *)
  match goal with
  | |- context [for_range 1 256 ?body ?s] =>
      destruct (for_range_inv
                  (fun i b => len b = 256
                              /\ (forall c, 0 <= c < i -> zn b c = lec c)
                              /\ forall c, i <= c < 256 ->
                                           zn b c = occ c (len obuf))
                  body 1 256 s) as (b2 & E2 & Hl2 & H2 & _)
  end.
  { lia. }
  { split; [assumption |]. split.
    - intros c Hc. replace c with 0 by lia. rewrite H1 by lia.
      now rewrite lec_0.
    - intros c Hc. apply H1. lia. }
  { intros i b Hi (Hl & Hlo & Hhi).
    rewrite !ld_zn by lia. cbn [bind]. rewrite st_upd by lia.
    eexists. split; [reflexivity |]. split; [now rewrite len_upd |]. split.
    - intros c Hc. rewrite zn_upd by lia.
      destruct (c =? i) eqn:F.
      + apply Z.eqb_eq in F. subst c. rewrite Hhi, Hlo by lia.
        rewrite (lec_eq i), (ltc_lec i). lia.
      + apply Z.eqb_neq in F. apply Hlo. lia.
    - intros c Hc. rewrite zn_upd by lia.
      destruct (c =? i) eqn:F; [apply Z.eqb_eq in F; lia |].
      apply Hhi. lia. }
  rewrite E2. cbn [bind].
  (* shift *)
  destruct (shift_ok b2 Hl2) as (Hl3 & H3).
  set (b3 := firstn 1 b2 ++ Bsdiff.copy (skipn 1 b2) b2) in *.
  rewrite st_upd by lia. cbn [bind].
  assert (H4 : forall c, 0 <= c < 256 -> zn (upd b3 0 0) c = ltc c).
  { intros c Hc. rewrite zn_upd by lia.
    destruct (c =? 0) eqn:F.
    - apply Z.eqb_eq in F. subst c. now rewrite ltc_0.
    - apply Z.eqb_neq in F. rewrite H3, H2 by lia. now rewrite ltc_lec. }
  assert (Hl4 : len (upd b3 0 0) = 256) by now rewrite len_upd.
  generalize dependent (upd b3 0 0). intros b4 H4 Hl4.
  (* placement *)
  match goal with
  | |- context [for_each obuf 0 ?body ?s] =>
      destruct (for_each_inv
                  (fun i '(b, I_) =>
                     len b = 256 /\ len I_ = N
                     /\ (forall c, 0 <= c < 256 -> zn b c = ltc c + occ c i)
                     /\ forall j, 0 <= j < i -> zn I_ (slot j) = j)
                  body obuf s) as ([b5 I5] & E5 & Hl5 & HlI5 & H5 & HI5)
  end.
  { split; [assumption |]. split; [rewrite len_repeat; unfold len; lia |].
    split; [| intros; lia].
    intros c Hc. rewrite H4 by assumption. unfold occ.
    rewrite cnt_empty by lia. lia. }
  { intros i [b I_] Hi (Hl & HlI & Hb & HI).
    pose proof (b2z_range (bn obuf i)) as Hr.
    pose proof (slot_range i Hi) as [_ Hpr].
    assert (Ep : zn b (b2z (bn obuf i)) + 1 = slot i).
    { rewrite Hb by lia. unfold slot. rewrite occ_step by lia.
      unfold byt. rewrite Z.eqb_refl. lia. }
    rewrite ld_zn by lia. cbn [bind]. rewrite st_upd by lia. cbn [bind].
    rewrite ld_zn by (rewrite len_upd; lia). cbn [bind].
    rewrite zn_upd_same by lia. rewrite Ep.
    rewrite st_upd by lia. cbn [bind].
    eexists. split; [reflexivity |]. cbn beta iota.
    split; [now rewrite len_upd |]. split; [now rewrite len_upd |]. split.
    - intros c Hc. rewrite zn_upd by lia. rewrite occ_step by lia.
      unfold byt. rewrite (Z.eqb_sym c).
      destruct (b2z (bn obuf i) =? c) eqn:F.
      + apply Z.eqb_eq in F. rewrite <- F. rewrite <- Ep, Hb by lia. lia.
      + rewrite Hb by lia. lia.
    - intros j Hj. pose proof (slot_range j ltac:(lia)) as [_ Hpj].
      rewrite zn_upd by lia.
      destruct (slot j =? slot i) eqn:F.
      + apply Z.eqb_eq in F. apply slot_inj in F; lia.
      + apply HI. apply Z.eqb_neq in F.
        assert (j <> i) by (intros ->; lia). lia. }
  rewrite E5. cbn [bind].
  rewrite st_upd by lia. cbn [bind].
  set (P := upd I5 0 (len obuf)).
  assert (HP : init_P P).
  { unfold P. split; [now rewrite len_upd |]. split.
    - now rewrite zn_upd_same by lia.
    - intros j Hj. pose proof (slot_range j Hj) as [_ Hpj].
      rewrite zn_upd_other by lia. apply HI5. lia. }
  assert (H6 : forall c, 0 <= c < 256 -> zn b5 c = lec c).
  { intros c Hc. rewrite H5, lec_eq by assumption. reflexivity. }
  (* group numbers *)
  match goal with
  | |- context [for_each obuf 0 ?body ?s] =>
      destruct (for_each_inv
                  (fun i V =>
                     len V = N
                     /\ forall j, 0 <= j < i -> zn V j = lec (byt j))
                  body obuf s) as (V7 & E7 & Hl7 & H7)
  end.
  { split; [rewrite len_repeat; unfold len; lia |]. intros; lia. }
  { intros i V Hi (Hl & HV). pose proof (b2z_range (bn obuf i)) as Hr.
    rewrite ld_zn by lia. cbn [bind]. rewrite st_upd by lia.
    eexists. split; [reflexivity |]. split; [now rewrite len_upd |].
    intros j Hj. rewrite zn_upd by lia.
    destruct (j =? i) eqn:F.
    - apply Z.eqb_eq in F. subst j. now rewrite H6 by lia.
    - apply Z.eqb_neq in F. apply HV. lia. }
  rewrite E7. cbn [bind].
  rewrite st_upd by lia. cbn [bind].
  set (V := upd V7 (len obuf) 0).
  assert (HV : init_V V).
  { unfold V. split; [now rewrite len_upd |]. split.
    - now rewrite zn_upd_same by lia.
    - intros j Hj. rewrite zn_upd_other by lia. apply H7. lia. }
  (* marks *)
  match goal with
  | |- context [for_range 1 256 ?body ?s] =>
      destruct (for_range_inv
                  (fun i I_ =>
                     len I_ = N
                     /\ (forall q, 0 <= q < N ->
                                   zn I_ q = zn P q \/ (zn I_ q = -1 /\ mk i q))
                     /\ forall q, mk i q -> zn I_ q = -1)
                  body 1 256 s) as (I8 & E8 & Hl8 & Ha8 & Hb8)
  end.
  { lia. }
  { split; [unfold P; now rewrite len_upd |]. split; [auto |].
    intros q (c & Hc & _). lia. }
  { intros i I_ Hi (Hl & Ha & Hb).
    rewrite !ld_zn by lia. cbn [bind]. rewrite !H6 by lia.
    assert (Hocc : lec i = lec (i - 1) + occ i (len obuf))
      by (rewrite (lec_eq i), (ltc_lec i); lia).
    assert (Hmk : forall q, mk i q -> mk (i + 1) q).
    { intros q (c & Hc & Ho & E). exists c. split; [lia | auto]. }
    pose proof (lec_le i) as Hle. pose proof (ltc_nonneg i) as Hlt.
    rewrite ltc_lec in Hlt.
    destruct (lec i =? lec (i - 1) + 1) eqn:F.
    - apply Z.eqb_eq in F.
      assert (Hm : mk (i + 1) (lec i)).
      { exists i. split; [lia |]. split; [lia | reflexivity]. }
      rewrite st_upd by lia. eexists. split; [reflexivity |].
      split; [now rewrite len_upd |]. split.
      + intros q Hq. rewrite zn_upd by lia.
        destruct (q =? lec i) eqn:F'.
        * apply Z.eqb_eq in F'. subst q. right. auto.
        * destruct (Ha q Hq) as [E | [E M]]; [left | right]; auto.
      + intros q (c & Hc & Ho & E).
        pose proof (lec_le c). pose proof (ltc_nonneg c). pose proof (lec_eq c).
        rewrite zn_upd by lia.
        destruct (q =? lec i) eqn:F'; [reflexivity |].
        apply Z.eqb_neq in F'. apply Hb. exists c.
        split; [| auto]. assert (c <> i) by (intros ->; lia). lia.
    - apply Z.eqb_neq in F. eexists. split; [reflexivity |].
      split; [assumption |]. split.
      + intros q Hq. destruct (Ha q Hq) as [E | [E M]]; [left | right]; auto.
      + intros q (c & Hc & Ho & E). apply Hb. exists c.
        split; [| auto]. assert (c <> i) by (intros ->; lia). lia. }
  rewrite E8. cbn [bind].
  rewrite st_upd by lia. cbn [bind].
  exists (upd I8 0 (-1)), V, P. split; [reflexivity |].
  split; [assumption |]. split; [assumption |].
  split; [now rewrite len_upd |]. split; [now rewrite zn_upd_same by lia |].
  split.
  - intros q Hq. rewrite zn_upd_other by lia. apply Ha8. lia.
  - intros q (c & Hc & Ho & E).
    pose proof (lec_le c). pose proof (ltc_nonneg c). pose proof (lec_eq c).
    rewrite zn_upd_other by lia. apply Hb8. exists c. auto.
Qed.

End Buckets.

(** The suffix sort returns the suffixes of [obuf], the empty one
    included, each once and in strictly increasing order. *)
Lemma qsufsort_sorts (obuf : list byte) :
  exists I_, Bsdiff.qsufsort obuf = Done I_ /\ isperm obuf I_
    /\ (forall q q', 0 <= q < q' -> q' < len obuf + 1 ->
                     prec obuf (zn I_ q) (zn I_ q')).
Proof.
  destruct (qsufsort_init_ok obuf) as (I0 & V0 & P0 & E & HP & HV & HI).
  apply (qsufsort_from_init obuf I0 V0 P0 E).
  - now apply init_GI.
  - now destruct HI as (_ & H & _).
Qed.

(* ------------------------------------------------------------------ *)
(** ** The suffix array *)

(** [lex_le a b]: [a] is lexicographically less than or equal to [b],
    in the order of [bytes.Compare] *)
Definition lex_le (a b : list byte) : Prop := Bsdiff.bytes_compare a b <> Gt.

(** The integers 0..n *)
Definition upto (n : nat) : list Z := map Z.of_nat (seq 0 (S n)).

Lemma isperm_Permutation (obuf : list byte) (I_ : list Z) :
  isperm obuf I_ -> Permutation I_ (upto (length obuf)).
Proof.
  intros (Hl & Hr & Hi & Hs). unfold len in Hl.
  assert (HL : length I_ = S (length obuf)) by lia.
  apply NoDup_Permutation.
  - apply (NoDup_nth I_ 0). intros i j Hi' Hj' E.
    specialize (Hi (Z.of_nat i) (Z.of_nat j) ltac:(unfold len; lia)
                  ltac:(unfold len; lia)).
    unfold zn in Hi. rewrite !Nat2Z.id in Hi. specialize (Hi E). lia.
  - unfold upto. apply NoDup_map_NoDup_ForallPairs; [| apply seq_NoDup].
    intros a b _ _. apply Nat2Z.inj.
  - intros v. unfold upto. rewrite in_map_iff. split.
    + intros Hin. apply (In_nth _ _ 0) in Hin. destruct Hin as (k & Hk & <-).
      specialize (Hr (Z.of_nat k) ltac:(unfold len; lia)).
      unfold zn in Hr. rewrite Nat2Z.id in Hr.
      exists (Z.to_nat (nth k I_ 0)). split; [lia |].
      apply in_seq. unfold len in Hr. lia.
    + intros (k & <- & Hk). apply in_seq in Hk.
      destruct (Hs (Z.of_nat k) ltac:(unfold len; lia)) as (q & Hq & E).
      rewrite <- E. unfold zn. apply nth_In. unfold len in Hq. lia.
Qed.

(** C2: [qsufsort] returns, for every buffer (the non-empty ones among
    them), an array of [len(old)+1] entries that is a permutation of
    the integers 0..len(old) and in which the suffix of [old] that an
    entry starts is lexicographically less than or equal to the suffix
    that the next entry starts. *)
Theorem qsufsort_valid (old : list byte) :
  exists I_,
    Bsdiff.qsufsort old = Done I_
    /\ len I_ = len old + 1
    /\ Permutation I_ (upto (length old))
    /\ forall k, 0 <= k -> k + 1 < len I_ ->
                 lex_le (sfx old (zn I_ k)) (sfx old (zn I_ (k + 1))).
Proof.
  destruct (qsufsort_sorts old) as (I_ & E & Hp & Hs).
  exists I_. split; [exact E |].
  pose proof Hp as (Hl & _). split; [exact Hl |].
  split; [now apply isperm_Permutation |].
  intros k Hk Hk'. unfold lex_le.
  specialize (Hs k (k + 1) ltac:(lia) ltac:(lia)). unfold prec in Hs.
  rewrite Hs. discriminate.
Qed.

(* ------------------------------------------------------------------ *)
(** ** [matchlen] and [search] *)

Lemma byte_eqb_eq (x y : byte) : Byte.eqb x y = true <-> x = y.
Proof.
  split.
  - apply Byte.byte_dec_bl.
  - apply Byte.byte_dec_lb.
Qed.

Lemma byte_eqb_refl (x : byte) : Byte.eqb x x = true.
Proof. now apply byte_eqb_eq. Qed.

Lemma byte_eqb_neq (x y : byte) : Byte.eqb x y = false <-> x <> y.
Proof.
  split.
  - intros H E. apply byte_eqb_eq in E. congruence.
  - intros H. destruct (Byte.eqb x y) eqn:E; [| reflexivity].
    apply byte_eqb_eq in E. contradiction.
Qed.

Lemma matchlen_bounds a b :
  0 <= Bsdiff.matchlen a b /\ Bsdiff.matchlen a b <= len a
  /\ Bsdiff.matchlen a b <= len b.
Proof.
  revert b. induction a as [| x a IH]; intros b; cbn [Bsdiff.matchlen].
  - unfold len; cbn [length]. lia.
  - destruct b as [| y b]; [unfold len; cbn [length]; lia |].
    destruct (Byte.eqb x y); [| unfold len; cbn [length]; lia].
    specialize (IH b). unfold len in *. cbn [length]. lia.
Qed.

Lemma matchlen_agree a b i :
  0 <= i < Bsdiff.matchlen a b -> bn a i = bn b i.
Proof.
  revert b i. induction a as [| x a IH]; intros b i; cbn [Bsdiff.matchlen]; [lia |].
  destruct b as [| y b]; [lia |].
  destruct (Byte.eqb x y) eqn:E; [| lia].
  apply byte_eqb_eq in E. subst y. intros Hi.
  destruct (Z.eq_dec i 0) as [-> | Hne]; [reflexivity |].
  specialize (IH b (i - 1) ltac:(lia)). unfold bn in *.
  replace (Z.to_nat i) with (S (Z.to_nat (i - 1))) by lia. exact IH.
Qed.

Lemma matchlen_refl a : Bsdiff.matchlen a a = len a.
Proof.
  induction a as [| x a IH]; cbn [Bsdiff.matchlen]; [reflexivity |].
  rewrite byte_eqb_refl, IH. unfold len. cbn [length]. lia.
Qed.

Lemma bn_skipn (a : list byte) s i :
  0 <= s -> 0 <= i -> bn (skipn (Z.to_nat s) a) i = bn a (s + i).
Proof.
  intros Hs Hi. unfold bn. rewrite nth_skipn. f_equal. lia.
Qed.

Section Search.

Variable obuf : list byte.
Variable I_ : list Z.

Hypothesis I_len : len I_ = len obuf + 1.
Hypothesis I_range : forall q, 0 <= q <= len obuf -> 0 <= zn I_ q <= len obuf.

(** [search] returns an offset of [obuf] and the length of the prefix
    that the suffix there shares with [nbuf]. *)
Lemma search_rec_ok nbuf fuel st_ en :
  0 <= st_ <= en -> en <= len obuf -> en - st_ <= Z.of_nat fuel ->
  exists p,
    Bsdiff.search_rec fuel I_ obuf nbuf st_ en
    = Done (p, Bsdiff.matchlen (sfx obuf p) nbuf)
    /\ 0 <= p <= len obuf
    /\ exists q, st_ <= q <= en /\ p = zn I_ q.
Proof.
  revert st_ en. induction fuel as [| fuel IH]; intros st_ en Hse Hen Hf.
  - destruct (Z.eq_dec st_ en) as [E | E]; [| lia]. subst en.
    rewrite search_rec_base by lia.
    pose proof (I_range st_ ltac:(lia)) as Hr.
    rewrite !ld_zn by lia. cbn [bind]. rewrite slice_from_ok by lia. cbn [bind].
    fold (sfx obuf (zn I_ st_)).
    exists (zn I_ st_).
    destruct (_ >? _); (split; [reflexivity |]; split; [lia |]; exists st_; lia).
  - destruct (Z_lt_le_dec (en - st_) 2) as [L | L].
    + rewrite search_rec_base by lia.
      pose proof (I_range st_ ltac:(lia)) as Hr.
      pose proof (I_range en ltac:(lia)) as Hr'.
      rewrite !ld_zn by lia. cbn [bind].
      rewrite (slice_from_ok obuf (zn I_ st_)) by lia. cbn [bind].
      cbn [bind].
      rewrite (slice_from_ok obuf (zn I_ en)) by lia. cbn [bind].
      fold (sfx obuf (zn I_ st_)). fold (sfx obuf (zn I_ en)).
      destruct (_ >? _).
      * exists (zn I_ st_). split; [reflexivity |]. split; [lia |].
        exists st_. lia.
      * exists (zn I_ en). split; [reflexivity |]. split; [lia |].
        exists en. lia.
    + cbn [Bsdiff.search_rec].
      destruct (en - st_ <? 2) eqn:E; [apply Z.ltb_lt in E; lia |].
      set (x := st_ + (en - st_) / 2).
      assert (Hx : st_ < x < en).
      { unfold x. pose proof (Z.div_le_lower_bound (en - st_) 2 1 ltac:(lia) ltac:(lia)).
        pose proof (Z.div_lt (en - st_) 2 ltac:(lia) ltac:(lia)). lia. }
      pose proof (I_range x ltac:(lia)) as Hr.
      rewrite ld_zn by lia. cbn [bind]. rewrite slice_from_ok by lia. cbn [bind].
      destruct (Bsdiff.bytes_compare _ nbuf).
      * destruct (IH st_ x) as (p & Ep & Hp & q & Hq & Eq); try lia.
        exists p. split; [assumption |]. split; [assumption |]. exists q. lia.
      * destruct (IH x en) as (p & Ep & Hp & q & Hq & Eq); try lia.
        exists p. split; [assumption |]. split; [assumption |]. exists q. lia.
      * destruct (IH st_ x) as (p & Ep & Hp & q & Hq & Eq); try lia.
        exists p. split; [assumption |]. split; [assumption |]. exists q. lia.
Qed.

Lemma search_ok nbuf :
  exists p,
    Bsdiff.search I_ obuf nbuf 0 (len obuf)
    = Done (p, Bsdiff.matchlen (sfx obuf p) nbuf)
    /\ 0 <= p <= len obuf.
Proof.
  pose proof (len_nonneg obuf).
  destruct (search_rec_ok nbuf (Z.to_nat (len obuf - 0)) 0 (len obuf))
    as (p & E & Hp & _); try lia.
  exists p. split; assumption.
Qed.

End Search.

(* ------------------------------------------------------------------ *)
(** ** The loops of [BSDiff] *)

Lemma len_sfx_any (a : list byte) s : 0 <= s <= len a -> len (sfx a s) = len a - s.
Proof. apply len_sfx. Qed.

Section Diff.

Variable obuf nbuf : list byte.
Variable I_ : list Z.

Hypothesis I_len : len I_ = len obuf + 1.
Hypothesis I_range : forall q, 0 <= q <= len obuf -> 0 <= zn I_ q <= len obuf.

(** [hit lo i]: position [i] of [nbuf] holds the byte that [obuf] holds
    at the offset [lo] from it *)
Definition hit (lo i : Z) : bool :=
  (i + lo <? len obuf) && Byte.eqb (bn obuf (i + lo)) (bn nbuf i).

Definition score_body (lo : Z) (scsc oldscore : Z) : run Z :=
  if scsc + lo <? len obuf then
    o <- ld obuf (scsc + lo) ;;
    n <- ld nbuf scsc ;;
    Done (if Byte.eqb o n then oldscore + 1 else oldscore)
  else Done oldscore.

Lemma score_body_ok lo i os :
  0 <= i + lo -> 0 <= i < len nbuf ->
  score_body lo i os = Done (os + if hit lo i then 1 else 0).
Proof.
  intros H1 H2. unfold score_body, hit.
  destruct (i + lo <? len obuf) eqn:E; cbn [andb].
  - apply Z.ltb_lt in E. rewrite !ld_bn by lia. cbn [bind].
    destruct (Byte.eqb _ _); [reflexivity | now rewrite Z.add_0_r].
  - now rewrite Z.add_0_r.
Qed.

Lemma score_range_ok lo a b os :
  0 <= a -> 0 <= a + lo -> b <= len nbuf ->
  for_range a b (score_body lo) os = Done (os + cnt (hit lo) a b).
Proof.
  intros Ha Hlo Hb. destruct (Z_le_gt_dec a b) as [L | L].
  - destruct (for_range_inv (fun i s => s = os + cnt (hit lo) a i)
                (score_body lo) a b os L) as (s & E & ->).
    + rewrite cnt_empty by lia. lia.
    + intros i s Hi ->. rewrite score_body_ok by lia.
      eexists. split; [reflexivity |].
      rewrite (cnt_last _ a (i + 1)) by lia.
      replace (i + 1 - 1) with i by lia. lia.
    + assumption.
  - rewrite for_range_empty by lia. rewrite cnt_empty by lia. f_equal. lia.
Qed.

Lemma cnt_diff_nonneg f a b : 0 <= a <= b -> 0 <= cnt f 0 b - cnt f 0 a.
Proof.
  intros H. rewrite (cnt_split f 0 a b) by lia.
  pose proof (cnt_bounds f a b). lia.
Qed.

(** The scan loop stops at the end of [nbuf] or at an offset where the
    match found has one byte at least; it never leaves [nbuf]. *)
Lemma scan_loop_ok fuel lo scan scsc pos length oldscore :
  0 <= scan -> 0 <= scsc <= len nbuf ->
  0 <= scan + lo -> 0 <= scsc + lo ->
  oldscore = cnt (hit lo) 0 scsc - cnt (hit lo) 0 scan ->
  len nbuf - scan <= Z.of_nat fuel ->
  exists scan' pos' length' oldscore',
    Bsdiff.scan_loop fuel I_ obuf nbuf lo scan scsc pos length oldscore
    = Done (scan', pos', length', oldscore')
    /\ scan <= scan'
    /\ (len nbuf <= scan -> scan' = scan /\ pos' = pos /\ length' = length
                            /\ oldscore' = oldscore)
    /\ (scan < len nbuf ->
        scan' <= len nbuf /\ 0 <= pos' <= len obuf
        /\ length' = Bsdiff.matchlen (sfx obuf pos')
                       (sfx nbuf (Z.min scan' (len nbuf - 1)))
        /\ (scan' < len nbuf -> 1 <= length' /\ scan' + length' <= len nbuf
            /\ length' = Bsdiff.matchlen (sfx obuf pos') (sfx nbuf scan'))).
Proof.
  revert scan scsc pos length oldscore.
  induction fuel as [| fuel IH];
    intros scan scsc pos length oldscore Hs Hsc Hlo Hlo' Hos Hf.
  - exists scan, pos, length, oldscore. cbn [Bsdiff.scan_loop].
    destruct (scan <? len nbuf) eqn:E; [apply Z.ltb_lt in E; lia |].
    split; [reflexivity |]. split; [lia |]. split; [auto | lia].
  - cbn [Bsdiff.scan_loop].
    destruct (scan <? len nbuf) eqn:E.
    2:{ apply Z.ltb_ge in E. exists scan, pos, length, oldscore.
        split; [reflexivity |]. split; [lia |]. split; [auto | lia]. }
    apply Z.ltb_lt in E.
    rewrite slice_from_ok by lia. cbn [bind]. fold (sfx nbuf scan).
    destruct (search_ok obuf I_ I_len I_range (sfx nbuf scan)) as (p & Es & Hp).
    rewrite Es. cbn [bind].
    set (l := Bsdiff.matchlen (sfx obuf p) (sfx nbuf scan)).
    pose proof (matchlen_bounds (sfx obuf p) (sfx nbuf scan)) as (Hl0 & _ & Hl1).
    fold l in Hl0, Hl1. rewrite len_sfx in Hl1 by lia.
    fold (score_body lo).
    rewrite (score_range_ok lo scsc (scan + l) oldscore) by lia. cbn [bind].
    set (os := oldscore + cnt (hit lo) scsc (scan + l)).
    set (scsc' := Z.max scsc (scan + l)).
    assert (Hos' : os = cnt (hit lo) 0 scsc' - cnt (hit lo) 0 scan).
    { unfold os, scsc'. destruct (Z_le_gt_dec scsc (scan + l)) as [L | L].
      - rewrite Z.max_r by lia. rewrite (cnt_split (hit lo) 0 scsc (scan + l)) by lia.
        lia.
      - rewrite Z.max_l by lia. rewrite (cnt_empty _ scsc) by lia. lia. }
    assert (Hos0 : 0 <= os).
    { rewrite Hos'. apply cnt_diff_nonneg. unfold scsc'. lia. }
    destruct (((l =? os) && negb (l =? 0)) || (l >? os + 8)) eqn:B.
    + exists scan, p, l, os. split; [reflexivity |]. split; [lia |].
      split; [lia |]. intros _. split; [lia |]. split; [lia |].
      assert (Hl : 1 <= l).
      { apply orb_true_iff in B. destruct B as [B | B].
        - apply andb_true_iff in B. destruct B as [_ B].
          apply negb_true_iff, Z.eqb_neq in B. lia.
        - apply Z.gtb_lt in B. lia. }
      rewrite Z.min_l by lia. split; [reflexivity |]. intros _.
      split; [lia |]. split; [lia | reflexivity].
    + fold (score_body lo).
      assert (Ed : (if scan + lo <? len obuf
                    then o <- ld obuf (scan + lo) ;;
                         n <- ld nbuf scan ;;
                         Done (if Byte.eqb o n then os - 1 else os)
                    else Done os)
                   = Done (os - if hit lo scan then 1 else 0)).
      { unfold hit. destruct (scan + lo <? len obuf) eqn:F; cbn [andb].
        - apply Z.ltb_lt in F. rewrite !ld_bn by lia. cbn [bind].
          destruct (Byte.eqb _ _); [reflexivity | now rewrite Z.sub_0_r].
        - now rewrite Z.sub_0_r. }
      rewrite Ed. cbn [bind].
      destruct (IH (scan + 1) scsc' p l (os - if hit lo scan then 1 else 0))
        as (scan' & pos' & length' & os' & Er & Hle & Hend & Hin);
        try (unfold scsc'; lia).
      { rewrite Hos'. rewrite (cnt_last (hit lo) 0 (scan + 1)) by lia.
        replace (scan + 1 - 1) with scan by lia. lia. }
      exists scan', pos', length', os'. split; [exact Er |].
      split; [lia |]. split; [lia |]. intros _.
      destruct (Z_lt_le_dec (scan + 1) (len nbuf)) as [L | L].
      * exact (Hin L).
      * destruct (Hend L) as (-> & -> & -> & _).
        split; [lia |]. split; [lia |].
        replace (Z.min (scan + 1) (len nbuf - 1)) with scan by lia.
        split; [reflexivity |]. lia.
Qed.

(** The forward extension stays inside the stretch scanned and inside
    [obuf]; when the two buffers agree all along, it takes it all. *)
Lemma extend_forward_ok scan lastscan lastpos :
  0 <= lastscan <= scan -> scan <= len nbuf -> 0 <= lastpos <= len obuf ->
  exists lenf,
    Bsdiff.extend_forward obuf nbuf scan lastscan lastpos = Done lenf
    /\ 0 <= lenf <= scan - lastscan /\ lastpos + lenf <= len obuf
    /\ ((forall k, 0 <= k < scan - lastscan ->
                   lastpos + k < len obuf
                   /\ bn obuf (lastpos + k) = bn nbuf (lastscan + k)) ->
        lenf = scan - lastscan).
Proof.
  intros Hs Hm Hp. unfold Bsdiff.extend_forward.
  set (AM := forall k, 0 <= k < scan - lastscan ->
                       lastpos + k < len obuf
                       /\ bn obuf (lastpos + k) = bn nbuf (lastscan + k)).
  match goal with
  | |- context [while ?f ?c ?b ?s0] =>
      destruct (while_inv
                  (fun '(i, s, Sf, lenf) =>
                     0 <= lenf <= i /\ lastscan + i <= scan
                     /\ lastpos + i <= len obuf
                     /\ (AM -> s = i /\ Sf = i /\ lenf = i))
                  (fun '(i, _, _, _) => scan - lastscan - i)
                  c b) with (fuel := f) (s := s0)
        as ([[[i s] Sf] lenf] & E & (H1 & H2 & H3 & H4) & Hc)
  end.
  - intros [[[i s] Sf] lenf] _. eauto.
  - intros [[[i s] Sf] lenf] (H1 & H2 & H3 & H4) Hc.
    injection Hc as Hc. apply andb_true_iff in Hc. destruct Hc as [C1 C2].
    apply Z.ltb_lt in C1, C2.
    rewrite !ld_bn by lia. cbn [bind]. cbv zeta.
    assert (Hm' : AM -> Byte.eqb (bn obuf (lastpos + i)) (bn nbuf (lastscan + i)) = true).
    { intros A. apply byte_eqb_eq. apply A. lia. }
    destruct (_ >? _) eqn:F.
    + eexists. split; [reflexivity |]. cbv beta iota.
      split; [split; [lia |]; split; [lia |]; split; [lia |] | lia].
      intros A. destruct (H4 A) as (-> & -> & ->). rewrite (Hm' A). lia.
    + eexists. split; [reflexivity |]. cbv beta iota.
      split; [split; [lia |]; split; [lia |]; split; [lia |] | lia].
      intros A. destruct (H4 A) as (-> & -> & ->). rewrite (Hm' A) in F.
      rewrite Z.gtb_ltb in F. apply Z.ltb_ge in F. lia.
  - cbv beta iota. split; [lia |]. split; [lia |]. split; [lia |]. auto.
  - cbv beta iota. lia.
  - rewrite E. cbn [bind]. exists lenf. split; [reflexivity |].
    split; [lia |]. split; [lia |]. intros A.
    destruct (H4 A) as (_ & _ & ->).
    injection Hc as Hc. apply andb_false_iff in Hc.
    destruct (Z_lt_le_dec i (scan - lastscan)) as [L | L]; [| lia].
    destruct (A i ltac:(lia)) as [A1 _].
    destruct Hc as [Hc | Hc]; apply Z.ltb_ge in Hc; lia.
Qed.

(** The backward extension stays inside the stretch scanned and does
    not pass the start of [obuf]. *)
Lemma extend_backward_ok scan lastscan pos :
  0 <= lastscan <= scan -> scan <= len nbuf -> 0 <= pos <= len obuf ->
  exists lenb,
    Bsdiff.extend_backward obuf nbuf scan lastscan pos = Done lenb
    /\ 0 <= lenb <= scan - lastscan /\ lenb <= pos
    /\ (len nbuf <= scan -> lenb = 0).
Proof.
  intros Hs Hm Hp. unfold Bsdiff.extend_backward.
  destruct (scan <? len nbuf) eqn:E0.
  2:{ exists 0. split; [reflexivity |]. lia. }
  apply Z.ltb_lt in E0.
  match goal with
  | |- context [while ?f ?c ?b ?s0] =>
      destruct (while_inv
                  (fun '(i, s, Sb, lenb) =>
                     1 <= i /\ 0 <= lenb < i /\ lastscan + i <= scan + 1
                     /\ i <= pos + 1)
                  (fun '(i, _, _, _) => scan - lastscan - i + 1)
                  c b) with (fuel := f) (s := s0)
        as ([[[i s] Sb] lenb] & E & (H1 & H2 & H3 & H4) & Hc)
  end.
  - intros [[[i s] Sb] lenb] _. eauto.
  - intros [[[i s] Sb] lenb] (H1 & H2 & H3 & H4) Hc.
    injection Hc as Hc. apply andb_true_iff in Hc. destruct Hc as [C1 C2].
    apply Z.geb_le in C1, C2.
    rewrite !ld_bn by lia. cbn [bind]. cbv zeta.
    destruct (_ >? _) eqn:F;
      (eexists; split; [reflexivity |]; cbv beta iota; lia).
  - cbv beta iota. lia.
  - cbv beta iota. lia.
  - rewrite E. cbn [bind]. exists lenb. split; [reflexivity |]. lia.
Qed.

(** After an overlap is resolved the two extensions do not meet. *)
Lemma resolve_overlap_ok scan pos lastscan lastpos lenf lenb :
  0 <= lastscan <= scan -> scan <= len nbuf ->
  0 <= pos <= len obuf -> 0 <= lastpos ->
  0 <= lenf <= scan - lastscan -> lastpos + lenf <= len obuf ->
  0 <= lenb <= scan - lastscan -> lenb <= pos ->
  exists lenf' lenb',
    Bsdiff.resolve_overlap obuf nbuf scan pos lastscan lastpos lenf lenb
    = Done (lenf', lenb')
    /\ 0 <= lenf' <= lenf /\ 0 <= lenb' <= lenb
    /\ lastscan + lenf' <= scan - lenb'
    /\ (lastscan + lenf <= scan - lenb -> lenf' = lenf /\ lenb' = lenb).
Proof.
  intros Hs Hm Hp Hlp Hf Hfo Hb Hbp. unfold Bsdiff.resolve_overlap.
  destruct (lastscan + lenf >? scan - lenb) eqn:E0.
  2:{ rewrite Z.gtb_ltb in E0. apply Z.ltb_ge in E0.
      exists lenf, lenb. split; [reflexivity |]. lia. }
  apply Z.gtb_lt in E0.
  set (overlap := lastscan + lenf - (scan - lenb)).
  match goal with
  | |- context [for_range 0 overlap ?b ?s0] =>
      destruct (for_range_inv
                  (fun i '(s, Ss, lens) => 0 <= lens <= i)
                  b 0 overlap s0)
        as ([[s Ss] lens] & E & H1)
  end.
  - unfold overlap. lia.
  - cbv beta iota. lia.
  - intros i [[s Ss] lens] Hi H1. unfold overlap in Hi.
    rewrite (ld_bn nbuf) by (unfold overlap; lia). cbn [bind].
    rewrite (ld_bn obuf) by (unfold overlap; lia). cbn [bind]. cbv zeta.
    rewrite (ld_bn nbuf) by lia. cbn [bind].
    rewrite (ld_bn obuf) by lia. cbn [bind].
    destruct (_ >? _);
      (eexists; split; [reflexivity |]; cbv beta iota; lia).
  - rewrite E. cbn [bind]. eexists _, _. split; [reflexivity |].
    cbv beta iota in H1. unfold overlap in *. lia.
Qed.

End Diff.

(* ------------------------------------------------------------------ *)
(** ** Bytes and byte buffers *)

Lemma b2z_z2b z : b2z (z2b z) = z mod 256.
Proof.
  unfold z2b, b2z. pose proof (Z.mod_pos_bound z 256 ltac:(lia)) as Hm.
  destruct (Byte.of_N (Z.to_N (z mod 256))) as [c |] eqn:E.
  - apply Byte.to_of_N in E. rewrite E. lia.
  - apply Byte.of_N_None_iff in E. lia.
Qed.

Lemma z2b_b2z c : z2b (b2z c) = c.
Proof.
  unfold z2b. rewrite Z.mod_small by apply b2z_range.
  unfold b2z. rewrite N2Z.id, Byte.of_to_N. reflexivity.
Qed.

Lemma z2b_mod z : z2b (z mod 256) = z2b z.
Proof. unfold z2b. now rewrite Z.mod_mod by lia. Qed.

(** What [BSPatch] adds back is what [BSDiff] took away. *)
Lemma add_sub_byte n o : z2b (b2z (z2b (b2z n - b2z o)) + b2z o) = n.
Proof.
  rewrite b2z_z2b. rewrite <- z2b_mod.
  rewrite Z.add_mod_idemp_l by lia.
  replace (b2z n - b2z o + b2z o) with (b2z n) by lia.
  rewrite z2b_mod. apply z2b_b2z.
Qed.

Lemma bn_upd (a : list byte) i j x :
  0 <= i < len a -> 0 <= j ->
  bn (upd a i x) j = if j =? i then x else bn a j.
Proof.
  intros Hi Hj. unfold bn, upd, len in *.
  rewrite nth_set_nth by lia.
  destruct (j =? i) eqn:E.
  - apply Z.eqb_eq in E. subst. now rewrite Nat.eqb_refl.
  - apply Z.eqb_neq in E.
    destruct (Nat.eqb (Z.to_nat j) (Z.to_nat i)) eqn:F; [| reflexivity].
    apply Nat.eqb_eq in F. lia.
Qed.

Lemma bn_ext (a b : list byte) :
  len a = len b -> (forall k, 0 <= k < len a -> bn a k = bn b k) -> a = b.
Proof.
  intros Hl H. unfold len in Hl. apply (nth_ext a b x00 x00); [lia |].
  intros k Hk. specialize (H (Z.of_nat k) ltac:(unfold len; lia)).
  unfold bn in H. now rewrite Nat2Z.id in H.
Qed.

Lemma bn_firstn (a : list byte) m k :
  0 <= k < m -> bn (firstn (Z.to_nat m) a) k = bn a k.
Proof.
  intros H. unfold bn. rewrite nth_firstn.
  destruct (Z.to_nat k <? Z.to_nat m)%nat eqn:E; [reflexivity |].
  apply Nat.ltb_ge in E. lia.
Qed.

Lemma len_firstn (a : list byte) m :
  0 <= m <= len a -> len (firstn (Z.to_nat m) a) = m.
Proof. intros H. unfold len in *. rewrite length_firstn. lia. Qed.

(** [copy(a[lo:hi], src)] when [src] has [hi - lo] bytes *)
Lemma copy_into_exact (a : list byte) lo hi src :
  0 <= lo <= hi -> hi <= len a -> len src = hi - lo ->
  exists a',
    Bsdiff.copy_into a lo hi src = Done a'
    /\ len a' = len a
    /\ (forall k, 0 <= k < lo -> bn a' k = bn a k)
    /\ (forall k, lo <= k < hi -> bn a' k = bn src (k - lo))
    /\ (forall k, hi <= k -> bn a' k = bn a k).
Proof.
  intros H1 H2 H3. unfold Bsdiff.copy_into. rewrite slice_ok by lia.
  cbn [bind]. eexists. split; [reflexivity |].
  set (dst := firstn (Z.to_nat (hi - lo)) (skipn (Z.to_nat lo) a)).
  assert (Ld : length dst = Z.to_nat (hi - lo)).
  { unfold dst. rewrite length_firstn, length_skipn. unfold len in *. lia. }
  assert (Ec : Bsdiff.copy dst src = src).
  { unfold Bsdiff.copy. rewrite Ld.
    replace (Nat.min (Z.to_nat (hi - lo)) (length src)) with (length src)
      by (unfold len in *; lia).
    rewrite firstn_all. rewrite skipn_all2 by (unfold len in *; lia).
    apply app_nil_r. }
  rewrite Ec.
  assert (Lf : length (firstn (Z.to_nat lo) a) = Z.to_nat lo).
  { rewrite length_firstn. unfold len in *. lia. }
  split; [| split; [| split]].
  - unfold len in *. rewrite !length_app, Lf, length_skipn. lia.
  - intros k Hk. unfold bn. rewrite app_nth1 by lia.
    rewrite nth_firstn.
    destruct (Z.to_nat k <? Z.to_nat lo)%nat eqn:E; [reflexivity |].
    apply Nat.ltb_ge in E. lia.
  - intros k Hk. unfold bn. rewrite app_nth2 by lia. rewrite Lf.
    rewrite app_nth1 by (unfold len in *; lia). f_equal. lia.
  - intros k Hk. unfold bn. rewrite app_nth2 by lia. rewrite Lf.
    rewrite app_nth2 by (unfold len in *; lia).
    rewrite nth_skipn. f_equal. unfold len in *. lia.
Qed.

(* ------------------------------------------------------------------ *)
(** ** One control triple of [BSPatch] *)

Section Apply.

Import Bsdiff.

Variable obuf D E : list byte.
Variable L : Z.

Hypothesis L_small : L < 2 ^ 63.
Hypothesis obuf_small : len obuf < 2 ^ 63.

Lemma apply_control_ok s c :
  len (nbuf s) = L ->
  0 <= newpos s -> 0 <= Add c -> 0 <= Copy c ->
  newpos s + Add c + Copy c <= L ->
  0 <= oldpos s -> oldpos s + Add c <= len obuf ->
  0 <= oldpos s + Add c + Seek c <= len obuf ->
  0 <= diffOffset s -> diffOffset s + Add c <= len D ->
  diffOffset s + Add c < 2 ^ 63 ->
  0 <= extraOffset s -> extraOffset s + Copy c <= len E ->
  extraOffset s + Copy c < 2 ^ 63 ->
  exists nb',
    apply_control L obuf D E s c
    = Done (inr {| nbuf := nb';
                   oldpos := oldpos s + Add c + Seek c;
                   newpos := newpos s + Add c + Copy c;
                   diffOffset := diffOffset s + Add c;
                   extraOffset := extraOffset s + Copy c |})
    /\ len nb' = L
    /\ (forall k, 0 <= k < newpos s -> bn nb' k = bn (nbuf s) k)
    /\ (forall i, 0 <= i < Add c ->
                  bn nb' (newpos s + i)
                  = z2b (b2z (bn D (diffOffset s + i))
                         + b2z (bn obuf (oldpos s + i))))
    /\ (forall i, 0 <= i < Copy c ->
                  bn nb' (newpos s + Add c + i) = bn E (extraOffset s + i)).
Proof.
  intros Hl Hn Ha Hc Hsum Ho Hoa Hos Hd Hda Hds He Hea Hes.
  unfold apply_control.
  assert (I64 : forall z, - 2 ^ 63 <= z < 2 ^ 63 -> int64 z) by (intros; assumption).
  rewrite (add64_small (newpos s) (Add c)) by (apply I64; lia).
  destruct (newpos s + Add c >? L) eqn:G1; [apply Z.gtb_lt in G1; lia |].
  rewrite (add64_small (diffOffset s) (Add c)) by (apply I64; lia).
  rewrite slice_ok by lia. cbn [bind].
  set (src := firstn (Z.to_nat (diffOffset s + Add c - diffOffset s))
                (skipn (Z.to_nat (diffOffset s)) D)).
  assert (Lsrc : len src = Add c).
  { unfold src, len in *. rewrite length_firstn, length_skipn. lia. }
  assert (Bsrc : forall i, 0 <= i < Add c -> bn src i = bn D (diffOffset s + i)).
  { intros i Hi. unfold src.
    replace (diffOffset s + Add c - diffOffset s) with (Add c) by lia.
    rewrite bn_firstn by lia. apply bn_skipn; lia. }
  destruct (copy_into_exact (nbuf s) (newpos s) (newpos s + Add c) src)
    as (nb1 & E1 & L1 & B1a & B1b & B1c); try lia.
  rewrite E1. cbn [bind].
  (* the old bytes are added *)
  match goal with
  | |- context [for_range 0 (Add c) ?body nb1] =>
      destruct (for_range_inv
                  (fun i nb =>
                     len nb = L
                     /\ (forall k, 0 <= k -> ~ newpos s <= k < newpos s + i ->
                                   bn nb k = bn nb1 k)
                     /\ forall j, 0 <= j < i ->
                                  bn nb (newpos s + j)
                                  = z2b (b2z (bn nb1 (newpos s + j))
                                         + b2z (bn obuf (oldpos s + j))))
                  body 0 (Add c) nb1) as (nb2 & E2 & L2 & B2a & B2b)
  end.
  { lia. }
  { split; [lia |]. split; [auto |]. intros; lia. }
  { intros i nb Hi (Hlen & Hout & Hin).
    rewrite (add64_small (newpos s) i) by (apply I64; lia).
    rewrite (add64_small (oldpos s) i) by (apply I64; lia).
    rewrite !ld_bn by lia. cbn [bind]. rewrite st_upd by lia.
    eexists. split; [reflexivity |]. split; [now rewrite len_upd |]. split.
    - intros k Hk Hnot. rewrite bn_upd by lia.
      destruct (k =? newpos s + i) eqn:F; [apply Z.eqb_eq in F; lia |].
      apply Hout; lia.
    - intros j Hj. rewrite bn_upd by lia.
      destruct (newpos s + j =? newpos s + i) eqn:F.
      + apply Z.eqb_eq in F. replace j with i by lia.
        rewrite Hout by lia. reflexivity.
      + apply Z.eqb_neq in F. apply Hin. lia. }
  rewrite E2. cbn [bind]. cbv zeta.
  rewrite (add64_small (oldpos s) (Add c)) by (apply I64; lia).
  rewrite (add64_small (newpos s + Add c) (Copy c)) by (apply I64; lia).
  destruct (newpos s + Add c + Copy c >? L) eqn:G2; [apply Z.gtb_lt in G2; lia |].
  rewrite (add64_small (extraOffset s) (Copy c)) by (apply I64; lia).
  rewrite slice_ok by lia. cbn [bind].
  set (src2 := firstn (Z.to_nat (extraOffset s + Copy c - extraOffset s))
                 (skipn (Z.to_nat (extraOffset s)) E)).
  assert (Lsrc2 : len src2 = Copy c).
  { unfold src2, len in *. rewrite length_firstn, length_skipn. lia. }
  assert (Bsrc2 : forall i, 0 <= i < Copy c -> bn src2 i = bn E (extraOffset s + i)).
  { intros i Hi. unfold src2.
    replace (extraOffset s + Copy c - extraOffset s) with (Copy c) by lia.
    rewrite bn_firstn by lia. apply bn_skipn; lia. }
  destruct (copy_into_exact nb2 (newpos s + Add c) (newpos s + Add c + Copy c) src2)
    as (nb3 & E3 & L3 & B3a & B3b & B3c); try lia.
  rewrite E3. cbn [bind].
  rewrite (add64_small (oldpos s + Add c) (Seek c)) by (apply I64; lia).
  exists nb3. split; [reflexivity |]. split; [lia |]. split; [| split].
  - intros k Hk. rewrite B3a by lia. rewrite B2a by lia. apply B1a. lia.
  - intros i Hi. rewrite B3a by lia. rewrite B2b by lia.
    rewrite B1b by lia. replace (newpos s + i - newpos s) with i by lia.
    now rewrite Bsrc by lia.
  - intros i Hi. rewrite B3b by lia.
    replace (newpos s + Add c + i - (newpos s + Add c)) with i by lia.
    now apply Bsrc2.
Qed.

Lemma apply_controls_snoc cs c s s1 s2 :
  apply_controls L obuf D E cs s = Done (inr s1) ->
  apply_control L obuf D E s1 c = Done (inr s2) ->
  apply_controls L obuf D E (cs ++ [c]) s = Done (inr s2).
Proof.
  revert s. induction cs as [| c0 cs IH]; intros s H1 H2; cbn [apply_controls app] in *.
  - injection H1 as ->. rewrite H2. reflexivity.
  - destruct (apply_control L obuf D E s c0) as [[e | s'] | |]; cbn [bind] in *;
      try discriminate.
    now apply IH.
Qed.

End Apply.

(* ------------------------------------------------------------------ *)
(** ** The invariant of the main loop of [BSDiff] *)

Lemma WriteMessage_unlimited w m :
  quota w = None ->
  WriteMessage w m = ({| sent := sent w ++ [m]; quota := None |}, None).
Proof. intros H. unfold WriteMessage. now rewrite H. Qed.

Section RoundTrip.

Import Bsdiff.

Variable obuf nbuf : list byte.
Variable I_ : list Z.

Hypothesis I_len : len I_ = len obuf + 1.
Hypothesis I_range : forall q, 0 <= q <= len obuf -> 0 <= zn I_ q <= len obuf.
Hypothesis obuf_small : len obuf < 2 ^ 63.
Hypothesis nbuf_small : len nbuf < 2 ^ 63.

(** [applies cs db dl eb el ls lp]: with any add-data that starts as
    the first [dl] bytes of [db] and any extra-data that starts as the
    first [el] bytes of [eb], the triples [cs] make [BSPatch] rebuild the
    first [ls] bytes of [nbuf] and leave its cursors at [lp], [ls], [dl]
    and [el]. *)
Definition applies (cs : list BsdiffControl) (db : list byte) (dl : Z)
  (eb : list byte) (el : Z) (ls lp : Z) : Prop :=
  forall D E nb0,
    len nb0 = len nbuf ->
    dl <= len D -> el <= len E ->
    (forall k, 0 <= k < dl -> bn D k = bn db k) ->
    (forall k, 0 <= k < el -> bn E k = bn eb k) ->
    exists nb',
      apply_controls (len nbuf) obuf D E cs
        {| Bsdiff.nbuf := nb0; oldpos := 0; newpos := 0;
           diffOffset := 0; extraOffset := 0 |}
      = Done (inr {| Bsdiff.nbuf := nb'; oldpos := lp; newpos := ls;
                     diffOffset := dl; extraOffset := el |})
      /\ len nb' = len nbuf
      /\ forall k, 0 <= k < ls -> bn nb' k = bn nbuf k.

Lemma applies_nil db eb : applies [] db 0 eb 0 0 0.
Proof.
  intros D E nb0 Hl _ _ _ _. exists nb0. split; [reflexivity |].
  split; [assumption |]. intros; lia.
Qed.

Lemma applies_snoc cs db dl eb el ls lp db' eb' lenf cp sk :
  applies cs db dl eb el ls lp ->
  0 <= ls -> 0 <= lenf -> 0 <= cp -> ls + lenf + cp <= len nbuf ->
  0 <= lp -> lp + lenf <= len obuf -> 0 <= lp + lenf + sk <= len obuf ->
  0 <= dl -> 0 <= el -> dl + lenf <= len nbuf -> el + cp <= len nbuf ->
  (forall k, 0 <= k < dl -> bn db' k = bn db k) ->
  (forall i, 0 <= i < lenf ->
             bn db' (dl + i)
             = z2b (b2z (bn nbuf (ls + i)) - b2z (bn obuf (lp + i)))) ->
  (forall k, 0 <= k < el -> bn eb' k = bn eb k) ->
  (forall i, 0 <= i < cp -> bn eb' (el + i) = bn nbuf (ls + lenf + i)) ->
  applies (cs ++ [{| Add := lenf; Copy := cp; Seek := sk |}])
    db' (dl + lenf) eb' (el + cp) (ls + lenf + cp) (lp + lenf + sk).
Proof.
  intros HA Hls Hf Hc Hsum Hlp Hlpf Hsk Hdl Hel Hdf Hec Hd1 Hd2 He1 He2.
  intros D E nb0 Hl HD HE HDb HEb.
  destruct (HA D E nb0 Hl) as (nb1 & E1 & L1 & B1); try lia.
  { intros k Hk. rewrite HDb by lia. apply Hd1. lia. }
  { intros k Hk. rewrite HEb by lia. apply He1. lia. }
  set (s1 := {| Bsdiff.nbuf := nb1; oldpos := lp; newpos := ls;
                diffOffset := dl; extraOffset := el |}).
  set (c := {| Add := lenf; Copy := cp; Seek := sk |}).
  destruct (apply_control_ok obuf D E (len nbuf) nbuf_small obuf_small s1 c)
    as (nb2 & E2 & L2 & B2a & B2b & B2c);
    cbn [Bsdiff.nbuf oldpos newpos diffOffset extraOffset Add Copy Seek s1 c];
    try lia.
  cbn [Bsdiff.nbuf oldpos newpos diffOffset extraOffset Add Copy Seek s1 c] in *.
  exists nb2. split.
  - eapply apply_controls_snoc; [exact E1 | exact E2].
  - split; [assumption |]. intros k Hk.
    destruct (Z_lt_le_dec k ls) as [K1 | K1].
    + rewrite B2a by lia. apply B1. lia.
    + destruct (Z_lt_le_dec k (ls + lenf)) as [K2 | K2].
      * replace k with (ls + (k - ls)) by lia.
        rewrite B2b by lia. rewrite HDb by lia. rewrite Hd2 by lia.
        apply add_sub_byte.
      * replace k with (ls + lenf + (k - ls - lenf)) by lia.
        rewrite B2c by lia. rewrite HEb by lia. rewrite He2 by lia.
        reflexivity.
Qed.

(** The invariant of [for scan < len(nbuf)] *)
Definition dinv (d : dstate) : Prop :=
  err d = None /\ quota (patch d) = None
  /\ 0 <= lastscan d <= scan d /\ scan d <= len nbuf
  /\ 0 <= length_ d /\ (scan d < len nbuf -> scan d + length_ d <= len nbuf)
  /\ 0 <= pos d <= len obuf /\ 0 <= lastpos d <= len obuf
  /\ 0 <= scan d + lastoffset d
  /\ 0 <= dblen d /\ 0 <= eblen d /\ dblen d + eblen d = lastscan d
  /\ len (db d) = len nbuf /\ len (eb d) = len nbuf
  /\ (scan d = len nbuf -> lastscan d = len nbuf)
  /\ exists cs,
       sent (patch d) = map MBsdiffControl cs
       /\ Forall (fun c => 0 <= Add c) cs
       /\ applies cs (db d) (dblen d) (eb d) (eblen d) (lastscan d) (lastpos d).

(** The add-data of one triple *)
Lemma fill_db db dl ls lp lenf :
  0 <= dl -> dl + lenf <= len db -> 0 <= ls -> ls + lenf <= len nbuf ->
  0 <= lp -> lp + lenf <= len obuf -> 0 <= lenf ->
  exists db',
    for_range 0 lenf
      (fun i db =>
         n <- ld nbuf (ls + i) ;;
         o <- ld obuf (lp + i) ;;
         st db (dl + i) (z2b (b2z n - b2z o))) db = Done db'
    /\ len db' = len db
    /\ (forall k, 0 <= k < dl -> bn db' k = bn db k)
    /\ (forall i, 0 <= i < lenf ->
                  bn db' (dl + i)
                  = z2b (b2z (bn nbuf (ls + i)) - b2z (bn obuf (lp + i)))).
Proof.
  intros Hdl Hdf Hls Hlf Hlp Hlpf Hf.
  match goal with
  | |- context [for_range 0 lenf ?body db] =>
      destruct (for_range_inv
                  (fun i b =>
                     len b = len db
                     /\ (forall k, 0 <= k < dl -> bn b k = bn db k)
                     /\ forall j, 0 <= j < i ->
                                  bn b (dl + j)
                                  = z2b (b2z (bn nbuf (ls + j))
                                         - b2z (bn obuf (lp + j))))
                  body 0 lenf db) as (db' & E & H)
  end.
  - lia.
  - split; [reflexivity |]. split; [auto |]. intros; lia.
  - intros i b Hi (Hl & H1 & H2). rewrite !ld_bn by lia. cbn [bind].
    rewrite st_upd by lia. eexists. split; [reflexivity |].
    split; [now rewrite len_upd |]. split.
    + intros k Hk. rewrite bn_upd by lia.
      destruct (k =? dl + i) eqn:F; [apply Z.eqb_eq in F; lia |]. now apply H1.
    + intros j Hj. rewrite bn_upd by lia.
      destruct (dl + j =? dl + i) eqn:F.
      * apply Z.eqb_eq in F. now replace j with i by lia.
      * apply Z.eqb_neq in F. apply H2. lia.
  - exists db'. split; [exact E | exact H].
Qed.

(** The extra-data of one triple *)
Lemma fill_eb eb el from cp :
  0 <= el -> el + cp <= len eb -> 0 <= from -> from + cp <= len nbuf ->
  exists eb',
    for_range 0 cp
      (fun i eb => n <- ld nbuf (from + i) ;; st eb (el + i) n) eb = Done eb'
    /\ len eb' = len eb
    /\ (forall k, 0 <= k < el -> bn eb' k = bn eb k)
    /\ (forall i, 0 <= i < cp -> bn eb' (el + i) = bn nbuf (from + i)).
Proof.
  intros Hel Hec Hfr Hfc.
  destruct (Z_le_gt_dec 0 cp) as [Hc | Hc].
  2:{ rewrite for_range_empty by lia. exists eb. split; [reflexivity |].
      split; [reflexivity |]. split; [auto |]. intros; lia. }
  match goal with
  | |- context [for_range 0 cp ?body eb] =>
      destruct (for_range_inv
                  (fun i b =>
                     len b = len eb
                     /\ (forall k, 0 <= k < el -> bn b k = bn eb k)
                     /\ forall j, 0 <= j < i -> bn b (el + j) = bn nbuf (from + j))
                  body 0 cp eb) as (eb' & E & H)
  end.
  - lia.
  - split; [reflexivity |]. split; [auto |]. intros; lia.
  - intros i b Hi (Hl & H1 & H2). rewrite !ld_bn by lia. cbn [bind].
    rewrite st_upd by lia. eexists. split; [reflexivity |].
    split; [now rewrite len_upd |]. split.
    + intros k Hk. rewrite bn_upd by lia.
      destruct (k =? el + i) eqn:F; [apply Z.eqb_eq in F; lia |]. now apply H1.
    + intros j Hj. rewrite bn_upd by lia.
      destruct (el + j =? el + i) eqn:F.
      * apply Z.eqb_eq in F. now replace j with i by lia.
      * apply Z.eqb_neq in F. apply H2. lia.
  - exists eb'. split; [exact E | exact H].
Qed.

(** Writing one control triple keeps the invariant. *)
Lemma emit_ok d scan' pos' length' :
  dinv d ->
  lastscan d <= scan' <= len nbuf -> scan d <= scan' ->
  0 <= pos' <= len obuf -> 0 <= length' ->
  (scan' < len nbuf -> scan' + length' <= len nbuf) ->
  exists d',
    emit obuf nbuf d scan' pos' length' = Done d'
    /\ dinv d' /\ scan d' = scan' /\ length_ d' = length'.
Proof.
  intros (He & Hq & Hls & Hsc & Hlen & Hsl & Hpos & Hlp & Hoff & Hdl & Hel
          & Hsum & Hdb & Heb & Hend & cs & Hsent & Hcs & Happ)
         Hs' Hss' Hp' Hl' Hsl'.
  unfold emit.
  destruct (extend_forward_ok obuf nbuf scan' (lastscan d) (lastpos d))
    as (lenf & Ef & Hf1 & Hf2 & _); try lia.
  rewrite Ef. cbn [bind].
  destruct (extend_backward_ok obuf nbuf scan' (lastscan d) pos')
    as (lenb & Eb & Hb1 & Hb2 & Hb3); try lia.
  rewrite Eb. cbn [bind].
  destruct (resolve_overlap_ok obuf nbuf scan' pos' (lastscan d) (lastpos d)
              lenf lenb)
    as (lenf' & lenb' & Er & Hr1 & Hr2 & Hr3 & _); try lia.
  rewrite Er. cbn [bind].
  destruct (fill_db (db d) (dblen d) (lastscan d) (lastpos d) lenf')
    as (db' & Ed & Ld & Bd1 & Bd2); try lia.
  rewrite Ed. cbn [bind].
  destruct (fill_eb (eb d) (eblen d) (lastscan d + lenf')
              (scan' - lenb' - (lastscan d + lenf')))
    as (eb' & Ee & Le & Be1 & Be2); try lia.
  rewrite Ee. cbn [bind]. cbv zeta.
  rewrite WriteMessage_unlimited by assumption.
  eexists. split; [reflexivity |].
  cbn [scan pos length_ lastscan lastpos lastoffset db eb dblen eblen patch err
       sent quota].
  split; [| split; reflexivity].
  unfold dinv.
  cbn [scan pos length_ lastscan lastpos lastoffset db eb dblen eblen patch err
       sent quota].
  split; [reflexivity |]. split; [reflexivity |].
  split; [lia |]. split; [lia |]. split; [lia |]. split; [assumption |].
  split; [lia |]. split; [lia |]. split; [lia |]. split; [lia |].
  split; [lia |]. split; [lia |]. split; [lia |]. split; [lia |].
  split; [intros Hx; rewrite (Hb3 ltac:(lia)) in Hr2; lia |].
  exists (cs ++ [{| Add := lenf';
                    Copy := scan' - lenb' - (lastscan d + lenf');
                    Seek := pos' - lenb' - (lastpos d + lenf') |}]).
  split; [rewrite Hsent, map_app; reflexivity |].
  split; [apply Forall_app; split; [assumption |]; constructor; [cbn; lia | constructor] |].
  pose proof (applies_snoc cs (db d) (dblen d) (eb d) (eblen d) (lastscan d)
                (lastpos d) db' eb' lenf'
                (scan' - lenb' - (lastscan d + lenf'))
                (pos' - lenb' - (lastpos d + lenf')) Happ) as HS.
  replace (lastscan d + lenf' + (scan' - lenb' - (lastscan d + lenf')))
    with (scan' - lenb') in HS by lia.
  replace (lastpos d + lenf' + (pos' - lenb' - (lastpos d + lenf')))
    with (pos' - lenb') in HS by lia.
  apply HS; try lia; assumption.
Qed.

(** The main loop ends, with everything of [nbuf] accounted for. *)
Lemma diff_loop_ok d0 :
  dinv d0 -> scan d0 = 0 ->
  exists d, diff_loop I_ obuf nbuf d0 = Done d /\ dinv d /\ scan d = len nbuf.
Proof.
  intros H0 Hs0. unfold diff_loop.
  match goal with
  | |- context [while ?f ?c ?b d0] =>
      destruct (while_inv dinv
                  (fun d => 2 * (len nbuf - scan d)
                            + (if length_ d =? 0 then 1 else 0))
                  c b) with (fuel := f) (s := d0)
        as (d & E & Hd & Hc)
  end.
  - intros d _. eauto.
  - intros d Hd Hc.
    pose proof Hd as (He & Hq & Hls & Hsc & Hlen & Hsl & Hpos & Hlp & Hoff & Hdl
                      & Hel & Hsum & Hdb & Heb & Hend & cs & Hsent & Hcs & Happ).
    rewrite He in Hc. injection Hc as Hc. apply Z.ltb_lt in Hc.
    specialize (Hsl Hc).
    destruct (scan_loop_ok obuf nbuf I_ I_len I_range (S (length nbuf))
                (lastoffset d) (scan d + length_ d) (scan d + length_ d)
                (pos d) (length_ d) 0)
      as (scan' & pos' & length' & os' & Es & Hle & Hout & Hin); try lia.
    { unfold len. lia. }
    rewrite Es. cbn [bind].
    assert (Hb : scan' <= len nbuf /\ 0 <= pos' <= len obuf /\ 0 <= length'
                 /\ (scan' < len nbuf -> 1 <= length'
                                         /\ scan' + length' <= len nbuf)).
    { destruct (Z_lt_le_dec (scan d + length_ d) (len nbuf)) as [L | L].
      - destruct (Hin L) as (A & B & C & D).
        split; [assumption |]. split; [assumption |].
        split; [rewrite C; apply matchlen_bounds |].
        intros Hx. destruct (D Hx) as (D1 & D2 & _). auto.
      - destruct (Hout L) as (-> & -> & -> & _). lia. }
    destruct Hb as (B1 & B2 & B3 & B4).
    assert (Hm : forall d', scan d' = scan' -> length_ d' = length' ->
                            0 <= 2 * (len nbuf - scan d')
                                 + (if length_ d' =? 0 then 1 else 0)
                            < 2 * (len nbuf - scan d)
                              + (if length_ d =? 0 then 1 else 0)).
    { intros d' -> ->.
      destruct (length' =? 0) eqn:F1; destruct (length_ d =? 0) eqn:F2;
        rewrite ?Z.eqb_eq, ?Z.eqb_neq in *; lia. }
    destruct (negb (length' =? os') || (scan' =? len nbuf)) eqn:B.
    + destruct (emit_ok d scan' pos' length' Hd) as (d' & Ee & Hd' & E1 & E2);
        try lia.
      exists d'. split; [exact Ee |]. split; [exact Hd' |]. now apply Hm.
    + apply orb_false_iff in B. destruct B as [_ B]. apply Z.eqb_neq in B.
      eexists. split; [reflexivity |]. split; [| apply Hm; reflexivity].
      unfold dinv.
      cbn [scan pos length_ lastscan lastpos lastoffset db eb dblen eblen patch
           err].
      split; [reflexivity |]. split; [assumption |].
      split; [lia |]. split; [lia |]. split; [lia |].
      split; [intros Hx; apply B4 in Hx; lia |].
      split; [lia |]. split; [lia |]. split; [lia |]. split; [lia |].
      split; [lia |]. split; [lia |]. split; [lia |]. split; [lia |].
      split; [lia |]. exists cs. auto.
  - assumption.
  - rewrite Hs0.
    change (2 * length nbuf + 2)%nat with (2 * length nbuf + 2)%nat.
    unfold len. destruct (length_ d0 =? 0); lia.
  - exists d. split; [exact E |]. split; [exact Hd |].
    destruct Hd as (He & _ & _ & Hsc & _). rewrite He in Hc.
    injection Hc as Hc. apply Z.ltb_ge in Hc. lia.
Qed.

End RoundTrip.

(* ------------------------------------------------------------------ *)
(** ** The round trip *)

Section RoundTripEnd.

Import Bsdiff.

Lemma read_controls_emitted cs c0 s0 rest acc :
  Forall (fun c => 0 <= Add c) cs ->
  read_controls
    (map MBsdiffControl cs
     ++ MBsdiffControl {| Add := -1; Copy := c0; Seek := s0 |} :: rest) acc
  = (rest, inr (acc ++ cs)).
Proof.
  intros H. revert acc. induction H as [| c cs Hc _ IH]; intros acc.
  - cbn. now rewrite app_nil_r.
  - cbn [map app read_controls asBsdiffControl].
    destruct (Add c =? -1) eqn:E; [apply Z.eqb_eq in E; lia |].
    rewrite IH. rewrite <- app_assoc. destruct c; reflexivity.
Qed.

Lemma write_all_buffer fuel (b : list byte) :
  write_all (list byte) buffer_Write (S fuel) [] b = (b, Done None).
Proof.
  cbn [write_all]. destruct (len b >? 0) eqn:E.
  - unfold buffer_Write. rewrite slice_from_ok by (pose proof (len_nonneg b); lia).
    unfold len. rewrite Nat2Z.id, skipn_all. cbn [app].
    apply write_all_nil.
  - rewrite Z.gtb_ltb in E. apply Z.ltb_ge in E.
    destruct b; [reflexivity | unfold len in E; cbn [length] in E; lia].
Qed.

(** What [BSDiff] writes with a writer that takes everything: control
    triples, the sentinel, the add-data and the extra-data, which
    [BSPatch] turns back into [new]. *)
Lemma bsdiff_output (old new : list byte) :
  len old < 2 ^ 63 -> len new < 2 ^ 63 ->
  exists cs D E,
    BSDiff {| r_data := old; r_err := None |}
           {| r_data := new; r_err := None |}
           {| sent := []; quota := None |}
    = Done ({| sent := map MBsdiffControl cs
                       ++ [MBsdiffControl {| Add := -1; Copy := 0; Seek := 0 |};
                           MBsdiffDiff D; MBsdiffExtra E];
               quota := None |}, None)
    /\ Forall (fun c => 0 <= Add c) cs
    /\ exists nb',
         apply_controls (len new) old D E cs
           {| nbuf := repeat x00 (Z.to_nat (len new)); oldpos := 0; newpos := 0;
              diffOffset := 0; extraOffset := 0 |}
         = Done (inr nb')
         /\ nbuf nb' = new.
Proof.
  intros Ho Hn. unfold BSDiff. cbn [ReadAll r_err r_data].
  destruct (qsufsort_sorts old) as (I_ & EI & (Il & Ir & _) & _).
  rewrite EI. cbn [bind].
  assert (I_range : forall q, 0 <= q <= len old -> 0 <= zn I_ q <= len old).
  { intros q Hq. specialize (Ir q ltac:(lia)). lia. }
  pose proof (len_nonneg old) as Ho0. pose proof (len_nonneg new) as Hn0.
  match goal with
  | |- context [diff_loop I_ old new ?d0] =>
      destruct (diff_loop_ok old new I_ Il I_range Ho Hn d0) as (d & Ed & Hd & Hs)
  end.
  { unfold dinv.
    cbn [scan pos length_ lastscan lastpos lastoffset db eb dblen eblen patch err
         sent quota].
    rewrite !len_repeat.
    split; [reflexivity |]. split; [reflexivity |].
    split; [lia |]. split; [lia |]. split; [lia |]. split; [lia |].
    split; [lia |]. split; [lia |]. split; [lia |]. split; [lia |].
    split; [lia |]. split; [lia |].
    split; [unfold len; lia |]. split; [unfold len; lia |].
    split; [lia |].
    exists []. split; [reflexivity |]. split; [constructor |].
    apply applies_nil. }
  { reflexivity. }
  rewrite Ed. cbn [bind].
  destruct Hd as (He & Hq & Hls & Hsc & Hlen & Hsl & Hpos & Hlp & Hoff & Hdl
                  & Hel & Hsum & Hdb & Heb & Hend & cs & Hsent & Hcs & Happ).
  rewrite He. cbv zeta.
  rewrite WriteMessage_unlimited by assumption.
  rewrite slice_ok by lia. cbn [bind].
  rewrite WriteMessage_unlimited by reflexivity.
  cbn [sent quota].
  rewrite slice_ok by lia. cbn [bind].
  rewrite WriteMessage_unlimited by reflexivity.
  cbn [sent quota].
  rewrite !Z.sub_0_r. cbn [Z.to_nat skipn].
  exists cs, (firstn (Z.to_nat (dblen d)) (db d)),
    (firstn (Z.to_nat (eblen d)) (eb d)).
  split.
  { rewrite Hsent, <- !app_assoc. reflexivity. }
  split; [assumption |].
  destruct (Happ (firstn (Z.to_nat (dblen d)) (db d))
              (firstn (Z.to_nat (eblen d)) (eb d))
              (repeat x00 (Z.to_nat (len new))))
    as (nb' & Ea & La & Ba).
  - rewrite len_repeat. lia.
  - rewrite len_firstn by lia. lia.
  - rewrite len_firstn by lia. lia.
  - intros k Hk. now apply bn_firstn.
  - intros k Hk. now apply bn_firstn.
  - eexists. split; [exact Ea |]. cbn [nbuf].
    apply bn_ext; [assumption |]. intros k Hk. apply Ba.
    rewrite (Hend Hs). lia.
Qed.

End RoundTripEnd.

(** C1: what [BSDiff] writes for [old] and [new], handed to [BSPatch]
    with [old] and the declared size [len(new)], makes [BSPatch] write
    [new]; buffer lengths are Go [int]s. *)
Theorem bsdiff_bspatch_round_trip (old new : list byte) (fuel : nat) :
  len old < 2 ^ 63 -> len new < 2 ^ 63 ->
  exists msgs,
    Bsdiff.BSDiff {| r_data := old; r_err := None |}
                  {| r_data := new; r_err := None |}
                  {| sent := []; quota := None |}
    = Done ({| sent := msgs; quota := None |}, None)
    /\ Bsdiff.BSPatch (list byte) Bsdiff.buffer_Write (S fuel)
         {| r_data := old; r_err := None |} [] (len new) msgs
       = ([], new, Done None).
Proof.
  intros Ho Hn.
  destruct (bsdiff_output old new Ho Hn) as (cs & D & E & Ed & Hcs & nb' & Ea & En).
  eexists. split; [exact Ed |].
  unfold Bsdiff.BSPatch. rewrite read_controls_emitted by assumption.
  cbn [app ReadMessage asBsdiffDiff asBsdiffExtra ReadAll r_err r_data].
  pose proof (len_nonneg new) as Hn0.
  destruct (len new <? 0) eqn:F; [apply Z.ltb_lt in F; lia |].
  rewrite Ea. rewrite En. rewrite write_all_buffer. reflexivity.
Qed.

Lemma bsdiff_bspatch_round_trip_witness :
  len (bytes_of "kitten") < 2 ^ 63 /\ len (bytes_of "sitting") < 2 ^ 63
  /\ exists msgs,
       Bsdiff.BSDiff {| r_data := bytes_of "kitten"; r_err := None |}
                     {| r_data := bytes_of "sitting"; r_err := None |}
                     {| sent := []; quota := None |}
       = Done ({| sent := msgs; quota := None |}, None)
       /\ Bsdiff.BSPatch (list byte) Bsdiff.buffer_Write 1
            {| r_data := bytes_of "kitten"; r_err := None |} []
            (len (bytes_of "sitting")) msgs
          = ([], bytes_of "sitting", Done None).
Proof.
  split; [reflexivity |]. split; [reflexivity |].
  apply (bsdiff_bspatch_round_trip (bytes_of "kitten") (bytes_of "sitting") 0);
    reflexivity.
Defined.

(* ------------------------------------------------------------------ *)
(** ** The patch of a buffer against itself *)

Lemma compare_antisym a b :
  Bsdiff.bytes_compare a b = CompOpp (Bsdiff.bytes_compare b a).
Proof.
  revert b. induction a as [| x a IH]; intros [| y b]; cbn [Bsdiff.bytes_compare];
    try reflexivity.
  rewrite (Z.compare_antisym (b2z x) (b2z y)).
  destruct (b2z x ?= b2z y); cbn [CompOpp]; auto.
Qed.

Lemma while_step {St} fuel (cond : St -> run bool) (body : St -> run St) s s' :
  cond s = Done true -> body s = Done s' ->
  while (S fuel) cond body s = while fuel cond body s'.
Proof. intros Hc Hb. cbn [while]. rewrite Hc. cbn [bind]. rewrite Hb. reflexivity. Qed.

Lemma while_stop {St} fuel (cond : St -> run bool) (body : St -> run St) s :
  cond s = Done false -> while fuel cond body s = Done s.
Proof. intros Hc. destruct fuel; cbn [while]; rewrite Hc; reflexivity. Qed.

Section Same.

Import Bsdiff.

Variable x : list byte.
Variable I_ : list Z.

Hypothesis I_perm : isperm x I_.
Hypothesis I_sorted :
  forall q q', 0 <= q < q' -> q' < len x + 1 -> prec x (zn I_ q) (zn I_ q').

Lemma sfx_0 : sfx x 0 = x.
Proof. reflexivity. Qed.

(** Searching the whole of [x] finds it at offset 0. *)
Lemma search_rec_same fuel st_ en q0 :
  zn I_ q0 = 0 -> 0 <= st_ <= q0 -> q0 <= en -> en <= len x ->
  en - st_ <= Z.of_nat fuel ->
  search_rec fuel I_ x x st_ en = Done (0, len x).
Proof.
  destruct I_perm as (Il & Ir & Ii & _).
  revert st_ en. induction fuel as [| fuel IH]; intros st_ en H0 Hs He Hen Hf.
  - assert (st_ = q0) by lia. assert (en = q0) by lia. subst st_ en.
    rewrite search_rec_base by lia.
    rewrite !ld_zn by lia. cbn [bind]. rewrite H0.
    rewrite slice_from_ok by (pose proof (len_nonneg x); lia). cbn [bind].
    cbn [Z.to_nat skipn]. rewrite matchlen_refl.
    rewrite Z.gtb_ltb, Z.ltb_irrefl. reflexivity.
  - destruct (Z_lt_le_dec (en - st_) 2) as [L | L].
    + rewrite search_rec_base by lia.
      pose proof (Ir st_ ltac:(lia)) as Rs. pose proof (Ir en ltac:(lia)) as Re.
      rewrite !ld_zn by lia. cbn [bind].
      rewrite !slice_from_ok by lia. cbn [bind].
      fold (sfx x (zn I_ st_)). fold (sfx x (zn I_ en)).
      pose proof (matchlen_bounds (sfx x (zn I_ st_)) x) as (_ & Bs & _).
      pose proof (matchlen_bounds (sfx x (zn I_ en)) x) as (_ & Be & _).
      rewrite len_sfx in Bs, Be by lia.
      destruct (Z.eq_dec q0 st_) as [-> | Hne].
      * rewrite H0 in *. rewrite sfx_0, matchlen_refl.
        destruct (Z.eq_dec en st_) as [-> | Hne'].
        { rewrite H0, sfx_0, matchlen_refl.
          rewrite Z.gtb_ltb, Z.ltb_irrefl. reflexivity. }
        assert (zn I_ en <> 0).
        { intros E. rewrite <- H0 in E. apply Ii in E; lia. }
        destruct (_ >? _) eqn:F; [reflexivity |].
        rewrite Z.gtb_ltb in F. apply Z.ltb_ge in F. lia.
      * assert (en = q0) by lia. subst en.
        assert (zn I_ st_ <> 0).
        { intros E. rewrite <- H0 in E. apply Ii in E; lia. }
        rewrite H0 in *. rewrite sfx_0, matchlen_refl.
        destruct (_ >? _) eqn:F; [| reflexivity].
        apply Z.gtb_lt in F. lia.
    + cbn [search_rec].
      destruct (en - st_ <? 2) eqn:E; [apply Z.ltb_lt in E; lia |].
      set (m := st_ + (en - st_) / 2).
      assert (Hm : st_ < m < en).
      { unfold m.
        pose proof (Z.div_le_lower_bound (en - st_) 2 1 ltac:(lia) ltac:(lia)).
        pose proof (Z.div_lt (en - st_) 2 ltac:(lia) ltac:(lia)). lia. }
      pose proof (Ir m ltac:(lia)) as Rm.
      rewrite ld_zn by lia. cbn [bind]. rewrite slice_from_ok by lia. cbn [bind].
      fold (sfx x (zn I_ m)).
      destruct (bytes_compare (sfx x (zn I_ m)) x) eqn:C.
      * apply IH; try lia.
        destruct (Z_le_gt_dec q0 m) as [K | K]; [assumption | exfalso].
        pose proof (I_sorted m q0 ltac:(lia) ltac:(lia)) as Hp.
        unfold prec in Hp. rewrite H0, sfx_0 in Hp. congruence.
      * apply IH; try lia.
        destruct (Z_le_gt_dec m q0) as [K | K]; [lia | exfalso].
        destruct (Z.eq_dec m q0) as [-> | Hne]; [lia |].
        pose proof (I_sorted q0 m ltac:(lia) ltac:(lia)) as Hp.
        unfold prec in Hp. rewrite H0, sfx_0 in Hp.
        rewrite compare_antisym, C in Hp. discriminate.
      * apply IH; try lia.
        destruct (Z_le_gt_dec q0 m) as [K | K]; [assumption | exfalso].
        pose proof (I_sorted m q0 ltac:(lia) ltac:(lia)) as Hp.
        unfold prec in Hp. rewrite H0, sfx_0 in Hp. congruence.
Qed.

Lemma search_same : search I_ x x 0 (len x) = Done (0, len x).
Proof.
  pose proof (len_nonneg x) as Hn.
  destruct I_perm as (_ & _ & _ & Is).
  destruct (Is 0 ltac:(lia)) as (q0 & Hq0 & E0).
  unfold search. apply (search_rec_same _ 0 (len x) q0); try lia.
Qed.

Hypothesis x_nonempty : 1 <= len x.

Lemma hit_same i : 0 <= i < len x -> hit x x 0 i = true.
Proof.
  intros H. unfold hit. rewrite Z.add_0_r.
  destruct (i <? len x) eqn:E; [| apply Z.ltb_ge in E; lia].
  apply byte_eqb_refl.
Qed.

(** The first scan stops at once, on the match of all of [x]. *)
Lemma scan_first fuel :
  scan_loop (S fuel) I_ x x 0 0 0 0 0 0 = Done (0, 0, len x, len x).
Proof.
  cbn [scan_loop].
  destruct (0 <? len x) eqn:E; [| apply Z.ltb_ge in E; lia].
  rewrite slice_from_ok by lia. cbn [bind Z.to_nat skipn].
  rewrite search_same. cbn [bind].
  fold (score_body x x 0).
  rewrite (score_range_ok x x 0 0 (0 + len x) 0) by lia. cbn [bind].
  rewrite cnt_all by (try lia; intros q Hq; apply hit_same; lia).
  replace (0 + (0 + len x - 0)) with (len x) by lia.
  rewrite Z.eqb_refl.
  destruct (len x =? 0) eqn:F; [apply Z.eqb_eq in F; lia |].
  reflexivity.
Qed.

Lemma scan_second fuel :
  scan_loop fuel I_ x x 0 (0 + len x) (0 + len x) 0 (len x) 0
  = Done (0 + len x, 0, len x, 0).
Proof.
  destruct fuel; cbn [scan_loop];
    (destruct (0 + len x <? len x) eqn:E; [apply Z.ltb_lt in E; lia | reflexivity]).
Qed.

(** The one triple written covers [x] with add-data that is all zero. *)
Lemma emit_same d :
  scan d = 0 -> lastscan d = 0 -> lastpos d = 0 -> dblen d = 0 -> eblen d = 0 ->
  len (db d) = len x -> len (eb d) = len x ->
  patch d = {| sent := []; quota := None |} ->
  exists d',
    emit x x d (0 + len x) 0 (len x) = Done d'
    /\ scan d' = len x /\ err d' = None
    /\ patch d' = {| sent := [MBsdiffControl
                                {| Add := len x; Copy := 0; Seek := - len x |}];
                     quota := None |}
    /\ dblen d' = len x /\ eblen d' = 0
    /\ len (db d') = len x /\ len (eb d') = len x
    /\ forall i, 0 <= i < len x -> bn (db d') i = x00.
Proof.
  intros Hs Hls Hlp Hdl Hel Hdb Heb Hp. unfold emit.
  rewrite Hls, Hlp, Hdl, Hel, Hp.
  destruct (extend_forward_ok x x (0 + len x) 0 0)
    as (lenf & Ef & Hf1 & Hf2 & Hf3); try lia.
  rewrite Ef. cbn [bind].
  assert (Hlenf : lenf = len x).
  { rewrite Hf3; [lia |]. intros k Hk. split; [lia | reflexivity]. }
  subst lenf.
  destruct (extend_backward_ok x x (0 + len x) 0 0)
    as (lenb & Eb & Hb1 & Hb2 & Hb3); try lia.
  rewrite Eb. cbn [bind]. rewrite (Hb3 ltac:(lia)) in *.
  destruct (resolve_overlap_ok x x (0 + len x) 0 0 0 (len x) 0)
    as (lenf' & lenb' & Er & _ & _ & _ & Hr); try lia.
  rewrite Er. cbn [bind]. destruct (Hr ltac:(lia)) as [-> ->].
  destruct (fill_db x x (db d) 0 0 0 (len x))
    as (db' & Ed & Ld & _ & Bd); try lia.
  rewrite Ed. cbn [bind].
  destruct (fill_eb x (eb d) 0 (0 + len x) (0 + len x - 0 - (0 + len x)))
    as (eb' & Ee & Le & _); try lia.
  rewrite Ee. cbn [bind]. cbv zeta.
  rewrite WriteMessage_unlimited by reflexivity.
  eexists. split; [reflexivity |].
  cbn [scan pos length_ lastscan lastpos lastoffset db eb dblen eblen patch err
       sent quota app].
  split; [lia |]. split; [reflexivity |].
  split; [repeat f_equal; lia |].
  split; [lia |]. split; [lia |]. split; [lia |]. split; [lia |].
  intros i Hi. specialize (Bd i Hi). rewrite !Z.add_0_l in Bd. rewrite Bd.
  rewrite Z.sub_diag. reflexivity.
Qed.

Lemma diff_loop_same :
  exists d,
    diff_loop I_ x x
      {| scan := 0; pos := 0; length_ := 0;
         lastscan := 0; lastpos := 0; lastoffset := 0;
         db := repeat x00 (length x); eb := repeat x00 (length x);
         dblen := 0; eblen := 0;
         patch := {| sent := []; quota := None |}; err := None |}
    = Done d
    /\ err d = None
    /\ patch d = {| sent := [MBsdiffControl
                               {| Add := len x; Copy := 0; Seek := - len x |}];
                    quota := None |}
    /\ dblen d = len x /\ eblen d = 0
    /\ len (db d) = len x /\ len (eb d) = len x
    /\ forall i, 0 <= i < len x -> bn (db d) i = x00.
Proof.
  unfold diff_loop.
  replace (2 * length x + 2)%nat with (S (S (2 * length x))) by lia.
  match goal with
  | |- context [while _ ?c ?b ?s0] =>
      set (cond := c); set (body := b); set (d0 := s0)
  end.
  set (d1 := {| scan := 0; pos := 0; length_ := len x;
                lastscan := 0; lastpos := 0; lastoffset := 0;
                db := repeat x00 (length x); eb := repeat x00 (length x);
                dblen := 0; eblen := 0;
                patch := {| sent := []; quota := None |}; err := None |}).
  assert (C0 : cond d0 = Done true).
  { unfold cond, d0. cbn [err scan]. f_equal. apply Z.ltb_lt. lia. }
  assert (B0 : body d0 = Done d1).
  { unfold body, d0. cbn [scan length_ lastoffset pos].
    replace (0 + 0) with 0 by lia. rewrite scan_first. cbn [bind].
    rewrite Z.eqb_refl. cbn [negb orb].
    destruct (0 =? len x) eqn:F; [apply Z.eqb_eq in F; lia |].
    reflexivity. }
  assert (C1 : cond d1 = Done true).
  { unfold cond, d1. cbn [err scan]. f_equal. apply Z.ltb_lt. lia. }
  destruct (emit_same d1) as (d2 & E2 & H1 & H2 & H3 & H4 & H5 & H6 & H7 & H8);
    try reflexivity; try apply len_repeat.
  assert (B1 : body d1 = Done d2).
  { unfold body, d1. cbn [scan length_ lastoffset pos].
    rewrite scan_second. cbn [bind].
    destruct (len x =? 0) eqn:F; [apply Z.eqb_eq in F; lia |].
    cbn [negb orb]. exact E2. }
  assert (C2 : cond d2 = Done false).
  { unfold cond. rewrite H2, H1. f_equal. apply Z.ltb_irrefl. }
  rewrite (while_step _ cond body d0 d1 C0 B0).
  rewrite (while_step _ cond body d1 d2 C1 B1).
  rewrite (while_stop _ cond body d2 C2).
  exists d2. split; [reflexivity |]. auto 10.
Qed.

End Same.

(** The bytes that a list of control triples takes from the add-data
    and from the extra-data *)
Definition total_add (cs : list BsdiffControl) : Z :=
  fold_right (fun c a => Add c + a) 0 cs.
Definition total_copy (cs : list BsdiffControl) : Z :=
  fold_right (fun c a => Copy c + a) 0 cs.

(** The control triples of the patch of [x] against itself *)
Definition same_controls (x : list byte) : list BsdiffControl :=
  match x with
  | [] => []
  | _ => [{| Add := len x; Copy := 0; Seek := - len x |}]
  end.

Definition same_patch (x : list byte) : list message :=
  map MBsdiffControl (same_controls x)
  ++ [MBsdiffControl {| Add := -1; Copy := 0; Seek := 0 |};
      MBsdiffDiff (repeat x00 (length x)); MBsdiffExtra []].

Lemma bsdiff_same_output (x : list byte) :
  Bsdiff.BSDiff {| r_data := x; r_err := None |}
                {| r_data := x; r_err := None |}
                {| sent := []; quota := None |}
  = Done ({| sent := same_patch x; quota := None |}, None).
Proof.
  destruct x as [| c x']; [reflexivity |].
  set (x := c :: x').
  assert (Hn : 1 <= len x) by (unfold x, len; cbn [length]; lia).
  unfold Bsdiff.BSDiff. cbn [ReadAll r_err r_data].
  destruct (qsufsort_sorts x) as (I_ & EI & Hperm & Hsorted).
  rewrite EI. cbn [bind].
  destruct (diff_loop_same x I_ Hperm Hsorted Hn)
    as (d & Ed & He & Hp & Hdl & Hel & Ldb & Leb & Hz).
  rewrite Ed. cbn [bind]. rewrite He, Hp. cbv zeta.
  rewrite WriteMessage_unlimited by reflexivity.
  rewrite slice_ok by lia. cbn [bind].
  rewrite WriteMessage_unlimited by reflexivity.
  rewrite slice_ok by lia. cbn [bind].
  rewrite WriteMessage_unlimited by reflexivity.
  cbn [sent quota app].
  rewrite Hdl, Hel. rewrite !Z.sub_0_r. cbn [Z.to_nat skipn firstn].
  change (same_patch x)
    with [MBsdiffControl {| Add := len x; Copy := 0; Seek := - len x |};
          MBsdiffControl {| Add := -1; Copy := 0; Seek := 0 |};
          MBsdiffDiff (repeat x00 (length x)); MBsdiffExtra []].
  repeat f_equal.
  apply bn_ext.
  - rewrite len_firstn by lia. rewrite len_repeat. reflexivity.
  - intros k Hk. rewrite len_firstn in Hk by lia.
    rewrite bn_firstn by lia. rewrite Hz by lia.
    unfold bn. now rewrite nth_repeat.
Qed.

Lemma bspatch_same_patch (x : list byte) (fuel : nat) :
  len x < 2 ^ 63 ->
  Bsdiff.BSPatch (list byte) Bsdiff.buffer_Write (S fuel)
    {| r_data := x; r_err := None |} [] (len x) (same_patch x)
  = ([], x, Done None).
Proof.
  intros Hx. destruct x as [| c x']; [reflexivity |].
  set (x := c :: x') in *.
  assert (Hn : 1 <= len x) by (unfold x, len; cbn [length]; lia).
  unfold Bsdiff.BSPatch.
  change (same_patch x)
    with (map MBsdiffControl [{| Add := len x; Copy := 0; Seek := - len x |}]
          ++ [MBsdiffControl {| Add := -1; Copy := 0; Seek := 0 |};
              MBsdiffDiff (repeat x00 (length x)); MBsdiffExtra []]).
  rewrite read_controls_emitted by (constructor; [cbn; lia | constructor]).
  cbn [app ReadMessage asBsdiffDiff asBsdiffExtra ReadAll r_err r_data].
  destruct (len x <? 0) eqn:F; [apply Z.ltb_lt in F; lia |].
  set (s0 := {| Bsdiff.nbuf := repeat x00 (Z.to_nat (len x)); Bsdiff.oldpos := 0;
                Bsdiff.newpos := 0; Bsdiff.diffOffset := 0;
                Bsdiff.extraOffset := 0 |}).
  set (c0 := {| Add := len x; Copy := 0; Seek := - len x |}).
  destruct (apply_control_ok x (repeat x00 (length x)) [] (len x) Hx Hx s0 c0)
    as (nb' & Ea & La & _ & Ba & _);
    cbn [Bsdiff.nbuf Bsdiff.oldpos Bsdiff.newpos Bsdiff.diffOffset
         Bsdiff.extraOffset Add Copy Seek s0 c0];
    rewrite ?len_repeat; try lia; try (unfold len; cbn [length]; lia).
  cbn [Bsdiff.apply_controls]. rewrite Ea. cbn [bind].
  replace nb' with x.
  - cbn [Bsdiff.nbuf]. rewrite write_all_buffer. reflexivity.
  - symmetry. apply bn_ext; [assumption |]. intros k Hk.
    cbn [Bsdiff.nbuf Bsdiff.oldpos Bsdiff.newpos Bsdiff.diffOffset
         Bsdiff.extraOffset Add Copy Seek s0 c0] in Ba.
    specialize (Ba k ltac:(lia)). rewrite !Z.add_0_l in Ba. rewrite Ba.
    unfold bn at 1. rewrite nth_repeat.
    change (b2z x00) with 0. rewrite Z.add_0_l. apply z2b_b2z.
Qed.

(** C7: the patch of [x] against itself is one triple that adds
    [len(x)] zero bytes to [x] (none when [x] is empty), then the
    sentinel; no byte is copied, the extra-data is empty, and
    [BSPatch] turns [x] and the patch back into [x]. *)
Theorem bsdiff_same_buffer (x : list byte) (fuel : nat) :
  len x < 2 ^ 63 ->
  exists cs D E,
    Bsdiff.BSDiff {| r_data := x; r_err := None |}
                  {| r_data := x; r_err := None |}
                  {| sent := []; quota := None |}
    = Done ({| sent := map MBsdiffControl cs
                       ++ [MBsdiffControl {| Add := -1; Copy := 0; Seek := 0 |};
                           MBsdiffDiff D; MBsdiffExtra E];
               quota := None |}, None)
    /\ Bsdiff.BSPatch (list byte) Bsdiff.buffer_Write (S fuel)
         {| r_data := x; r_err := None |} [] (len x)
         (map MBsdiffControl cs
          ++ [MBsdiffControl {| Add := -1; Copy := 0; Seek := 0 |};
              MBsdiffDiff D; MBsdiffExtra E])
       = ([], x, Done None)
    /\ total_copy cs = 0 /\ E = []
    /\ total_add cs = len x /\ len D = len x
    /\ Forall (fun b => b = x00) D.
Proof.
  intros Hx. exists (same_controls x), (repeat x00 (length x)), [].
  split; [apply bsdiff_same_output |].
  split; [now apply bspatch_same_patch |].
  split; [destruct x; cbn; lia |]. split; [reflexivity |].
  split; [destruct x; [reflexivity |]; cbn [same_controls total_add fold_right Add];
          lia |].
  split; [apply len_repeat |].
  apply Forall_forall. intros b Hb. now apply repeat_spec in Hb.
Qed.

Lemma bsdiff_same_buffer_witness :
  len (bytes_of "banana") < 2 ^ 63
  /\ exists cs D E,
       Bsdiff.BSDiff {| r_data := bytes_of "banana"; r_err := None |}
                     {| r_data := bytes_of "banana"; r_err := None |}
                     {| sent := []; quota := None |}
       = Done ({| sent := map MBsdiffControl cs
                          ++ [MBsdiffControl {| Add := -1; Copy := 0; Seek := 0 |};
                              MBsdiffDiff D; MBsdiffExtra E];
                  quota := None |}, None)
       /\ Bsdiff.BSPatch (list byte) Bsdiff.buffer_Write 1
            {| r_data := bytes_of "banana"; r_err := None |} []
            (len (bytes_of "banana"))
            (map MBsdiffControl cs
             ++ [MBsdiffControl {| Add := -1; Copy := 0; Seek := 0 |};
                 MBsdiffDiff D; MBsdiffExtra E])
          = ([], bytes_of "banana", Done None)
       /\ total_copy cs = 0 /\ E = []
       /\ total_add cs = len (bytes_of "banana") /\ len D = len (bytes_of "banana")
       /\ Forall (fun b => b = x00) D.
Proof.
  split; [reflexivity |].
  apply (bsdiff_same_buffer (bytes_of "banana") 0). reflexivity.
Defined.

(* ================================================================== *)
(** * Further properties of the codec *)
(* ================================================================== *)

(* ------------------------------------------------------------------ *)
(** ** [matchlen] is the length of the longest common prefix *)

Lemma matchlen_stops a b :
  Bsdiff.matchlen a b < len a -> Bsdiff.matchlen a b < len b ->
  bn a (Bsdiff.matchlen a b) <> bn b (Bsdiff.matchlen a b).
Proof.
  revert b. induction a as [| x a IH]; intros b; cbn [Bsdiff.matchlen].
  - unfold len; cbn [length]. lia.
  - destruct b as [| y b]; [unfold len; cbn [length]; lia |].
    destruct (Byte.eqb x y) eqn:E.
    + intros Ha Hb. pose proof (matchlen_bounds a b) as (H0 & _).
      unfold len in Ha, Hb. cbn [length] in Ha, Hb.
      specialize (IH b ltac:(unfold len; lia) ltac:(unfold len; lia)).
      unfold bn in *.
      replace (Z.to_nat (1 + Bsdiff.matchlen a b))
        with (S (Z.to_nat (Bsdiff.matchlen a b))) by lia.
      exact IH.
    + intros _ _. apply byte_eqb_neq in E. exact E.
Qed.

Lemma matchlen_sym a b : Bsdiff.matchlen a b = Bsdiff.matchlen b a.
Proof.
  revert b. induction a as [| x a IH]; intros [| y b]; cbn [Bsdiff.matchlen];
    try reflexivity.
  destruct (Byte.eqb x y) eqn:E.
  - apply byte_eqb_eq in E. subst y. rewrite byte_eqb_refl. now rewrite IH.
  - apply byte_eqb_neq in E.
    destruct (Byte.eqb y x) eqn:F; [| reflexivity].
    apply byte_eqb_eq in F. congruence.
Qed.

(** X1: [matchlen(a, b)] is the length of the longest common prefix of
    [a] and [b]: it is at most both lengths, the two slices agree on
    that many leading bytes, and where both go on they differ at the
    next byte. *)
Theorem matchlen_longest_common_prefix (a b : list byte) :
  0 <= Bsdiff.matchlen a b <= len a
  /\ Bsdiff.matchlen a b <= len b
  /\ firstn (Z.to_nat (Bsdiff.matchlen a b)) a
     = firstn (Z.to_nat (Bsdiff.matchlen a b)) b
  /\ (Bsdiff.matchlen a b < len a -> Bsdiff.matchlen a b < len b ->
      bn a (Bsdiff.matchlen a b) <> bn b (Bsdiff.matchlen a b)).
Proof.
  pose proof (matchlen_bounds a b) as (H0 & H1 & H2).
  split; [lia |]. split; [assumption |]. split; [| apply matchlen_stops].
  apply bn_ext.
  - rewrite !len_firstn by lia. reflexivity.
  - intros k Hk. rewrite len_firstn in Hk by lia.
    rewrite !bn_firstn by lia. now apply matchlen_agree.
Qed.

(* ------------------------------------------------------------------ *)
(** ** [search] finds a longest match *)

Lemma compare_nil_r a : Bsdiff.bytes_compare a [] <> Lt.
Proof. destruct a; discriminate. Qed.

(** Between two byte strings in order, anything in between shares with
    either end at least what the two ends share. *)
Lemma matchlen_between a :
  forall b c,
    Bsdiff.bytes_compare a b <> Gt -> Bsdiff.bytes_compare b c <> Gt ->
    Bsdiff.matchlen a c <= Bsdiff.matchlen b c
    /\ Bsdiff.matchlen a c <= Bsdiff.matchlen a b.
Proof.
  induction a as [| x a IH]; intros b c Hab Hbc.
  - cbn [Bsdiff.matchlen]. pose proof (matchlen_bounds b c). lia.
  - destruct b as [| y b]; [cbn in Hab; congruence |].
    destruct c as [| z c]; [cbn in Hbc; congruence |].
    cbn [Bsdiff.bytes_compare] in Hab, Hbc. cbn [Bsdiff.matchlen].
    destruct (Byte.eqb x z) eqn:Exz.
    + apply byte_eqb_eq in Exz. subst z.
      destruct (b2z x ?= b2z y) eqn:Cxy; [| | congruence].
      * apply Z.compare_eq in Cxy. apply b2z_inj in Cxy. subst y.
        rewrite Z.compare_refl in Hbc. rewrite byte_eqb_refl.
        specialize (IH b c Hab Hbc). lia.
      * rewrite Z.compare_lt_iff in Cxy.
        destruct (b2z y ?= b2z x) eqn:Cyx; [| | congruence].
        { apply Z.compare_eq in Cyx. lia. }
        { rewrite Z.compare_lt_iff in Cyx. lia. }
    + pose proof (matchlen_bounds (y :: b) (z :: c)) as (H1 & _).
      pose proof (matchlen_bounds (x :: a) (y :: b)) as (H2 & _).
      cbn [Bsdiff.matchlen] in H1, H2. lia.
Qed.

Section SearchBest.

Import Bsdiff.

Variable obuf nbuf : list byte.
Variable I_ : list Z.

Hypothesis I_perm : isperm obuf I_.
Hypothesis I_sorted :
  forall q q', 0 <= q < q' -> q' < len obuf + 1 ->
               prec obuf (zn I_ q) (zn I_ q').

(** The suffixes at the positions up to [st] that is below [nbuf], and
    those from [en] on that is not, match [nbuf] no better than the one
    at [st], or at [en]. *)
Lemma below_st st_ q :
  0 <= q <= st_ -> st_ <= len obuf ->
  (st_ = 0 \/ bytes_compare (sfx obuf (zn I_ st_)) nbuf = Lt) ->
  matchlen (sfx obuf (zn I_ q)) nbuf <= matchlen (sfx obuf (zn I_ st_)) nbuf.
Proof.
  intros Hq Hs Hlt.
  destruct (Z.eq_dec q st_) as [-> | Hne]; [lia |].
  destruct Hlt as [-> | Hlt]; [lia |].
  pose proof (I_sorted q st_ ltac:(lia) ltac:(lia)) as Hp. unfold prec in Hp.
  apply (matchlen_between (sfx obuf (zn I_ q)) (sfx obuf (zn I_ st_)) nbuf);
    congruence.
Qed.

Lemma above_en en q :
  0 <= en -> en <= q <= len obuf ->
  (en = len obuf \/ bytes_compare (sfx obuf (zn I_ en)) nbuf <> Lt) ->
  matchlen (sfx obuf (zn I_ q)) nbuf <= matchlen (sfx obuf (zn I_ en)) nbuf.
Proof.
  intros He Hq Hge.
  destruct (Z.eq_dec q en) as [-> | Hne]; [lia |].
  destruct Hge as [-> | Hge]; [lia |].
  pose proof (I_sorted en q ltac:(lia) ltac:(lia)) as Hp. unfold prec in Hp.
  rewrite (matchlen_sym (sfx obuf (zn I_ q))), (matchlen_sym (sfx obuf (zn I_ en))).
  apply (matchlen_between nbuf (sfx obuf (zn I_ en)) (sfx obuf (zn I_ q))).
  - rewrite compare_antisym. destruct (bytes_compare (sfx obuf (zn I_ en)) nbuf);
      cbn; congruence.
  - congruence.
Qed.

Lemma search_rec_best fuel st_ en :
  0 <= st_ <= en -> en <= len obuf -> en - st_ <= Z.of_nat fuel ->
  (st_ = 0 \/ bytes_compare (sfx obuf (zn I_ st_)) nbuf = Lt) ->
  (en = len obuf \/ bytes_compare (sfx obuf (zn I_ en)) nbuf <> Lt) ->
  exists p,
    search_rec fuel I_ obuf nbuf st_ en = Done (p, matchlen (sfx obuf p) nbuf)
    /\ 0 <= p <= len obuf
    /\ forall q, 0 <= q <= len obuf ->
                 matchlen (sfx obuf (zn I_ q)) nbuf <= matchlen (sfx obuf p) nbuf.
Proof.
  destruct I_perm as (Il & Ir & _).
  assert (I_range : forall q, 0 <= q <= len obuf -> 0 <= zn I_ q <= len obuf).
  { intros q Hq. specialize (Ir q ltac:(lia)). lia. }
  assert (Base : forall fuel st_ en,
             0 <= st_ <= en -> en <= len obuf -> en - st_ < 2 ->
             (st_ = 0 \/ bytes_compare (sfx obuf (zn I_ st_)) nbuf = Lt) ->
             (en = len obuf \/ bytes_compare (sfx obuf (zn I_ en)) nbuf <> Lt) ->
             exists p,
               search_rec fuel I_ obuf nbuf st_ en
               = Done (p, matchlen (sfx obuf p) nbuf)
               /\ 0 <= p <= len obuf
               /\ forall q, 0 <= q <= len obuf ->
                            matchlen (sfx obuf (zn I_ q)) nbuf
                            <= matchlen (sfx obuf p) nbuf).
  { clear fuel st_ en. intros fuel st_ en Hse Hen L Hlo Hhi.
    rewrite search_rec_base by lia.
    pose proof (I_range st_ ltac:(lia)) as Rs.
    pose proof (I_range en ltac:(lia)) as Re.
    rewrite !ld_zn by lia. cbn [bind].
    rewrite !slice_from_ok by lia. cbn [bind].
    fold (sfx obuf (zn I_ st_)). fold (sfx obuf (zn I_ en)).
    assert (Hall : forall q, 0 <= q <= len obuf ->
                             matchlen (sfx obuf (zn I_ q)) nbuf
                             <= Z.max (matchlen (sfx obuf (zn I_ st_)) nbuf)
                                      (matchlen (sfx obuf (zn I_ en)) nbuf)).
    { intros q Hq. destruct (Z_le_gt_dec q st_) as [K | K].
      - pose proof (below_st st_ q ltac:(lia) ltac:(lia) Hlo). lia.
      - pose proof (above_en en q ltac:(lia) ltac:(lia) Hhi). lia. }
    destruct (_ >? _) eqn:F.
    - apply Z.gtb_lt in F. exists (zn I_ st_). split; [reflexivity |].
      split; [lia |]. intros q Hq. specialize (Hall q Hq). lia.
    - rewrite Z.gtb_ltb in F. apply Z.ltb_ge in F.
      exists (zn I_ en). split; [reflexivity |].
      split; [lia |]. intros q Hq. specialize (Hall q Hq). lia. }
  revert st_ en. induction fuel as [| fuel IH]; intros st_ en Hse Hen Hf Hlo Hhi.
  - apply Base; try assumption; lia.
  - destruct (Z_lt_le_dec (en - st_) 2) as [L | L]; [now apply Base |].
    cbn [search_rec].
    destruct (en - st_ <? 2) eqn:E; [apply Z.ltb_lt in E; lia |].
    set (m := st_ + (en - st_) / 2).
    assert (Hm : st_ < m < en).
    { unfold m.
      pose proof (Z.div_le_lower_bound (en - st_) 2 1 ltac:(lia) ltac:(lia)).
      pose proof (Z.div_lt (en - st_) 2 ltac:(lia) ltac:(lia)). lia. }
    pose proof (I_range m ltac:(lia)) as Rm.
    rewrite ld_zn by lia. cbn [bind]. rewrite slice_from_ok by lia. cbn [bind].
    fold (sfx obuf (zn I_ m)).
    destruct (bytes_compare (sfx obuf (zn I_ m)) nbuf) eqn:C.
    + apply IH; try lia; try assumption. right. congruence.
    + apply IH; try lia; try assumption. right. exact C.
    + apply IH; try lia; try assumption. right. congruence.
Qed.

Lemma search_best :
  exists p,
    search I_ obuf nbuf 0 (len obuf) = Done (p, matchlen (sfx obuf p) nbuf)
    /\ 0 <= p <= len obuf
    /\ forall p', 0 <= p' <= len obuf ->
                  matchlen (sfx obuf p') nbuf <= matchlen (sfx obuf p) nbuf.
Proof.
  pose proof (len_nonneg obuf) as Hn.
  destruct (search_rec_best (Z.to_nat (len obuf - 0)) 0 (len obuf))
    as (p & E & Hp & Hall); try lia; auto.
  exists p. split; [exact E |]. split; [exact Hp |].
  intros p' Hp'. destruct I_perm as (_ & _ & _ & Is).
  destruct (Is p' ltac:(lia)) as (q & Hq & <-). apply Hall. lia.
Qed.

End SearchBest.

(** X2: on the suffix array that [qsufsort] builds for [old], [search]
    over the whole array returns an offset of [old] and the length of
    the prefix that the suffix there shares with [nbuf], and no suffix
    of [old] shares a longer prefix with [nbuf]. *)
Theorem search_finds_longest_match (old nbuf : list byte) :
  exists I_,
    Bsdiff.qsufsort old = Done I_
    /\ exists p n,
         Bsdiff.search I_ old nbuf 0 (len old) = Done (p, n)
         /\ 0 <= p <= len old
         /\ n = Bsdiff.matchlen (skipn (Z.to_nat p) old) nbuf
         /\ forall p', 0 <= p' <= len old ->
                       Bsdiff.matchlen (skipn (Z.to_nat p') old) nbuf <= n.
Proof.
  destruct (qsufsort_sorts old) as (I_ & E & Hp & Hs).
  exists I_. split; [exact E |].
  destruct (search_best old nbuf I_ Hp Hs) as (p & Es & Hr & Hall).
  exists p, (Bsdiff.matchlen (sfx old p) nbuf).
  split; [exact Es |]. split; [exact Hr |]. split; [reflexivity |]. exact Hall.
Qed.

(* ------------------------------------------------------------------ *)
(** ** The suffix array is strictly sorted and starts with the empty suffix *)

Lemma sorted_first (old : list byte) (I_ : list Z) :
  isperm old I_ ->
  (forall q q', 0 <= q < q' -> q' < len old + 1 -> prec old (zn I_ q) (zn I_ q')) ->
  zn I_ 0 = len old.
Proof.
  intros (Il & Ir & Ii & Is) Hs. pose proof (len_nonneg old) as Hn.
  destruct (Is (len old) ltac:(lia)) as (q & Hq & E).
  destruct (Z.eq_dec q 0) as [-> | Hne]; [exact E |].
  specialize (Hs 0 q ltac:(lia) ltac:(lia)). unfold prec in Hs.
  rewrite E, sfx_end in Hs. now apply compare_nil_r in Hs.
Qed.

(** X3: in the array that [qsufsort] returns, the suffixes are in
    strictly increasing order at any two positions, not only at
    consecutive ones, and the first entry is [len(old)], the empty
    suffix. *)
Theorem qsufsort_strictly_sorted (old : list byte) :
  exists I_,
    Bsdiff.qsufsort old = Done I_
    /\ zn I_ 0 = len old
    /\ forall q q', 0 <= q < q' -> q' <= len old ->
         Bsdiff.bytes_compare (skipn (Z.to_nat (zn I_ q)) old)
                              (skipn (Z.to_nat (zn I_ q')) old) = Lt.
Proof.
  destruct (qsufsort_sorts old) as (I_ & E & Hp & Hs).
  exists I_. split; [exact E |]. split; [now apply sorted_first |].
  intros q q' Hq Hq'. apply (Hs q q'); lia.
Qed.

(* ------------------------------------------------------------------ *)
(** ** [BSDiff] with any writer *)

Lemma total_add_snoc cs c : total_add (cs ++ [c]) = total_add cs + Add c.
Proof.
  unfold total_add. induction cs as [| c0 cs IH]; cbn [fold_right app]; lia.
Qed.

Lemma total_copy_snoc cs c : total_copy (cs ++ [c]) = total_copy cs + Copy c.
Proof.
  unfold total_copy. induction cs as [| c0 cs IH]; cbn [fold_right app]; lia.
Qed.

(** What is left of the quota [q0] of a write context after [k] more
    messages *)
Definition room_after (q0 : option nat) (k : nat) (q : option nat) : Prop :=
  match q0 with
  | None => q = None
  | Some n0 => exists n, q = Some n /\ n0 = (n + k)%nat
  end.

Lemma WriteMessage_cases w m q0 k :
  room_after q0 k (quota w) ->
  (WriteMessage w m = (w, Some (ErrWriter 0)) /\ quota w = Some O)
  \/ exists w', WriteMessage w m = (w', None)
                /\ sent w' = sent w ++ [m]
                /\ room_after q0 (S k) (quota w').
Proof.
  intros H. unfold WriteMessage. destruct (quota w) as [[| n] |] eqn:E.
  - left. auto.
  - right. eexists. split; [reflexivity |]. split; [reflexivity |].
    cbn [quota]. unfold room_after in *. destruct q0 as [n0 |].
    + destruct H as (n' & Hn & Hs). injection Hn as <-. exists n. split; [reflexivity | lia].
    + discriminate.
  - right. eexists. split; [reflexivity |]. split; [reflexivity |].
    cbn [quota]. unfold room_after in *. destruct q0 as [n0 |]; [| reflexivity].
    destruct H as (n' & Hn & _). discriminate.
Qed.

Section DiffAnyWriter.

Import Bsdiff.

Variable obuf nbuf : list byte.
Variable I_ : list Z.

Hypothesis I_len : len I_ = len obuf + 1.
Hypothesis I_range : forall q, 0 <= q <= len obuf -> 0 <= zn I_ q <= len obuf.

Variable w0 : WriteContext.

(** Where the triples [cs] leave the cursor of [BSPatch] into old *)
Definition total_old (cs : list BsdiffControl) : Z :=
  fold_right (fun c a => Add c + Seek c + a) 0 cs.

(** [reads_old cs oldpos]: from the cursor [oldpos], every triple of
    [cs] has [Add] and [Copy] not negative, adds old bytes that lie
    inside [obuf], and seeks to a cursor inside [obuf]. *)
Fixpoint reads_old (cs : list BsdiffControl) (oldpos : Z) : Prop :=
  match cs with
  | [] => True
  | c :: cs =>
      0 <= Add c /\ 0 <= Copy c
      /\ 0 <= oldpos /\ oldpos + Add c <= len obuf
      /\ 0 <= oldpos + Add c + Seek c <= len obuf
      /\ reads_old cs (oldpos + Add c + Seek c)
  end.

Lemma total_old_snoc cs c : total_old (cs ++ [c]) = total_old cs + (Add c + Seek c).
Proof.
  unfold total_old. induction cs as [| c0 cs IH]; cbn [fold_right app]; lia.
Qed.

Lemma reads_old_snoc cs c :
  forall oldpos,
    reads_old cs oldpos ->
    0 <= Add c -> 0 <= Copy c ->
    0 <= oldpos + total_old cs -> oldpos + total_old cs + Add c <= len obuf ->
    0 <= oldpos + total_old cs + Add c + Seek c <= len obuf ->
    reads_old (cs ++ [c]) oldpos.
Proof.
  induction cs as [| c0 cs IH]; intros op H Ha Hc H1 H2 H3;
    cbn [reads_old app total_old fold_right] in *.
  - repeat split; try lia.
  - destruct H as (A1 & A2 & A3 & A4 & A5 & A6).
    fold (total_old cs) in *.
    repeat split; try lia. apply IH; try assumption; lia.
Qed.

(** The control triples written so far *)
Definition wrote (d : dstate) (cs : list BsdiffControl) : Prop :=
  sent (patch d) = sent w0 ++ map MBsdiffControl cs
  /\ Forall (fun c => 0 <= Add c /\ 0 <= Copy c) cs
  /\ room_after (quota w0) (length cs) (quota (patch d)).

Definition dbounds (d : dstate) (cs : list BsdiffControl) : Prop :=
  0 <= lastscan d <= scan d /\ scan d <= len nbuf
  /\ 0 <= length_ d /\ (scan d < len nbuf -> scan d + length_ d <= len nbuf)
  /\ 0 <= pos d <= len obuf /\ 0 <= lastpos d <= len obuf
  /\ 0 <= scan d + lastoffset d
  /\ 0 <= dblen d /\ 0 <= eblen d /\ dblen d + eblen d = lastscan d
  /\ len (db d) = len nbuf /\ len (eb d) = len nbuf
  /\ (scan d = len nbuf -> lastscan d = len nbuf)
  /\ total_add cs = dblen d /\ total_copy cs = eblen d
  /\ reads_old cs 0 /\ total_old cs = lastpos d.

(** The invariant of the main loop, for a writer that may fail *)
Definition dsafe (d : dstate) : Prop :=
  exists cs,
    wrote d cs
    /\ match err d with
       | Some e => e = ErrWriter 0 /\ quota (patch d) = Some O
       | None => dbounds d cs
       end.

Lemma emit_any d cs scan' pos' length' :
  wrote d cs -> dbounds d cs ->
  lastscan d <= scan' <= len nbuf -> scan d <= scan' ->
  0 <= pos' <= len obuf -> 0 <= length' ->
  (scan' < len nbuf -> scan' + length' <= len nbuf) ->
  exists d',
    emit obuf nbuf d scan' pos' length' = Done d'
    /\ dsafe d' /\ scan d' = scan' /\ length_ d' = length'.
Proof.
  intros (Hsent & Hcs & Hroom)
         (Hls & Hsc & Hlen & Hsl & Hpos & Hlp & Hoff & Hdl & Hel
          & Hsum & Hdb & Heb & Hend & Hta & Htc & Hro & Hto)
         Hs' Hss' Hp' Hl' Hsl'.
  unfold emit.
  destruct (extend_forward_ok obuf nbuf scan' (lastscan d) (lastpos d))
    as (lenf & Ef & Hf1 & Hf2 & _); try lia.
  rewrite Ef. cbn [bind].
  destruct (extend_backward_ok obuf nbuf scan' (lastscan d) pos')
    as (lenb & Eb & Hb1 & Hb2 & Hb3); try lia.
  rewrite Eb. cbn [bind].
  destruct (resolve_overlap_ok obuf nbuf scan' pos' (lastscan d) (lastpos d)
              lenf lenb)
    as (lenf' & lenb' & Er & Hr1 & Hr2 & Hr3 & _); try lia.
  rewrite Er. cbn [bind].
  destruct (fill_db obuf nbuf (db d) (dblen d) (lastscan d) (lastpos d) lenf')
    as (db' & Ed & Ld & _); try lia.
  rewrite Ed. cbn [bind].
  destruct (fill_eb nbuf (eb d) (eblen d) (lastscan d + lenf')
              (scan' - lenb' - (lastscan d + lenf')))
    as (eb' & Ee & Le & _); try lia.
  rewrite Ee. cbn [bind]. cbv zeta.
  set (c := {| Add := lenf';
               Copy := scan' - lenb' - (lastscan d + lenf');
               Seek := pos' - lenb' - (lastpos d + lenf') |}).
  destruct (WriteMessage_cases (patch d) (MBsdiffControl c) _ _ Hroom)
    as [[Ew Hq] | (w' & Ew & Hw1 & Hw2)]; rewrite Ew.
  - eexists. split; [reflexivity |].
    cbn [scan length_]. split; [| split; reflexivity].
    exists cs. cbn [err patch]. split; [| split; [reflexivity | exact Hq]].
    split; [exact Hsent |]. split; [exact Hcs | exact Hroom].
  - eexists. split; [reflexivity |].
    cbn [scan length_]. split; [| split; reflexivity].
    exists (cs ++ [c]). cbn [err patch]. split.
    + unfold wrote. cbn [patch].
      split; [rewrite Hw1, Hsent, map_app, <- app_assoc; reflexivity |].
      split.
      * apply Forall_app. split; [exact Hcs |].
        constructor; [unfold c; cbn [Add Copy]; lia | constructor].
      * rewrite length_app. cbn [length].
        replace (length cs + 1)%nat with (S (length cs)) by lia. exact Hw2.
    + unfold dbounds.
      cbn [scan pos length_ lastscan lastpos lastoffset db eb dblen eblen].
      rewrite total_add_snoc, total_copy_snoc, total_old_snoc.
      assert (Hro' : reads_old (cs ++ [c]) 0).
      { apply reads_old_snoc; try assumption; unfold c; cbn [Add Copy Seek]; lia. }
      unfold c. cbn [Add Copy Seek].
      split; [lia |]. split; [lia |]. split; [lia |]. split; [assumption |].
      split; [lia |]. split; [lia |]. split; [lia |]. split; [lia |].
      split; [lia |]. split; [lia |]. split; [lia |]. split; [lia |].
      split; [intros Hx; rewrite (Hb3 ltac:(lia)) in Hr2; lia |].
      split; [lia |]. split; [lia |]. split; [exact Hro' | lia].
Qed.

Lemma diff_loop_any d0 :
  dsafe d0 -> err d0 = None -> scan d0 = 0 ->
  exists d,
    diff_loop I_ obuf nbuf d0 = Done d /\ dsafe d
    /\ (err d = None -> scan d = len nbuf).
Proof.
  intros H0 He0 Hs0. unfold diff_loop.
  match goal with
  | |- context [while ?f ?c ?b d0] =>
      destruct (while_inv
                  (fun d => dsafe d /\ scan d <= len nbuf)
                  (fun d => 2 * (len nbuf - scan d)
                            + (if length_ d =? 0 then 1 else 0))
                  c b) with (fuel := f) (s := d0)
        as (d & E & (Hd & Hle) & Hc)
  end.
  - intros d _. eauto.
  - intros d ((cs & Hw & Hb) & _) Hc.
    destruct (err d) as [e |] eqn:He; [discriminate |].
    injection Hc as Hc. apply Z.ltb_lt in Hc.
    pose proof Hb as (Hls & Hsc & Hlen & Hsl & Hpos & Hlp & Hoff & Hdl & Hel
                      & Hsum & Hdb & Heb & Hend & Hta & Htc & Hro & Hto).
    specialize (Hsl Hc).
    destruct (scan_loop_ok obuf nbuf I_ I_len I_range (S (length nbuf))
                (lastoffset d) (scan d + length_ d) (scan d + length_ d)
                (pos d) (length_ d) 0)
      as (scan' & pos' & length' & os' & Es & Hle & Hout & Hin); try lia.
    { unfold len. lia. }
    rewrite Es. cbn [bind].
    assert (Hbd : scan' <= len nbuf /\ 0 <= pos' <= len obuf /\ 0 <= length'
                  /\ (scan' < len nbuf -> 1 <= length'
                                          /\ scan' + length' <= len nbuf)).
    { destruct (Z_lt_le_dec (scan d + length_ d) (len nbuf)) as [L | L].
      - destruct (Hin L) as (A & B & C & D).
        split; [assumption |]. split; [assumption |].
        split; [rewrite C; apply matchlen_bounds |].
        intros Hx. destruct (D Hx) as (D1 & D2 & _). auto.
      - destruct (Hout L) as (-> & -> & -> & _). lia. }
    destruct Hbd as (B1 & B2 & B3 & B4).
    assert (Hm : forall d', scan d' = scan' -> length_ d' = length' ->
                            0 <= 2 * (len nbuf - scan d')
                                 + (if length_ d' =? 0 then 1 else 0)
                            < 2 * (len nbuf - scan d)
                              + (if length_ d =? 0 then 1 else 0)).
    { intros d' -> ->.
      destruct (length' =? 0) eqn:F1; destruct (length_ d =? 0) eqn:F2;
        rewrite ?Z.eqb_eq, ?Z.eqb_neq in *; lia. }
    destruct (negb (length' =? os') || (scan' =? len nbuf)) eqn:B.
    + destruct (emit_any d cs scan' pos' length' Hw Hb)
        as (d' & Ee & Hd' & E1 & E2); try lia.
      exists d'. split; [exact Ee |]. split; [split; [exact Hd' | lia] |].
      now apply Hm.
    + apply orb_false_iff in B. destruct B as [_ B]. apply Z.eqb_neq in B.
      eexists. split; [reflexivity |].
      split; [split; [| cbn [scan]; lia] | apply Hm; reflexivity].
      exists cs. cbn [err patch]. split; [exact Hw |].
      unfold dbounds.
      cbn [scan pos length_ lastscan lastpos lastoffset db eb dblen eblen].
      split; [lia |]. split; [lia |]. split; [lia |].
      split; [intros Hx; apply B4 in Hx; lia |].
      split; [lia |]. split; [lia |]. split; [lia |]. split; [lia |].
      split; [lia |]. split; [lia |]. split; [lia |]. split; [lia |].
      split; [lia |]. split; [lia |]. split; [lia |]. split; [assumption | lia].
  - split; [assumption |]. rewrite Hs0. apply len_nonneg.
  - rewrite Hs0. unfold len. destruct (length_ d0 =? 0); lia.
  - exists d. split; [exact E |]. split; [exact Hd |].
    intros He. rewrite He in Hc. injection Hc as Hc. apply Z.ltb_ge in Hc. lia.
Qed.

End DiffAnyWriter.

Lemma room_after_0 q : room_after q 0 q.
Proof. destruct q as [n |]; cbn; [exists n; split; [reflexivity | lia] | reflexivity]. Qed.

Lemma room_after_full q0 k : room_after q0 k (Some O) -> q0 = Some k.
Proof.
  destruct q0 as [n0 |]; cbn; [| discriminate].
  intros (n & Hn & ->). injection Hn as <-. reflexivity.
Qed.

(** What [BSDiff] does with any write context, when both readers
    deliver their bytes *)
Lemma bsdiff_run (old new : list byte) (w0 : WriteContext) :
  exists w e cs,
    Bsdiff.BSDiff {| r_data := old; r_err := None |}
                  {| r_data := new; r_err := None |} w0 = Done (w, e)
    /\ Forall (fun c => 0 <= Add c /\ 0 <= Copy c) cs
    /\ match e with
       | None =>
           exists D E,
             reads_old old cs 0 /\
             sent w = sent w0 ++ map MBsdiffControl cs
                      ++ [MBsdiffControl {| Add := -1; Copy := 0; Seek := 0 |};
                          MBsdiffDiff D; MBsdiffExtra E]
             /\ total_add cs = len D /\ total_copy cs = len E
             /\ len D + len E = len new
             /\ room_after (quota w0) (length cs + 3) (quota w)
       | Some e' =>
           e' = ErrWriter 0 /\ quota w = Some O
           /\ exists ms, sent w = sent w0 ++ ms /\ quota w0 = Some (length ms)
       end.
Proof.
  unfold Bsdiff.BSDiff. cbn [ReadAll r_err r_data].
  destruct (qsufsort_sorts old) as (I_ & EI & (Il & Ir & _) & _).
  rewrite EI. cbn [bind].
  assert (I_range : forall q, 0 <= q <= len old -> 0 <= zn I_ q <= len old).
  { intros q Hq. specialize (Ir q ltac:(lia)). lia. }
  pose proof (len_nonneg old) as Ho0. pose proof (len_nonneg new) as Hn0.
  match goal with
  | |- context [Bsdiff.diff_loop I_ old new ?d0] =>
      destruct (diff_loop_any old new I_ Il I_range w0 d0)
        as (d & Ed & (cs & (Hsent & Hcs & Hroom) & Hd) & Hs)
  end.
  { exists []. cbn [Bsdiff.err]. split.
    - split; [cbn; now rewrite app_nil_r |]. split; [constructor |].
      cbn [Bsdiff.patch length]. apply room_after_0.
    - unfold dbounds.
      cbn [Bsdiff.scan Bsdiff.pos Bsdiff.length_ Bsdiff.lastscan Bsdiff.lastpos
           Bsdiff.lastoffset Bsdiff.db Bsdiff.eb Bsdiff.dblen Bsdiff.eblen].
      rewrite !len_repeat. unfold len.
      split; [lia |]. split; [lia |]. split; [lia |]. split; [lia |].
      split; [lia |]. split; [lia |]. split; [lia |]. split; [lia |].
      split; [lia |]. split; [lia |]. split; [lia |]. split; [lia |].
      split; [lia |]. split; [reflexivity |]. split; [reflexivity |].
      split; [exact I | reflexivity]. }
  { reflexivity. }
  { reflexivity. }
  rewrite Ed. cbn [bind].
  destruct (Bsdiff.err d) as [e |] eqn:He.
  { destruct Hd as [-> Hq]. exists (Bsdiff.patch d), (Some (ErrWriter 0)), cs.
    split; [reflexivity |]. split; [exact Hcs |].
    split; [reflexivity |]. split; [exact Hq |].
    exists (map MBsdiffControl cs). split; [exact Hsent |].
    rewrite length_map. rewrite Hq in Hroom. now apply room_after_full. }
  specialize (Hs eq_refl).
  destruct Hd as (Hls & Hsc & Hlen & Hsl & Hpos & Hlp & Hoff & Hdl & Hel
                  & Hsum & Hdb & Heb & Hend & Hta & Htc & Hro & Hto).
  cbv zeta.
  set (m1 := MBsdiffControl {| Add := -1; Copy := 0; Seek := 0 |}).
  destruct (WriteMessage_cases (Bsdiff.patch d) m1 _ _ Hroom)
    as [[Ew Hq] | (w1 & Ew & Hw1 & Hr1)]; rewrite Ew.
  { exists (Bsdiff.patch d), (Some (ErrWriter 0)), cs.
    split; [reflexivity |]. split; [exact Hcs |].
    split; [reflexivity |]. split; [exact Hq |].
    exists (map MBsdiffControl cs). split; [exact Hsent |].
    rewrite length_map. rewrite Hq in Hroom. now apply room_after_full. }
  rewrite slice_ok by lia. cbn [bind].
  rewrite !Z.sub_0_r. cbn [Z.to_nat skipn].
  set (D := firstn (Z.to_nat (Bsdiff.dblen d)) (Bsdiff.db d)).
  destruct (WriteMessage_cases w1 (MBsdiffDiff D) _ _ Hr1)
    as [[Ew2 Hq2] | (w2 & Ew2 & Hw2 & Hr2)]; rewrite Ew2.
  { exists w1, (Some (ErrWriter 0)), cs.
    split; [reflexivity |]. split; [exact Hcs |].
    split; [reflexivity |]. split; [exact Hq2 |].
    exists (map MBsdiffControl cs ++ [m1]).
    split; [rewrite Hw1, Hsent, <- app_assoc; reflexivity |].
    rewrite length_app, length_map. cbn [length]. rewrite Hq2 in Hr1.
    apply room_after_full in Hr1. rewrite Hr1. f_equal. lia. }
  rewrite slice_ok by lia. cbn [bind].
  rewrite !Z.sub_0_r. cbn [Z.to_nat skipn].
  set (E := firstn (Z.to_nat (Bsdiff.eblen d)) (Bsdiff.eb d)).
  destruct (WriteMessage_cases w2 (MBsdiffExtra E) _ _ Hr2)
    as [[Ew3 Hq3] | (w3 & Ew3 & Hw3 & Hr3)]; rewrite Ew3.
  { exists w2, (Some (ErrWriter 0)), cs.
    split; [reflexivity |]. split; [exact Hcs |].
    split; [reflexivity |]. split; [exact Hq3 |].
    exists (map MBsdiffControl cs ++ [m1; MBsdiffDiff D]).
    split; [rewrite Hw2, Hw1, Hsent, <- !app_assoc; reflexivity |].
    rewrite length_app, length_map. cbn [length]. rewrite Hq3 in Hr2.
    apply room_after_full in Hr2. rewrite Hr2. f_equal. lia. }
  exists w3, None, cs. split; [reflexivity |]. split; [exact Hcs |].
  exists D, E. split; [exact Hro |].
  split; [rewrite Hw3, Hw2, Hw1, Hsent, <- !app_assoc; reflexivity |].
  unfold D, E. rewrite !len_firstn by lia.
  split; [exact Hta |]. split; [exact Htc |]. split; [lia |].
  replace (length cs + 3)%nat with (S (S (S (length cs)))) by lia. exact Hr3.
Qed.

(** X4: with a writer that accepts every message, [BSDiff] writes
    control triples whose [Add] and [Copy] are not negative, then the
    sentinel with [Add = -1], then the add-data and the extra-data; the
    [Add] fields sum to the length of the add-data, the [Copy] fields to
    the length of the extra-data, and the two lengths to [len(new)];
    and every triple adds old bytes that lie inside [old] and seeks to
    a cursor inside [old]. *)
Theorem bsdiff_patch_shape (old new : list byte) :
  exists cs D E,
    Bsdiff.BSDiff {| r_data := old; r_err := None |}
                  {| r_data := new; r_err := None |}
                  {| sent := []; quota := None |}
    = Done ({| sent := map MBsdiffControl cs
                       ++ [MBsdiffControl {| Add := -1; Copy := 0; Seek := 0 |};
                           MBsdiffDiff D; MBsdiffExtra E];
               quota := None |}, None)
    /\ Forall (fun c => 0 <= Add c /\ 0 <= Copy c) cs
    /\ total_add cs = len D /\ total_copy cs = len E
    /\ len D + len E = len new
    /\ reads_old old cs 0.
Proof.
  destruct (bsdiff_run old new {| sent := []; quota := None |})
    as (w & e & cs & Er & Hcs & He).
  destruct e as [e' |].
  - destruct He as (_ & _ & ms & _ & Hq). discriminate.
  - destruct He as (D & E & Hro & Hs & Ha & Hc & Hl & Hr).
    exists cs, D, E. split; [| auto 10].
    rewrite Er. destruct w as [s q]. cbn [sent quota room_after app] in *.
    subst. reflexivity.
Qed.

(** X5: for every pair of readers and every write context, [BSDiff]
    terminates without panic.  An error of a reader is returned before
    anything is written.  Otherwise [BSDiff] returns nil when the
    writer accepts all its messages, always so when the writer has no
    limit; else it returns the error of the write that failed, having
    written before it exactly the messages that the writer had room
    for. *)
Theorem bsdiff_any_writer (old new : Reader) (w0 : WriteContext) :
  exists w e ms,
    Bsdiff.BSDiff old new w0 = Done (w, e)
    /\ sent w = sent w0 ++ ms
    /\ match r_err old, r_err new with
       | Some r, _ => e = Some r /\ ms = []
       | None, Some r => e = Some r /\ ms = []
       | None, None =>
           match e with
           | None =>
               match quota w0 with
               | None => quota w = None
               | Some n0 => quota w = Some (n0 - length ms)%nat
                            /\ (length ms <= n0)%nat
               end
           | Some e' =>
               e' = ErrWriter 0 /\ quota w0 = Some (length ms)
               /\ quota w = Some O
           end
       end.
Proof.
  destruct old as [od [r |]] eqn:Eo.
  { exists w0, (Some r), []. cbn. rewrite app_nil_r. auto. }
  destruct new as [nd [r |]] eqn:En.
  { exists w0, (Some r), []. cbn. rewrite app_nil_r. auto. }
  cbn [r_err].
  destruct (bsdiff_run od nd w0) as (w & e & cs & Er & Hcs & He).
  destruct e as [e' |].
  - destruct He as (-> & Hq & ms & Hs & Hq0).
    exists w, (Some (ErrWriter 0)), ms. auto.
  - destruct He as (D & E & _ & Hs & _ & _ & _ & Hr).
    eexists w, None, _. split; [exact Er |]. split; [exact Hs |].
    rewrite length_app, length_map. cbn [length].
    unfold room_after in Hr. destruct (quota w0) as [n0 |]; [| exact Hr].
    destruct Hr as (n & -> & ->). split; [f_equal |]; lia.
Qed.

(* ------------------------------------------------------------------ *)
(** ** [BSPatch]: streams that end early, sizes, and the write loop *)

Ltac run_inv H :=
  repeat match type of H with
         | bind _ _ = Done _ =>
             let a := fresh "a" in
             let E := fresh "E" in
             apply bind_Done_inv in H; destruct H as (a & E & H)
         end.

Section PatchMore.

Import Bsdiff.

Lemma read_controls_no_sentinel cs acc :
  Forall (fun c => Add c <> -1) cs ->
  read_controls (map MBsdiffControl cs) acc = ([], inl ErrEOF).
Proof.
  intros H. revert acc. induction H as [| c cs Hc _ IH]; intros acc.
  - reflexivity.
  - cbn [map read_controls asBsdiffControl].
    destruct (Add c =? -1) eqn:E; [apply Z.eqb_eq in E; contradiction |].
    apply IH.
Qed.

Lemma read_controls_sentinel cs c0 s0 rest acc :
  Forall (fun c => Add c <> -1) cs ->
  read_controls
    (map MBsdiffControl cs
     ++ MBsdiffControl {| Add := -1; Copy := c0; Seek := s0 |} :: rest) acc
  = (rest, inr (acc ++ cs)).
Proof.
  intros H. revert acc. induction H as [| c cs Hc _ IH]; intros acc.
  - cbn. now rewrite app_nil_r.
  - cbn [map app read_controls asBsdiffControl].
    destruct (Add c =? -1) eqn:E; [apply Z.eqb_eq in E; contradiction |].
    rewrite IH. rewrite <- app_assoc. destruct c; reflexivity.
Qed.

(** X6: a patch stream that ends before the sentinel, or before the
    add-data, or before the extra-data, makes [BSPatch] return the
    end-of-stream error of the read context, not [ErrCorrupt]; nothing
    is written. *)
Theorem bspatch_truncated_stream
  W (Write : W -> list byte -> W * Z * option error) fuel
  (old : Reader) (new : W) (newSize : Z) cs c0 s0 D :
  Forall (fun c => Add c <> -1) cs ->
  let sentinel := MBsdiffControl {| Add := -1; Copy := c0; Seek := s0 |} in
  BSPatch W Write fuel old new newSize (map MBsdiffControl cs)
  = ([], new, Done (Some ErrEOF))
  /\ BSPatch W Write fuel old new newSize (map MBsdiffControl cs ++ [sentinel])
     = ([], new, Done (Some ErrEOF))
  /\ BSPatch W Write fuel old new newSize
       (map MBsdiffControl cs ++ [sentinel; MBsdiffDiff D])
     = ([], new, Done (Some ErrEOF)).
Proof.
  intros Hcs sentinel. unfold BSPatch, sentinel.
  rewrite read_controls_no_sentinel by assumption.
  rewrite !read_controls_sentinel by assumption.
  cbn [ReadMessage asBsdiffDiff asBsdiffExtra]. auto.
Qed.

Lemma bspatch_truncated_stream_witness :
  BSPatch (list byte) buffer_Write 1 {| r_data := []; r_err := None |} [] 3
    (map MBsdiffControl [{| Add := 3; Copy := 0; Seek := 0 |}])
  = ([], [], Done (Some ErrEOF)).
Proof.
  apply (bspatch_truncated_stream (list byte) buffer_Write 1
           {| r_data := []; r_err := None |} [] 3
           [{| Add := 3; Copy := 0; Seek := 0 |}] 0 0 []).
  repeat constructor. cbn. discriminate.
Defined.

(** [copy] changes no length. *)
Lemma length_copy {A} (dst src : list A) : length (copy dst src) = length dst.
Proof.
  unfold copy. rewrite length_app, length_firstn, length_skipn. lia.
Qed.

Lemma copy_into_len a lo hi src a' :
  copy_into a lo hi src = Done a' -> len a' = len a.
Proof.
  unfold copy_into. intros H. run_inv H. injection H as <-.
  pose proof (len_slice _ _ _ _ E) as Hl.
  apply slice_Done_inv in E. destruct E as (H1 & H2 & _).
  unfold len in *. rewrite !length_app, length_copy, length_firstn, length_skipn.
  lia.
Qed.

Lemma for_up_keeps {St} (P : St -> Prop) (body : Z -> St -> run St) :
  (forall i s s', P s -> body i s = Done s' -> P s') ->
  forall n lo s s', P s -> for_up n lo body s = Done s' -> P s'.
Proof.
  intros Hb. induction n as [| n IH]; intros lo s s' Hs H; cbn [for_up] in H.
  - now injection H as <-.
  - run_inv H. eapply IH; [| exact H]. eapply Hb; eauto.
Qed.

Lemma apply_control_len newSize obuf diff extra s c s' :
  apply_control newSize obuf diff extra s c = Done (inr s') ->
  len (nbuf s') = len (nbuf s).
Proof.
  unfold apply_control. intros H.
  destruct (_ >? newSize); [discriminate |].
  run_inv H.
  destruct (_ >? newSize); [discriminate |].
  run_inv H. injection H as <-. cbn [nbuf].
  apply copy_into_len in E0, E3.
  assert (L1 : len a1 = len a0).
  { unfold for_range in E1.
    apply (for_up_keeps (fun nb => len nb = len a0)) in E1; auto.
    intros i nb nb' Hnb Hi. run_inv Hi. apply st_Done_inv in Hi.
    destruct Hi as (_ & ->). now rewrite len_set_nth. }
  lia.
Qed.

Lemma apply_controls_len newSize obuf diff extra cs :
  forall s s',
    apply_controls newSize obuf diff extra cs s = Done (inr s') ->
    len (nbuf s') = len (nbuf s).
Proof.
  induction cs as [| c cs IH]; intros s s' H; cbn [apply_controls] in H.
  - now injection H as <-.
  - run_inv H. destruct a as [e | s1]; [discriminate |].
    apply apply_control_len in E. apply IH in H. lia.
Qed.

Lemma write_all_buffer_inv fuel (w nb w' : list byte) :
  write_all (list byte) buffer_Write fuel w nb = (w', Done None) ->
  w' = w ++ nb.
Proof.
  destruct fuel as [| fuel]; cbn [write_all].
  - destruct (len nb >? 0) eqn:E; [discriminate |].
    intros H. injection H as <-.
    rewrite Z.gtb_ltb in E. apply Z.ltb_ge in E.
    destruct nb; [now rewrite app_nil_r | unfold len in E; cbn [length] in E; lia].
  - destruct (len nb >? 0) eqn:E.
    + unfold buffer_Write.
      rewrite slice_from_ok by (pose proof (len_nonneg nb); lia).
      unfold len. rewrite Nat2Z.id, skipn_all. rewrite write_all_nil.
      intros H. now injection H as <-.
    + intros H. injection H as <-.
      rewrite Z.gtb_ltb in E. apply Z.ltb_ge in E.
      destruct nb; [now rewrite app_nil_r | unfold len in E; cbn [length] in E; lia].
Qed.

(** X7: whenever [BSPatch] returns nil, with a [bytes.Buffer] as
    output, it has appended exactly [newSize] bytes to it, whatever the
    control triples declare. *)
Theorem bspatch_writes_newSize fuel (old : Reader) (w0 : list byte)
  (newSize : Z) (patch rest : ReadContext) (out : list byte) :
  BSPatch (list byte) buffer_Write fuel old w0 newSize patch
  = (rest, out, Done None) ->
  0 <= newSize
  /\ exists nb, out = w0 ++ nb /\ len nb = newSize.
Proof.
  unfold BSPatch. intros H.
  destruct (read_controls patch []) as [p1 [e1 | ctrlOps]]; [discriminate |].
  destruct (ReadMessage asBsdiffDiff p1) as [p2 [e2 | diff]]; [discriminate |].
  destruct (ReadMessage asBsdiffExtra p2) as [p3 [e3 | extra]]; [discriminate |].
  destruct (ReadAll old) as [e4 | obuf]; [discriminate |].
  destruct (newSize <? 0) eqn:En; [discriminate |]. apply Z.ltb_ge in En.
  destruct (apply_controls _ _ _ _ _ _) as [[e5 | s] | |] eqn:Ea;
    try discriminate.
  destruct (write_all (list byte) buffer_Write fuel w0 (nbuf s)) as [w1 r] eqn:Ew.
  injection H as _ <- ->.
  apply write_all_buffer_inv in Ew. apply apply_controls_len in Ea.
  cbn [nbuf] in Ea. rewrite len_repeat in Ea.
  split; [assumption |]. exists (nbuf s). split; [assumption | lia].
Qed.

Lemma bspatch_writes_newSize_witness :
  0 <= 8
  /\ exists nb, bytes_of "abcXefgh" = [] ++ nb /\ len nb = 8.
Proof.
  apply (bspatch_writes_newSize 1 (reader_of "abcdefgh") [] 8 scenario_patch []).
  reflexivity.
Defined.

(** X8: [BSPatch] does not check that the control triples account for
    [newSize] bytes: with no triple before the sentinel, and a
    [newSize] that the runtime can allocate, it writes [newSize] zero
    bytes and returns nil.  A negative [newSize], or one above what
    the runtime allocates, makes it panic, in [make]. *)
Theorem bspatch_no_triples maxAlloc fuel (old : list byte) (newSize c0 s0 : Z)
  (D E : list byte) :
  let patch := [MBsdiffControl {| Add := -1; Copy := c0; Seek := s0 |};
                MBsdiffDiff D; MBsdiffExtra E] in
  (0 <= newSize <= maxAlloc -> newSize < 2 ^ 63 ->
   BSPatch_alloc (list byte) buffer_Write maxAlloc (S fuel)
     {| r_data := old; r_err := None |} [] newSize patch
   = ([], repeat x00 (Z.to_nat newSize), Done None))
  /\ (newSize < 0 \/ maxAlloc < newSize ->
      BSPatch_alloc (list byte) buffer_Write maxAlloc fuel
        {| r_data := old; r_err := None |} [] newSize patch
      = ([], [], Panic)).
Proof.
  intros patch. unfold BSPatch_alloc, patch.
  cbn [read_controls asBsdiffControl Add Z.eqb Pos.eqb ReadMessage asBsdiffDiff
       asBsdiffExtra ReadAll r_err r_data].
  split; intros Hn.
  - intros _. rewrite make_bytes_fits by assumption.
    cbn [apply_controls nbuf].
    rewrite write_all_buffer. reflexivity.
  - rewrite make_bytes_refused by assumption. reflexivity.
Qed.

End PatchMore.

Section WriteLoop.

Import Bsdiff.

Variable W : Type.
Variable Write : W -> list byte -> W * Z * option error.

(** What the writer has received so far *)
Variable received : W -> list byte.

(** A writer that at every call takes some bytes, one at least, from
    the front of what it is given and reports how many *)
Definition takes_some : Prop :=
  forall w p, p <> [] ->
    exists w' n, Write w p = (w', n, None) /\ 1 <= n <= len p
                 /\ received w' = received w ++ firstn (Z.to_nat n) p.

Lemma write_all_progress :
  takes_some ->
  forall fuel w nbuf,
    (length nbuf <= fuel)%nat ->
    exists w',
      write_all W Write fuel w nbuf = (w', Done None)
      /\ received w' = received w ++ nbuf.
Proof.
  intros HW. induction fuel as [| fuel IH]; intros w nbuf Hf.
  - destruct nbuf; [| cbn [length] in Hf; lia].
    exists w. split; [reflexivity | now rewrite app_nil_r].
  - cbn [write_all]. destruct (len nbuf >? 0) eqn:E.
    + assert (Hne : nbuf <> []) by (intros ->; discriminate).
      destruct (HW w nbuf Hne) as (w1 & n & Ew & Hn & Hr). rewrite Ew.
      rewrite slice_from_ok by lia.
      destruct (IH w1 (skipn (Z.to_nat n) nbuf)) as (w2 & E2 & R2).
      { rewrite length_skipn. lia. }
      exists w2. split; [exact E2 |].
      rewrite R2, Hr, <- app_assoc. now rewrite firstn_skipn.
    + rewrite Z.gtb_ltb in E. apply Z.ltb_ge in E.
      destruct nbuf; [| unfold len in E; cbn [length] in E; lia].
      exists w. split; [reflexivity | now rewrite app_nil_r].
Qed.

(** X9: the write loop of [BSPatch] copes with short writes: with a
    writer that at every call takes some bytes, one at least, from the
    front of what it is given and reports how many, the loop ends with
    all of [nbuf] received, in order, and returns nil. *)
Theorem write_all_short_writes :
  (forall w p, p <> [] ->
     exists w' n, Write w p = (w', n, None) /\ 1 <= n <= len p
                  /\ received w' = received w ++ firstn (Z.to_nat n) p) ->
  forall fuel w nbuf,
    (length nbuf <= fuel)%nat ->
    exists w',
      write_all W Write fuel w nbuf = (w', Done None)
      /\ received w' = received w ++ nbuf.
Proof. exact write_all_progress. Qed.

(** X23: the round trip holds with any such writer, not only with a
    buffer that takes everything at once: what [BSDiff] writes for
    [old] and [new] makes [BSPatch] hand [new] to the writer, in order,
    over as many calls of [Write] as the writer needs. *)
Theorem round_trip_short_writes (old new : list byte) (fuel : nat) (w : W) :
  takes_some ->
  len old < 2 ^ 63 -> len new < 2 ^ 63 -> (length new <= fuel)%nat ->
  exists msgs w',
    BSDiff {| r_data := old; r_err := None |}
           {| r_data := new; r_err := None |}
           {| sent := []; quota := None |}
    = Done ({| sent := msgs; quota := None |}, None)
    /\ BSPatch W Write fuel {| r_data := old; r_err := None |} w (len new) msgs
       = ([], w', Done None)
    /\ received w' = received w ++ new.
Proof.
  intros HW Ho Hn Hf.
  destruct (bsdiff_output old new Ho Hn) as (cs & D & E & Ed & Hcs & nb' & Ea & En).
  destruct (write_all_progress HW fuel w new Hf) as (w' & Ew & Hr).
  eexists _, w'. split; [exact Ed |]. split; [| exact Hr].
  unfold BSPatch. rewrite read_controls_emitted by assumption.
  cbn [app ReadMessage asBsdiffDiff asBsdiffExtra ReadAll r_err r_data].
  pose proof (len_nonneg new) as Hn0.
  destruct (len new <? 0) eqn:F; [apply Z.ltb_lt in F; lia |].
  rewrite Ea, En, Ew. reflexivity.
Qed.

(** X10: the write loop has no guard against a writer that makes no
    progress: if [Write] keeps returning 0 and no error, the loop never
    ends, however often it may call [Write]; nor against a writer that
    reports more bytes than it was given: then [nbuf[n:]] panics. *)
Theorem write_all_trusts_writer :
  forall nbuf, nbuf <> [] ->
    ((forall w p, Write w p = (w, 0, None)) ->
     forall fuel w, write_all W Write fuel w nbuf = (w, Timeout))
    /\ (forall fuel w w' n,
          Write w nbuf = (w', n, None) -> len nbuf < n ->
          write_all W Write (S fuel) w nbuf = (w', Panic)).
Proof.
  intros nbuf Hne.
  assert (Hl : (len nbuf >? 0) = true).
  { apply Z.gtb_lt. destruct nbuf; [contradiction |]. unfold len. cbn [length]. lia. }
  split.
  - intros HW. induction fuel as [| fuel IH]; intros w; cbn [write_all];
      rewrite Hl; [reflexivity |].
    rewrite HW. rewrite slice_from_ok by (pose proof (len_nonneg nbuf); lia).
    cbn [Z.to_nat skipn]. apply IH.
  - intros fuel w w' n Ew Hn. cbn [write_all]. rewrite Hl, Ew.
    unfold slice_from.
    destruct (0 <=? n) eqn:E1; cbn [andb]; [| reflexivity].
    destruct (n <=? Z.of_nat (length nbuf)) eqn:E2; [| reflexivity].
    apply Z.leb_le in E2. unfold len in Hn. lia.
Qed.

End WriteLoop.

(* ================================================================== *)
(** * Further properties of the probe *)
(* ================================================================== *)

(* ------------------------------------------------------------------ *)
(** ** [int64] arithmetic *)

Lemma wrap64_int64 z : int64 (Bsdiff.wrap64 z).
Proof.
  unfold int64, Bsdiff.wrap64.
  pose proof (Z.mod_pos_bound (z + 2 ^ 63) (2 ^ 64) ltac:(lia)).
  change (2 ^ 64) with (2 * 2 ^ 63) in *. lia.
Qed.

(** [wrap64 z] differs from [z] by a multiple of [2 ^ 64], and the
    wraps of two integers that do so are equal. *)
Lemma wrap64_mod z : exists k, Bsdiff.wrap64 z = z + k * 2 ^ 64.
Proof.
  unfold Bsdiff.wrap64. exists (- ((z + 2 ^ 63) / 2 ^ 64)).
  pose proof (Z.div_mod (z + 2 ^ 63) (2 ^ 64) ltac:(lia)). lia.
Qed.

Lemma wrap64_eq a b :
  (exists k, a = b + k * 2 ^ 64) -> Bsdiff.wrap64 a = Bsdiff.wrap64 b.
Proof.
  intros (k & ->). unfold Bsdiff.wrap64.
  replace (b + k * 2 ^ 64 + 2 ^ 63) with (b + 2 ^ 63 + k * 2 ^ 64) by ring.
  now rewrite Z.mod_add by lia.
Qed.

Lemma wrap64_sub_l a b :
  Bsdiff.wrap64 (Bsdiff.wrap64 a - b) = Bsdiff.wrap64 (a - b).
Proof.
  destruct (wrap64_mod a) as (k & ->). apply wrap64_eq. exists k. ring.
Qed.

Lemma wrap64_add_l a b :
  Bsdiff.wrap64 (Bsdiff.wrap64 a + b) = Bsdiff.wrap64 (a + b).
Proof.
  destruct (wrap64_mod a) as (k & ->). apply wrap64_eq. exists k. ring.
Qed.

Lemma probe_add64_small a b : int64 (a + b) -> Probe.add64 a b = a + b.
Proof. intros H. unfold Probe.add64. now apply wrap64_small. Qed.

(** [sub64 fd (add64 (mul64 (sub64 span 1) blockSize) lastSize)], the
    step of [stat.freshData] at a block range *)
Lemma block_range_step fd span blockSize lastSize :
  Probe.sub64 fd
    (Probe.add64 (Probe.mul64 (Probe.sub64 span 1) blockSize) lastSize)
  = Bsdiff.wrap64 (fd - ((span - 1) * blockSize + lastSize)).
Proof.
  unfold Probe.sub64, Probe.add64, Probe.mul64.
  destruct (wrap64_mod (span - 1)) as (k1 & ->).
  destruct (wrap64_mod ((span - 1 + k1 * 2 ^ 64) * blockSize)) as (k2 & ->).
  destruct (wrap64_mod ((span - 1 + k1 * 2 ^ 64) * blockSize + k2 * 2 ^ 64
                        + lastSize)) as (k3 & ->).
  apply wrap64_eq. exists (- (k1 * blockSize + k2 + k3)). ring.
Qed.

Lemma last_index_step index span :
  Probe.add64 index (Probe.sub64 span 1) = Bsdiff.wrap64 (index + (span - 1)).
Proof.
  unfold Probe.add64, Probe.sub64.
  destruct (wrap64_mod (span - 1)) as (k & ->). apply wrap64_eq. exists k. ring.
Qed.

Section ProbeMore.

Import Probe.

(* ------------------------------------------------------------------ *)
(** ** The primary analysis *)

(** The number of zero bytes of an [Add] field *)
Definition zero_bytes (add : list byte) : Z :=
  len (filter (fun b => Byte.eqb b x00) add).

Lemma zero_bytes_bounds add : 0 <= zero_bytes add <= len add.
Proof.
  unfold zero_bytes, len.
  pose proof (filter_length_le (fun b => Byte.eqb b x00) add). lia.
Qed.

Lemma count_zero_adds_wraps add :
  forall fd, int64 fd ->
    count_zero_adds add fd = Bsdiff.wrap64 (fd - zero_bytes add).
Proof.
  unfold count_zero_adds, zero_bytes.
  induction add as [| b add IH]; intros fd Hfd; cbn [fold_left filter].
  - unfold len. cbn [length]. rewrite Z.sub_0_r. symmetry. now apply wrap64_small.
  - destruct (Byte.eqb b x00).
    + rewrite IH by apply wrap64_int64. unfold sub64. rewrite wrap64_sub_l.
      f_equal. unfold len. cbn [length]. lia.
    + now apply IH.
Qed.

(** X11: the loop [for _, b := range bc.Add] of [doPrimaryAnalysis]
    takes from [freshData] one for each zero byte of [Add], in [int64]
    arithmetic: the result is [freshData] less the number of zero
    bytes, wrapped around.  When that difference is not below the
    least [int64] nothing wraps: the loop takes at most [len(Add)] and
    never less than nothing. *)
Theorem count_zero_adds_spec (add : list byte) (freshData : Z) :
  int64 freshData ->
  count_zero_adds add freshData = Bsdiff.wrap64 (freshData - zero_bytes add)
  /\ (- 2 ^ 63 <= freshData - zero_bytes add ->
      count_zero_adds add freshData = freshData - zero_bytes add
      /\ freshData - len add <= count_zero_adds add freshData <= freshData).
Proof.
  intros Hfd. pose proof (zero_bytes_bounds add) as Hz.
  rewrite count_zero_adds_wraps by assumption.
  split; [reflexivity |]. intros Hlow.
  rewrite wrap64_small by (unfold int64 in *; lia). lia.
Qed.

Variable BlockSize : Z.
Variable ComputeBlockSize : Z -> Z -> Z.

(** A series that is framed as the probe expects: no operation before
    the closing one has the closing type, no control message before the
    last has [Eof]. *)
Definition framed (s : series) : Prop :=
  match s with
  | RsyncSeries ops hey =>
      Forall (fun op => op_Type op <> SyncOp_HEY_YOU_DID_IT) ops
      /\ op_Type hey = SyncOp_HEY_YOU_DID_IT
  | BsdiffSeries bh cs eofc hey =>
      no_eof cs /\ c_Eof eofc = true /\ op_Type hey = SyncOp_HEY_YOU_DID_IT
  end.

(** The bytes that a block range covers, as [doPrimaryAnalysis] counts
    them *)
Definition range_bytes (f : File) (op : SyncOp) : Z :=
  (op_BlockSpan op - 1) * BlockSize
  + ComputeBlockSize (Size f)
      (Bsdiff.wrap64 (op_BlockIndex op + (op_BlockSpan op - 1))).

(** The bytes that the block ranges of an RSYNC series cover *)
Definition covered (f : File) (ops : list SyncOp) : Z :=
  fold_right
    (fun op n =>
       match op_Type op with
       | SyncOp_BLOCK_RANGE => range_bytes f op + n
       | _ => n
       end) 0 ops.

(** The zero bytes of the [Add] fields of a BSDIFF series *)
Definition zero_adds (cs : list Control) : Z :=
  fold_right (fun c n => zero_bytes (c_Add c) + n) 0 cs.

(** The bytes of the file that a series does not take from old files,
    as an [int64]: what [doPrimaryAnalysis] leaves in [stat.freshData]. *)
Definition series_fresh (f : File) (s : series) : Z :=
  match s with
  | RsyncSeries ops _ => Bsdiff.wrap64 (Size f - covered f ops)
  | BsdiffSeries _ cs eofc _ => Bsdiff.wrap64 (Size f - zero_adds (cs ++ [eofc]))
  end.

Fixpoint stats_of (fileIndex : Z) (files : list File) (ss : list series)
  : list patchStat :=
  match files, ss with
  | f :: files, s :: ss =>
      {| fileIndex := fileIndex; freshData := series_fresh f s;
         algo := series_type s |} :: stats_of (fileIndex + 1) files ss
  | _, _ => []
  end.

Lemma primary_rsync_framed f ops hey rest :
  Forall (fun op => op_Type op <> SyncOp_HEY_YOU_DID_IT) ops ->
  op_Type hey = SyncOp_HEY_YOU_DID_IT ->
  forall fd pos,
    int64 fd ->
    primary_rsync BlockSize ComputeBlockSize f
      (map MSyncOp ops ++ MSyncOp hey :: rest) fd pos
    = (rest, inr (Bsdiff.wrap64 (fd - covered f ops))).
Proof.
  intros Hops Hh. induction Hops as [| op ops Hn _ IH]; intros fd pos Hfd;
    cbn [map app primary_rsync asSyncOp covered fold_right].
  - rewrite Hh, Z.sub_0_r, wrap64_small by assumption. reflexivity.
  - fold (covered f ops).
    destruct (op_Type op) eqn:E; try (now apply IH); [| contradiction].
    rewrite block_range_step, last_index_step.
    fold (range_bytes f op).
    rewrite IH by apply wrap64_int64.
    rewrite wrap64_sub_l. do 3 f_equal. lia.
Qed.

Lemma primary_controls_framed cs eofc rest :
  no_eof cs -> c_Eof eofc = true ->
  forall fd,
    int64 fd ->
    primary_controls (map MControl cs ++ MControl eofc :: rest) fd
    = (rest, inr (Bsdiff.wrap64 (fd - zero_adds (cs ++ [eofc])))).
Proof.
  intros Hcs He. induction Hcs as [| c cs Hc _ IH]; intros fd Hfd;
    cbn [map app primary_controls asControl zero_adds fold_right].
  - rewrite He, count_zero_adds_wraps by assumption. do 3 f_equal. lia.
  - rewrite Hc. fold (zero_adds (cs ++ [eofc])).
    rewrite count_zero_adds_wraps by assumption.
    rewrite IH by apply wrap64_int64.
    rewrite wrap64_sub_l. do 3 f_equal. lia.
Qed.

Lemma primary_file_framed i f s rest :
  framed s -> int64 (Size f) ->
  primary_file BlockSize ComputeBlockSize i f
    (MSyncHeader {| sh_Type := series_type s; sh_FileIndex := i |}
     :: series_body s ++ rest)
  = (rest, inr {| fileIndex := i; freshData := series_fresh f s;
                  algo := series_type s |}).
Proof.
  intros Hs Hf. unfold primary_file.
  cbn [ReadMessage asSyncHeader sh_FileIndex sh_Type].
  rewrite Z.eqb_refl. cbn [negb].
  destruct s as [ops hey | bh cs eofc hey]; cbn [series_type series_body framed] in *.
  - destruct Hs as [Hops Hh]. rewrite <- app_assoc. cbn [app].
    rewrite primary_rsync_framed by assumption. reflexivity.
  - destruct Hs as (Hcs & He & Hh). unfold primary_bsdiff, bsdiff_series.
    cbn [app ReadMessage asBsdiffHeader]. rewrite <- !app_assoc. cbn [app].
    rewrite primary_controls_framed by assumption.
    cbn [ReadMessage asSyncOp]. rewrite Hh. reflexivity.
Qed.

(** X12: over a stream that holds, for each file of the new container
    in turn, a header with the file's index and a framed series,
    [doPrimaryAnalysis] reads every message of the stream and nothing
    beyond, and yields one [patchStat] per file, in file order, with the
    kind of the series and, as fresh data, the size of the file less
    the bytes that block ranges cover (RSYNC) or less the zero bytes of
    all [Add] fields (BSDIFF), in [int64] arithmetic: the difference
    wrapped around. *)
Theorem primary_files_framed ss :
  forall files fileIndex rest acc,
    Forall framed ss -> length ss = length files ->
    Forall (fun f => int64 (Size f)) files ->
    primary_files BlockSize ComputeBlockSize fileIndex files
      (patch_stream fileIndex ss ++ rest) acc
    = (rest, inr (acc ++ stats_of fileIndex files ss)).
Proof.
  induction ss as [| s ss IH]; intros files i rest acc Hf Hl Hz.
  - destruct files; [| discriminate]. cbn. now rewrite app_nil_r.
  - destruct files as [| f files]; [discriminate |].
    inversion Hf as [| ? ? Hs Hss]; subst.
    inversion Hz as [| ? ? Hz1 Hz2]; subst.
    cbn [patch_stream primary_files stats_of app].
    rewrite <- app_assoc. rewrite primary_file_framed by assumption.
    rewrite IH by (try assumption; cbn [length] in Hl; lia).
    now rewrite <- app_assoc.
Qed.

(** The indices of the stats that [doPrimaryAnalysis] gathers, whatever
    the stream holds *)
Lemma primary_files_indices files :
  forall fileIndex rctx acc rest stats,
    primary_files BlockSize ComputeBlockSize fileIndex files rctx acc
    = (rest, inr stats) ->
    exists new,
      stats = acc ++ new
      /\ map Probe.fileIndex new
         = map (fun k => fileIndex + Z.of_nat k) (seq 0 (length files)).
Proof.
  induction files as [| f files IH]; intros i rctx acc rest stats H;
    cbn [primary_files] in H.
  - injection H as _ <-. exists []. split; [now rewrite app_nil_r | reflexivity].
  - destruct (primary_file BlockSize ComputeBlockSize i f rctx) as [r [e | st]] eqn:E;
      [discriminate |].
    apply IH in H. destruct H as (new & -> & Hm).
    assert (Hi : Probe.fileIndex st = i).
    { unfold primary_file in E.
      destruct (ReadMessage asSyncHeader rctx) as [r1 [e1 | sh]]; [discriminate |].
      destruct (negb (sh_FileIndex sh =? i)); [discriminate |].
      destruct (sh_Type sh).
      - destruct (primary_rsync _ _ _ _ _ _) as [r2 [e2 | fd]]; [discriminate |].
        now injection E as _ <-.
      - destruct (primary_bsdiff _ _) as [r2 [e2 | fd]]; [discriminate |].
        now injection E as _ <-.
      - now injection E as _ <-. }
    exists (st :: new). split; [now rewrite <- app_assoc |].
    cbn [map length seq]. rewrite Hi, Z.add_0_r. f_equal.
    rewrite Hm. rewrite <- seq_shift, map_map. apply map_ext. intros k. lia.
Qed.

(** [for _, stat := range patchStats], the loop of [doPrimaryAnalysis]
    that counts the files touched: yields [numTouched], [numTotal] and
    [naivePatchSize]. *)
Definition touched_loop (source : Container) (patchStats : list patchStat)
  : run (Z * Z * Z) :=
  for_each patchStats 0
    (fun _ stat '(numTouched, numTotal, naivePatchSize) =>
       let numTotal := numTotal + 1 in
       if freshData stat >? 0 then
         f <- ld (Files source) (Probe.fileIndex stat) ;;
         Done (numTouched + 1, numTotal, add64 naivePatchSize (Size f))
       else Done (numTouched, numTotal, naivePatchSize))
    (0, 0, 0).

Lemma for_each_keeps {A St} (P : St -> Prop) (Q : A -> Prop)
  (body : Z -> A -> St -> run St) (l : list A) :
  Forall Q l ->
  (forall i x s, Q x -> P s -> exists s', body i x s = Done s' /\ P s') ->
  forall i s, P s -> exists s', for_each l i body s = Done s' /\ P s'.
Proof.
  intros Hl Hb. induction Hl as [| x l Hx _ IH]; intros i s Hs; cbn [for_each].
  - eauto.
  - destruct (Hb i x s Hx Hs) as (s1 & E1 & H1). rewrite E1. cbn [bind].
    apply IH. exact H1.
Qed.

Lemma for_each_count {A} (body : Z -> A -> Z * Z * Z -> run (Z * Z * Z))
  (l : list A) :
  (forall i x a b c s', body i x (a, b, c) = Done s' ->
                        exists a' c', s' = (a', b + 1, c') /\ a <= a' <= a + 1) ->
  forall i a b c s',
    for_each l i body (a, b, c) = Done s' ->
    exists a' c', s' = (a', b + len l, c') /\ a <= a' <= a + len l.
Proof.
  intros Hb. induction l as [| x l IH]; intros i a b c s' H; cbn [for_each] in H.
  - injection H as <-. exists a, c. unfold len. cbn [length].
    split; [f_equal; f_equal; lia | lia].
  - run_inv H. destruct a0 as [[a1 b1] c1].
    apply Hb in E. destruct E as (a' & c' & E & Ha). injection E as -> -> ->.
    apply IH in H. destruct H as (a2 & c2 & -> & Ha2).
    exists a2, c2. unfold len in *. cbn [length].
    split; [f_equal; f_equal; lia | lia].
Qed.

(** X13: after [doPrimaryAnalysis] has gathered its stats, from any
    stream that did not make it fail, the loop that counts the touched
    files never indexes [source.Files] out of range, in whatever order
    [sort.Sort] has left the stats; it counts every stat in [numTotal]
    and at most that many in [numTouched]. *)
Theorem touched_loop_in_range (source : Container) (rctx rest : ReadContext)
  (stats sorted : list patchStat) :
  primary_files BlockSize ComputeBlockSize 0 (Files source) rctx []
  = (rest, inr stats) ->
  Permutation stats sorted ->
  exists numTouched naivePatchSize,
    touched_loop source sorted
    = Done (numTouched, len (Files source), naivePatchSize)
    /\ 0 <= numTouched <= len (Files source).
Proof.
  intros Hp Hperm.
  apply primary_files_indices in Hp. destruct Hp as (new & Hs & Hm).
  cbn [app] in Hs. subst new.
  assert (Hlen : len sorted = len (Files source)).
  { unfold len. rewrite <- (Permutation_length Hperm).
    rewrite <- (length_map Probe.fileIndex), Hm, length_map, length_seq.
    reflexivity. }
  assert (Hin : Forall (fun st => 0 <= Probe.fileIndex st < len (Files source))
                  sorted).
  { apply Forall_forall. intros st Hst.
    apply (Permutation_in _ (Permutation_sym Hperm)) in Hst.
    apply (in_map Probe.fileIndex) in Hst. rewrite Hm in Hst.
    apply in_map_iff in Hst. destruct Hst as (k & <- & Hk).
    apply in_seq in Hk. unfold len. lia. }
  unfold touched_loop.
  match goal with
  | |- context [for_each sorted 0 ?body ?s0] =>
      destruct (for_each_keeps (fun _ => True)
                  (fun st => 0 <= Probe.fileIndex st < len (Files source))
                  body sorted Hin) with (i := 0) (s := s0) as (s' & E & _)
  end.
  - intros i st [[a b] c] Hst _. destruct (freshData st >? 0); [| eauto].
    destruct (ld_ok (Files source) (Probe.fileIndex st) Hst) as (f & ->).
    cbn [bind]. eauto.
  - exact I.
  - rewrite E.
    match type of E with
    | for_each sorted 0 ?body _ = _ =>
        destruct (for_each_count body sorted) with (i := 0) (a := 0) (b := 0)
          (c := 0) (s' := s') as (a' & c' & -> & Ha); [| exact E |]
    end.
    + intros i st a b c s1 H. destruct (freshData st >? 0).
      * run_inv H. injection H as <-. eexists _, _. split; [reflexivity | lia].
      * injection H as <-. eexists _, _. split; [reflexivity | lia].
    + exists a', c'. rewrite Hlen in *. split; [reflexivity | lia].
Qed.

End ProbeMore.

(** Values for [BlockSize] and [ComputeBlockSize] to run the analysis with *)
Definition sample_BlockSize : Z := 65536.
Definition sample_ComputeBlockSize (fileSize blockIndex : Z) : Z :=
  if sample_BlockSize * (blockIndex + 1) >? fileSize
  then fileSize mod sample_BlockSize else sample_BlockSize.

(** At the least [int64] the count wraps around. *)
Lemma count_zero_adds_spec_witness :
  Probe.count_zero_adds [x00] (- 2 ^ 63) = 2 ^ 63 - 1.
Proof.
  exact (proj1 (count_zero_adds_spec [x00] (- 2 ^ 63)
                  ltac:(unfold int64; lia))).
Defined.

Lemma two_series_framed : Forall framed two_series.
Proof. repeat constructor; discriminate. Qed.

Lemma primary_files_framed_witness :
  Probe.primary_files sample_BlockSize sample_ComputeBlockSize 0
    (Probe.Files two_files) (patch_stream 0 two_series ++ [MSyncOp data_op]) []
  = ([MSyncOp data_op],
     inr ([] ++ stats_of sample_BlockSize sample_ComputeBlockSize 0
                  (Probe.Files two_files) two_series)).
Proof.
  apply (primary_files_framed sample_BlockSize sample_ComputeBlockSize two_series
           (Probe.Files two_files) 0 [MSyncOp data_op] []).
  - exact two_series_framed.
  - reflexivity.
  - repeat constructor; unfold int64; cbn; lia.
Defined.

Lemma touched_loop_in_range_witness :
  exists numTouched naivePatchSize,
    touched_loop two_files
      (rev (stats_of sample_BlockSize sample_ComputeBlockSize 0
              (Probe.Files two_files) two_series))
    = Done (numTouched, len (Probe.Files two_files), naivePatchSize)
    /\ 0 <= numTouched <= len (Probe.Files two_files).
Proof.
  apply (touched_loop_in_range sample_BlockSize sample_ComputeBlockSize two_files
           (patch_stream 0 two_series) []
           (stats_of sample_BlockSize sample_ComputeBlockSize 0
              (Probe.Files two_files) two_series)).
  - reflexivity.
  - apply Permutation_rev.
Defined.

Section DeepMore.

Import Probe.

(* ------------------------------------------------------------------ *)
(** ** The scan of a BSDIFF series by [analyzeBsdiff] *)

(** The bytes of the new file and of the old file that the control
    messages [cs] step over *)
Definition stepped_new (cs : list Control) : Z :=
  fold_right (fun c a => len (c_Add c) + len (c_Copy c) + a) 0 cs.
Definition stepped_old (cs : list Control) : Z :=
  fold_right (fun c a => len (c_Add c) + c_Seek c + a) 0 cs.

Lemma stepped_new_nonneg cs : 0 <= stepped_new cs.
Proof.
  unfold stepped_new. induction cs as [| c cs IH]; cbn [fold_right]; [lia |].
  pose proof (len_nonneg (c_Add c)). pose proof (len_nonneg (c_Copy c)). lia.
Qed.

Definition scan_sane (s : bsdiffScan) : Prop :=
  0 <= bestUnchanged s <= pristine s /\ pristine s <= newpos s.

Lemma scan_add_ok add s so :
  scan_sane s -> newpos s + len add < 2 ^ 63 ->
  oldpos s = Bsdiff.wrap64 so ->
  let s' := scan_add add s in
  newpos s' = newpos s + len add
  /\ oldpos s' = Bsdiff.wrap64 (so + len add)
  /\ scan_sane s'.
Proof.
  intros Hs Hroom Hold. unfold scan_add.
  assert (G : forall add s u so,
             0 <= u -> 0 <= pristine s ->
             0 <= bestUnchanged s <= pristine s + u ->
             pristine s + u <= newpos s ->
             newpos s + len add < 2 ^ 63 ->
             oldpos s = Bsdiff.wrap64 so ->
             let '(s1, u1) :=
               fold_left
                 (fun '(s, unchanged) b =>
                    if Byte.eqb b x00 then
                      ({| oldpos := add64 (oldpos s) 1;
                          newpos := add64 (newpos s) 1;
                          pristine := pristine s;
                          bestUnchanged := add64 (bestUnchanged s) 1 |},
                       add64 unchanged 1)
                    else
                      ({| oldpos := add64 (oldpos s) 1;
                          newpos := add64 (newpos s) 1;
                          pristine := pristine s; bestUnchanged := 0 |}, unchanged))
                 add (s, u) in
             newpos s1 = newpos s + len add
             /\ oldpos s1 = Bsdiff.wrap64 (so + len add)
             /\ pristine s1 = pristine s
             /\ 0 <= u1
             /\ 0 <= bestUnchanged s1 <= pristine s + u1
             /\ pristine s + u1 <= newpos s1).
  { clear. induction add as [| b add IH]; intros s u so Hu Hpr Hb Hp Hroom Hold;
      cbn [fold_left].
    - unfold len. cbn [length]. rewrite !Z.add_0_r. repeat split; lia.
    - assert (Hl : len (b :: add) = len add + 1)
        by (unfold len; cbn [length]; lia).
      pose proof (len_nonneg add) as Hla.
      assert (Q1 : add64 (newpos s) 1 = newpos s + 1)
        by (apply probe_add64_small; unfold int64; lia).
      assert (Q2 : add64 (bestUnchanged s) 1 = bestUnchanged s + 1)
        by (apply probe_add64_small; unfold int64; lia).
      assert (Q3 : add64 u 1 = u + 1)
        by (apply probe_add64_small; unfold int64; lia).
      assert (Q4 : add64 (oldpos s) 1 = Bsdiff.wrap64 (so + 1))
        by (unfold add64; rewrite Hold; apply wrap64_add_l).
      rewrite Q1, Q2, Q3, Q4, Hl.
      destruct (Byte.eqb b x00).
      + match goal with
        | |- context [fold_left _ add (?s1, ?u1)] =>
            specialize (IH s1 u1 (so + 1));
            cbn [oldpos newpos pristine bestUnchanged] in IH;
            destruct (fold_left _ add (s1, u1)) as [s2 u2]
        end.
        destruct IH as (I1 & I2 & I3 & I4 & I5 & I6); try lia; try reflexivity.
        rewrite I2. repeat split; try lia. f_equal. lia.
      + match goal with
        | |- context [fold_left _ add (?s1, ?u1)] =>
            specialize (IH s1 u1 (so + 1));
            cbn [oldpos newpos pristine bestUnchanged] in IH;
            destruct (fold_left _ add (s1, u1)) as [s2 u2]
        end.
        destruct IH as (I1 & I2 & I3 & I4 & I5 & I6); try lia; try reflexivity.
        rewrite I2. repeat split; try lia. f_equal. lia. }
  destruct Hs as (H1 & H2).
  specialize (G add s 0 so ltac:(lia) ltac:(lia) ltac:(lia) ltac:(lia) Hroom Hold).
  destruct (fold_left _ add (s, 0)) as [s1 u1].
  destruct G as (G1 & G2 & G3 & G4 & G5 & G6).
  pose proof (len_nonneg add) as Hla.
  unfold scan_sane. cbn [oldpos newpos pristine bestUnchanged].
  rewrite probe_add64_small by (unfold int64; lia).
  repeat split; try assumption; lia.
Qed.

Lemma scan_control_ok bc s so :
  scan_sane s ->
  newpos s + len (c_Add bc) + len (c_Copy bc) < 2 ^ 63 ->
  oldpos s = Bsdiff.wrap64 so ->
  let s' := scan_control bc s in
  newpos s' = newpos s + len (c_Add bc) + len (c_Copy bc)
  /\ oldpos s' = Bsdiff.wrap64 (so + len (c_Add bc) + c_Seek bc)
  /\ scan_sane s'.
Proof.
  intros Hs Hroom Hold.
  pose proof (len_nonneg (c_Add bc)) as Ha.
  pose proof (len_nonneg (c_Copy bc)) as Hc.
  assert (Hadd : exists s1,
             (if len (c_Add bc) >? 0 then
                if oldpos s =? newpos s then scan_add (c_Add bc) s
                else {| oldpos := add64 (oldpos s) (len (c_Add bc));
                        newpos := add64 (newpos s) (len (c_Add bc));
                        pristine := pristine s;
                        bestUnchanged := bestUnchanged s |}
              else s) = s1
             /\ newpos s1 = newpos s + len (c_Add bc)
             /\ oldpos s1 = Bsdiff.wrap64 (so + len (c_Add bc))
             /\ scan_sane s1).
  { eexists. split; [reflexivity |].
    destruct (len (c_Add bc) >? 0) eqn:Ea.
    - destruct (oldpos s =? newpos s).
      + apply scan_add_ok; [assumption | lia | assumption].
      + destruct Hs as (H1 & H2). unfold scan_sane.
        cbn [oldpos newpos pristine bestUnchanged].
        rewrite probe_add64_small by (unfold int64; lia).
        split; [reflexivity |].
        split; [unfold add64; rewrite Hold; apply wrap64_add_l | lia].
    - rewrite Z.gtb_ltb in Ea. apply Z.ltb_ge in Ea.
      replace (len (c_Add bc)) with 0 by lia. rewrite !Z.add_0_r. auto. }
  destruct Hadd as (s1 & E1 & N1 & O1 & (S1 & S2)).
  unfold scan_control. rewrite E1.
  destruct (len (c_Copy bc) >? 0) eqn:Ec;
    unfold scan_sane; cbn [oldpos newpos pristine bestUnchanged].
  - rewrite probe_add64_small by (unfold int64; lia).
    split; [lia |].
    split; [unfold add64; rewrite O1; apply wrap64_add_l | lia].
  - rewrite Z.gtb_ltb in Ec. apply Z.ltb_ge in Ec.
    split; [lia |].
    split; [unfold add64; rewrite O1; apply wrap64_add_l | lia].
Qed.

(** X14: [analyzeBsdiff] steps over a BSDIFF series keeping its
    counters sane.  For a series that steps over fewer than [2 ^ 63]
    bytes of the new file: after the control messages before the one
    with [Eof], [newpos] is the number of add and copy bytes seen,
    [oldpos] the number of add bytes plus the seeks, wrapped around as
    an [int64] (the seeks come from the patch), and
    [0 <= bestUnchanged <= pristine <= newpos]; the message with [Eof]
    is read and its fields are not looked at. *)
Theorem analyzeBsdiff_counters cs eofc rest :
  no_eof cs -> c_Eof eofc = true ->
  stepped_new cs < 2 ^ 63 ->
  exists s,
    analyzeBsdiff_controls (map MControl cs ++ MControl eofc :: rest)
      {| oldpos := 0; newpos := 0; pristine := 0; bestUnchanged := 0 |}
    = (rest, inr s)
    /\ newpos s = stepped_new cs
    /\ oldpos s = Bsdiff.wrap64 (stepped_old cs)
    /\ 0 <= bestUnchanged s <= pristine s /\ pristine s <= newpos s.
Proof.
  intros Hcs He Hroom.
  assert (G : forall s0 so,
             scan_sane s0 -> newpos s0 + stepped_new cs < 2 ^ 63 ->
             oldpos s0 = Bsdiff.wrap64 so ->
             exists s,
               analyzeBsdiff_controls (map MControl cs ++ MControl eofc :: rest) s0
               = (rest, inr s)
               /\ newpos s = newpos s0 + stepped_new cs
               /\ oldpos s = Bsdiff.wrap64 (so + stepped_old cs)
               /\ scan_sane s).
  { clear Hroom. induction Hcs as [| c cs Hc _ IH]; intros s0 so H0 Hroom Hold;
      cbn [map app analyzeBsdiff_controls asControl stepped_new stepped_old
           fold_right] in *.
    - rewrite He. exists s0. rewrite !Z.add_0_r. auto.
    - rewrite Hc.
      fold (stepped_new cs) in *. fold (stepped_old cs) in *.
      pose proof (stepped_new_nonneg cs) as Hnn.
      destruct (scan_control_ok c s0 so H0 ltac:(lia) Hold) as (N & O & S).
      destruct (IH (scan_control c s0) (so + len (c_Add c) + c_Seek c) S
                  ltac:(lia) O) as (s & E & N' & O' & S').
      exists s. split; [exact E |].
      split; [lia |]. split; [| assumption].
      rewrite O'. f_equal. lia. }
  destruct (G {| oldpos := 0; newpos := 0; pristine := 0; bestUnchanged := 0 |} 0)
    as (s & E & N & O & S).
  { unfold scan_sane. cbn. lia. }
  { cbn [newpos]. lia. }
  { reflexivity. }
  exists s. cbn [oldpos newpos] in *. destruct S. auto with zarith.
Qed.

Definition far_seek (seek : Z) : Control :=
  {| c_Add := [x00]; c_Copy := []; c_Seek := seek; c_Eof := false |}.

(** Three messages of one zero byte each, with seeks that add up to
    [2 ^ 64]: [oldpos] comes back to [newpos]. *)
Lemma analyzeBsdiff_counters_witness :
  exists s,
    analyzeBsdiff_controls
      (map MControl [far_seek (2 ^ 63 - 1); far_seek (2 ^ 63 - 1); far_seek 2]
       ++ MControl eof_control :: [])
      {| oldpos := 0; newpos := 0; pristine := 0; bestUnchanged := 0 |}
    = ([], inr s)
    /\ newpos s
       = stepped_new [far_seek (2 ^ 63 - 1); far_seek (2 ^ 63 - 1); far_seek 2]
    /\ oldpos s
       = Bsdiff.wrap64
           (stepped_old [far_seek (2 ^ 63 - 1); far_seek (2 ^ 63 - 1); far_seek 2])
    /\ 0 <= bestUnchanged s <= pristine s /\ pristine s <= newpos s.
Proof.
  apply (analyzeBsdiff_counters
           [far_seek (2 ^ 63 - 1); far_seek (2 ^ 63 - 1); far_seek 2]
           eof_control []).
  - repeat constructor.
  - reflexivity.
  - vm_compute. reflexivity.
Defined.

(* ------------------------------------------------------------------ *)
(** ** Indices that the deep analysis takes from the patch *)

Lemma ld_invalid {A} (l : list A) i : ~ valid_index l i -> ld l i = Panic.
Proof.
  intros H. unfold ld, valid_index, len in *.
  destruct (i <? 0) eqn:E; [reflexivity |]. apply Z.ltb_ge in E.
  destruct (nth_error l (Z.to_nat i)) eqn:F; [| reflexivity].
  exfalso. apply H. assert (nth_error l (Z.to_nat i) <> None) by congruence.
  apply nth_error_Some in H0. lia.
Qed.

Lemma report_blocks_invalid tgt tb :
  Exists (fun kv => ~ valid_index (Files tgt) (fst kv)) tb ->
  report_blocks tgt tb = Panic.
Proof.
  induction tb as [| [k v] tb IH]; intros H; [inversion H |].
  cbn [report_blocks].
  destruct (ld (Files tgt) k) as [f | |] eqn:E; cbn [bind]; try reflexivity.
  - apply IH. inversion H as [? ? Hk | ? ? Ht]; subst; [| assumption].
    cbn [fst] in Hk. apply ld_invalid in Hk. congruence.
  - unfold ld in E. destruct (k <? 0); [discriminate |].
    destruct (nth_error _ _); discriminate.
Qed.

Lemma add_blocks_keys tb i span :
  In i (map fst (add_blocks tb i span))
  /\ forall k, In k (map fst tb) -> In k (map fst (add_blocks tb i span)).
Proof.
  induction tb as [| [k v] tb [IH1 IH2]]; cbn [add_blocks map fst In].
  - auto.
  - destruct (k =? i) eqn:E.
    + apply Z.eqb_eq in E. subst. cbn [map fst In]. auto.
    + cbn [map fst In]. split; [auto |]. intros k' [-> | Hk]; auto.
Qed.

Lemma analyzeRsync_ops_keys ops hey rest :
  Forall (fun op => op_Type op <> SyncOp_HEY_YOU_DID_IT) ops ->
  op_Type hey = SyncOp_HEY_YOU_DID_IT ->
  forall tb,
  exists tb',
    analyzeRsync_ops (map MSyncOp ops ++ MSyncOp hey :: rest) tb = (rest, inr tb')
    /\ (forall k, In k (map fst tb) -> In k (map fst tb'))
    /\ forall op, In op ops -> op_Type op = SyncOp_BLOCK_RANGE ->
                  In (op_FileIndex op) (map fst tb').
Proof.
  intros Hops Hh. induction Hops as [| op ops Hn _ IH]; intros tb;
    cbn [map app analyzeRsync_ops asSyncOp].
  - rewrite Hh. exists tb. split; [reflexivity |]. split; [auto |].
    intros op [].
  - destruct (op_Type op) eqn:E.
    + destruct (IH (add_blocks tb (op_FileIndex op) (op_BlockSpan op)))
        as (tb' & E' & K1 & K2).
      destruct (add_blocks_keys tb (op_FileIndex op) (op_BlockSpan op)) as [A1 A2].
      exists tb'. split; [exact E' |]. split; [auto |].
      intros op' [<- | Hin] Ht; auto.
    + destruct (IH tb) as (tb' & E' & K1 & K2).
      exists tb'. split; [exact E' |]. split; [auto |].
      intros op' [<- | Hin] Ht; [congruence | auto].
    + contradiction.
    + destruct (IH tb) as (tb' & E' & K1 & K2).
      exists tb'. split; [exact E' |]. split; [auto |].
      intros op' [<- | Hin] Ht; [congruence | auto].
Qed.

(** X15: [analyzeRsync] indexes [target.Files] with the file index of
    every block range without a bounds check: one block range that
    names a file the old container does not have makes it panic, once
    the series is read, where [skipSeries] reads the same series and
    returns nil. *)
Theorem analyzeRsync_bad_target tgt src sh ops hey rest :
  sh_Type sh = SyncHeader_RSYNC ->
  valid_index (Files src) (sh_FileIndex sh) ->
  Forall (fun op => op_Type op <> SyncOp_HEY_YOU_DID_IT) ops ->
  op_Type hey = SyncOp_HEY_YOU_DID_IT ->
  Exists (fun op => op_Type op = SyncOp_BLOCK_RANGE
                    /\ ~ valid_index (Files tgt) (op_FileIndex op)) ops ->
  let ddc := {| target := tgt; source := src;
                rctx := map MSyncOp ops ++ MSyncOp hey :: rest |} in
  analyzeSeries ddc sh = (rest, Panic)
  /\ skipSeries ddc sh = (rest, None).
Proof.
  intros Ht Hs Hops Hh Hbad ddc. unfold analyzeSeries, skipSeries. rewrite Ht.
  unfold analyzeRsync, ddc. cbn [source target rctx].
  destruct (ld_valid _ _ Hs) as (f & ->).
  destruct (analyzeRsync_ops_keys ops hey rest Hops Hh []) as (tb & E & _ & K).
  rewrite E. split.
  - rewrite report_blocks_invalid; [reflexivity |].
    apply Exists_exists in Hbad. destruct Hbad as (op & Hin & Hty & Hv).
    specialize (K op Hin Hty). apply in_map_iff in K.
    destruct K as (kv & Hk & Hkv). apply Exists_exists. exists kv.
    split; [exact Hkv | now rewrite Hk].
  - clear E K. induction Hops as [| op ops Hn Hops IH];
      cbn [map app skip_ops asSyncOp].
    + now rewrite Hh.
    + inversion Hbad as [? ? Hb | ? ? Hb]; subst.
      * destruct Hb as [Hb _]. rewrite Hb.
        clear IH Hbad. induction Hops as [| op' ops' Hn' _ IH'];
          cbn [map app skip_ops asSyncOp].
        { now rewrite Hh. }
        { destruct (op_Type op'); try exact IH'. contradiction. }
      * destruct (op_Type op); try (now apply IH). contradiction.
Qed.

Definition stray_block_op : SyncOp :=
  {| op_Type := SyncOp_BLOCK_RANGE; op_FileIndex := 7; op_BlockIndex := 0;
     op_BlockSpan := 1; op_Data := [] |}.

Lemma analyzeRsync_bad_target_witness :
  let ddc := {| target := one_file; source := one_file;
                rctx := map MSyncOp [stray_block_op] ++ MSyncOp hey_op :: [] |} in
  analyzeSeries ddc {| sh_Type := SyncHeader_RSYNC; sh_FileIndex := 0 |}
  = ([], Panic)
  /\ skipSeries ddc {| sh_Type := SyncHeader_RSYNC; sh_FileIndex := 0 |}
     = ([], None).
Proof.
  apply (analyzeRsync_bad_target one_file one_file
           {| sh_Type := SyncHeader_RSYNC; sh_FileIndex := 0 |}
           [stray_block_op] hey_op []).
  - reflexivity.
  - unfold valid_index, len. cbn. lia.
  - repeat constructor. discriminate.
  - reflexivity.
  - constructor. split; [reflexivity |]. unfold valid_index, len. cbn. lia.
Defined.

(** X16: [analyzeBsdiff] indexes [target.Files] with the target index
    of the series header without a bounds check: an index the old
    container does not have makes it panic right after the header is
    read. *)
Theorem analyzeBsdiff_bad_target tgt src sh bh rest :
  sh_Type sh = SyncHeader_BSDIFF ->
  valid_index (Files src) (sh_FileIndex sh) ->
  ~ valid_index (Files tgt) (bh_TargetIndex bh) ->
  analyzeSeries {| target := tgt; source := src;
                   rctx := MBsdiffHeader bh :: rest |} sh
  = (rest, Panic).
Proof.
  intros Ht Hs Hb. unfold analyzeSeries. rewrite Ht.
  unfold analyzeBsdiff. cbn [source target rctx].
  destruct (ld_valid _ _ Hs) as (f & ->).
  cbn [ReadMessage asBsdiffHeader]. now rewrite ld_invalid.
Qed.

Lemma analyzeBsdiff_bad_target_witness :
  analyzeSeries {| target := one_file; source := one_file;
                   rctx := MBsdiffHeader {| bh_TargetIndex := 1 |} :: [] |}
    bsdiff_header_0
  = ([], Panic).
Proof.
  apply (analyzeBsdiff_bad_target one_file one_file bsdiff_header_0
           {| bh_TargetIndex := 1 |} []).
  - reflexivity.
  - unfold valid_index, len. cbn. lia.
  - unfold valid_index, len. cbn. lia.
Defined.

(* ------------------------------------------------------------------ *)
(** ** The errors of [doDeepAnalysis] *)

(** The stream of the files [fileIndex], [fileIndex + 1], ...: for each
    of them a header with its index and the type [fst c], then the
    messages [snd c] *)
Fixpoint headed_stream (fileIndex : Z) (cs : list (SyncHeader_Type * list message))
  : list message :=
  match cs with
  | [] => []
  | c :: cs =>
      MSyncHeader {| sh_Type := fst c; sh_FileIndex := fileIndex |}
      :: snd c ++ headed_stream (fileIndex + 1) cs
  end.

(** [analyzeSeries] reads the messages of each file up to the header of
    the next, and returns: nil or an error, it does not panic. *)
Fixpoint analysed (tgt src : Container) (fileIndex : Z)
  (cs : list (SyncHeader_Type * list message)) (rest : list message) : Prop :=
  match cs with
  | [] => True
  | c :: cs' =>
      (exists o,
          analyzeSeries
            {| target := tgt; source := src;
               rctx := snd c ++ headed_stream (fileIndex + 1) cs' ++ rest |}
            {| sh_Type := fst c; sh_FileIndex := fileIndex |}
          = (headed_stream (fileIndex + 1) cs' ++ rest, Done o))
      /\ analysed tgt src (fileIndex + 1) cs' rest
  end.

(** X17: when every file is one of the top files, [doDeepAnalysis]
    drops the errors of the series: whatever [analyzeSeries] returns
    for each file, nil or an error (a missing HEY_YOU_DID_IT, a series
    of unknown type), the loop goes on with the header of the next file
    and returns nil at the end. *)
Theorem deep_analysis_drops_series_errors tgt src cs :
  forall files fileIndex rest,
    analysed tgt src fileIndex cs rest ->
    length cs = length files ->
    deep_files (fun _ => true) tgt src fileIndex files
      (headed_stream fileIndex cs ++ rest)
    = (rest, Done None).
Proof.
  induction cs as [| c cs IH]; intros files i rest Ha Hl.
  - destruct files; [reflexivity | discriminate].
  - destruct files as [| f files]; [discriminate |].
    destruct Ha as ((o & Ho) & Ha).
    cbn [headed_stream app deep_files ReadMessage asSyncHeader sh_FileIndex].
    rewrite Z.eqb_refl. cbn [negb].
    rewrite <- app_assoc, Ho.
    apply IH; [assumption | cbn [length] in Hl; lia].
Qed.

(** Two files: a BSDIFF series whose HEY_YOU_DID_IT is missing, and a
    series of a type that [analyzeSeries] does not know *)
Definition broken_series : list (SyncHeader_Type * list message) :=
  [ (SyncHeader_BSDIFF,
     bsdiff_series {| bh_TargetIndex := 0 |} [] eof_control ++ [MSyncOp data_op]);
    (SyncHeader_unknown 7, []) ].

Lemma deep_analysis_drops_series_errors_witness :
  analyzeSeries
    {| target := two_files; source := two_files;
       rctx := snd (SyncHeader_BSDIFF,
                    bsdiff_series {| bh_TargetIndex := 0 |} [] eof_control
                    ++ [MSyncOp data_op])
               ++ headed_stream 1 [(SyncHeader_unknown 7, [])] ++ [] |}
    {| sh_Type := SyncHeader_BSDIFF; sh_FileIndex := 0 |}
  = (headed_stream 1 [(SyncHeader_unknown 7, [])] ++ [],
     Done (Some (ErrExpectedHeyYouDidIt SyncOp_DATA)))
  /\ analyzeSeries
       {| target := two_files; source := two_files; rctx := [] |}
       {| sh_Type := SyncHeader_unknown 7; sh_FileIndex := 1 |}
     = ([], Done (Some (ErrAnalyzeSeries (SyncHeader_unknown 7))))
  /\ deep_files (fun _ => true) two_files two_files 0 (Files two_files)
       (headed_stream 0 broken_series ++ [])
     = ([], Done None).
Proof.
  split; [reflexivity |]. split; [reflexivity |].
  apply (deep_analysis_drops_series_errors two_files two_files broken_series
           (Files two_files) 0 []).
  - split; [eexists; reflexivity |]. split; [eexists; reflexivity | exact I].
  - reflexivity.
Defined.

End DeepMore.

(* ------------------------------------------------------------------ *)
(** ** A declared size below the size of the new file *)

Lemma declared_total_split cs : declared_total cs = total_add cs + total_copy cs.
Proof.
  unfold total_add, total_copy.
  induction cs as [| c cs IH]; cbn [declared_total fold_right]; lia.
Qed.

Lemma total_add_nonneg cs :
  Forall (fun c => 0 <= Add c /\ 0 <= Copy c) cs ->
  0 <= total_add cs /\ 0 <= total_copy cs.
Proof.
  unfold total_add, total_copy.
  induction 1 as [| c cs [Ha Hc] _ IH]; cbn [fold_right]; lia.
Qed.

Lemma reads_old_in_bounds (old : list byte) newSize ld le cs :
  forall newpos oldpos dof eof,
    reads_old old cs oldpos ->
    Forall (fun c => 0 <= Add c /\ 0 <= Copy c) cs ->
    0 <= newpos -> newpos + total_add cs + total_copy cs < 2 ^ 63 ->
    dof + total_add cs <= ld -> eof + total_copy cs <= le ->
    reads_in_bounds newSize (len old) ld le cs newpos oldpos dof eof.
Proof.
  induction cs as [| c cs IH]; intros np op dof eof Hr Hf Hn Hs Hd He;
    cbn [reads_in_bounds]; [exact I |].
  cbn [reads_old] in Hr. destruct Hr as (A1 & A2 & A3 & A4 & A5 & A6).
  inversion Hf as [| ? ? _ Hf']; subst.
  pose proof (total_add_nonneg cs Hf') as [Ta Tc].
  unfold total_add, total_copy in Hs, Hd, He. cbn [fold_right] in Hs, Hd, He.
  fold (total_add cs) in *. fold (total_copy cs) in *.
  destruct (Z_lt_le_dec newSize (np + Add c)) as [L | L]; [left; lia |].
  right. split; [lia |]. split; [lia |]. split; [lia |]. split; [lia |].
  destruct (Z_lt_le_dec newSize (np + Add c + Copy c)) as [L' | L']; [left; lia |].
  right. split; [lia |]. split; [lia |]. split; [lia |].
  apply IH; try assumption; lia.
Qed.

Lemma reads_old_int64 (old : list byte) cs :
  forall oldpos,
    reads_old old cs oldpos -> len old < 2 ^ 63 ->
    total_add cs + total_copy cs < 2 ^ 63 ->
    Forall (fun c => 0 <= Add c /\ 0 <= Copy c) cs ->
    Forall int64_fields cs.
Proof.
  induction cs as [| c cs IH]; intros op Hr Ho Ht Hf; [constructor |].
  cbn [reads_old] in Hr. destruct Hr as (A1 & A2 & A3 & A4 & A5 & A6).
  inversion Hf as [| ? ? _ Hf']; subst.
  pose proof (total_add_nonneg cs Hf') as [Ta Tc].
  unfold total_add, total_copy in Ht. cbn [fold_right] in Ht.
  fold (total_add cs) in *. fold (total_copy cs) in *.
  constructor.
  - unfold int64_fields, int64. lia.
  - apply (IH _ A6); try assumption; lia.
Qed.

(** X18: a declared size smaller than the new file is detected.  The
    patch that [BSDiff] writes for [old] and [new], applied to [old]
    with a [newSize] below [len(new)], makes [BSPatch] return
    [ErrCorrupt], with any writer, and nothing is written. *)
Theorem bspatch_declared_size_too_small
  W (Write : W -> list byte -> W * Z * option error) (fuel : nat) (w : W)
  (old new : list byte) (newSize : Z) :
  len old < 2 ^ 63 -> len new < 2 ^ 63 ->
  0 <= newSize < len new ->
  exists msgs,
    Bsdiff.BSDiff {| r_data := old; r_err := None |}
                  {| r_data := new; r_err := None |}
                  {| sent := []; quota := None |}
    = Done ({| sent := msgs; quota := None |}, None)
    /\ Bsdiff.BSPatch W Write fuel {| r_data := old; r_err := None |} w
         newSize msgs
       = ([], w, Done (Some ErrCorrupt)).
Proof.
  intros Ho Hn Hs.
  destruct (bsdiff_run old new {| sent := []; quota := None |})
    as (w1 & e & cs & Er & Hcs & He).
  destruct e as [e' |].
  { destruct He as (_ & _ & ms & _ & Hq). discriminate. }
  destruct He as (D & E & Hro & Hsent & Ha & Hc & Hl & Hr).
  destruct w1 as [s q]. cbn [sent quota room_after app] in *. subst s q.
  eexists. split; [exact Er |].
  pose proof (len_nonneg D) as HD. pose proof (len_nonneg E) as HE.
  unfold Bsdiff.BSPatch. rewrite read_controls_sentinel.
  2:{ eapply Forall_impl; [| exact Hcs]. cbn. intros c [H _]. lia. }
  cbn [app ReadMessage asBsdiffDiff asBsdiffExtra ReadAll r_err r_data].
  destruct (newSize <? 0) eqn:F; [apply Z.ltb_lt in F; lia |].
  rewrite (apply_controls_corrupt newSize old D E cs _ 0); try reflexivity.
  - unfold int64. lia.
  - assumption.
  - lia.
  - lia.
  - apply (reads_old_int64 old cs 0); try assumption; lia.
  - cbn [Bsdiff.nbuf]. rewrite len_repeat. lia.
  - cbn [Bsdiff.newpos]. lia.
  - cbn [Bsdiff.diffOffset]. lia.
  - cbn [Bsdiff.extraOffset]. lia.
  - cbn [Bsdiff.newpos Bsdiff.diffOffset Bsdiff.extraOffset].
    apply reads_old_in_bounds; try assumption; lia.
  - cbn [Bsdiff.newpos]. rewrite declared_total_split. lia.
Qed.

Lemma bspatch_declared_size_too_small_witness :
  exists msgs,
    Bsdiff.BSDiff {| r_data := bytes_of "kitten"; r_err := None |}
                  {| r_data := bytes_of "sitting"; r_err := None |}
                  {| sent := []; quota := None |}
    = Done ({| sent := msgs; quota := None |}, None)
    /\ Bsdiff.BSPatch (list byte) Bsdiff.buffer_Write 1
         {| r_data := bytes_of "kitten"; r_err := None |} [] 6 msgs
       = ([], [], Done (Some ErrCorrupt)).
Proof.
  apply (bspatch_declared_size_too_small (list byte) Bsdiff.buffer_Write 1 []
           (bytes_of "kitten") (bytes_of "sitting") 6);
    [reflexivity | reflexivity | split; [discriminate | reflexivity]].
Defined.

(* ------------------------------------------------------------------ *)
(** ** Witnesses for the write loop *)

(** A writer that takes one byte at a call, and one that takes none *)
Definition byte_Write (w p : list byte) : list byte * Z * option error :=
  (w ++ firstn 1 p, 1, None).
Definition idle_Write (w p : list byte) : list byte * Z * option error :=
  (w, 0, None).

Lemma write_all_short_writes_witness :
  exists w',
    Bsdiff.write_all (list byte) byte_Write 3 [] (bytes_of "abc")
    = (w', Done None)
    /\ w' = [] ++ bytes_of "abc".
Proof.
  apply (write_all_short_writes (list byte) byte_Write (fun w => w)).
  - intros w p Hp. exists (w ++ firstn 1 p), 1. split; [reflexivity |].
    split; [| reflexivity].
    destruct p; [contradiction |]. unfold len. cbn [length]. lia.
  - cbn. lia.
Defined.

Lemma round_trip_short_writes_witness :
  exists msgs w',
    Bsdiff.BSDiff {| r_data := bytes_of "kitten"; r_err := None |}
                  {| r_data := bytes_of "sitting"; r_err := None |}
                  {| sent := []; quota := None |}
    = Done ({| sent := msgs; quota := None |}, None)
    /\ Bsdiff.BSPatch (list byte) byte_Write 7
         {| r_data := bytes_of "kitten"; r_err := None |} []
         (len (bytes_of "sitting")) msgs
       = ([], w', Done None)
    /\ w' = [] ++ bytes_of "sitting".
Proof.
  apply (round_trip_short_writes (list byte) byte_Write (fun w => w)
           (bytes_of "kitten") (bytes_of "sitting") 7 []).
  - intros w p Hp. exists (w ++ firstn 1 p), 1. split; [reflexivity |].
    split; [| reflexivity].
    destruct p; [contradiction |]. unfold len. cbn [length]. lia.
  - reflexivity.
  - reflexivity.
  - cbn. lia.
Defined.

Lemma write_all_trusts_writer_witness :
  Bsdiff.write_all (list byte) idle_Write 5 [] (bytes_of "abc")
  = ([], Timeout).
Proof.
  apply (proj1 (write_all_trusts_writer (list byte) idle_Write (bytes_of "abc")
                  ltac:(discriminate))).
  reflexivity.
Defined.

(* ------------------------------------------------------------------ *)
(** ** [byDecreasingFreshData] *)

Section SortInterface.

Import Probe.

(** [func (s byDecreasingFreshData) Len() int] *)
Definition byDecreasingFreshData_Len (s : list patchStat) : Z := len s.

(** [func (s byDecreasingFreshData) Swap(i, j int)] *)
Definition byDecreasingFreshData_Swap (s : list patchStat) (i j : Z)
  : run (list patchStat) :=
  y <- ld s j ;;
  x <- ld s i ;;
  s' <- st s i y ;;
  st s' j x.

(** [func (s byDecreasingFreshData) Less(i, j int) bool] *)
Definition byDecreasingFreshData_Less (s : list patchStat) (i j : Z) : run bool :=
  a <- ld s j ;;
  b <- ld s i ;;
  Done (freshData a <? freshData b).

Definition stat_at (s : list patchStat) (i : Z) : patchStat :=
  nth (Z.to_nat i) s {| fileIndex := 0; freshData := 0; algo := SyncHeader_RSYNC |}.

Lemma ld_stat s i : 0 <= i < len s -> ld s i = Done (stat_at s i).
Proof.
  intros H. unfold ld, stat_at, len in *.
  destruct (i <? 0) eqn:E; [apply Z.ltb_lt in E; lia |].
  destruct (nth_error s (Z.to_nat i)) eqn:F.
  - now rewrite (nth_error_nth _ _ _ F).
  - apply nth_error_None in F. lia.
Qed.

Lemma Less_ok s i j :
  0 <= i < len s -> 0 <= j < len s ->
  byDecreasingFreshData_Less s i j
  = Done (freshData (stat_at s j) <? freshData (stat_at s i)).
Proof.
  intros Hi Hj. unfold byDecreasingFreshData_Less.
  rewrite !ld_stat by assumption. reflexivity.
Qed.

(** X19: [Less] of [byDecreasingFreshData] is an ordering that
    [sort.Sort] can work with, a strict weak order by decreasing
    [freshData]: no entry is before itself, of two entries at most one
    is before the other, being before is transitive, and so is being
    neither before nor after (which means equal [freshData]). *)
Theorem byDecreasingFreshData_Less_order (s : list patchStat) (i j k : Z) :
  0 <= i < len s -> 0 <= j < len s -> 0 <= k < len s ->
  byDecreasingFreshData_Less s i i = Done false
  /\ (byDecreasingFreshData_Less s i j = Done true ->
      byDecreasingFreshData_Less s j i = Done false)
  /\ (byDecreasingFreshData_Less s i j = Done true ->
      byDecreasingFreshData_Less s j k = Done true ->
      byDecreasingFreshData_Less s i k = Done true)
  /\ (byDecreasingFreshData_Less s i j = Done false ->
      byDecreasingFreshData_Less s j i = Done false ->
      freshData (stat_at s i) = freshData (stat_at s j))
  /\ (byDecreasingFreshData_Less s i j = Done false ->
      byDecreasingFreshData_Less s j k = Done false ->
      byDecreasingFreshData_Less s i k = Done false).
Proof.
  intros Hi Hj Hk. rewrite !Less_ok by assumption.
  split; [f_equal; apply Z.ltb_irrefl |].
  split; [| split; [| split]].
  - intros H1. injection H1 as H1. f_equal.
    apply Z.ltb_lt in H1. apply Z.ltb_ge. lia.
  - intros H1 H2. injection H1 as H1. injection H2 as H2. f_equal.
    apply Z.ltb_lt in H1, H2. apply Z.ltb_lt. lia.
  - intros H1 H2. injection H1 as H1. injection H2 as H2.
    apply Z.ltb_ge in H1, H2. lia.
  - intros H1 H2. injection H1 as H1. injection H2 as H2. f_equal.
    apply Z.ltb_ge in H1, H2. apply Z.ltb_ge. lia.
Qed.

Lemma byDecreasingFreshData_Less_order_witness :
  byDecreasingFreshData_Less
    (stats_of sample_BlockSize sample_ComputeBlockSize 0
       (Files two_files) two_series) 0 1 = Done false.
Proof.
  destruct (byDecreasingFreshData_Less_order
              (stats_of sample_BlockSize sample_ComputeBlockSize 0
                 (Files two_files) two_series) 1 0 0) as (_ & H & _);
    try (unfold len; cbn; lia).
  apply H. reflexivity.
Defined.

(** X20: [Swap] of [byDecreasingFreshData] exchanges the two entries
    and leaves the others and the length as they are; an index out of
    range makes it panic. *)
Theorem byDecreasingFreshData_Swap_spec (s : list patchStat) (i j : Z) :
  (0 <= i < len s -> 0 <= j < len s ->
   exists s',
     byDecreasingFreshData_Swap s i j = Done s'
     /\ byDecreasingFreshData_Len s' = byDecreasingFreshData_Len s
     /\ stat_at s' i = stat_at s j /\ stat_at s' j = stat_at s i
     /\ (forall k, 0 <= k -> k <> i -> k <> j -> stat_at s' k = stat_at s k))
  /\ (~ (0 <= i < len s /\ 0 <= j < len s) ->
      byDecreasingFreshData_Swap s i j = Panic).
Proof.
  split.
  - intros Hi Hj. unfold byDecreasingFreshData_Swap, byDecreasingFreshData_Len.
    rewrite !ld_stat by assumption. cbn [bind].
    rewrite st_upd by assumption. cbn [bind].
    rewrite st_upd by (rewrite len_upd; assumption).
    eexists. split; [reflexivity |].
    assert (Z : forall k, 0 <= k ->
                stat_at (upd (upd s i (stat_at s j)) j (stat_at s i)) k
                = if k =? j then stat_at s i
                  else if k =? i then stat_at s j else stat_at s k).
    { intros k Hk. unfold stat_at, upd.
      rewrite nth_set_nth by (rewrite length_set_nth; unfold len in *; lia).
      rewrite nth_set_nth by (unfold len in *; lia).
      destruct (k =? j) eqn:E1.
      - apply Z.eqb_eq in E1. subst. now rewrite Nat.eqb_refl.
      - apply Z.eqb_neq in E1.
        destruct (Nat.eqb (Z.to_nat k) (Z.to_nat j)) eqn:F1;
          [apply Nat.eqb_eq in F1; lia |].
        destruct (k =? i) eqn:E2.
        + apply Z.eqb_eq in E2. subst. now rewrite Nat.eqb_refl.
        + apply Z.eqb_neq in E2.
          destruct (Nat.eqb (Z.to_nat k) (Z.to_nat i)) eqn:F2;
            [apply Nat.eqb_eq in F2; lia | reflexivity]. }
    split; [now rewrite !len_upd |].
    split; [rewrite Z by lia; destruct (i =? j) eqn:E;
            [apply Z.eqb_eq in E; now subst | now rewrite Z.eqb_refl] |].
    split; [rewrite Z by lia; now rewrite Z.eqb_refl |].
    intros k Hk Hki Hkj. rewrite Z by assumption.
    destruct (k =? j) eqn:E1; [apply Z.eqb_eq in E1; lia |].
    destruct (k =? i) eqn:E2; [apply Z.eqb_eq in E2; lia | reflexivity].
  - intros Hbad. unfold byDecreasingFreshData_Swap.
    destruct (ld s j) as [y | |] eqn:Ej; cbn [bind]; try reflexivity.
    + destruct (ld s i) as [x | |] eqn:Ei; cbn [bind]; try reflexivity.
      * exfalso. apply Hbad. apply ld_Done_inv in Ei, Ej. unfold len. lia.
      * unfold ld in Ei. destruct (i <? 0); [discriminate |].
        destruct (nth_error _ _); discriminate.
    + unfold ld in Ej. destruct (j <? 0); [discriminate |].
      destruct (nth_error _ _); discriminate.
Qed.

End SortInterface.

(* ------------------------------------------------------------------ *)
(** ** Empty buffers *)

Lemma for_up_const {St} (body : Z -> St -> run St) s :
  forall n lo,
    (forall i, lo <= i < lo + Z.of_nat n -> body i s = Done s) ->
    for_up n lo body s = Done s.
Proof.
  induction n as [| n IH]; intros lo H; cbn [for_up]; [reflexivity |].
  rewrite H by lia. cbn [bind]. apply IH. intros i Hi. apply H. lia.
Qed.

Section EmptyOld.

Import Bsdiff.

Variable nbuf : list byte.

Lemma search_empty_old nb : search [0] [] nb 0 (len (@nil byte)) = Done (0, 0).
Proof. reflexivity. Qed.

Lemma scan_loop_empty_old fuel :
  forall scan scsc pos l0,
    0 <= scan < len nbuf -> 0 <= scsc ->
    len nbuf - scan <= Z.of_nat fuel ->
    scan_loop fuel [0] [] nbuf 0 scan scsc pos l0 0
    = Done (len nbuf, 0, 0, 0).
Proof.
  induction fuel as [| fuel IH]; intros scan scsc pos l0 Hs Hc Hf; [lia |].
  cbn [scan_loop].
  destruct (scan <? len nbuf) eqn:E; [| apply Z.ltb_ge in E; lia].
  rewrite slice_from_ok by lia. cbn [bind].
  rewrite search_empty_old. cbn [bind].
  unfold for_range. rewrite for_up_const.
  2:{ intros i Hi. destruct (i + 0 <? len (@nil byte)) eqn:F; [| reflexivity].
      apply Z.ltb_lt in F. unfold len in F. cbn [length] in F. lia. }
  cbn [bind]. cbn [Z.eqb negb andb orb Z.gtb Z.compare Z.add].
  destruct (scan + 0 <? len (@nil byte)) eqn:F.
  { apply Z.ltb_lt in F. unfold len in F. cbn [length] in F. lia. }
  cbn [bind].
  destruct (Z_lt_le_dec (scan + 1) (len nbuf)) as [L | L].
  - apply IH; lia.
  - destruct fuel; cbn [scan_loop];
      (destruct (scan + 1 <? len nbuf) eqn:G; [apply Z.ltb_lt in G; lia |]);
      repeat f_equal; lia.
Qed.

Lemma diff_loop_empty_old :
  1 <= len nbuf ->
  exists d,
    diff_loop [0] [] nbuf
      {| scan := 0; pos := 0; length_ := 0;
         lastscan := 0; lastpos := 0; lastoffset := 0;
         db := repeat x00 (length nbuf); eb := repeat x00 (length nbuf);
         dblen := 0; eblen := 0;
         patch := {| sent := []; quota := None |}; err := None |}
    = Done d
    /\ err d = None
    /\ patch d = {| sent := [MBsdiffControl
                               {| Add := 0; Copy := len nbuf; Seek := 0 |}];
                    quota := None |}
    /\ dblen d = 0 /\ eblen d = len nbuf
    /\ len (db d) = len nbuf /\ len (eb d) = len nbuf
    /\ forall i, 0 <= i < len nbuf -> bn (eb d) i = bn nbuf i.
Proof.
  intros Hn. unfold diff_loop.
  replace (2 * length nbuf + 2)%nat with (S (S (2 * length nbuf))) by lia.
  match goal with
  | |- context [while _ ?c ?b ?s0] =>
      set (cond := c); set (body := b); set (d0 := s0)
  end.
  assert (C0 : cond d0 = Done true).
  { unfold cond, d0. cbn [err scan]. f_equal. apply Z.ltb_lt. lia. }
  assert (B0 : exists d,
             body d0 = Done d /\ scan d = len nbuf /\ err d = None
             /\ patch d = {| sent := [MBsdiffControl
                                        {| Add := 0; Copy := len nbuf; Seek := 0 |}];
                             quota := None |}
             /\ dblen d = 0 /\ eblen d = len nbuf
             /\ len (db d) = len nbuf /\ len (eb d) = len nbuf
             /\ forall i, 0 <= i < len nbuf -> bn (eb d) i = bn nbuf i).
  { unfold body, d0. cbn [scan length_ lastoffset pos].
    replace (0 + 0) with 0 by lia.
    rewrite scan_loop_empty_old by (unfold len in *; lia). cbn [bind].
    rewrite !Z.eqb_refl. cbn [negb orb].
    unfold emit. cbn [lastscan lastpos dblen eblen db eb patch].
    destruct (extend_forward_ok [] nbuf (len nbuf) 0 0)
      as (lenf & Ef & Hf1 & Hf2 & _); try (unfold len; cbn [length]; lia).
    rewrite Ef. cbn [bind].
    assert (lenf = 0) by (unfold len in Hf2; cbn [length] in Hf2; lia). subst lenf.
    destruct (extend_backward_ok [] nbuf (len nbuf) 0 0)
      as (lenb & Eb & _ & _ & Hb3); try (unfold len; cbn [length]; lia).
    rewrite Eb. cbn [bind]. rewrite (Hb3 ltac:(lia)).
    destruct (resolve_overlap_ok [] nbuf (len nbuf) 0 0 0 0 0)
      as (lenf' & lenb' & Er & _ & _ & _ & Hr);
      try (unfold len; cbn [length]; lia).
    rewrite Er. cbn [bind]. destruct (Hr ltac:(lia)) as [-> ->].
    rewrite for_range_empty by lia. cbn [bind].
    destruct (fill_eb nbuf (repeat x00 (length nbuf)) 0 (0 + 0)
                (len nbuf - 0 - (0 + 0)))
      as (eb' & Ee & Le & _ & Be); try (rewrite ?len_repeat; unfold len; lia).
    rewrite Ee. cbn [bind]. cbv zeta.
    rewrite WriteMessage_unlimited by reflexivity.
    eexists. split; [reflexivity |].
    cbn [scan err patch dblen eblen db eb sent app].
    split; [reflexivity |]. split; [reflexivity |].
    split; [repeat f_equal; lia |]. split; [reflexivity |]. split; [lia |].
    split; [apply len_repeat |]. split; [rewrite Le; apply len_repeat |].
    intros i Hi. specialize (Be i ltac:(lia)).
    rewrite !Z.add_0_l in Be. exact Be. }
  destruct B0 as (d & B0 & Hs & He & Hp & Hd).
  assert (C1 : cond d = Done false).
  { unfold cond. rewrite He, Hs. f_equal. apply Z.ltb_irrefl. }
  rewrite (while_step _ cond body d0 d C0 B0).
  rewrite (while_stop _ cond body d C1).
  exists d. auto.
Qed.

End EmptyOld.

(** X21: the two empty inputs of [BSDiff].  Against an empty old file
    the patch is one triple that takes all of [new] from the
    extra-data, [(0, len(new), 0)], with no add-data; for an empty new
    file the patch is the sentinel and two empty blocks, whatever old
    is. *)
Theorem bsdiff_empty_inputs (old new : list byte) :
  (new <> [] ->
   Bsdiff.BSDiff {| r_data := []; r_err := None |}
                 {| r_data := new; r_err := None |}
                 {| sent := []; quota := None |}
   = Done ({| sent := [MBsdiffControl {| Add := 0; Copy := len new; Seek := 0 |};
                       MBsdiffControl {| Add := -1; Copy := 0; Seek := 0 |};
                       MBsdiffDiff []; MBsdiffExtra new];
              quota := None |}, None))
  /\ Bsdiff.BSDiff {| r_data := old; r_err := None |}
                   {| r_data := []; r_err := None |}
                   {| sent := []; quota := None |}
     = Done ({| sent := [MBsdiffControl {| Add := -1; Copy := 0; Seek := 0 |};
                         MBsdiffDiff []; MBsdiffExtra []];
                quota := None |}, None).
Proof.
  split.
  - intros Hne.
    assert (Hn : 1 <= len new).
    { destruct new; [contradiction |]. unfold len. cbn [length]. lia. }
    unfold Bsdiff.BSDiff. cbn [ReadAll r_err r_data].
    change (Bsdiff.qsufsort []) with (Done [0]). cbn [bind].
    destruct (diff_loop_empty_old new Hn)
      as (d & Ed & He & Hp & Hdl & Hel & Ldb & Leb & Hb).
    rewrite Ed. cbn [bind]. rewrite He, Hp. cbv zeta.
    rewrite WriteMessage_unlimited by reflexivity.
    rewrite slice_ok by lia. cbn [bind].
    rewrite WriteMessage_unlimited by reflexivity.
    rewrite slice_ok by lia. cbn [bind].
    rewrite WriteMessage_unlimited by reflexivity.
    cbn [sent quota app]. rewrite Hdl, Hel. rewrite !Z.sub_0_r.
    cbn [Z.to_nat skipn firstn].
    replace (firstn (Z.to_nat (len new)) (Bsdiff.eb d)) with new; [reflexivity |].
    apply bn_ext.
    + rewrite len_firstn by lia. reflexivity.
    + intros k Hk. rewrite bn_firstn by lia. symmetry. now apply Hb.
  - unfold Bsdiff.BSDiff. cbn [ReadAll r_err r_data].
    destruct (qsufsort_sorts old) as (I_ & EI & _). rewrite EI. cbn [bind].
    reflexivity.
Qed.

(* ------------------------------------------------------------------ *)
(** ** Negative lengths in a patch *)

(** X22: [BSPatch] checks [Add] and [Copy] against [newSize] from above
    only.  A first triple whose [Add] is negative (other than the -1 of
    the sentinel), or whose [Add] is 0 and whose [Copy] is negative,
    makes it panic on a slice with inverted bounds instead of returning
    [ErrCorrupt]; nothing is written. *)
Theorem bspatch_negative_length_panics
  W (Write : W -> list byte -> W * Z * option error) (fuel : nat) (w : W)
  (old D E : list byte) (newSize : Z) (c : BsdiffControl)
  (cs : list BsdiffControl) :
  0 <= newSize < 2 ^ 63 ->
  - 2 ^ 63 <= Add c -> - 2 ^ 63 <= Copy c ->
  Add c < -1 \/ (Add c = 0 /\ Copy c < 0) ->
  Forall (fun c => Add c <> -1) cs ->
  Bsdiff.BSPatch W Write fuel {| r_data := old; r_err := None |} w newSize
    (map MBsdiffControl (c :: cs)
     ++ [MBsdiffControl {| Add := -1; Copy := 0; Seek := 0 |};
         MBsdiffDiff D; MBsdiffExtra E])
  = ([], w, Panic).
Proof.
  intros Hn Ha Hc Hneg Hcs. unfold Bsdiff.BSPatch.
  rewrite read_controls_sentinel.
  2:{ constructor; [destruct Hneg as [H | [H _]]; lia | exact Hcs]. }
  cbn [app ReadMessage asBsdiffDiff asBsdiffExtra ReadAll r_err r_data].
  destruct (newSize <? 0) eqn:F; [apply Z.ltb_lt in F; lia |].
  cbn [Bsdiff.apply_controls]. unfold Bsdiff.apply_control.
  cbn [Bsdiff.newpos Bsdiff.diffOffset Bsdiff.nbuf Bsdiff.oldpos
       Bsdiff.extraOffset].
  assert (I64 : forall z, - 2 ^ 63 <= z < 2 ^ 63 -> int64 z) by (intros; assumption).
  rewrite (add64_small 0 (Add c)) by (apply I64; lia).
  destruct (0 + Add c >? newSize) eqn:G; [apply Z.gtb_lt in G; lia |].
  destruct Hneg as [Hneg | [Hz Hneg]].
  - unfold slice at 1.
    destruct ((0 <=? 0) && (0 <=? 0 + Add c)) eqn:S1.
    { apply andb_true_iff in S1. destruct S1 as [_ S1]. apply Z.leb_le in S1. lia. }
    reflexivity.
  - rewrite Hz. cbn [Z.add].
    unfold Bsdiff.copy_into at 1.
    rewrite !slice_ok by (rewrite ?len_repeat; pose proof (len_nonneg D); lia).
    cbn [bind]. rewrite for_range_empty by lia. cbn [bind].
    change (Bsdiff.add64 0 0) with 0.
    rewrite (add64_small 0 (Copy c)) by (apply I64; lia).
    destruct (0 + Copy c >? newSize) eqn:G2; [apply Z.gtb_lt in G2; lia |].
    unfold slice at 1.
    destruct ((0 <=? 0) && (0 <=? 0 + Copy c)) eqn:S1.
    { apply andb_true_iff in S1. destruct S1 as [_ S1]. apply Z.leb_le in S1. lia. }
    reflexivity.
Qed.

Lemma bspatch_negative_length_panics_witness :
  Bsdiff.BSPatch (list byte) Bsdiff.buffer_Write 1
    {| r_data := bytes_of "abc"; r_err := None |} [] 3
    (map MBsdiffControl [{| Add := -2; Copy := 0; Seek := 0 |}]
     ++ [MBsdiffControl {| Add := -1; Copy := 0; Seek := 0 |};
         MBsdiffDiff []; MBsdiffExtra []])
  = ([], [], Panic).
Proof.
  apply (bspatch_negative_length_panics (list byte) Bsdiff.buffer_Write 1 []
           (bytes_of "abc") [] [] 3 {| Add := -2; Copy := 0; Seek := 0 |} []).
  - split; [discriminate | reflexivity].
  - discriminate.
  - discriminate.
  - left. reflexivity.
  - constructor.
Defined.
